(** * VTD list parsers (autoload/parsers.py): a shallow embedding

    The Python module is embedded function by function.  Python byte
    strings are [string], the dictionaries of [Plate] are [gmap nat _]
    keyed by [next_key], the regular expressions are terms of [regex]
    run by a backtracking matcher with the priorities of Python's [re],
    a file object is the list of lines still to be read, and an
    uncaught exception is an outcome of its own. *)

From Stdlib Require Import ZArith Lia Ascii String List Bool.
From stdpp Require Import base option list strings pretty gmap.

Local Open Scope string_scope.

(** ** Character classes of Python 2's [re] on byte strings *)

Module Chars.

(** [\s] is [ \t\n\r\f\v]. *)
Definition is_space (c : ascii) : bool :=
  let n := nat_of_ascii c in
  orb (Nat.eqb n 32) (andb (Nat.leb 9 n) (Nat.leb n 13)).

(** [\d] is [0-9]. *)
Definition is_digit (c : ascii) : bool :=
  let n := nat_of_ascii c in andb (Nat.leb 48 n) (Nat.leb n 57).

(** [\w] is [a-zA-Z0-9_]. *)
Definition is_word (c : ascii) : bool :=
  let n := nat_of_ascii c in
  orb (is_digit c)
    (orb (andb (Nat.leb 65 n) (Nat.leb n 90))
       (orb (andb (Nat.leb 97 n) (Nat.leb n 122)) (Nat.eqb n 95))).

Definition is_char (a c : ascii) : bool := Ascii.eqb a c.

Definition one_of (cs : list ascii) (c : ascii) : bool :=
  existsb (fun a => Ascii.eqb a c) cs.

Definition between (lo hi c : ascii) : bool :=
  andb (Nat.leb (nat_of_ascii lo) (nat_of_ascii c))
       (Nat.leb (nat_of_ascii c) (nat_of_ascii hi)).

Definition newline : ascii := "010"%char.

End Chars.

(** ** Regular expressions and Python's backtracking matcher *)

Module Re.

(** The constructs the module's patterns use.  [Rep r lo hi] is the
    greedy [r{lo,hi}] ([hi = None] for no upper bound), [Alt] tries its
    left branch first, [Grp] is a capturing group, numbered groups being
    named by their number. *)
Inductive regex : Type :=
| Eps : regex
| Cls : (ascii -> bool) -> regex
| Seq : regex -> regex -> regex
| Alt : regex -> regex -> regex
| Rep : regex -> nat -> option nat -> regex
| Grp : string -> regex -> regex
| Bol : regex
| Eol : regex.

(** A position in the subject: the offset from its start and the text
    from there on. *)
Record cursor : Type := Cursor { pos : nat; rest : string }.

(** A captured group: name, start offset, text. *)
Definition capture : Type := (string * (nat * string))%type.

(** One way of matching: where it ends and what it captured (latest
    capture first). *)
Definition success : Type := (cursor * list capture)%type.

Fixpoint take_str (n : nat) (s : string) : string :=
  match n, s with
  | S n', String c s' => String c (take_str n' s')
  | _, _ => EmptyString
  end.

Fixpoint drop_str (n : nat) (s : string) : string :=
  match n, s with
  | S n', String _ s' => drop_str n' s'
  | _, _ => s
  end.

Definition hi_allows (hi : option nat) : bool :=
  match hi with Some 0 => false | _ => true end.

Definition hi_pred (hi : option nat) : option nat :=
  match hi with Some n => Some (Nat.pred n) | None => None end.

(** [$] without MULTILINE: at the end, or just before a newline that
    ends the subject. *)
Definition at_eol (s : string) : bool :=
  match s with
  | EmptyString => true
  | String c EmptyString => Ascii.eqb c Chars.newline
  | _ => false
  end.

(** All the ways [r] matches from cursor [cu], in the order in which
    the backtracking matcher tries them.  The matcher's answer is the
    first one that lets the rest of the pattern succeed. *)
Fixpoint matches (r : regex) (cu : cursor) (caps : list capture)
  : list success :=
  match r with
  | Eps => [(cu, caps)]
  | Cls p =>
      match rest cu with
      | String c s' =>
          if p c then [(Cursor (S (pos cu)) s', caps)] else []
      | EmptyString => []
      end
  | Seq r1 r2 =>
      flat_map (fun sc : success => matches r2 (fst sc) (snd sc))
               (matches r1 cu caps)
  | Alt r1 r2 => (matches r1 cu caps ++ matches r2 cu caps)%list
  | Rep r' lo hi =>
      (fix loop (fuel : nat) (lo : nat) (hi : option nat)
           (cu : cursor) (caps : list capture) {struct fuel}
         : list success :=
         let stop := if Nat.eqb lo 0 then [(cu, caps)] else [] in
         match fuel with
         | O => stop
         | S fuel' =>
             ((if hi_allows hi then
                flat_map
                  (fun sc : success =>
                     if Nat.ltb (pos cu) (pos (fst sc))
                     then loop fuel' (Nat.pred lo) (hi_pred hi)
                               (fst sc) (snd sc)
                     else [])
                  (matches r' cu caps)
              else []) ++ stop)%list
         end) (String.length (rest cu)) lo hi cu caps
  | Grp name r' =>
      map (fun sc : success =>
             (fst sc,
              (name, (pos cu,
                      take_str (pos (fst sc) - pos cu) (rest cu)))
                :: snd sc))
          (matches r' cu caps)
  | Bol => if Nat.eqb (pos cu) 0 then [(cu, caps)] else []
  | Eol => if at_eol (rest cu) then [(cu, caps)] else []
  end.

(** A match object: start, end, and the groups. *)
Record match_obj : Type :=
  Match { m_start : nat; m_end : nat; m_groups : list capture }.

Fixpoint assoc (name : string) (caps : list capture)
  : option (nat * string) :=
  match caps with
  | [] => None
  | (n, v) :: caps' => if String.eqb n name then Some v else assoc name caps'
  end.

(** [m.group(name)]; [None] when the group took no part in the match. *)
Definition group (m : match_obj) (name : string) : option string :=
  match assoc name (m_groups m) with
  | Some (_, t) => Some t
  | None => None
  end.

(** [m.end(name)]. *)
Definition group_end (m : match_obj) (name : string) : option nat :=
  match assoc name (m_groups m) with
  | Some (st, t) => Some (st + String.length t)
  | None => None
  end.

(** The match of [r] that starts at the cursor, if any. *)
Definition match_at (r : regex) (cu : cursor) : option match_obj :=
  match matches r cu [] with
  | (cu', caps) :: _ => Some (Match (pos cu) (pos cu') caps)
  | [] => None
  end.

(** [re.match(r, s)]. *)
Definition re_match (r : regex) (s : string) : option match_obj :=
  match_at r (Cursor 0 s).

(** The leftmost match at or after the cursor. *)
Fixpoint search_from (r : regex) (p : nat) (s : string)
  : option match_obj :=
  match match_at r (Cursor p s) with
  | Some m => Some m
  | None =>
      match s with
      | String _ s' => search_from r (S p) s'
      | EmptyString => None
      end
  end.

(** [re.search(r, s)]. *)
Definition re_search (r : regex) (s : string) : option match_obj :=
  search_from r 0 s.

(** The successive non-overlapping matches, left to right.  After a
    match the scan resumes where it ended; after an empty one it moves
    on by one character. *)
Fixpoint scan (fuel : nat) (r : regex) (p : nat) (s : string)
  : list match_obj :=
  match fuel with
  | O => []
  | S fuel' =>
      match search_from r p s with
      | None => []
      | Some m =>
          let e := if Nat.ltb (m_start m) (m_end m)
                   then m_end m else S (m_end m) in
          m :: (if Nat.leb (e - p) (String.length s)
                then scan fuel' r e (drop_str (e - p) s) else [])
      end
  end.

(** [re.finditer(r, s)]. *)
Definition re_finditer (r : regex) (s : string) : list match_obj :=
  scan (S (String.length s)) r 0 s.

(** The subject with the text of the given matches, which are in
    left-to-right order and do not overlap, cut out. *)
Fixpoint cut (ms : list match_obj) (p : nat) (s : string) : string :=
  match ms with
  | [] => s
  | m :: ms' =>
      take_str (m_start m - p) s
        +:+ cut ms' (m_end m) (drop_str (m_end m - p) s)
  end.

(** [re.sub(r, '', s)]. *)
Definition re_sub_empty (r : regex) (s : string) : string :=
  cut (re_finditer r s) 0 s.

(** Pattern syntax. *)
Definition chr (a : ascii) : regex := Cls (Chars.is_char a).

Fixpoint lit (s : string) : regex :=
  match s with
  | EmptyString => Eps
  | String c EmptyString => chr c
  | String c s' => Seq (chr c) (lit s')
  end.

Definition star (r : regex) : regex := Rep r 0 None.
Definition plus (r : regex) : regex := Rep r 1 None.
Definition opt (r : regex) : regex := Rep r 0 (Some 1).
Definition times (n : nat) (r : regex) : regex := Rep r n (Some n).

Definition ws : regex := Cls Chars.is_space.
Definition non_ws : regex := Cls (fun c => negb (Chars.is_space c)).
Definition word : regex := Cls Chars.is_word.
Definition digit : regex := Cls Chars.is_digit.

(** Concatenation of patterns. *)
Fixpoint cat (rs : list regex) : regex :=
  match rs with
  | [] => Eps
  | [r] => r
  | r :: rs' => Seq r (cat rs')
  end.

End Re.

Import Re.

(** ** Exceptions *)

(** The exceptions the module can let escape. *)
Inductive exn : Type :=
| ValueError
| TypeError
| IndexError
| OverflowError.

(** A call either returns a value or raises. *)
Inductive result (A : Type) : Type :=
| Ok : A -> result A
| Raise : exn -> result A.
Arguments Ok {A} _.
Arguments Raise {A} _.

Definition bind {A B : Type} (r : result A) (k : A -> result B)
  : result B :=
  match r with
  | Ok a => k a
  | Raise e => Raise e
  end.

Notation "'let!' x ':=' r 'in' k" := (bind r (fun x => k))
  (at level 10, x pattern, r at level 100, k at level 200).

(** ** [datetime] and [timedelta] *)

Module Datetime.

Local Open Scope Z_scope.

(** A [datetime] is held as the number of microseconds since
    0001-01-01 00:00:00, the first instant of the type; comparison of
    datetimes is comparison of these numbers. *)
Definition datetime : Type := Z.

Definition us_per_minute : Z := 60 * 1000000.
Definition us_per_day : Z := 24 * 60 * us_per_minute.

(** [datetime.max] is the last microsecond of 9999-12-31, whose ordinal
    is 3652059. *)
Definition max_ordinal : Z := 3652059.

Definition in_range (t : Z) : bool :=
  (0 <=? t) && (t <? max_ordinal * us_per_day).

Definition is_leap (y : Z) : bool :=
  (y mod 4 =? 0) && (negb (y mod 100 =? 0) || (y mod 400 =? 0)).

Definition days_in_month (y m : Z) : Z :=
  if m =? 2 then (if is_leap y then 29 else 28)
  else if (m =? 4) || (m =? 6) || (m =? 9) || (m =? 11) then 30
  else 31.

Definition days_before_year (y : Z) : Z :=
  (y - 1) * 365 + (y - 1) / 4 - (y - 1) / 100 + (y - 1) / 400.

Fixpoint days_before_month_nat (y : Z) (m : nat) : Z :=
  match m with
  | O => 0
  | S m' => days_before_month_nat y m' + days_in_month y (Z.of_nat m)
  end.

(** Days of the year before the first of month [m]. *)
Definition days_before_month (y m : Z) : Z :=
  days_before_month_nat y (Z.to_nat (m - 1)).

(** The proleptic Gregorian ordinal, 0001-01-01 being day 1. *)
Definition ymd2ord (y m d : Z) : Z :=
  days_before_year y + days_before_month y m + d.

(** [datetime(y, m, d, H, M)]: [ValueError] outside the calendar. *)
Definition make (y m d H M : Z) : result datetime :=
  if (1 <=? y) && (y <=? 9999) && (1 <=? m) && (m <=? 12)
     && (1 <=? d) && (d <=? days_in_month y m)
     && (0 <=? H) && (H <=? 23) && (0 <=? M) && (M <=? 59)
  then Ok ((ymd2ord y m d - 1) * us_per_day + (H * 60 + M) * us_per_minute)
  else Raise ValueError.

(** [timedelta(days=n)]; the magnitude is limited to 999999999 days. *)
Definition timedelta_days (n : Z) : result Z :=
  if (Z.abs n <=? 999999999) then Ok (n * us_per_day)
  else Raise OverflowError.

(** [t + delta]: [OverflowError] when the date leaves years 1..9999. *)
Definition add (t : datetime) (delta : Z) : result datetime :=
  if in_range (t + delta) then Ok (t + delta) else Raise OverflowError.

(** [int(s)] for a run of digits, possibly after blanks. *)
Definition int_of_string (s : string) : Z :=
  fold_left
    (fun acc c =>
       if Chars.is_digit c
       then acc * 10 + (Z.of_nat (nat_of_ascii c) - 48)
       else acc)
    (list_ascii_of_string s) 0.

(** The pattern [_strptime] builds for the format "%Y-%m-%d %H:%M". *)
Definition strptime_regex : regex :=
  let d19 := Cls (Chars.between "1" "9") in
  cat [ Grp "Y" (cat [digit; digit; digit; digit]);
        chr "-";
        Grp "m" (Alt (Seq (chr "1") (Cls (Chars.between "0" "2")))
                (Alt (Seq (chr "0") d19) d19));
        chr "-";
        Grp "d" (Alt (Seq (chr "3") (Cls (Chars.between "0" "1")))
                (Alt (Seq (Cls (Chars.between "1" "2")) digit)
                (Alt (Seq (chr "0") d19)
                (Alt d19 (Seq (chr " ") d19)))));
        plus ws;
        Grp "H" (Alt (Seq (chr "2") (Cls (Chars.between "0" "3")))
                (Alt (Seq (Cls (Chars.between "0" "1")) digit) digit));
        chr ":";
        Grp "M" (Alt (Seq (Cls (Chars.between "0" "5")) digit) digit) ].

Definition int_group (m : match_obj) (name : string) : Z :=
  match group m name with
  | Some t => int_of_string t
  | None => 0
  end.

(** [datetime.strptime(s, "%Y-%m-%d %H:%M")]: [ValueError] when the
    text does not match the format, when text is left over, or when
    the fields are no date. *)
Definition strptime (s : string) : result datetime :=
  match re_match strptime_regex s with
  | None => Raise ValueError
  | Some m =>
      if Nat.eqb (m_end m) (String.length s)
      then make (int_group m "Y") (int_group m "m") (int_group m "d")
                (int_group m "H") (int_group m "M")
      else Raise ValueError
  end.

End Datetime.

Import Datetime.

(** ** The module's functions, in the order of the source *)

(** *** Pluralisation and humanised time *)

(** [seconds_diff(a, b)]: whole seconds from [b] to [a]. *)
Definition seconds_diff (a b : datetime) : Z := ((a - b) / 1000000)%Z.

(** [pluralize(count, string, string_plural=None)]. *)
Definition pluralize (count : Z) (str : string)
    (string_plural : option string) : string :=
  let string_plural :=
    match string_plural with
    | None => str +:+ "s"
    | Some p => p
    end in
  let word := if (count =? 1)%Z then str else string_plural in
  pretty count +:+ " " +:+ word.

(** [pretty_date(dt_secs)]; [//] and, on Python 2 integers, [/] are
    floor division. *)
Definition pretty_date (dt_secs : Z) : string :=
  let secs_per_day := (24 * 3600)%Z in
  let day_diff := (dt_secs / secs_per_day)%Z in
  let second_diff := (dt_secs - day_diff * secs_per_day)%Z in
  if (day_diff <? 0)%Z then ""
  else
    let later :=
      if (day_diff <? 7)%Z then pluralize day_diff "day" None
      else if (day_diff <? 31)%Z then pluralize (day_diff / 7) "week" None
      else if (day_diff <? 365)%Z then pluralize (day_diff / 30) "month" None
      else pluralize (day_diff / 365) "year" None in
    if (day_diff =? 0)%Z then
      if (second_diff <? 10)%Z then "just now"
      else if (second_diff <? 60)%Z then pluralize second_diff "second" None
      else if (second_diff <? 3600)%Z
           then pluralize (second_diff / 60) "minute" None
      else if (second_diff <? 86400)%Z
           then pluralize (second_diff / 3600) "hour" None
      else later
    else later.

(** *** Reading lines *)

(** An open file: the lines [readline] is still to return, each with
    its newline; at the end of the file [readline] returns the empty
    string. *)
Definition file : Type := list string.

Definition readline (f : file) : string * file :=
  match f with
  | [] => ("", [])
  | raw :: f' => (raw, f')
  end.

(** The text of a file cut into the lines [readline] returns. *)
Fixpoint file_of_text_from (cur : string) (t : string) : file :=
  match t with
  | EmptyString =>
      match cur with EmptyString => [] | _ => [cur] end
  | String c t' =>
      if Ascii.eqb c Chars.newline
      then (cur +:+ String c EmptyString) :: file_of_text_from "" t'
      else file_of_text_from (cur +:+ String c EmptyString) t'
  end.

Definition file_of_text (t : string) : file := file_of_text_from "" t.

(** What [read_and_count_lines] makes of the line just read. *)
Definition count_line (linenum : nat) (line : string) : nat * string :=
  if String.eqb line "" then (0, line)
  else (linenum + 1, re_sub_empty (cat [chr Chars.newline; Eol]) line).

(** [read_and_count_lines(linenum, f)], with the file as it is left. *)
Definition read_and_count_lines (linenum : nat) (f : file)
  : nat * string * file :=
  let (line, f') := readline f in
  (count_line linenum line, f').

(** [next_key(x)]. *)
Definition next_key {A : Type} (x : gmap nat A) : nat :=
  if Nat.leb (size x) 0 then 0 else size x.

(** *** Dates *)

(** [parse_datetime(string, date_type='')]. *)
Definition parse_datetime (str : string) (date_type : string)
  : result (option datetime) :=
  let str :=
    if Nat.eqb (String.length str) 10 then
      let time := if String.eqb date_type "<" then "23:59" else "00:01" in
      str +:+ " " +:+ time
    else str in
  if Nat.eqb (String.length str) 16 then
    let! t := strptime str in Ok (Some t)
  else Ok None.

(** *** The editor's variables *)

(** Modelled from the spec: the values of the editor variables read by
    [vim.eval], which the plugin script sets and which are not part of
    parsers.py.  The date/time pattern is "a configurable regex
    capturing a datetime group": [g_vtd_datetime_body] is what stands
    inside that group (its own groups, if any, bear other names than
    the module's).  The three section patterns are arbitrary. *)
Record vim_globals : Type := VimGlobals {
  g_vtd_datetime_body : regex;
  g_vtd_section_inbox : regex;
  g_vtd_section_thoughts : regex;
  g_vtd_section_reminders : regex
}.

(** [vim.eval("g:vtd_datetime_regex")]. *)
Definition g_vtd_datetime_regex (g : vim_globals) : regex :=
  Grp "datetime" (g_vtd_datetime_body g).

(** Modelled from the spec: settings with the two literal forms the
    spec accepts, "a 10-character date and a 16-character date space
    time string", and wiki headers for the three sections. *)
Definition default_globals : vim_globals :=
  let d2 := times 2 digit in
  {| g_vtd_datetime_body :=
       cat [times 4 digit; chr "-"; d2; chr "-"; d2;
            opt (cat [chr " "; d2; chr ":"; d2])];
     g_vtd_section_inbox := cat [plus (chr "="); plus ws; lit "Inboxes"];
     g_vtd_section_thoughts := cat [plus (chr "="); plus ws; lit "Thoughts"];
     g_vtd_section_reminders :=
       cat [plus (chr "="); plus ws; lit "Reminders"] |}.

(** Python's truth value of a match object or [None]. *)
Definition truthy {A : Type} (o : option A) : bool :=
  match o with Some _ => true | None => false end.

(** [m.group(name)] for a group the pattern may lack. *)
Definition group_or_raise (m : match_obj) (name : string) : result string :=
  match group m name with
  | Some t => Ok t
  | None => Raise IndexError
  end.

(** [parse_and_strip_dates(text)]: the loop over [re.finditer]. *)
Fixpoint parse_dates_loop (ms : list match_obj)
    (vis due : option datetime)
  : result (option datetime * option datetime) :=
  match ms with
  | [] => Ok (vis, due)
  | m :: ms' =>
      let! ty := group_or_raise m "type" in
      if String.eqb ty ">" then
        let! dt := group_or_raise m "datetime" in
        let! vis := parse_datetime dt ty in
        parse_dates_loop ms' vis due
      else if String.eqb ty "<" then
        let! dt := group_or_raise m "datetime" in
        let! due := parse_datetime dt ty in
        parse_dates_loop ms' vis due
      else parse_dates_loop ms' vis due
  end.

Definition date_pattern (g : vim_globals) : regex :=
  cat [plus ws; Grp "type" (Cls (Chars.one_of ["<"; ">"]%char));
       g_vtd_datetime_regex g].

Definition parse_and_strip_dates (g : vim_globals) (text : string)
  : result (string * option datetime * option datetime) :=
  let! vd := parse_dates_loop (re_finditer (date_pattern g) text) None None in
  let stripped_text := re_sub_empty (date_pattern g) text in
  Ok (stripped_text, fst vd, snd vd).

(** *** Contexts *)

Definition context_pattern : regex :=
  cat [plus ws; Rep (chr "@") 1 (Some 2); Grp "context" (plus word)].

Definition list_marker : ascii -> bool :=
  Chars.one_of ["-"; "*"; "#"; "@"]%char.

(** [parse_and_strip_contexts(text)]. *)
Definition parse_and_strip_contexts (text : string)
  : string * list string :=
  let contexts :=
    omap (fun m => group m "context") (re_finditer context_pattern text) in
  let stripped_text :=
    re_sub_empty (cat [plus ws; chr "@"; plus word]) text in
  let stripped_text := re_sub_empty (lit "@@") stripped_text in
  let stripped_text :=
    re_sub_empty (cat [Bol; star ws; Cls list_marker; star ws])
                 stripped_text in
  (stripped_text, contexts).

(** *** List counters *)

(** A counter is the number of elements left to process, or [True]. *)
Inductive counter : Type :=
| CountInt : Z -> counter
| CountBool : bool -> counter.

(** [list_counter(list_type)]. *)
Definition list_counter (list_type : string) : counter :=
  if String.eqb list_type "*" then CountInt 0
  else if String.eqb list_type "#" then CountInt 1
  else CountBool true.

(** [update_list_counter(counter)]. *)
Definition update_list_counter (c : counter) : counter :=
  match c with
  | CountBool _ => c
  | CountInt n => if (n =? 0)%Z then c else CountInt (n - 1)
  end.

(** *** Line shapes *)

(** [opening_whitespace(string)]. *)
Definition opening_whitespace (str : string) : nat :=
  match re_match (cat [Grp "1" (star ws); non_ws]) str with
  | None => 0
  | Some m =>
      match group_end m "1" with
      | Some e => e
      | None => 0
      end
  end.

(** [is_recur(line)]. *)
Definition is_recur (line : string) : option match_obj :=
  re_search (lit "RECUR") line.

(** [item_done(line)]. *)
Definition item_done (line : string) : option match_obj :=
  re_search (Grp "1" (Alt (lit "DONE") (lit "WONTDO"))) line.

(** [list_start(line)]. *)
Definition list_start (line : string) : option string :=
  match re_match (cat [star ws;
                       Grp "1" (Cls (Chars.one_of ["-"; "#"; "@"; "*"]%char));
                       ws]) line with
  | Some list_match => group list_match "1"
  | None => None
  end.

(** The class [[%s]] made of the characters of [s]. *)
Definition class_of (s : string) : regex :=
  Cls (Chars.one_of (list_ascii_of_string s)).

(** [is_next_action(line)]. *)
Definition is_next_action (line : string) : bool :=
  match list_start line with
  | None => false
  | Some list_type =>
      truthy (re_match (cat [star ws; class_of list_type; plus ws;
                             chr "@"; ws]) line)
  end.

(** [blank(line)]. *)
Definition blank (line : string) : option match_obj :=
  re_match (cat [star ws; Eol]) line.

(** *** The plate *)

(** The dictionaries stored in [Plate.inboxes], [Plate.next_actions]
    and [Plate.reminders]. *)
Record InboxItem : Type := mkInboxItem {
  inbox_name : string;
  inbox_TS_last : datetime;
  inbox_TS_vis : datetime;
  inbox_TS_due : datetime;
  inbox_jump_to : string;
  inbox_contexts : list string
}.

Record NextAction : Type := mkNextAction {
  na_name : string;
  na_TS_vis : option datetime;
  na_TS_due : option datetime;
  na_jump_to : string;
  na_contexts : list string
}.

Record Reminder : Type := mkReminder {
  rem_name : string;
  rem_TS : option datetime;
  rem_jump_to : string;
  rem_contexts : list string
}.

(** The attributes of a [Plate].  [context_checked] is [None] while the
    attribute [_context_checked] does not exist. *)
Record Plate : Type := mkPlate {
  created : datetime;
  now : datetime;
  inboxes : gmap nat InboxItem;
  next_actions : gmap nat NextAction;
  recurs : gmap nat string;
  reminders : gmap nat Reminder;
  TS_inbox : regex;
  TS_remind : regex;
  context_checked : option datetime;
  contexts_use : list string;
  contexts_avoid : list string
}.

Definition set_inboxes (pl : Plate) (x : gmap nat InboxItem) : Plate :=
  mkPlate (created pl) (now pl) x (next_actions pl) (recurs pl)
          (reminders pl) (TS_inbox pl) (TS_remind pl) (context_checked pl)
          (contexts_use pl) (contexts_avoid pl).

Definition set_next_actions (pl : Plate) (x : gmap nat NextAction) : Plate :=
  mkPlate (created pl) (now pl) (inboxes pl) x (recurs pl)
          (reminders pl) (TS_inbox pl) (TS_remind pl) (context_checked pl)
          (contexts_use pl) (contexts_avoid pl).

Definition set_reminders (pl : Plate) (x : gmap nat Reminder) : Plate :=
  mkPlate (created pl) (now pl) (inboxes pl) (next_actions pl) (recurs pl)
          x (TS_inbox pl) (TS_remind pl) (context_checked pl)
          (contexts_use pl) (contexts_avoid pl).

(** [Plate.__init__], at the time [datetime.now()] returns. *)
Definition Plate_init (g : vim_globals) (current_time : datetime) : Plate :=
  {| created := current_time;
     now := current_time;
     inboxes := ∅;
     next_actions := ∅;
     recurs := ∅;
     reminders := ∅;
     TS_inbox :=
       cat [g_vtd_datetime_regex g; plus ws; chr "+";
            Grp "break" (plus digit); chr ","; Grp "window" (plus digit)];
     TS_remind := cat [star ws; lit "REMIND"; star ws; g_vtd_datetime_regex g];
     context_checked := None;
     contexts_use := [];
     contexts_avoid := [] |}.

(** A method: it returns or raises, and leaves the plate in some
    state either way. *)
Definition method (A : Type) : Type := Plate -> result A * Plate.

Definition ret {A : Type} (a : A) : method A := fun pl => (Ok a, pl).

Definition lift {A : Type} (r : result A) : method A := fun pl => (r, pl).

Definition mbind {A B : Type} (m : method A) (k : A -> method B)
  : method B :=
  fun pl =>
    match m pl with
    | (Ok a, pl') => k a pl'
    | (Raise e, pl') => (Raise e, pl')
    end.

Notation "'do!' x ':=' m 'in' k" := (mbind m (fun x => k))
  (at level 10, x pattern, m at level 100, k at level 200).

(** [Plate.visible(vis)]. *)
Definition visible (pl : Plate) (vis : option datetime) : bool :=
  match vis with
  | None => true
  | Some v => (v <? now pl)%Z
  end.

(** [Plate.overdue(due)]. *)
Definition overdue (pl : Plate) (due : option datetime) : bool :=
  match due with
  | None => false
  | Some d => (d <? now pl)%Z
  end.

(** [context in lst] for a list of strings. *)
Definition str_in (x : string) (l : list string) : bool :=
  existsb (String.eqb x) l.

(** The loop of [Plate.contexts_ok]: [None] for the early
    [return False], else the value of [matches_context]. *)
Fixpoint contexts_ok_loop (pl : Plate) (contexts : list string)
    (matches_context : bool) : option bool :=
  match contexts with
  | [] => Some matches_context
  | context :: rest =>
      if str_in context (contexts_avoid pl) then None
      else if str_in context (contexts_use pl)
           then contexts_ok_loop pl rest true
           else contexts_ok_loop pl rest matches_context
  end.

(** [Plate.contexts_ok(contexts, include_anon=False)]. *)
Definition contexts_ok (pl : Plate) (contexts : list string)
    (include_anon : bool) : bool :=
  match contexts_ok_loop pl contexts false with
  | None => false
  | Some matches_context => matches_context || include_anon
  end.

(** [Plate.add_NextAction(linenum, line)]. *)
Definition add_NextAction (g : vim_globals) (linenum : nat) (line : string)
  : method bool :=
  if truthy (item_done line) then ret false
  else
    let (line, contexts) := parse_and_strip_contexts line in
    do! lvd := lift (parse_and_strip_dates g line) in
    let '(line, vis, due) := lvd in
    let text := re_sub_empty (cat [Bol; star ws; chr "@"; plus ws]) line in
    fun pl =>
      (Ok true,
       set_next_actions pl
         (<[ next_key (next_actions pl) :=
               {| na_name := text;
                  na_TS_vis := vis;
                  na_TS_due := due;
                  na_jump_to := "p" +:+ pretty linenum;
                  na_contexts := contexts |} ]> (next_actions pl))).

(** *** Reading the Inboxes file *)

(** The loops of [read_inboxes] all have the shape
    [while linenum and cond(line): body; (linenum, line) =
    read_and_count_lines(linenum, f)]. *)
Fixpoint reading_loop (cond : string -> bool)
    (body : nat -> string -> method unit)
    (linenum : nat) (line : string) (f : file) {struct f}
  : method (nat * string * file) :=
  if Nat.eqb linenum 0 || negb (cond line) then ret (linenum, line, f)
  else
    do! _ := body linenum line in
    match f with
    | [] => ret (read_and_count_lines linenum [])
    | raw :: f' =>
        let (linenum', line') := count_line linenum raw in
        reading_loop cond body linenum' line' f'
    end.

Definition no_body (linenum : nat) (line : string) : method unit := ret tt.

Definition not_matching (r : regex) (line : string) : bool :=
  negb (truthy (re_match r line)).

(** What the second loop of [read_inboxes] does with a line. *)
Definition inbox_entry (linenum : nat) (line : string) : method unit :=
  fun pl =>
    match re_search (TS_inbox pl) line with
    | None => (Ok tt, pl)
    | Some m =>
        let (text, contexts) := parse_and_strip_contexts line in
        let stored :=
          let! dt := group_or_raise m "datetime" in
          let! last_emptied := parse_datetime dt "" in
          let! brk := group_or_raise m "break" in
          let! delta := timedelta_days (int_of_string brk) in
          let! t :=
            match last_emptied with
            | None => Raise TypeError
            | Some t => Ok t
            end in
          let! vis := add t delta in
          let! win := group_or_raise m "window" in
          let! delta' := timedelta_days (int_of_string win) in
          let! due := add vis delta' in
          Ok {| inbox_name := re_sub_empty (TS_inbox pl) text;
                inbox_TS_last := t;
                inbox_TS_vis := vis;
                inbox_TS_due := due;
                inbox_jump_to := "i" +:+ pretty linenum;
                inbox_contexts := contexts |} in
        match stored with
        | Raise e => (Raise e, pl)
        | Ok item =>
            (Ok tt,
             set_inboxes pl (<[ next_key (inboxes pl) := item ]> (inboxes pl)))
        end
    end.

(** What the last loop of [read_inboxes] does with a line. *)
Definition reminder_entry (linenum : nat) (line : string) : method unit :=
  fun pl =>
    match re_search (TS_remind pl) line with
    | None => (Ok tt, pl)
    | Some m =>
        let (text, contexts) := parse_and_strip_contexts line in
        let stored :=
          let! dt := group_or_raise m "datetime" in
          let! remind_when := parse_datetime dt "" in
          Ok {| rem_name := re_sub_empty (TS_remind pl) text;
                rem_TS := remind_when;
                rem_jump_to := "i" +:+ pretty linenum;
                rem_contexts := contexts |} in
        match stored with
        | Raise e => (Raise e, pl)
        | Ok item =>
            (Ok tt,
             set_reminders pl
               (<[ next_key (reminders pl) := item ]> (reminders pl)))
        end
    end.

(** [Plate.read_inboxes()], on the Inboxes file [f] just opened. *)
Definition read_inboxes (g : vim_globals) (f : file) : method unit :=
  let linenum := 0 in
  let '(linenum, line, f) := read_and_count_lines linenum f in
  do! at_header :=
    reading_loop (not_matching (g_vtd_section_inbox g)) no_body
                 linenum line f in
  let '(linenum, line, f) := at_header in
  let '(linenum, line, f) := read_and_count_lines linenum f in
  do! at_thoughts :=
    reading_loop (not_matching (g_vtd_section_thoughts g)) inbox_entry
                 linenum line f in
  let '(linenum, line, f) := at_thoughts in
  let remind_header := g_vtd_section_reminders g in
  do! at_reminders :=
    reading_loop (not_matching remind_header) no_body linenum line f in
  let '(linenum, line, f) := at_reminders in
  let '(linenum, line, f) := read_and_count_lines linenum f in
  do! _ := reading_loop (fun _ => true) reminder_entry linenum line f in
  ret tt.

(** *** Reading the Projects file *)

Definition is_ordered (list_type : option string) : bool :=
  match list_type with
  | Some t => String.eqb t "#"
  | None => false
  end.

(** The local variables of [Plate.process_outline], with the file as
    it is left to read. *)
Record locals : Type := Locals {
  master_indent : nat;
  list_type : option string;
  blocker_started : bool;
  blocker_finished : bool;
  parent_done : bool;
  cur_linenum : nat;
  cur_line : string;
  cur_file : file
}.

(** [(linenum, line) = read_and_count_lines(linenum, f)]. *)
Definition read_next (st : locals) : locals :=
  let '(linenum', line', f') :=
    read_and_count_lines (cur_linenum st) (cur_file st) in
  Locals (master_indent st) (list_type st) (blocker_started st)
         (blocker_finished st) (parent_done st) linenum' line' f'.

(** The locals of a call that starts at [linenum], [line]. *)
Definition enter (linenum : nat) (line : string) (f : file) : locals :=
  Locals (opening_whitespace line) (list_start line) false false false
         linenum line f.

(** After a nested call has returned [(linenum, line)]. *)
Definition resume (st : locals) (at_ : nat * string * file) : locals :=
  let '(linenum', line', f') := at_ in
  Locals (master_indent st) (list_type st) (blocker_started st)
         (blocker_finished st) (parent_done st) linenum' line' f'.

Definition set_blocker_finished (st : locals) : locals :=
  Locals (master_indent st) (list_type st) (blocker_started st)
         true (parent_done st) (cur_linenum st) (cur_line st) (cur_file st).

(** The flags after a line at the indent of the list was looked at. *)
Definition mark_sibling (st : locals) : locals :=
  let done := truthy (item_done (cur_line st)) in
  Locals (master_indent st) (list_type st)
         (if done then blocker_started st
          else if is_ordered (list_type st) then true
               else blocker_started st)
         (blocker_finished st) done
         (cur_linenum st) (cur_line st) (cur_file st).

Definition where_ (st : locals) : nat * string * file :=
  (cur_linenum st, cur_line st, cur_file st).

(** The [while] loop of [Plate.process_outline], from the state [st]
    of the local variables; [fuel] bounds the number of turns and
    nested calls, and [None] means that it ran out.  The two [print]
    statements write to the standard output only. *)
Fixpoint outline_loop (g : vim_globals) (fuel : nat) (st : locals)
    (current_project : option string) (pl : Plate) {struct fuel}
  : option (result (nat * string * file) * Plate) :=
  match fuel with
  | O => None
  | S fuel' =>
      if Nat.eqb (cur_linenum st) 0 then Some (Ok (where_ st), pl)
      else
        let indent := opening_whitespace (cur_line st) in
        if Nat.ltb indent (master_indent st) then Some (Ok (where_ st), pl)
        else if is_ordered (list_type st) && blocker_finished st then
          outline_loop g fuel' (read_next st) current_project pl
        else if Nat.ltb (master_indent st) indent then
          if parent_done st then
            outline_loop g fuel' (read_next st) current_project pl
          else
            let linetype := list_start (cur_line st) in
            if truthy linetype then
              match outline_loop g fuel'
                      (enter (cur_linenum st) (cur_line st) (cur_file st))
                      current_project pl with
              | None => None
              | Some (Raise e, pl') => Some (Raise e, pl')
              | Some (Ok back, pl') =>
                  outline_loop g fuel' (resume st back) current_project pl'
              end
            else outline_loop g fuel' (read_next st) current_project pl
        else
          if blocker_started st then
            outline_loop g fuel' (set_blocker_finished st) current_project pl
          else
            let st' := mark_sibling st in
            let (added, pl') :=
              if is_next_action (cur_line st)
              then add_NextAction g (cur_linenum st) (cur_line st) pl
              else (Ok false, pl) in
            match added with
            | Raise e => Some (Raise e, pl')
            | Ok _ => outline_loop g fuel' (read_next st') current_project pl'
            end
  end.

(** [Plate.process_outline(linenum, line, f, current_project)]. *)
Definition process_outline (g : vim_globals) (fuel : nat)
    (linenum : nat) (line : string) (f : file)
    (current_project : option string) (pl : Plate)
  : option (result (nat * string * file) * Plate) :=
  outline_loop g fuel (enter linenum line f) current_project pl.

(** The lines still to come: the current one, unless the end of the
    file was reached, and those [read_and_count_lines] will return. *)
Fixpoint lines_of (f : file) : list string :=
  match f with
  | [] => []
  | raw :: f' =>
      if String.eqb raw "" then []
      else snd (count_line 0 raw) :: lines_of f'
  end.

Definition upcoming (linenum : nat) (line : string) (f : file)
  : list string :=
  if Nat.eqb linenum 0 then [] else line :: lines_of f.

(** Fuel that always suffices for [process_outline]. *)
Definition enough_fuel (f : file) : nat := 3 * S (length f) + 2.

(** *** Contexts and views *)

(** Python's [str.split()] on whitespace. *)
Fixpoint split_from (cur : string) (s : string) : list string :=
  match s with
  | EmptyString =>
      match cur with EmptyString => [] | _ => [cur] end
  | String c s' =>
      if Chars.is_space c then
        match cur with
        | EmptyString => split_from "" s'
        | _ => cur :: split_from "" s'
        end
      else split_from (cur +:+ String c EmptyString) s'
  end.

Definition split (s : string) : list string := split_from "" s.

Definition any_but_newline : regex :=
  Cls (fun c => negb (Ascii.eqb c Chars.newline)).

(** The loop over the lines of the contexts file. *)
Fixpoint read_contexts (f : file) (use avoid : list string)
  : list string * list string :=
  match f with
  | [] => (use, avoid)
  | line :: f' =>
      let line :=
        re_sub_empty (cat [chr "#"; star any_but_newline; Eol]) line in
      if truthy (re_match (cat [star ws; Eol]) line)
      then read_contexts f' use avoid
      else
        let (use, avoid) :=
          fold_left
            (fun ua context =>
               match context with
               | String "-" tail => (fst ua, (snd ua ++ [tail])%list)
               | _ => ((fst ua ++ [context])%list, snd ua)
               end)
            (split line) (use, avoid) in
        read_contexts f' use avoid
  end.

(** [Plate.update_time_and_contexts()], when [datetime.now()] gives
    [current_time] and the contexts file, last modified at
    [context_updated], holds [context_file]. *)
Definition update_time_and_contexts (current_time context_updated : datetime)
    (context_file : file) (pl : Plate) : Plate :=
  let reload :=
    match context_checked pl with
    | None => true
    | Some checked => (checked <? context_updated)%Z
    end in
  if reload then
    let (use, avoid) := read_contexts context_file [] [] in
    mkPlate (created pl) current_time (inboxes pl) (next_actions pl)
            (recurs pl) (reminders pl) (TS_inbox pl) (TS_remind pl)
            (Some current_time) use avoid
  else
    mkPlate (created pl) current_time (inboxes pl) (next_actions pl)
            (recurs pl) (reminders pl) (TS_inbox pl) (TS_remind pl)
            (context_checked pl) (contexts_use pl) (contexts_avoid pl).

(** The keys [k] of a dictionary whose item passes [keep]: the
    [set(i for i in d if keep(d[i]))] of the display methods. *)
Definition keys_where {A : Type} (keep : A -> bool) (d : gmap nat A)
  : gset nat :=
  dom (filter (fun kv : nat * A => keep (snd kv) = true) d).

(** The sets [vis] and [due] of [Plate.display_inboxes], once
    [update_time_and_contexts] has run. *)
Definition display_inboxes_vis (pl : Plate) : gset nat :=
  keys_where
    (fun i => visible pl (Some (inbox_TS_vis i))
              && negb (overdue pl (Some (inbox_TS_due i)))
              && contexts_ok pl (inbox_contexts i) false)
    (inboxes pl).

Definition display_inboxes_due (pl : Plate) : gset nat :=
  keys_where
    (fun i => overdue pl (Some (inbox_TS_due i))
              && contexts_ok pl (inbox_contexts i) false)
    (inboxes pl).

(** The set [vis] of [Plate.display_reminders]. *)
Definition display_reminders_vis (pl : Plate) : gset nat :=
  keys_where
    (fun i => visible pl (rem_TS i) && contexts_ok pl (rem_contexts i) true)
    (reminders pl).

(** The sets [vis] and [due] of [Plate.display_NextActions]. *)
Definition display_NextActions_vis (pl : Plate) : gset nat :=
  keys_where
    (fun i => visible pl (na_TS_vis i)
              && negb (overdue pl (na_TS_due i))
              && contexts_ok pl (na_contexts i) false)
    (next_actions pl).

Definition display_NextActions_due (pl : Plate) : gset nat :=
  keys_where
    (fun i => overdue pl (na_TS_due i)
              && contexts_ok pl (na_contexts i) false)
    (next_actions pl).

(** A plate on which a reminder tagged "work" waits while the
    contexts file only lists "home". *)
Definition plate_with_work_reminder : Plate :=
  update_time_and_contexts 100%Z 50%Z (file_of_text "home
")
    (set_reminders (Plate_init default_globals 0%Z)
       (<[ 0 := {| rem_name := "ring the office";
                   rem_TS := None;
                   rem_jump_to := "i9";
                   rem_contexts := ["work"] |} ]> ∅)).

(** The inbox items of a plate have their due time at or after their
    visible time, itself at or after the time last emptied. *)
Definition inboxes_ordered (pl : Plate) : Prop :=
  forall k item, inboxes pl !! k = Some item ->
    (inbox_TS_last item <= inbox_TS_vis item
     /\ inbox_TS_vis item <= inbox_TS_due item)%Z.

(** An Inboxes file with one inbox, emptied on 2020-01-01 at 00:01,
    to be left alone for 2 days and then due within 3. *)
Definition inboxes_example : file :=
  file_of_text "= Inboxes =
- Email 2020-01-01 00:01 +2,3 @computer
= Thoughts =
".

(** The keys of a dictionary filled through [next_key] are the
    numbers below its size. *)
Definition dense {A : Type} (m : gmap nat A) : Prop :=
  forall k, is_Some (m !! k) -> k < size m.

(** [line] carries a date/time stamp that parses to [t], followed by
    the token [+brk,win], as the pattern [R] of inbox entries finds
    them. *)
Definition inbox_token (R : regex) (line : string) (t : datetime)
    (brk win : Z) : Prop :=
  exists m dt b w,
    re_search R line = Some m
    /\ group m "datetime" = Some dt
    /\ parse_datetime dt "" = Ok (Some t)
    /\ group m "break" = Some b /\ brk = int_of_string b
    /\ group m "window" = Some w /\ win = int_of_string w.

(** An Inboxes file whose one inbox was emptied on the last day
    [datetime] can hold. *)
Definition inboxes_at_the_end_of_time : file :=
  file_of_text "= Inboxes =
- Email 9999-12-31 00:01 +2,3
= Thoughts =
".

(** *** The outline loop as a relation *)

Definition cur_indent (st : locals) : nat :=
  opening_whitespace (cur_line st).

(** The list is ordered and a blocker was passed. *)
Definition blocked (st : locals) : bool :=
  is_ordered (list_type st) && blocker_finished st.

(** The call of [add_NextAction] on a line of the list's indent. *)
Definition try_add (g : vim_globals) (st : locals) : method bool :=
  fun pl =>
    if is_next_action (cur_line st)
    then add_NextAction g (cur_linenum st) (cur_line st) pl
    else (Ok false, pl).

(** The lines still to come in the state [st]. *)
Definition upcoming_st (st : locals) : list string :=
  upcoming (cur_linenum st) (cur_line st) (cur_file st).

(** [outline_run g st pl out pl']: from [st] and [pl] the loop ends
    with [out], the plate being [pl'].  One rule per path through the
    body of the loop. *)
Inductive outline_run (g : vim_globals)
  : locals -> Plate -> result (nat * string * file) -> Plate -> Prop :=
| run_eof st pl :
    cur_linenum st = 0 ->
    outline_run g st pl (Ok (where_ st)) pl
| run_dedent st pl :
    cur_linenum st <> 0 ->
    cur_indent st < master_indent st ->
    outline_run g st pl (Ok (where_ st)) pl
| run_blocked st pl out pl' :
    cur_linenum st <> 0 ->
    master_indent st <= cur_indent st ->
    blocked st = true ->
    outline_run g (read_next st) pl out pl' ->
    outline_run g st pl out pl'
| run_done_child st pl out pl' :
    cur_linenum st <> 0 ->
    master_indent st < cur_indent st ->
    blocked st = false ->
    parent_done st = true ->
    outline_run g (read_next st) pl out pl' ->
    outline_run g st pl out pl'
| run_nested_raise st pl e pl' :
    cur_linenum st <> 0 ->
    master_indent st < cur_indent st ->
    blocked st = false ->
    parent_done st = false ->
    truthy (list_start (cur_line st)) = true ->
    outline_run g (enter (cur_linenum st) (cur_line st) (cur_file st))
                pl (Raise e) pl' ->
    outline_run g st pl (Raise e) pl'
| run_nested st pl back pl1 out pl' :
    cur_linenum st <> 0 ->
    master_indent st < cur_indent st ->
    blocked st = false ->
    parent_done st = false ->
    truthy (list_start (cur_line st)) = true ->
    outline_run g (enter (cur_linenum st) (cur_line st) (cur_file st))
                pl (Ok back) pl1 ->
    outline_run g (resume st back) pl1 out pl' ->
    outline_run g st pl out pl'
| run_append st pl out pl' :
    cur_linenum st <> 0 ->
    master_indent st < cur_indent st ->
    blocked st = false ->
    parent_done st = false ->
    truthy (list_start (cur_line st)) = false ->
    outline_run g (read_next st) pl out pl' ->
    outline_run g st pl out pl'
| run_block st pl out pl' :
    cur_linenum st <> 0 ->
    cur_indent st = master_indent st ->
    blocked st = false ->
    blocker_started st = true ->
    outline_run g (set_blocker_finished st) pl out pl' ->
    outline_run g st pl out pl'
| run_sibling_raise st pl e pl1 :
    cur_linenum st <> 0 ->
    cur_indent st = master_indent st ->
    blocked st = false ->
    blocker_started st = false ->
    try_add g st pl = (Raise e, pl1) ->
    outline_run g st pl (Raise e) pl1
| run_sibling st pl added pl1 out pl' :
    cur_linenum st <> 0 ->
    cur_indent st = master_indent st ->
    blocked st = false ->
    blocker_started st = false ->
    try_add g st pl = (Ok added, pl1) ->
    outline_run g (read_next (mark_sibling st)) pl1 out pl' ->
    outline_run g st pl out pl'.

(** The number of lines at the head of [ls] indented by [m] or more:
    the length of the list run at indent [m]. *)
Fixpoint run_length (m : nat) (ls : list string) : nat :=
  match ls with
  | [] => 0
  | l :: ls' =>
      if Nat.leb m (opening_whitespace l) then S (run_length m ls') else 0
  end.

(** Every next action of [pl'] was in [pl] already or comes from a
    line whose number satisfies [P]. *)
Definition added_from (pl pl' : Plate) (P : nat -> Prop) : Prop :=
  forall key item,
    next_actions pl' !! key = Some item ->
    next_actions pl !! key = Some item
    \/ exists n, na_jump_to item = "p" +:+ pretty n /\ P n.

(** Only an ordered list starts a blocker. *)
Definition flags_ok (st : locals) : Prop :=
  blocker_started st = true -> is_ordered (list_type st) = true.

(** What a run of the loop from [st] covers: the items it adds come
    from the lines of the list run at the indent of the list, and it
    returns at the line that ends the run, numbered as many lines
    further, or with the number 0 at the end of the file. *)
Definition spans (st : locals) (pl : Plate)
    (out : result (nat * string * file)) (pl' : Plate) : Prop :=
  let ls := upcoming_st st in
  let c := run_length (master_indent st) ls in
  added_from pl pl' (fun n => cur_linenum st <= n < cur_linenum st + c)
  /\ forall linenum' line' f',
       out = Ok (linenum', line', f') ->
       upcoming linenum' line' f' = drop c ls
       /\ linenum' = match drop c ls with
                     | [] => 0
                     | _ :: _ => cur_linenum st + c
                     end.

(** A Projects file with an ordered list of three steps, the first of
    which has a sub-step, and a done item with a child. *)
Definition projects_example : file :=
  file_of_text "# @ one
  - @ sub of one
# @ two
  - @ sub of two
# @ three
".

Definition done_parent_example : file :=
  file_of_text "- @ paint the fence DONE
  - @ buy paint
- @ mow the lawn
".

(** An ordered list of three steps; the second is done already. *)
Definition three_steps_example : file :=
  file_of_text "# @ one
# @ two DONE
# @ three
".


(** *** Context tokens *)

(** The passes of [parse_and_strip_contexts] over the text. *)
Definition strip_single_contexts (text : string) : string :=
  re_sub_empty (cat [plus ws; chr "@"; plus word]) text.

Definition unlabel (text : string) : string :=
  re_sub_empty (lit "@@") text.

Definition strip_list_marker (text : string) : string :=
  re_sub_empty (cat [Bol; star ws; Cls list_marker; star ws]) text.

(** The match of pattern [r] that starts at offset [q] of the text. *)
Definition match_from (r : regex) (text : string) (q : nat)
  : option match_obj :=
  match_at r (Cursor q (drop_str q text)).

(** Each match ends before the next one starts. *)
Definition in_order (ms : list match_obj) : Prop :=
  forall i m m', ms !! i = Some m -> ms !! (S i) = Some m' ->
    m_end m <= m_start m'.

(** The loop of the matcher for [Rep r lo hi], with the number of
    rounds it may still make. *)
Definition rep_loop (r : regex)
  : nat -> nat -> option nat -> cursor -> list capture -> list success :=
  fix loop (fuel : nat) (lo : nat) (hi : option nat)
      (cu : cursor) (caps : list capture) {struct fuel} : list success :=
    let stop := if Nat.eqb lo 0 then [(cu, caps)] else [] in
    match fuel with
    | O => stop
    | S fuel' =>
        ((if hi_allows hi then
            flat_map
              (fun sc : success =>
                 if Nat.ltb (pos cu) (pos (fst sc))
                 then loop fuel' (Nat.pred lo) (hi_pred hi) (fst sc) (snd sc)
                 else [])
              (matches r cu caps)
          else []) ++ stop)%list
    end.


(** *** Runs of characters *)

(** The number of characters at the head of [s] that are in the class
    [P]: how far a greedy [P*] gets. *)
Fixpoint span (P : ascii -> bool) (s : string) : nat :=
  match s with
  | String c s' => if P c then S (span P s') else 0
  | EmptyString => 0
  end.

(** [n], [n - 1], ..., [lo]: the lengths a greedy repetition tries,
    longest first. *)
Fixpoint countdown (n lo : nat) : list nat :=
  if Nat.ltb n lo then []
  else n :: match n with
            | O => []
            | S n' => countdown n' lo
            end.

(** All the characters of [s] are in the class [P]. *)
Fixpoint all_of (P : ascii -> bool) (s : string) : bool :=
  match s with
  | String c s' => P c && all_of P s'
  | EmptyString => true
  end.

(** [w] occurs in [line]. *)
Definition contains (w line : string) : Prop :=
  exists before after, line = before +:+ w +:+ after.

(** [s] begins with [w]. *)
Fixpoint starts_with (w s : string) : bool :=
  match w, s with
  | EmptyString, _ => true
  | String a w', String b s' => Ascii.eqb a b && starts_with w' s'
  | String _ _, EmptyString => false
  end.


(** No character of [s] is a newline: [s] is text of one line. *)
Definition one_line (s : string) : bool :=
  all_of (fun c => negb (Ascii.eqb c Chars.newline)) s.

(** The one-character string [\n]. *)
Definition nl : string := String Chars.newline EmptyString.

(** The words of the contexts file: what is left of each line once a
    comment is removed, split at whitespace. *)
Definition context_words (f : file) : list string :=
  flat_map
    (fun line =>
       split (re_sub_empty (cat [chr "#"; star any_but_newline; Eol]) line))
    f.

(** The context a word of the contexts file tells to avoid. *)
Definition avoided (w : string) : option string :=
  match w with
  | String "-" tail => Some tail
  | _ => None
  end.

Definition used (w : string) : bool :=
  match avoided w with Some _ => false | None => true end.


(** *** Plates that differ in what was read only *)

(** [pl'] has everything [pl] has, under the same keys, and differs
    from it in inboxes and reminders at most. *)
Definition grown_by_reading (pl pl' : Plate) : Prop :=
  created pl' = created pl /\ now pl' = now pl
  /\ next_actions pl' = next_actions pl /\ recurs pl' = recurs pl
  /\ TS_inbox pl' = TS_inbox pl /\ TS_remind pl' = TS_remind pl
  /\ context_checked pl' = context_checked pl
  /\ contexts_use pl' = contexts_use pl
  /\ contexts_avoid pl' = contexts_avoid pl
  /\ dense (inboxes pl') /\ dense (reminders pl')
  /\ (forall k item, inboxes pl !! k = Some item ->
                     inboxes pl' !! k = Some item)
  /\ (forall k item, reminders pl !! k = Some item ->
                     reminders pl' !! k = Some item).

(** A file as [readline] delivers it: no line is empty before the end,
    and every line satisfies [R]. *)
Definition lines_all (R : string -> Prop) (f : file) : Prop :=
  Forall (fun raw => raw <> "" /\ R (snd (count_line 0 raw))) f.

(** Where a reader stands: at the end of the file nothing is left. *)
Definition standing (R : string -> Prop) (linenum : nat) (f : file) : Prop :=
  lines_all R f /\ (linenum = 0 -> f = []).

(** An Inboxes file without the Thoughts header: a reminder follows
    the inbox. *)
Definition inboxes_without_thoughts : file :=
  file_of_text "= Inboxes =
- Email 2020-01-01 00:01 +2,3 @computer
= Reminders =
- REMIND 2020-03-01 renew the passport
".

(** A file of notes, with no section header at all. *)
Definition notes_only : file :=
  file_of_text "- Email 2020-01-01 00:01 +2,3 @computer
- REMIND 2020-03-01 renew the passport
".

(** *** Reading the Projects file: the whole file *)

(** The [while] loop of [Plate.read_projects]; [fuel] bounds its turns
    and those of the calls of [process_outline], [None] meaning that it
    ran out. *)
Fixpoint projects_loop (g : vim_globals) (fuel : nat)
    (linenum : nat) (line : string) (f : file)
    (current_project : option string) (pl : Plate) {struct fuel}
  : option (result unit * Plate) :=
  match fuel with
  | O => None
  | S fuel' =>
      if Nat.eqb linenum 0 then Some (Ok tt, pl)
      else if truthy (list_start line) then
        match process_outline g fuel' linenum line f current_project pl with
        | None => None
        | Some (Raise e, pl') => Some (Raise e, pl')
        | Some (Ok (linenum', line', f'), pl') =>
            projects_loop g fuel' linenum' line' f' current_project pl'
        end
      else
        let current_project :=
          if truthy (blank line) then None else Some line in
        let '(linenum', line', f') := read_and_count_lines linenum f in
        projects_loop g fuel' linenum' line' f' current_project pl
  end.

(** [Plate.read_projects()], on the Projects file [f] just opened. *)
Definition read_projects (g : vim_globals) (fuel : nat) (f : file)
    (pl : Plate) : option (result unit * Plate) :=
  let linenum := 0 in
  let '(linenum, line, f) := read_and_count_lines linenum f in
  let current_project := None in
  projects_loop g fuel linenum line f current_project pl.

(** [Plate.read_all()], on the two files. *)
Definition read_all (g : vim_globals) (fuel : nat)
    (inboxes_file projects_file : file) (pl : Plate)
  : option (result unit * Plate) :=
  match read_inboxes g inboxes_file pl with
  | (Raise e, pl') => Some (Raise e, pl')
  | (Ok _, pl') => read_projects g fuel projects_file pl'
  end.

(** Line [n] of a text whose first line, numbered [first], is the head
    of [ls] is a next action that is not marked as done. *)
Definition from_action_line (ls : list string) (first n : nat) : Prop :=
  first <= n
  /\ exists l, ls !! (n - first) = Some l
               /\ is_next_action l = true
               /\ truthy (item_done l) = false.

(** [pl'] has every next action [pl] has, under the same key, and
    differs from it in the next actions at most. *)
Definition grown_by_projects (pl pl' : Plate) : Prop :=
  created pl' = created pl /\ now pl' = now pl
  /\ inboxes pl' = inboxes pl /\ reminders pl' = reminders pl
  /\ recurs pl' = recurs pl
  /\ TS_inbox pl' = TS_inbox pl /\ TS_remind pl' = TS_remind pl
  /\ context_checked pl' = context_checked pl
  /\ contexts_use pl' = contexts_use pl
  /\ contexts_avoid pl' = contexts_avoid pl
  /\ dense (next_actions pl')
  /\ (forall k item, next_actions pl !! k = Some item ->
                     next_actions pl' !! k = Some item).

(** The state in which the loop of [read_projects] reads on. *)
Definition at_line (linenum : nat) (line : string) (f : file) : locals :=
  Locals 0 None false false false linenum line f.

(** A Projects file: a project with an unordered list, one item of
    which is done and has a child, and a line of notes. *)
Definition household_example : file :=
  file_of_text "Household
- @ mow the lawn @home
- @ paint the fence DONE
  - @ buy paint
- @ call the plumber @phone
some notes @ home
".

(** Replace a closed term of the goal by its value. *)
Ltac evaluated t :=
  let v := eval vm_compute in t in
  replace t with v by (vm_compute; reflexivity).


(** *** The contexts line of the view *)

(** [vtdview_section_marker(summarize)]: the UTF-8 bytes of a small
    triangle that points right, or down. *)
Definition vtdview_section_marker (summarize : bool) : string :=
  if summarize
  then String "226"%char (String "150"%char (String "184"%char ""))
  else String "226"%char (String "150"%char (String "190"%char "")).

(** Python's truth value of a variable that holds None or a string. *)
Definition str_truthy (o : option string) : bool :=
  match o with
  | Some (String _ _) => true
  | _ => false
  end.

(** The loop of [context_list_string]: the values of [previous] and
    [contexts] after it. *)
Fixpoint context_list_loop (c_list : list string) (previous : option string)
    (contexts comma : string) : option string * string :=
  match c_list with
  | [] => (previous, contexts)
  | c :: rest =>
      if str_truthy previous
      then context_list_loop rest (Some c)
             (contexts +:+ (comma +:+ default "" previous)) ", "
      else context_list_loop rest (Some c) contexts comma
  end.

(** [context_list_string(c_list)]; adding None to a string raises
    TypeError. *)
Definition context_list_string (c_list : list string) : result string :=
  let (previous, contexts) := context_list_loop c_list None "" "" in
  let contexts :=
    if Nat.ltb 0 (String.length contexts) then contexts +:+ " or "
    else contexts in
  match previous with
  | None => Raise TypeError
  | Some p => Ok (contexts +:+ p)
  end.

(** [Plate.display_contexts()], with the clock and the contexts file
    as [update_time_and_contexts] finds them. *)
Definition display_contexts (current_time context_updated : datetime)
    (context_file : file) : method string :=
  fun pl =>
    let pl :=
      update_time_and_contexts current_time context_updated context_file pl in
    let have_contexts := Nat.ltb 0 (length (contexts_use pl)) in
    let have_avoided_contexts := Nat.ltb 0 (length (contexts_avoid pl)) in
    let contexts :=
      let! use :=
        if have_contexts then context_list_string (contexts_use pl)
        else Ok "" in
      let! avoid :=
        if have_avoided_contexts
        then (let! s := context_list_string (contexts_avoid pl) in
              Ok ("NOT " +:+ s))
        else Ok "" in
      let but :=
        if have_contexts && have_avoided_contexts then " but " else "" in
      let context_string := use +:+ but +:+ avoid in
      Ok (vtdview_section_marker true +:+ " Contexts: "
          +:+ context_string +:+ nl) in
    (contexts, pl).

(** The elements of [l] with [sep] between them. *)
Fixpoint join_with (sep : string) (l : list string) : string :=
  match l with
  | [] => ""
  | [x] => x
  | x :: rest => x +:+ sep +:+ join_with sep rest
  end.

(** *** Truncation *)

(** Python's [s[a:]] and [s[:b]], where a negative index counts from
    the end. *)
Definition slice_from (s : string) (a : Z) : string :=
  let n := Z.of_nat (String.length s) in
  let start := if (a <? 0)%Z then Z.max (n + a) 0 else Z.min a n in
  drop_str (Z.to_nat start) s.

Definition slice_to (s : string) (b : Z) : string :=
  let n := Z.of_nat (String.length s) in
  let stop := if (b <? 0)%Z then Z.max (n + b) 0 else Z.min b n in
  take_str (Z.to_nat stop) s.

(** [trunc_string(string, max_length)]. *)
Definition trunc_string (str : string) (max_length : Z) : string :=
  if String.eqb (slice_from str (max_length + 1)) "" then str
  else slice_to str (max_length - 2) +:+ "..".


(** *** The older parsers *)

(** [sec_header(line)]. *)
Definition sec_header (line : string) : option match_obj :=
  re_match (cat [plus (chr "="); plus ws; word]) line.

(** The exception raised when a global name is looked up that nothing
    defines. *)
Inductive name_error : Type :=
| NameError : string -> name_error.

(** The [while] loop of [parse_next_actions], the lines being read with
    [readline] and so with their newlines.  On a line that starts a
    list element the loop calls [parse_next_actions_list], a name that
    the module binds nowhere: looking it up raises NameError before
    any argument is evaluated.  [cur_proj] is [None] while the
    variable is unbound. *)
Fixpoint next_actions_scan (p_line : string) (p_file : file)
    (cur_proj : option string) {struct p_file}
  : name_error + option string :=
  if String.eqb p_line "" then inr cur_proj
  else if truthy (list_start p_line)
       then inl (NameError "parse_next_actions_list")
  else
    let cur_proj :=
      if truthy (blank p_line) || truthy (item_done p_line)
         || truthy (sec_header p_line)
      then Some "" else Some p_line in
    match p_file with
    | [] => inr cur_proj
    | raw :: p_file' => next_actions_scan raw p_file' cur_proj
    end.

(** [parse_next_actions()], on the Projects file just opened: the
    exception, or the command handed to [vim.command].  When the loop
    ends, the list of actions is still empty. *)
Definition parse_next_actions (p_file : file) : name_error + string :=
  let (p_line, p_file) := readline p_file in
  match next_actions_scan p_line p_file None with
  | inl e => inl e
  | inr _ => inr "let l:actions=''"
  end.

(** [s.replace("'", "''")]. *)
Fixpoint double_quotes (s : string) : string :=
  match s with
  | EmptyString => EmptyString
  | String c s' =>
      if Ascii.eqb c "'"
      then String "'" (String "'" (double_quotes s'))
      else String c (double_quotes s')
  end.

(** The [while] loop of [parse_inboxes]; [inboxes], a list of
    characters in the source, is held as the string they make. *)
Fixpoint inboxes_scan (i_line : string) (inbox_file : file)
    (inboxes : string) {struct inbox_file} : string :=
  if String.eqb i_line "" then inboxes
  else
    let inboxes :=
      if truthy (re_search (lit "INBOX") i_line) then inboxes +:+ i_line
      else inboxes in
    match inbox_file with
    | [] => inboxes
    | raw :: inbox_file' => inboxes_scan raw inbox_file' inboxes
    end.

(** [parse_inboxes()], on the Inboxes file just opened: the command
    handed to [vim.command]. *)
Definition parse_inboxes (inbox_file : file) : string :=
  let (i_line, inbox_file) := readline inbox_file in
  let inbox_content := inboxes_scan i_line inbox_file "" in
  "let l:inbox_content='" +:+ double_quotes inbox_content +:+ "'".

(** Every quote of [s] stands next to a second one, as in the body of
    a string of the editor written between single quotes. *)
Fixpoint quotes_paired (s : string) : bool :=
  match s with
  | EmptyString => true
  | String c s' =>
      if Ascii.eqb c "'"
      then match s' with
           | String c' s'' => Ascii.eqb c' "'" && quotes_paired s''
           | EmptyString => false
           end
      else quotes_paired s'
  end.

(** The strings of [l] one after the other. *)
Definition concat_all (l : list string) : string :=
  fold_right String.append "" l.


(** *** An ordered list below an unordered one *)

(** A Projects file in which an ordered list of three steps, none of
    them done, comes after an unordered list of the same indent. *)
Definition trip_example : file :=
  file_of_text "Chores
- @ sweep

Trip
# @ book flights
# @ book hotel
# @ pack
".

(** The [jump_to] of the next action stored under key [k]. *)
Definition stored_jump_to (pl : Plate) (k : nat) : option string :=
  na_jump_to <$> next_actions pl !! k.

(** *** Entries that are reached *)

(** Three inboxes; the date of the second is in no calendar. *)
Definition inboxes_with_bad_date : file :=
  file_of_text "= Inboxes =
- Email 2020-01-01 00:01 +2,3
- Fax 2020-02-30 +1,1
- Post 2020-01-01 +1,1
= Thoughts =
".

(** Three inboxes; the date of the last is in no calendar. *)
Definition inboxes_bad_date_last : file :=
  file_of_text "= Inboxes =
- Post 2020-01-01 +1,1
- Email 2020-01-01 00:01 +2,3 @computer
- Fax 2020-02-30 +1,1
= Thoughts =
".

(** The visible and the due date of an entry emptied at [t] are dates
    a [datetime] can hold, the days added being no more than a
    [timedelta] can hold. *)
Definition dates_in_range (t : datetime) (brk win : Z) : bool :=
  (brk <=? 999999999)%Z && in_range (t + brk * us_per_day)
  && (win <=? 999999999)%Z
  && in_range (t + brk * us_per_day + win * us_per_day).

(** Read as an entry of the Inboxes section, the line raises nothing:
    it has no stamp and token, or it has and an item is stored. *)
Definition entry_returns (pl : Plate) (line : string) : Prop :=
  fst (inbox_entry 0 line pl) = Ok tt.

(** *** Context tokens, character by character *)

(** The first character of [s] is in the class [P]. *)
Definition starts_in (P : ascii -> bool) (s : string) : bool :=
  match s with
  | String c _ => P c
  | EmptyString => false
  end.

(** The last character of [s] is in the class [P]. *)
Fixpoint ends_in (P : ascii -> bool) (s : string) : bool :=
  match s with
  | EmptyString => false
  | String c EmptyString => P c
  | String _ s' => ends_in P s'
  end.

(** A context token of [text], in the words of the specification: at
    offset [q] starts a whole run of whitespace (no whitespace stands
    before it), then come one or two [@], then [name], the longest run
    of word characters there, which is not empty. *)
Definition context_token (text : string) (q : nat) (name : string) : Prop :=
  exists before sp ats after,
    text = before +:+ (sp +:+ (ats +:+ (name +:+ after)))
    /\ String.length before = q
    /\ ends_in Chars.is_space before = false
    /\ sp <> "" /\ all_of Chars.is_space sp = true
    /\ (ats = "@" \/ ats = "@@")
    /\ name <> "" /\ all_of Chars.is_word name = true
    /\ starts_in Chars.is_word after = false.

(** The context token at the head of [s], if there is one: its length
    and its name. *)
Definition token_here (s : string) : option (nat * string) :=
  let k := span Chars.is_space s in
  let s1 := drop_str k s in
  let a := span (Chars.is_char "@") s1 in
  let s2 := drop_str a s1 in
  let n := span Chars.is_word s2 in
  if Nat.leb 1 k && (Nat.eqb a 1 || Nat.eqb a 2) && Nat.leb 1 n
  then Some (k + a + n, take_str n s2)
  else None.

(** There is whitespace just before offset [q] of [text]. *)
Definition prev_space (text : string) (q : nat) : bool :=
  match q with
  | O => false
  | S q' => starts_in Chars.is_space (drop_str q' text)
  end.

(** The length of the single-[@] context at the head of [s]: a whole
    run of whitespace, one [@], the longest run of word characters. *)
Definition single_context_here (s : string) : option nat :=
  let k := span Chars.is_space s in
  match drop_str k s with
  | String a w =>
      if Nat.leb 1 k && Ascii.eqb "@" a && Nat.leb 1 (span Chars.is_word w)
      then Some (k + 1 + span Chars.is_word w)
      else None
  | EmptyString => None
  end.

(** The length of the [@@] at the head of [s]. *)
Definition double_at_here (s : string) : option nat :=
  if starts_with "@@" s then Some 2 else None.

(** The text without the pieces that [here] finds, in a scan from
    left to right: a piece found is left out and the scan goes on
    behind it, elsewhere the character is kept.  [skip] is the number
    of characters of a piece still to leave out. *)
Fixpoint without (here : string -> option nat) (skip : nat) (s : string)
  : string :=
  match s with
  | EmptyString => EmptyString
  | String c s' =>
      match skip with
      | S k => without here k s'
      | O =>
          match here s with
          | Some (S n) => without here n s'
          | _ => String c (without here 0 s')
          end
      end
  end.

(** The text without its leading whitespace, one list marker and the
    whitespace behind it; a text that does not begin so is kept. *)
Definition strip_leading_marker (s : string) : string :=
  match drop_str (span Chars.is_space s) s with
  | String c r =>
      if list_marker c then drop_str (span Chars.is_space r) r else s
  | EmptyString => s
  end.

(** * Properties *)

(** ** Humanised time *)

Lemma pluralize_one (unit : string) : pluralize 1 unit None = "1 " +:+ unit.
Proof. reflexivity. Qed.

Lemma pluralize_many (n : Z) (unit : string) :
  n <> 1%Z -> pluralize n unit None = pretty n +:+ " " +:+ unit +:+ "s".
Proof.
  intros Hn. unfold pluralize.
  destruct (Z.eqb_spec n 1) as [->|_]; [contradiction|reflexivity].
Qed.

(** The value of [pretty_date] in terms of the day count and the
    seconds within the day. *)
Lemma pretty_date_same_day (secs : Z) :
  (0 <= secs < 86400)%Z ->
  pretty_date secs =
    if (secs <? 10)%Z then "just now"
    else if (secs <? 60)%Z then pluralize secs "second" None
    else if (secs <? 3600)%Z then pluralize (secs / 60) "minute" None
    else pluralize (secs / 3600) "hour" None.
Proof.
  intros H. unfold pretty_date.
  change (24 * 3600)%Z with 86400%Z.
  rewrite (Z.div_small secs 86400) by lia.
  replace (secs - 0 * 86400)%Z with secs by lia.
  simpl (0 <? 0)%Z. simpl (0 =? 0)%Z. cbv iota.
  destruct (secs <? 10)%Z; [reflexivity|].
  destruct (secs <? 60)%Z; [reflexivity|].
  destruct (secs <? 3600)%Z; [reflexivity|].
  destruct (Z.ltb_spec secs 86400); [reflexivity|lia].
Qed.

Lemma pretty_date_later_day (secs : Z) :
  (86400 <= secs)%Z ->
  pretty_date secs =
    let days := (secs / 86400)%Z in
    if (days <? 7)%Z then pluralize days "day" None
    else if (days <? 31)%Z then pluralize (days / 7) "week" None
    else if (days <? 365)%Z then pluralize (days / 30) "month" None
    else pluralize (days / 365) "year" None.
Proof.
  intros H. unfold pretty_date.
  change (24 * 3600)%Z with 86400%Z.
  assert (Hd : (1 <= secs / 86400)%Z)
    by (apply Z.div_le_lower_bound; lia).
  destruct (Z.ltb_spec (secs / 86400) 0); [lia|].
  destruct (Z.eqb_spec (secs / 86400) 0); [lia|].
  reflexivity.
Qed.

(** C7, as amended: [pretty_date] buckets an elapsed second count by
    floor division, with 7-, 30- and 365-day weeks, months and years;
    5 seconds give "just now", 90 seconds give "1 minute" (90 / 60 is 1),
    90000 seconds "1 day", 20 days "2 weeks" and 400 days "1 year";
    [pluralize] writes "1 unit" for the count 1 and "N units" for any
    other count. *)
Theorem pretty_date_buckets (secs n : Z) (unit : string) :
  (pretty_date 5 = "just now"
   /\ pretty_date 90 = "1 minute"
   /\ pretty_date 90000 = "1 day"
   /\ pretty_date (20 * 86400) = "2 weeks"
   /\ pretty_date (400 * 86400) = "1 year")
  /\ (pluralize 1 unit None = "1 " +:+ unit
      /\ (n <> 1%Z ->
          pluralize n unit None = pretty n +:+ " " +:+ unit +:+ "s"))
  /\ ((0 <= secs < 10)%Z -> pretty_date secs = "just now")
  /\ ((10 <= secs < 60)%Z -> pretty_date secs = pluralize secs "second" None)
  /\ ((60 <= secs < 3600)%Z ->
      pretty_date secs = pluralize (secs / 60) "minute" None)
  /\ ((3600 <= secs < 86400)%Z ->
      pretty_date secs = pluralize (secs / 3600) "hour" None)
  /\ ((86400 <= secs < 7 * 86400)%Z ->
      pretty_date secs = pluralize (secs / 86400) "day" None)
  /\ ((7 * 86400 <= secs < 31 * 86400)%Z ->
      pretty_date secs = pluralize (secs / 86400 / 7) "week" None)
  /\ ((31 * 86400 <= secs < 365 * 86400)%Z ->
      pretty_date secs = pluralize (secs / 86400 / 30) "month" None)
  /\ ((365 * 86400 <= secs)%Z ->
      pretty_date secs = pluralize (secs / 86400 / 365) "year" None).
Proof.
  split; [repeat split; reflexivity|].
  split; [split; [apply pluralize_one|apply pluralize_many]|].
  repeat split; intros H.
  - rewrite pretty_date_same_day by lia.
    destruct (Z.ltb_spec secs 10); [reflexivity|lia].
  - rewrite pretty_date_same_day by lia.
    destruct (Z.ltb_spec secs 10); [lia|].
    destruct (Z.ltb_spec secs 60); [reflexivity|lia].
  - rewrite pretty_date_same_day by lia.
    destruct (Z.ltb_spec secs 10); [lia|].
    destruct (Z.ltb_spec secs 60); [lia|].
    destruct (Z.ltb_spec secs 3600); [reflexivity|lia].
  - rewrite pretty_date_same_day by lia.
    destruct (Z.ltb_spec secs 10); [lia|].
    destruct (Z.ltb_spec secs 60); [lia|].
    destruct (Z.ltb_spec secs 3600); [lia|reflexivity].
  - rewrite pretty_date_later_day by lia. cbv zeta.
    assert ((secs / 86400 < 7)%Z) by (apply Z.div_lt_upper_bound; lia).
    destruct (Z.ltb_spec (secs / 86400) 7); [reflexivity|lia].
  - rewrite pretty_date_later_day by lia. cbv zeta.
    assert ((7 <= secs / 86400)%Z) by (apply Z.div_le_lower_bound; lia).
    assert ((secs / 86400 < 31)%Z) by (apply Z.div_lt_upper_bound; lia).
    destruct (Z.ltb_spec (secs / 86400) 7); [lia|].
    destruct (Z.ltb_spec (secs / 86400) 31); [reflexivity|lia].
  - rewrite pretty_date_later_day by lia. cbv zeta.
    assert ((31 <= secs / 86400)%Z) by (apply Z.div_le_lower_bound; lia).
    assert ((secs / 86400 < 365)%Z) by (apply Z.div_lt_upper_bound; lia).
    destruct (Z.ltb_spec (secs / 86400) 7); [lia|].
    destruct (Z.ltb_spec (secs / 86400) 31); [lia|].
    destruct (Z.ltb_spec (secs / 86400) 365); [reflexivity|lia].
  - rewrite pretty_date_later_day by lia. cbv zeta.
    assert ((365 <= secs / 86400)%Z) by (apply Z.div_le_lower_bound; lia).
    destruct (Z.ltb_spec (secs / 86400) 7); [lia|].
    destruct (Z.ltb_spec (secs / 86400) 31); [lia|].
    destruct (Z.ltb_spec (secs / 86400) 365); [lia|reflexivity].
Qed.

(** At 1800 seconds, a count of 2 and the unit "week": the buckets
    that apply, with their conditions checked. *)
Lemma pretty_date_buckets_witness :
  (60 <= 1800 < 3600)%Z /\ 2%Z <> 1%Z
  /\ pretty_date 1800 = "30 minutes"
  /\ pluralize 2 "week" None = "2 weeks".
Proof.
  pose proof (pretty_date_buckets 1800 2 "week") as H.
  destruct H as (_ & (_ & Hp) & _ & _ & Hm & _).
  split; [lia|]. split; [lia|]. split.
  - rewrite Hm by lia. reflexivity.
  - rewrite Hp by lia. reflexivity.
Defined.

(** C7 as stated fails at 90 seconds: the result is "1 minute". *)
Lemma pretty_date_90_not_2_minutes : pretty_date 90 <> "2 minutes".
Proof. vm_compute. discriminate. Qed.

(** ** Context filtering *)

Lemma str_in_elem_of (x : string) (l : list string) :
  str_in x l = true <-> x ∈ l.
Proof.
  unfold str_in. rewrite existsb_exists. split.
  - intros (y & Hy & He). apply String.eqb_eq in He. subst y.
    now apply list_elem_of_In.
  - intros H. exists x. split; [now apply list_elem_of_In|].
    apply String.eqb_refl.
Qed.

Lemma contexts_ok_loop_none (pl : Plate) (cs : list string) (b : bool) :
  contexts_ok_loop pl cs b = None <->
  exists c, c ∈ cs /\ c ∈ contexts_avoid pl.
Proof.
  revert b. induction cs as [|c cs IH]; intros b; simpl.
  - split; [discriminate|]. intros (c & Hc & _). inversion Hc.
  - destruct (str_in c (contexts_avoid pl)) eqn:Ha.
    + split; [|reflexivity]. intros _. exists c. split; [left|].
      now apply str_in_elem_of.
    + assert (Hna : c ∉ contexts_avoid pl).
      { intros Hin. apply str_in_elem_of in Hin. congruence. }
      destruct (str_in c (contexts_use pl)); rewrite IH;
        (split; intros (c' & Hc' & Hav);
         [exists c'; split; [now right|assumption]
         |exists c'; split; [|assumption];
          apply elem_of_cons in Hc'; destruct Hc' as [->|Hc'];
          [contradiction|assumption]]).
Qed.

Lemma contexts_ok_loop_some (pl : Plate) (cs : list string) (b b' : bool) :
  contexts_ok_loop pl cs b = Some b' ->
  b' = true <-> (b = true \/ exists c, c ∈ cs /\ c ∈ contexts_use pl).
Proof.
  revert b. induction cs as [|c cs IH]; intros b; simpl.
  - intros [= ->]. split; [now left|].
    intros [H|(c & Hc & _)]; [assumption|inversion Hc].
  - destruct (str_in c (contexts_avoid pl)); [discriminate|].
    destruct (str_in c (contexts_use pl)) eqn:Hu; intros H;
      apply IH in H; rewrite H; clear H.
    + split; [|now left]. intros _. right. exists c. split; [left|].
      now apply str_in_elem_of.
    + split; (intros [H|(c' & Hc' & Hu')]; [now left|right]).
      * exists c'. split; [now right|assumption].
      * apply elem_of_cons in Hc'. destruct Hc' as [->|Hc'].
        -- apply str_in_elem_of in Hu'. congruence.
        -- exists c'. now split.
Qed.

(** What [contexts_ok] decides. *)
Lemma contexts_ok_spec (pl : Plate) (cs : list string) (anon : bool) :
  contexts_ok pl cs anon = true <->
  (forall c, c ∈ cs -> c ∉ contexts_avoid pl)
  /\ (anon = true \/ exists c, c ∈ cs /\ c ∈ contexts_use pl).
Proof.
  unfold contexts_ok.
  destruct (contexts_ok_loop pl cs false) as [m|] eqn:Hl.
  - assert (Hno : forall c, c ∈ cs -> c ∉ contexts_avoid pl).
    { intros c Hc Ha.
      assert (Hn : contexts_ok_loop pl cs false = None)
        by (apply contexts_ok_loop_none; eauto).
      congruence. }
    apply contexts_ok_loop_some in Hl.
    rewrite orb_true_iff, Hl. split.
    + intros [[Hf|He]|Ha]; (split; [exact Hno|]);
        [discriminate|now right|now left].
    + intros (_ & [Ha|He]); [now right|left; now right].
  - apply contexts_ok_loop_none in Hl. destruct Hl as (c & Hc & Ha).
    split; [discriminate|]. intros (Hno & _). now apply Hno in Ha.
Qed.

Lemma keys_where_spec {A : Type} (keep : A -> bool) (d : gmap nat A)
    (i : nat) :
  i ∈ keys_where keep d <-> exists x, d !! i = Some x /\ keep x = true.
Proof.
  unfold keys_where. rewrite elem_of_dom. unfold is_Some.
  split; intros (x & Hx); exists x.
  - now apply map_lookup_filter_Some in Hx.
  - now apply map_lookup_filter_Some.
Qed.


(** X30: what the views do filter.  After [update_time_and_contexts],
    a Next Action or an Inbox item is in a displayed set only if none
    of its contexts is in the avoid list and one of them is in the use
    list; a Reminder is in the displayed set only if none of its
    contexts is in the avoid list, and a visible Reminder with no
    contexts at all is displayed.  With use = {home} and no avoid, the
    contexts {home} pass; with home in avoid they fail whatever use
    holds; no contexts fail for the Next Actions and Inbox views and
    pass for Reminders. *)
Theorem context_filtering (current_time context_updated : datetime)
    (context_file : file) (pl0 : Plate) :
  let pl :=
    update_time_and_contexts current_time context_updated context_file pl0 in
  let no_avoid (cs : list string) :=
    forall c, c ∈ cs -> c ∉ contexts_avoid pl in
  let some_use (cs : list string) :=
    exists c, c ∈ cs /\ c ∈ contexts_use pl in
  (forall i, i ∈ display_NextActions_vis pl ∪ display_NextActions_due pl ->
     exists item, next_actions pl !! i = Some item
       /\ no_avoid (na_contexts item) /\ some_use (na_contexts item))
  /\ (forall i, i ∈ display_inboxes_vis pl ∪ display_inboxes_due pl ->
        exists item, inboxes pl !! i = Some item
          /\ no_avoid (inbox_contexts item)
          /\ some_use (inbox_contexts item))
  /\ (forall i, i ∈ display_reminders_vis pl ->
        exists item, reminders pl !! i = Some item
          /\ no_avoid (rem_contexts item))
  /\ (forall i item, reminders pl !! i = Some item ->
        rem_contexts item = [] -> visible pl (rem_TS item) = true ->
        i ∈ display_reminders_vis pl)
  /\ (contexts_use pl = ["home"] -> contexts_avoid pl = [] ->
        contexts_ok pl ["home"] false = true)
  /\ ("home" ∈ contexts_avoid pl ->
        forall anon, contexts_ok pl ["home"] anon = false)
  /\ contexts_ok pl [] false = false
  /\ contexts_ok pl [] true = true.
Proof.
  intros pl no_avoid some_use. repeat split.
  - intros i Hi. apply elem_of_union in Hi.
    destruct Hi as [Hi|Hi]; apply keys_where_spec in Hi;
      destruct Hi as (item & Hit & Hk); exists item; (split; [exact Hit|]);
      repeat (apply andb_true_iff in Hk; destruct Hk as [Hk ?]);
      match goal with
      | H : contexts_ok _ _ false = true |- _ =>
          apply contexts_ok_spec in H; destruct H as (Hn & [Hf|Hu]);
          [discriminate|split; assumption]
      end.
  - intros i Hi. apply elem_of_union in Hi.
    destruct Hi as [Hi|Hi]; apply keys_where_spec in Hi;
      destruct Hi as (item & Hit & Hk); exists item; (split; [exact Hit|]);
      repeat (apply andb_true_iff in Hk; destruct Hk as [Hk ?]);
      match goal with
      | H : contexts_ok _ _ false = true |- _ =>
          apply contexts_ok_spec in H; destruct H as (Hn & [Hf|Hu]);
          [discriminate|split; assumption]
      end.
  - intros i Hi. apply keys_where_spec in Hi.
    destruct Hi as (item & Hit & Hk). exists item. split; [exact Hit|].
    apply andb_true_iff in Hk. destruct Hk as [_ Hk].
    apply contexts_ok_spec in Hk. exact (proj1 Hk).
  - intros i item Hit Hnil Hvis. apply keys_where_spec.
    exists item. split; [exact Hit|]. rewrite Hvis, Hnil. reflexivity.
  - intros Hu Ha. apply contexts_ok_spec. split.
    + intros c _. rewrite Ha. apply not_elem_of_nil.
    + right. exists "home". rewrite Hu. split; left.
  - intros Ha anon. apply not_true_is_false. intros Hok.
    apply contexts_ok_spec in Hok. destruct Hok as (Hn & _).
    apply (Hn "home"); [left|exact Ha].
Qed.

(** A display request on a plate whose contexts file avoids "home":
    the facts of [context_filtering] with their conditions checked. *)
Lemma context_filtering_witness :
  let pl :=
    update_time_and_contexts 100%Z 50%Z (file_of_text "work -home
")
      (Plate_init default_globals 0%Z) in
  "home" ∈ contexts_avoid pl
  /\ contexts_ok pl ["home"] true = false
  /\ contexts_ok pl [] false = false.
Proof.
  pose proof (context_filtering 100%Z 50%Z (file_of_text "work -home
") (Plate_init default_globals 0%Z)) as H.
  cbv zeta in H. destruct H as (_ & _ & _ & _ & _ & Hav & Hno & _).
  assert (Hin : "home" ∈ contexts_avoid
            (update_time_and_contexts 100%Z 50%Z (file_of_text "work -home
") (Plate_init default_globals 0%Z))) by (vm_compute; left).
  cbv zeta. split; [exact Hin|]. split; [exact (Hav Hin true)|exact Hno].
Defined.

(** C3 fails on the code: [contexts_ok] ends in
    [return matches_context or include_anon], so the flag that
    [display_reminders] passes to let in the reminders without any
    context lets in every reminder that is not avoided.  Here the use
    list is {home}, nothing is avoided, and the reminder tagged "work"
    alone is displayed. *)
Lemma reminder_shown_without_use_match :
  contexts_use plate_with_work_reminder = ["home"]
  /\ contexts_avoid plate_with_work_reminder = []
  /\ (exists item, reminders plate_with_work_reminder !! 0 = Some item
        /\ rem_contexts item = ["work"])
  /\ 0 ∈ display_reminders_vis plate_with_work_reminder.
Proof.
  split; [reflexivity|]. split; [reflexivity|]. split.
  - eexists. split; [reflexivity|reflexivity].
  - apply keys_where_spec. eexists. split; reflexivity.
Qed.


(** ** Done items *)

(** A search succeeds when the pattern matches where a suffix starts. *)
Lemma search_from_app (r : regex) (before s : string) (p : nat) :
  (forall q, truthy (match_at r (Cursor q s)) = true) ->
  truthy (search_from r p (before +:+ s)) = true.
Proof.
  intros Hs. revert p. induction before as [|c before IH]; intros p.
  - simpl (_ +:+ _). specialize (Hs p).
    destruct s; simpl; destruct (match_at r _); try reflexivity;
      discriminate.
  - simpl. destruct (match_at r _); [reflexivity|apply IH].
Qed.

Lemma item_done_marker (before marker after : string) :
  marker = "DONE" \/ marker = "WONTDO" ->
  truthy (item_done (before +:+ marker +:+ after)) = true.
Proof.
  intros Hm. unfold item_done, re_search. apply search_from_app.
  intros q. destruct Hm as [->| ->]; reflexivity.
Qed.

Lemma outline_loop_unfold (g : vim_globals) (fuel : nat) (st : locals)
    (current_project : option string) (pl : Plate) :
  outline_loop g (S fuel) st current_project pl =
    if Nat.eqb (cur_linenum st) 0 then Some (Ok (where_ st), pl)
    else
      let indent := opening_whitespace (cur_line st) in
      if Nat.ltb indent (master_indent st) then Some (Ok (where_ st), pl)
      else if is_ordered (list_type st) && blocker_finished st then
        outline_loop g fuel (read_next st) current_project pl
      else if Nat.ltb (master_indent st) indent then
        if parent_done st then
          outline_loop g fuel (read_next st) current_project pl
        else
          if truthy (list_start (cur_line st)) then
            match outline_loop g fuel
                    (enter (cur_linenum st) (cur_line st) (cur_file st))
                    current_project pl with
            | None => None
            | Some (Raise e, pl') => Some (Raise e, pl')
            | Some (Ok back, pl') =>
                outline_loop g fuel (resume st back) current_project pl'
            end
          else outline_loop g fuel (read_next st) current_project pl
      else
        if blocker_started st then
          outline_loop g fuel (set_blocker_finished st) current_project pl
        else
          let (added, pl') :=
            if is_next_action (cur_line st)
            then add_NextAction g (cur_linenum st) (cur_line st) pl
            else (Ok false, pl) in
          match added with
          | Raise e => Some (Raise e, pl')
          | Ok _ =>
              outline_loop g fuel (read_next (mark_sibling st))
                           current_project pl'
          end.
Proof. reflexivity. Qed.

(** C10: on a line that contains DONE or WONTDO, [add_NextAction]
    returns [False] and leaves the plate, [next_actions] and every
    other field, as it was; and [process_outline] hands every sibling
    line shaped like a next action to [add_NextAction], done or not,
    so that it is this check that keeps done items out. *)
Theorem add_NextAction_done (g : vim_globals) (linenum : nat)
    (before marker after : string) (pl : Plate)
    (fuel : nat) (st : locals) (current_project : option string) :
  (marker = "DONE" \/ marker = "WONTDO" ->
   add_NextAction g linenum (before +:+ marker +:+ after) pl = (Ok false, pl))
  /\ (cur_linenum st <> 0 ->
      opening_whitespace (cur_line st) = master_indent st ->
      is_ordered (list_type st) && blocker_finished st = false ->
      blocker_started st = false ->
      is_next_action (cur_line st) = true ->
      outline_loop g (S fuel) st current_project pl =
        match add_NextAction g (cur_linenum st) (cur_line st) pl with
        | (Raise e, pl') => Some (Raise e, pl')
        | (Ok _, pl') =>
            outline_loop g fuel (read_next (mark_sibling st))
                         current_project pl'
        end).
Proof.
  split.
  - intros Hm. unfold add_NextAction.
    rewrite (item_done_marker before marker after Hm). reflexivity.
  - intros Hl Hi Hb Hs Hn. rewrite outline_loop_unfold.
    destruct (Nat.eqb_spec (cur_linenum st) 0) as [|_]; [contradiction|].
    cbv zeta. rewrite Hi, Nat.ltb_irrefl, Hb, Hs, Hn.
    destruct (add_NextAction g (cur_linenum st) (cur_line st) pl)
      as [[b|e] pl']; reflexivity.
Qed.

(** A done next action met as the first line of a list: it goes
    through [add_NextAction], which stores nothing. *)
Lemma add_NextAction_done_witness :
  let pl := Plate_init default_globals 0%Z in
  let st := enter 4 "- @ call mom DONE" [] in
  add_NextAction default_globals 4 ("- @ call mom " +:+ "DONE" +:+ "") pl
    = (Ok false, pl)
  /\ is_next_action (cur_line st) = true
  /\ outline_loop default_globals 2 st None pl = Some (Ok (0, "", []), pl).
Proof.
  cbv zeta.
  pose proof (add_NextAction_done default_globals 4 "- @ call mom " "DONE" ""
                (Plate_init default_globals 0%Z) 1
                (enter 4 "- @ call mom DONE" []) None) as [Ha Hl].
  split; [apply Ha; now left|]. split; [reflexivity|].
  rewrite Hl; [|discriminate|reflexivity|reflexivity|reflexivity|reflexivity].
  change (cur_line (enter 4 "- @ call mom DONE" []))
    with ("- @ call mom " +:+ "DONE" +:+ "").
  change (cur_linenum (enter 4 "- @ call mom DONE" [])) with 4.
  rewrite Ha by now left. reflexivity.
Defined.


(** ** Items and their timestamps *)

Lemma int_of_string_nonneg (s : string) : (0 <= int_of_string s)%Z.
Proof.
  unfold int_of_string.
  assert (H : forall l acc, (0 <= acc)%Z ->
            (0 <= fold_left
                    (fun acc c =>
                       if Chars.is_digit c
                       then acc * 10 + (Z.of_nat (nat_of_ascii c) - 48)
                       else acc) l acc)%Z).
  { induction l as [|c l IH]; intros acc Hacc; simpl; [exact Hacc|].
    apply IH. destruct (Chars.is_digit c) eqn:Hd; [|exact Hacc].
    unfold Chars.is_digit in Hd. apply andb_true_iff in Hd.
    destruct Hd as [Hd _]. apply Nat.leb_le in Hd. lia. }
  apply H. lia.
Qed.

Lemma timedelta_days_nonneg (n delta : Z) :
  (0 <= n)%Z -> timedelta_days n = Ok delta -> (0 <= delta)%Z.
Proof.
  unfold timedelta_days, us_per_day, us_per_minute. intros Hn.
  destruct (Z.abs n <=? 999999999)%Z; [|discriminate].
  intros [= <-]. lia.
Qed.

Lemma add_ok (t delta t' : Z) : add t delta = Ok t' -> t' = (t + delta)%Z.
Proof.
  unfold add. destruct (in_range (t + delta)); [|discriminate].
  now intros [= <-].
Qed.

(** An invariant of the plate that the body of a reading loop keeps,
    whether it returns or raises, is kept by the loop. *)
Lemma reading_loop_invariant (P : Plate -> Prop) (cond : string -> bool)
    (body : nat -> string -> method unit) :
  (forall ln l pl r pl', P pl -> body ln l pl = (r, pl') -> P pl') ->
  forall f ln l pl r pl',
    P pl -> reading_loop cond body ln l f pl = (r, pl') -> P pl'.
Proof.
  intros Hbody. induction f as [|raw f IH]; intros ln l pl r pl' HP;
    simpl; unfold mbind, ret;
    (destruct (Nat.eqb ln 0 || negb (cond l));
     [intros [= <- <-]; exact HP|]);
    destruct (body ln l pl) as [[u|e] pl1] eqn:Hb.
  - intros [= <- <-]. eapply Hbody; eassumption.
  - intros [= <- <-]. eapply Hbody; eassumption.
  - destruct (count_line ln raw) as [ln' l'].
    apply IH. eapply Hbody; eassumption.
  - intros [= <- <-]. eapply Hbody; eassumption.
Qed.

Lemma no_body_keeps (P : Plate -> Prop) (ln : nat) (l : string)
    (pl : Plate) (r : result unit) (pl' : Plate) :
  P pl -> no_body ln l pl = (r, pl') -> P pl'.
Proof. unfold no_body, ret. intros HP [= <- <-]. exact HP. Qed.

Lemma inbox_entry_ordered (ln : nat) (l : string) (pl : Plate)
    (r : result unit) (pl' : Plate) :
  inboxes_ordered pl -> inbox_entry ln l pl = (r, pl') -> inboxes_ordered pl'.
Proof.
  intros HP. unfold inbox_entry.
  destruct (re_search (TS_inbox pl) l) as [m|]; [|intros [= <- <-]; exact HP].
  destruct (parse_and_strip_contexts l) as [text contexts].
  destruct (group_or_raise m "datetime") as [dt|e]; simpl;
    [|intros [= <- <-]; exact HP].
  destruct (parse_datetime dt "") as [last|e]; simpl;
    [|intros [= <- <-]; exact HP].
  destruct (group_or_raise m "break") as [brk|e]; simpl;
    [|intros [= <- <-]; exact HP].
  destruct (timedelta_days (int_of_string brk)) as [delta|e] eqn:Hd; simpl;
    [|intros [= <- <-]; exact HP].
  destruct last as [t|]; simpl; [|intros [= <- <-]; exact HP].
  destruct (add t delta) as [vis|e] eqn:Hv; simpl;
    [|intros [= <- <-]; exact HP].
  destruct (group_or_raise m "window") as [win|e]; simpl;
    [|intros [= <- <-]; exact HP].
  destruct (timedelta_days (int_of_string win)) as [delta'|e] eqn:Hd'; simpl;
    [|intros [= <- <-]; exact HP].
  destruct (add vis delta') as [due|e] eqn:Hu; simpl;
    [|intros [= <- <-]; exact HP].
  intros [= <- <-]. intros k item. simpl.
  destruct (decide (k = next_key (inboxes pl))) as [->|Hk].
  - rewrite lookup_insert_eq. intros [= <-]. simpl.
    apply add_ok in Hv, Hu.
    apply timedelta_days_nonneg in Hd, Hd';
      try apply int_of_string_nonneg. lia.
  - rewrite lookup_insert_ne by congruence. apply HP.
Qed.

Lemma reminder_entry_inboxes (ln : nat) (l : string) (pl : Plate)
    (r : result unit) (pl' : Plate) :
  inboxes_ordered pl -> reminder_entry ln l pl = (r, pl') ->
  inboxes_ordered pl'.
Proof.
  intros HP. unfold reminder_entry.
  destruct (re_search (TS_remind pl) l) as [m|]; [|intros [= <- <-]; exact HP].
  destruct (parse_and_strip_contexts l) as [text contexts].
  destruct (group_or_raise m "datetime") as [dt|e]; simpl;
    [|intros [= <- <-]; exact HP].
  destruct (parse_datetime dt "") as [when|e]; simpl;
    intros [= <- <-]; exact HP.
Qed.

Lemma read_inboxes_ordered (g : vim_globals) (f : file) (pl : Plate)
    (r : result unit) (pl' : Plate) :
  inboxes_ordered pl -> read_inboxes g f pl = (r, pl') -> inboxes_ordered pl'.
Proof.
  intros HP. unfold read_inboxes.
  destruct (read_and_count_lines 0 f) as [[ln0 l0] f0].
  unfold mbind at 1.
  destruct (reading_loop _ no_body ln0 l0 f0 pl) as [[[[ln1 l1] f1]|e] pl1]
    eqn:H1;
    apply (reading_loop_invariant inboxes_ordered _ _
             (no_body_keeps inboxes_ordered) _ _ _ _ _ _ HP) in H1;
    [|intros [= <- <-]; exact H1].
  destruct (read_and_count_lines ln1 f1) as [[ln2 l2] f2].
  unfold mbind at 1.
  destruct (reading_loop _ inbox_entry ln2 l2 f2 pl1)
    as [[[[ln3 l3] f3]|e] pl3] eqn:H3;
    apply (reading_loop_invariant inboxes_ordered _ _
             inbox_entry_ordered _ _ _ _ _ _ H1) in H3;
    [|intros [= <- <-]; exact H3].
  unfold mbind at 1.
  destruct (reading_loop _ no_body ln3 l3 f3 pl3) as [[[[ln4 l4] f4]|e] pl4]
    eqn:H4;
    apply (reading_loop_invariant inboxes_ordered _ _
             (no_body_keeps inboxes_ordered) _ _ _ _ _ _ H3) in H4;
    [|intros [= <- <-]; exact H4].
  destruct (read_and_count_lines ln4 f4) as [[ln5 l5] f5].
  unfold mbind at 1.
  destruct (reading_loop _ reminder_entry ln5 l5 f5 pl4)
    as [[[[ln6 l6] f6]|e] pl6] eqn:H6;
    apply (reading_loop_invariant inboxes_ordered _ _
             reminder_entry_inboxes _ _ _ _ _ _ H4) in H6;
    intros [= <- <-]; exact H6.
Qed.

(** C8, as amended: every InboxItem that [read_inboxes] stores in a
    new plate has its due time at or after its visible time (and that
    at or after the time last emptied), whether the read returns or
    raises. *)
Theorem inbox_due_after_visible (g : vim_globals) (created_at : datetime)
    (f : file) (r : result unit) (pl' : Plate) (k : nat) (item : InboxItem) :
  read_inboxes g f (Plate_init g created_at) = (r, pl') ->
  inboxes pl' !! k = Some item ->
  (inbox_TS_last item <= inbox_TS_vis item
   /\ inbox_TS_vis item <= inbox_TS_due item)%Z.
Proof.
  intros Hread Hk.
  refine (read_inboxes_ordered g f (Plate_init g created_at) r pl' _ Hread
            k item Hk).
  intros k' item'. simpl. rewrite lookup_empty. discriminate.
Qed.

(** The example file read into a new plate: the item stored under key
    0 is ordered. *)
Lemma inbox_due_after_visible_witness :
  exists item,
    inboxes (snd (read_inboxes default_globals inboxes_example
                    (Plate_init default_globals 0%Z))) !! 0 = Some item
    /\ (inbox_TS_last item <= inbox_TS_vis item
        /\ inbox_TS_vis item <= inbox_TS_due item)%Z.
Proof.
  eexists. split; [vm_compute; reflexivity|].
  eapply (inbox_due_after_visible default_globals 0%Z inboxes_example
            _ _ 0).
  - apply surjective_pairing.
  - vm_compute. reflexivity.
Defined.

(** C8 as stated fails for a NextAction: the visible and the due time
    are read from the line one by one, and here the due time comes
    first. *)
Lemma next_action_due_before_visible :
  exists item vis due,
    next_actions
      (snd (add_NextAction default_globals 7
              "- @ call mom >2020-01-10 <2020-01-05"
              (Plate_init default_globals 0%Z))) !! 0 = Some item
    /\ na_TS_vis item = Some vis /\ na_TS_due item = Some due
    /\ make 2020 1 10 0 1 = Ok vis /\ make 2020 1 5 23 59 = Ok due
    /\ (due < vis)%Z.
Proof.
  eexists _, _, _. split; [vm_compute; reflexivity|].
  repeat split.
Qed.


(** ** Lines as they are read *)

Lemma count_line_nonempty (linenum : nat) (raw : string) :
  raw <> "" ->
  count_line linenum raw = (linenum + 1, snd (count_line 0 raw)).
Proof.
  intros Hraw. unfold count_line.
  destruct (String.eqb_spec raw ""); [contradiction|reflexivity].
Qed.

(** Reading when a line is still to come. *)
Lemma read_cons (linenum : nat) (f : file) (x : string) (xs : list string) :
  lines_of f = x :: xs ->
  exists f', read_and_count_lines linenum f = (linenum + 1, x, f')
             /\ lines_of f' = xs.
Proof.
  destruct f as [|raw f']; simpl; [discriminate|].
  destruct (String.eqb_spec raw "") as [|Hraw]; [discriminate|].
  intros [= <- <-]. exists f'. split; [|reflexivity].
  unfold read_and_count_lines. simpl.
  now rewrite (count_line_nonempty linenum raw Hraw).
Qed.

(** Reading at the end of the file. *)
Lemma read_nil (linenum : nat) (f : file) :
  lines_of f = [] ->
  exists l' f', read_and_count_lines linenum f = (0, l', f').
Proof.
  destruct f as [|raw f']; simpl; [eauto|].
  unfold read_and_count_lines, count_line. simpl.
  destruct (String.eqb_spec raw ""); [eauto|discriminate].
Qed.

Lemma upcoming_read (linenum : nat) (f : file) :
  let '(linenum', line', f') := read_and_count_lines linenum f in
  upcoming linenum' line' f' = lines_of f.
Proof.
  destruct (lines_of f) as [|x xs] eqn:Hl.
  - destruct (read_nil linenum f Hl) as (l' & f' & ->). reflexivity.
  - destruct (read_cons linenum f x xs Hl) as (f' & -> & Hf').
    unfold upcoming. rewrite Nat.add_1_r. simpl. now rewrite Hf'.
Qed.

Lemma upcoming_cons (linenum : nat) (line : string) (f : file)
    (x : string) (xs : list string) :
  upcoming linenum line f = x :: xs ->
  linenum <> 0 /\ line = x /\ lines_of f = xs.
Proof.
  unfold upcoming. destruct (Nat.eqb_spec linenum 0); [discriminate|].
  now intros [= -> ->].
Qed.

(** One turn of a reading loop, with the read spelt out as in the
    source. *)
Lemma reading_loop_unfold (cond : string -> bool)
    (body : nat -> string -> method unit)
    (linenum : nat) (line : string) (f : file) :
  reading_loop cond body linenum line f =
    if Nat.eqb linenum 0 || negb (cond line) then ret (linenum, line, f)
    else
      do! _ := body linenum line in
      let '(linenum', line', f') := read_and_count_lines linenum f in
      reading_loop cond body linenum' line' f'.
Proof.
  destruct f as [|raw f']; simpl; [|reflexivity].
  destruct (Nat.eqb linenum 0 || negb (cond line)); reflexivity.
Qed.

(** The loops that skip to a section header stop at the first line
    that matches, the plate untouched. *)
Lemma skip_to_header (pat : regex) (header : string) (after : list string)
    (before : list string) :
  Forall (fun x => not_matching pat x = true) before ->
  not_matching pat header = false ->
  forall linenum line f pl,
    upcoming linenum line f = (before ++ header :: after)%list ->
    exists f',
      reading_loop (not_matching pat) no_body linenum line f pl
        = (Ok (linenum + length before, header, f'), pl)
      /\ lines_of f' = after.
Proof.
  intros Hbefore Hheader.
  induction Hbefore as [|b before Hb _ IH]; intros linenum line f pl Hup;
    simpl in Hup; apply upcoming_cons in Hup; destruct Hup as (Hn & -> & Hf);
    rewrite reading_loop_unfold;
    destruct (Nat.eqb_spec linenum 0) as [|_]; try contradiction; simpl.
  - rewrite Hheader. simpl. exists f. rewrite Nat.add_0_r. now split.
  - rewrite Hb. simpl. unfold mbind.
    change (no_body linenum b pl) with (@Ok unit tt, pl).
    remember (before ++ header :: after)%list as ls eqn:Hls.
    destruct ls as [|x xs]; [destruct before; discriminate|].
    destruct (read_cons linenum f _ _ Hf) as (f1 & -> & Hf1).
    cbv beta iota.
    destruct (IH (linenum + 1) x f1 pl) as (f' & Heq & Hf').
    + unfold upcoming. rewrite Nat.add_1_r. simpl. now rewrite Hf1.
    + exists f'. split; [|exact Hf']. rewrite Heq.
      replace (linenum + 1 + length before)
        with (linenum + S (length before)) by lia.
      reflexivity.
Qed.


(** ** Keys handed out by [next_key] *)

Lemma next_key_size {A : Type} (m : gmap nat A) : next_key m = size m.
Proof. unfold next_key. now destruct (size m). Qed.

Lemma dense_empty {A : Type} : dense (∅ : gmap nat A).
Proof. intros k [x Hx]. rewrite lookup_empty in Hx. discriminate. Qed.

Lemma dense_fresh {A : Type} (m : gmap nat A) :
  dense m -> m !! next_key m = None.
Proof.
  intros Hd. rewrite next_key_size.
  destruct (m !! size m) as [x|] eqn:Hx; [|reflexivity].
  assert (size m < size m) by (apply Hd; eauto). lia.
Qed.

Lemma dense_insert {A : Type} (m : gmap nat A) (x : A) :
  dense m -> dense (<[next_key m := x]> m).
Proof.
  intros Hd k Hk.
  rewrite map_size_insert_None by now apply dense_fresh.
  destruct (decide (k = next_key m)) as [->|Hne].
  - rewrite next_key_size. lia.
  - rewrite lookup_insert_ne in Hk by congruence.
    apply Hd in Hk. lia.
Qed.

Lemma dense_insert_keeps {A : Type} (m : gmap nat A) (x y : A) (k : nat) :
  dense m -> m !! k = Some y -> <[next_key m := x]> m !! k = Some y.
Proof.
  intros Hd Hk. rewrite lookup_insert_ne; [exact Hk|].
  intros <-. rewrite dense_fresh in Hk by assumption. discriminate.
Qed.

(** ** Inbox entries *)

(** Whatever [inbox_entry] does, the pattern stays, and a dense
    dictionary stays dense and keeps its items. *)
Lemma inbox_entry_effect (ln : nat) (l : string) (pl : Plate)
    (r : result unit) (pl' : Plate) :
  inbox_entry ln l pl = (r, pl') ->
  TS_inbox pl' = TS_inbox pl
  /\ (dense (inboxes pl) ->
      dense (inboxes pl')
      /\ forall k item, inboxes pl !! k = Some item ->
                        inboxes pl' !! k = Some item).
Proof.
  unfold inbox_entry.
  destruct (re_search (TS_inbox pl) l) as [m|];
    [|intros [= <- <-]; auto].
  destruct (parse_and_strip_contexts l) as [text contexts].
  match goal with
  | |- context [match ?s with Ok _ => _ | Raise _ => _ end] =>
      destruct s as [item|e]
  end; intros [= <- <-]; [|auto].
  split; [reflexivity|]. simpl. intros Hd. split.
  - now apply dense_insert.
  - intros k it. now apply dense_insert_keeps.
Qed.

(** An entry with a token and a stamp that parses is stored, under
    the next key, with the times the token asks for. *)
Lemma inbox_entry_stores (ln : nat) (line : string) (pl pl' : Plate)
    (t : datetime) (brk win : Z) :
  inbox_token (TS_inbox pl) line t brk win ->
  inbox_entry ln line pl = (Ok tt, pl') ->
  exists item,
    inboxes pl' !! next_key (inboxes pl) = Some item
    /\ inbox_jump_to item = "i" +:+ pretty ln
    /\ inbox_TS_last item = t
    /\ inbox_TS_vis item = (t + brk * us_per_day)%Z
    /\ inbox_TS_due item = (inbox_TS_vis item + win * us_per_day)%Z.
Proof.
  intros (m & dt & b & w & Hs & Hdt & Hp & Hb & -> & Hw & ->).
  unfold inbox_entry. rewrite Hs.
  destruct (parse_and_strip_contexts line) as [text contexts].
  unfold group_or_raise. rewrite Hdt, Hb, Hw. simpl. rewrite Hp. simpl.
  destruct (timedelta_days (int_of_string b)) as [delta|e] eqn:Hd; simpl;
    [|discriminate].
  destruct (add t delta) as [vis|e] eqn:Hv; simpl; [|discriminate].
  destruct (timedelta_days (int_of_string w)) as [delta'|e] eqn:Hd'; simpl;
    [|discriminate].
  destruct (add vis delta') as [due|e] eqn:Hu; simpl; [|discriminate].
  intros [= <-]. eexists. simpl. rewrite lookup_insert_eq.
  split; [reflexivity|]. simpl.
  apply add_ok in Hv, Hu. unfold timedelta_days in Hd, Hd'.
  destruct (Z.abs (int_of_string b) <=? 999999999)%Z; [|discriminate].
  destruct (Z.abs (int_of_string w) <=? 999999999)%Z; [|discriminate].
  injection Hd as <-. injection Hd' as <-. subst vis due. auto.
Qed.


Lemma reminder_entry_same_inboxes (ln : nat) (l : string) (pl : Plate)
    (r : result unit) (pl' : Plate) :
  reminder_entry ln l pl = (r, pl') -> inboxes pl' = inboxes pl.
Proof.
  unfold reminder_entry.
  destruct (re_search (TS_remind pl) l) as [m|]; [|now intros [= <- <-]].
  destruct (parse_and_strip_contexts l) as [text contexts].
  match goal with
  | |- context [match ?s with Ok _ => _ | Raise _ => _ end] =>
      destruct s as [item|e]
  end; now intros [= <- <-].
Qed.

(** Once stored in a dense dictionary, an inbox item stays through
    the rest of the loop over the entries. *)
Lemma inbox_loop_keeps (cond : string -> bool) (k : nat) (item : InboxItem)
    (f : file) (ln : nat) (l : string) (pl : Plate)
    (r : result (nat * string * file)) (pl' : Plate) :
  dense (inboxes pl) -> inboxes pl !! k = Some item ->
  reading_loop cond inbox_entry ln l f pl = (r, pl') ->
  inboxes pl' !! k = Some item.
Proof.
  intros Hd Hk Hloop.
  apply (reading_loop_invariant
           (fun p => dense (inboxes p) /\ inboxes p !! k = Some item)
           cond inbox_entry) in Hloop; [tauto| |tauto].
  intros ln1 l1 p1 r1 p1' (Hd1 & Hk1) He.
  apply inbox_entry_effect in He. destruct He as (_ & He).
  destruct (He Hd1) as (Hd' & Hkeep). auto.
Qed.

(** An inbox whose visible date would fall after year 9999 makes
    [read_inboxes] raise, with nothing stored. *)
Lemma read_inboxes_overflow :
  let out := read_inboxes default_globals inboxes_at_the_end_of_time
               (Plate_init default_globals 0%Z) in
  fst out = Raise OverflowError /\ inboxes (snd out) = ∅.
Proof. vm_compute. split; reflexivity. Qed.


(** ** Date tokens *)

(** A stamp that is neither 10 nor 16 characters long is no date. *)
Lemma parse_datetime_other_length (str date_type : string) :
  String.length str <> 10 -> String.length str <> 16 ->
  parse_datetime str date_type = Ok None.
Proof.
  intros H10 H16. unfold parse_datetime.
  destruct (Nat.eqb_spec (String.length str) 10); [contradiction|].
  destruct (Nat.eqb_spec (String.length str) 16); [contradiction|].
  reflexivity.
Qed.

(** A text without date tokens comes back as it is, without dates. *)
Lemma parse_and_strip_dates_no_token (g : vim_globals) (text : string) :
  re_finditer (date_pattern g) text = [] ->
  parse_and_strip_dates g text = Ok (text, None, None).
Proof.
  intros H. unfold parse_and_strip_dates, re_sub_empty. rewrite H.
  reflexivity.
Qed.

(** C6 fails on the code: a due date of the right length that is no
    date of the calendar makes [parse_datetime], and with it
    [parse_and_strip_dates] and [add_NextAction], raise [ValueError]
    instead of giving [None]. *)
Theorem impossible_date_raises :
  String.length "2020-02-30" = 10
  /\ parse_datetime "2020-02-30" "<" = Raise ValueError
  /\ parse_and_strip_dates default_globals "- @ pay the rent <2020-02-30"
     = Raise ValueError
  /\ fst (add_NextAction default_globals 3 "- @ pay the rent <2020-02-30"
            (Plate_init default_globals 0%Z)) = Raise ValueError.
Proof. vm_compute. repeat split. Qed.


(** ** The outline loop *)

(** What the function computes, the relation derives. *)
Lemma outline_loop_run (g : vim_globals) (current_project : option string)
    (fuel : nat) :
  forall st pl out pl',
    outline_loop g fuel st current_project pl = Some (out, pl') ->
    outline_run g st pl out pl'.
Proof.
  induction fuel as [|fuel IH]; intros st pl out pl'; [discriminate|].
  rewrite outline_loop_unfold. cbv zeta.
  destruct (Nat.eqb_spec (cur_linenum st) 0) as [Hz|Hnz].
  { intros [= <- <-]. now apply run_eof. }
  destruct (Nat.ltb_spec (opening_whitespace (cur_line st)) (master_indent st))
    as [Hlt|Hge].
  { intros [= <- <-]. now apply run_dedent. }
  destruct (is_ordered (list_type st) && blocker_finished st) eqn:Hb.
  { intros H. apply run_blocked; auto. }
  destruct (Nat.ltb_spec (master_indent st) (opening_whitespace (cur_line st)))
    as [Hdeep|Hnot].
  - destruct (parent_done st) eqn:Hpd.
    { intros H. apply run_done_child; auto. }
    destruct (truthy (list_start (cur_line st))) eqn:Hls.
    + destruct (outline_loop g fuel (enter _ _ _) current_project pl)
        as [[[back|e] pl1]|] eqn:Hin; [| |discriminate].
      * intros H. eapply run_nested; eauto.
      * intros [= <- <-]. apply run_nested_raise; auto.
    + intros H. apply run_append; auto.
  - assert (Heq : cur_indent st = master_indent st)
      by (unfold cur_indent; lia).
    destruct (blocker_started st) eqn:Hbs.
    { intros H. apply run_block; auto. }
    destruct (if is_next_action (cur_line st)
              then add_NextAction g (cur_linenum st) (cur_line st) pl
              else (Ok false, pl)) as [[added|e] pl1] eqn:Hadd.
    + intros H. eapply run_sibling; eauto.
    + intros [= <- <-]. apply run_sibling_raise; auto.
Qed.


Lemma added_from_refl (pl : Plate) (P : nat -> Prop) : added_from pl pl P.
Proof. intros key item H. now left. Qed.

Lemma added_from_trans (pl1 pl2 pl3 : Plate) (P Q R : nat -> Prop) :
  added_from pl1 pl2 P -> added_from pl2 pl3 Q ->
  (forall n, P n -> R n) -> (forall n, Q n -> R n) ->
  added_from pl1 pl3 R.
Proof.
  intros H12 H23 HP HQ key item H3.
  destruct (H23 key item H3) as [H2|(n & Hj & Hn)].
  - destruct (H12 key item H2) as [H1|(n & Hj & Hn)]; [now left|].
    right. exists n. auto.
  - right. exists n. auto.
Qed.

Lemma added_from_weaken (pl pl' : Plate) (P Q : nat -> Prop) :
  added_from pl pl' P -> (forall n, P n -> Q n) -> added_from pl pl' Q.
Proof.
  intros H HPQ. apply (added_from_trans pl pl pl' Q P Q); auto.
  apply added_from_refl.
Qed.

(** [add_NextAction] stores at most one item, which names its line. *)
Lemma add_NextAction_added (g : vim_globals) (linenum : nat) (line : string)
    (pl : Plate) (r : result bool) (pl' : Plate) :
  add_NextAction g linenum line pl = (r, pl') ->
  added_from pl pl' (fun n => n = linenum)
  /\ (truthy (item_done line) = true -> pl' = pl).
Proof.
  unfold add_NextAction.
  destruct (truthy (item_done line)).
  { intros [= <- <-]. split; [apply added_from_refl|reflexivity]. }
  destruct (parse_and_strip_contexts line) as [text contexts].
  unfold mbind, lift.
  destruct (parse_and_strip_dates g text) as [[[text' vis] due]|e].
  - intros [= <- <-]. split; [|discriminate].
    intros key item. simpl.
    destruct (decide (key = next_key (next_actions pl))) as [->|Hne].
    + rewrite lookup_insert_eq. intros [= <-]. right.
      exists linenum. now split.
    + rewrite lookup_insert_ne by congruence. now left.
  - intros [= <- <-]. split; [apply added_from_refl|discriminate].
Qed.

Lemma try_add_added (g : vim_globals) (st : locals) (pl : Plate)
    (r : result bool) (pl' : Plate) :
  try_add g st pl = (r, pl') ->
  added_from pl pl' (fun n => n = cur_linenum st)
  /\ (truthy (item_done (cur_line st)) = true -> pl' = pl).
Proof.
  unfold try_add. destruct (is_next_action (cur_line st)).
  - apply add_NextAction_added.
  - intros [= <- <-]. split; [apply added_from_refl|reflexivity].
Qed.

(** The state after a read. *)
Lemma read_next_spec (st : locals) :
  cur_linenum st <> 0 ->
  upcoming_st st = cur_line st :: upcoming_st (read_next st)
  /\ cur_linenum (read_next st)
     = match upcoming_st (read_next st) with
       | [] => 0
       | _ :: _ => cur_linenum st + 1
       end.
Proof.
  intros Hn. unfold upcoming_st at 1. unfold upcoming.
  destruct (Nat.eqb_spec (cur_linenum st) 0) as [|_]; [contradiction|].
  unfold read_next, upcoming_st.
  destruct (lines_of (cur_file st)) as [|x xs] eqn:Hl.
  - destruct (read_nil (cur_linenum st) _ Hl) as (l' & f' & ->).
    simpl. now split.
  - destruct (read_cons (cur_linenum st) _ _ _ Hl) as (f' & -> & Hf').
    simpl. unfold upcoming. rewrite Nat.add_1_r. simpl. rewrite Hf'.
    now split.
Qed.

Lemma upcoming_st_nil (st : locals) :
  cur_linenum st = 0 -> upcoming_st st = [].
Proof. intros H. unfold upcoming_st, upcoming. now rewrite H. Qed.

Lemma upcoming_st_cons (st : locals) :
  cur_linenum st <> 0 ->
  exists rest, upcoming_st st = cur_line st :: rest.
Proof.
  intros H. unfold upcoming_st, upcoming.
  destruct (Nat.eqb_spec (cur_linenum st) 0); [contradiction|eauto].
Qed.

(** ** Runs of lines *)

Lemma run_length_le (m : nat) (ls : list string) :
  run_length m ls <= length ls.
Proof.
  induction ls as [|l ls IH]; simpl; [lia|].
  destruct (Nat.leb m (opening_whitespace l)); simpl; lia.
Qed.

(** A run at a deeper indent is the head of the run at a shallower
    one. *)
Lemma run_length_split (m m' : nat) (ls : list string) :
  m <= m' ->
  run_length m ls
  = run_length m' ls + run_length m (drop (run_length m' ls) ls).
Proof.
  intros Hm. induction ls as [|l ls IH]; simpl; [reflexivity|].
  destruct (Nat.leb_spec m' (opening_whitespace l)) as [Hin|Hout].
  - destruct (Nat.leb_spec m (opening_whitespace l)); [|lia].
    simpl. now rewrite IH.
  - simpl. reflexivity.
Qed.

(** The lines of a run are indented by the indent of the run at
    least. *)
Lemma run_length_lookup (m : nat) (ls : list string) (k : nat) (l : string) :
  k < run_length m ls -> ls !! k = Some l -> m <= opening_whitespace l.
Proof.
  revert k. induction ls as [|x ls IH]; intros k; simpl; [lia|].
  destruct (Nat.leb_spec m (opening_whitespace x)) as [Hin|Hout]; [|lia].
  destruct k as [|k]; simpl.
  - now intros _ [= <-].
  - intros Hk. apply IH. lia.
Qed.

(** The run ends at the first line indented by less. *)
Lemma run_length_end (m : nat) (ls : list string) (l : string) :
  ls !! run_length m ls = Some l -> opening_whitespace l < m.
Proof.
  induction ls as [|x ls IH]; simpl; [discriminate|].
  destruct (Nat.leb_spec m (opening_whitespace x)) as [Hin|Hout]; simpl.
  - exact IH.
  - now intros [= <-].
Qed.


(** ** What a list run covers *)

Lemma read_next_master (st : locals) :
  master_indent (read_next st) = master_indent st.
Proof.
  unfold read_next.
  now destruct (read_and_count_lines _ _) as [[? ?] ?].
Qed.

(** A turn that reads on: the line read over belongs to the run. *)
Lemma spans_read (st st2 : locals) (pl pl1 pl' : Plate)
    (out : result (nat * string * file)) :
  cur_linenum st <> 0 ->
  master_indent st <= cur_indent st ->
  cur_linenum st2 = cur_linenum st -> cur_line st2 = cur_line st ->
  cur_file st2 = cur_file st -> master_indent st2 = master_indent st ->
  added_from pl pl1 (fun n => n = cur_linenum st) ->
  spans (read_next st2) pl1 out pl' ->
  spans st pl out pl'.
Proof.
  intros Hn Hin Hln Hli Hfi Hma Hadd0 [Hadd Hret].
  assert (Hn2 : cur_linenum st2 <> 0) by congruence.
  destruct (read_next_spec st2 Hn2) as (Hup & Hnext).
  assert (Hup' : upcoming_st st = cur_line st :: upcoming_st (read_next st2)).
  { rewrite <- Hli, <- Hup. unfold upcoming_st. congruence. }
  rewrite read_next_master, Hma in Hadd, Hret.
  rewrite Hln in Hnext.
  unfold spans. cbv zeta. rewrite Hup'. simpl run_length.
  unfold cur_indent in Hin. apply Nat.leb_le in Hin. rewrite Hin.
  simpl drop.
  set (ls' := upcoming_st (read_next st2)) in *.
  set (c' := run_length (master_indent st) ls') in *.
  split.
  - eapply added_from_trans; [exact Hadd0|exact Hadd| |].
    + intros n ->. lia.
    + intros n Hr. destruct ls' as [|x xs].
      * subst c'. simpl in Hr. lia.
      * lia.
  - intros ln' l' f' Hout. destruct (Hret ln' l' f' Hout) as (Hu & Hl).
    split; [exact Hu|]. rewrite Hl.
    destruct (drop c' ls') as [|y ys] eqn:Hd; [reflexivity|].
    destruct ls' as [|x xs]; [now rewrite drop_nil in Hd|]. lia.
Qed.

(** Every run of the loop covers its list run. *)
Lemma outline_run_spans (g : vim_globals) (st : locals) (pl : Plate)
    (out : result (nat * string * file)) (pl' : Plate) :
  outline_run g st pl out pl' -> spans st pl out pl'.
Proof.
  induction 1 as
    [st pl Hz
    |st pl Hn Hlt
    |st pl out pl' Hn Hin Hb _ IH
    |st pl out pl' Hn Hdeep Hb Hpd _ IH
    |st pl e pl' Hn Hdeep Hb Hpd Hls _ IH
    |st pl back pl1 out pl' Hn Hdeep Hb Hpd Hls _ IH1 _ IH2
    |st pl out pl' Hn Hdeep Hb Hpd Hls _ IH
    |st pl out pl' Hn Heq Hb Hbs _ IH
    |st pl e pl1 Hn Heq Hb Hbs Hadd
    |st pl added pl1 out pl' Hn Heq Hb Hbs Hadd _ IH].
  - (* end of file *)
    unfold spans. cbv zeta. rewrite (upcoming_st_nil st Hz). simpl.
    split; [apply added_from_refl|].
    unfold where_. intros ln' l' f' [= <- <- <-].
    split; [now apply upcoming_st_nil|exact Hz].
  - (* less indented *)
    unfold spans. cbv zeta.
    destruct (upcoming_st_cons st Hn) as (rest & Hup). rewrite Hup.
    simpl run_length. unfold cur_indent in Hlt.
    destruct (Nat.leb_spec (master_indent st) (opening_whitespace (cur_line st)));
      [lia|].
    simpl. split; [apply added_from_refl|].
    unfold where_. intros ln' l' f' [= <- <- <-].
    split; [exact Hup|lia].
  - (* blocked *)
    apply (spans_read st st pl pl pl' out); auto using added_from_refl.
  - (* child of a done line *)
    apply (spans_read st st pl pl pl' out); auto using added_from_refl.
    lia.
  - (* nested call raises *)
    destruct IH as [Hadd _]. unfold spans. cbv zeta.
    split; [|discriminate].
    eapply added_from_weaken; [exact Hadd|].
    simpl. intros n Hr.
    change (upcoming_st (enter (cur_linenum st) (cur_line st) (cur_file st)))
      with (upcoming_st st) in Hr.
    rewrite (run_length_split (master_indent st)
               (opening_whitespace (cur_line st)) (upcoming_st st))
      by (unfold cur_indent in Hdeep; lia).
    lia.
  - (* nested call returns *)
    destruct IH1 as [Hadd1 Hret1]. destruct IH2 as [Hadd2 Hret2].
    destruct back as [[ln1 l1] f1].
    destruct (Hret1 ln1 l1 f1 eq_refl) as (Hu1 & Hl1).
    simpl in Hadd1, Hu1, Hl1.
    change (upcoming_st (enter (cur_linenum st) (cur_line st) (cur_file st)))
      with (upcoming_st st) in Hadd1, Hu1, Hl1.
    change (upcoming_st (resume st (ln1, l1, f1)))
      with (upcoming ln1 l1 f1) in Hadd2, Hret2.
    change (master_indent (resume st (ln1, l1, f1)))
      with (master_indent st) in Hadd2, Hret2.
    change (cur_linenum (resume st (ln1, l1, f1))) with ln1 in Hadd2, Hret2.
    rewrite Hu1 in Hadd2, Hret2.
    unfold spans. cbv zeta.
    rewrite (run_length_split (master_indent st)
               (opening_whitespace (cur_line st)) (upcoming_st st))
      by (unfold cur_indent in Hdeep; lia).
    set (c1 := run_length (opening_whitespace (cur_line st)) (upcoming_st st))
      in *.
    set (c2 := run_length (master_indent st) (drop c1 (upcoming_st st))) in *.
    rewrite <- drop_drop.
    split.
    + eapply added_from_trans; [exact Hadd1|exact Hadd2| |].
      * intros n Hr. cbv beta in Hr. lia.
      * intros n Hr. cbv beta in Hr.
        destruct (drop c1 (upcoming_st st)) as [|y ys].
        -- subst c2. simpl in Hr. lia.
        -- lia.
    + intros ln' l' f' Hout. destruct (Hret2 ln' l' f' Hout) as (Hu & Hl).
      split; [exact Hu|]. rewrite Hl.
      destruct (drop c2 (drop c1 (upcoming_st st))) as [|z zs] eqn:Hd;
        [reflexivity|].
      destruct (drop c1 (upcoming_st st)) as [|y ys];
        [now rewrite drop_nil in Hd|]. lia.
  - (* text to append *)
    apply (spans_read st st pl pl pl' out); auto using added_from_refl.
    lia.
  - (* a blocker was passed *)
    exact IH.
  - (* a sibling, add_NextAction raises *)
    apply try_add_added in Hadd. destruct Hadd as [Hadd _].
    unfold spans. cbv zeta. split; [|discriminate].
    eapply added_from_weaken; [exact Hadd|].
    intros n ->. destruct (upcoming_st_cons st Hn) as (rest & ->).
    simpl. unfold cur_indent in Heq. rewrite Heq, Nat.leb_refl. lia.
  - (* a sibling *)
    apply try_add_added in Hadd. destruct Hadd as [Hadd _].
    apply (spans_read st (mark_sibling st) pl pl1 pl' out); auto. lia.
Qed.


(** ** Termination *)

Lemma outline_loop_sibling (g : vim_globals) (fuel : nat) (st : locals)
    (current_project : option string) (pl : Plate) :
  cur_linenum st <> 0 -> cur_indent st = master_indent st ->
  blocked st = false -> blocker_started st = false ->
  outline_loop g (S fuel) st current_project pl =
    match try_add g st pl with
    | (Raise e, pl') => Some (Raise e, pl')
    | (Ok _, pl') =>
        outline_loop g fuel (read_next (mark_sibling st)) current_project pl'
    end.
Proof.
  unfold cur_indent, blocked, try_add. intros Hn Hi Hb Hs.
  rewrite outline_loop_unfold.
  destruct (Nat.eqb_spec (cur_linenum st) 0) as [|_]; [contradiction|].
  cbv zeta. rewrite Hi, Nat.ltb_irrefl, Hb, Hs.
  destruct (if is_next_action (cur_line st) then _ else _) as [[b|e] pl'];
    reflexivity.
Qed.

Lemma outline_loop_blocked (g : vim_globals) (fuel : nat) (st : locals)
    (current_project : option string) (pl : Plate) :
  cur_linenum st <> 0 -> master_indent st <= cur_indent st ->
  blocked st = true ->
  outline_loop g (S fuel) st current_project pl =
    outline_loop g fuel (read_next st) current_project pl.
Proof.
  unfold cur_indent, blocked. intros Hn Hi Hb.
  rewrite outline_loop_unfold.
  destruct (Nat.eqb_spec (cur_linenum st) 0) as [|_]; [contradiction|].
  cbv zeta.
  destruct (Nat.ltb_spec (opening_whitespace (cur_line st)) (master_indent st));
    [lia|].
  now rewrite Hb.
Qed.

Lemma read_next_flags_ok (st : locals) : flags_ok st -> flags_ok (read_next st).
Proof.
  unfold flags_ok, read_next.
  now destruct (read_and_count_lines _ _) as [[? ?] ?].
Qed.

Lemma mark_sibling_flags_ok (st : locals) :
  flags_ok st -> flags_ok (mark_sibling st).
Proof.
  unfold flags_ok, mark_sibling. simpl.
  destruct (truthy (item_done (cur_line st))); [auto|].
  destruct (is_ordered (list_type st)); auto.
Qed.

Lemma enter_flags_ok (linenum : nat) (line : string) (f : file) :
  flags_ok (enter linenum line f).
Proof. unfold flags_ok. simpl. discriminate. Qed.

Lemma read_next_length (st : locals) :
  cur_linenum st <> 0 ->
  length (upcoming_st st) = S (length (upcoming_st (read_next st))).
Proof.
  intros Hn. destruct (read_next_spec st Hn) as (-> & _). reflexivity.
Qed.

(** With fuel for two turns per line still to come, and one more, the
    loop comes to an end. *)
Lemma outline_loop_enough (g : vim_globals)
    (current_project : option string) (fuel : nat) :
  forall st pl,
    flags_ok st -> 2 * length (upcoming_st st) + 1 <= fuel ->
    exists out pl', outline_loop g fuel st current_project pl = Some (out, pl').
Proof.
  induction fuel as [fuel IH] using lt_wf_ind. intros st pl Hok Hfuel.
  destruct fuel as [|fuel]; [lia|].
  rewrite outline_loop_unfold. cbv zeta.
  destruct (Nat.eqb_spec (cur_linenum st) 0) as [Hz|Hn]; [eauto|].
  destruct (Nat.ltb_spec (opening_whitespace (cur_line st)) (master_indent st))
    as [Hlt|Hge]; [eauto|].
  pose proof (read_next_length st Hn) as Hlen.
  assert (Hread : forall pl0,
            exists out pl',
              outline_loop g fuel (read_next st) current_project pl0
              = Some (out, pl')).
  { intros pl0. apply IH; [lia|now apply read_next_flags_ok|lia]. }
  destruct (is_ordered (list_type st) && blocker_finished st) eqn:Hb;
    [apply Hread|].
  destruct (Nat.ltb_spec (master_indent st) (opening_whitespace (cur_line st)))
    as [Hdeep|Hnot].
  - destruct (parent_done st); [apply Hread|].
    destruct (truthy (list_start (cur_line st))); [|apply Hread].
    (* the nested call: its first turn reads on *)
    destruct fuel as [|fuel2]; [lia|].
    set (inner := enter (cur_linenum st) (cur_line st) (cur_file st)).
    assert (Hin : exists out1 pl1,
              outline_loop g (S fuel2) inner current_project pl
              = Some (out1, pl1)).
    { rewrite outline_loop_sibling;
        [|exact Hn|reflexivity|apply andb_false_r|reflexivity].
      destruct (try_add g inner pl) as [[b|e] pl1]; [|eauto].
      apply IH; [lia| |].
      - apply read_next_flags_ok, mark_sibling_flags_ok, enter_flags_ok.
      - pose proof (read_next_length (mark_sibling inner) Hn) as Hl2.
        change (upcoming_st (mark_sibling inner)) with (upcoming_st st) in Hl2.
        lia. }
    destruct Hin as (out1 & pl1 & Hin). rewrite Hin.
    destruct out1 as [back|e]; [|eauto].
    pose proof (outline_run_spans _ _ _ _ _
                  (outline_loop_run _ _ _ _ _ _ _ Hin)) as [_ Hret].
    destruct back as [[ln1 l1] f1].
    destruct (Hret ln1 l1 f1 eq_refl) as (Hu & _).
    change (upcoming_st inner) with (upcoming_st st) in Hu.
    apply IH; [lia|exact Hok|].
    change (upcoming_st (resume st (ln1, l1, f1))) with (upcoming ln1 l1 f1).
    rewrite Hu, length_drop.
    destruct (upcoming_st_cons st Hn) as (rest & Hup). rewrite Hup in *.
    simpl run_length. simpl. rewrite Nat.leb_refl. simpl in Hfuel. lia.
  - assert (Heq : cur_indent st = master_indent st)
      by (unfold cur_indent; lia).
    destruct (blocker_started st) eqn:Hbs.
    + (* a blocker was passed: the next turn reads on *)
      destruct fuel as [|fuel2]; [lia|].
      rewrite outline_loop_blocked.
      * apply IH; [lia| |].
        -- apply read_next_flags_ok. exact Hok.
        -- pose proof (read_next_length (set_blocker_finished st) Hn) as Hl2.
           change (upcoming_st (set_blocker_finished st))
             with (upcoming_st st) in Hl2.
           lia.
      * exact Hn.
      * change (cur_indent (set_blocker_finished st)) with (cur_indent st).
        simpl. lia.
      * unfold blocked. simpl. rewrite (Hok Hbs). reflexivity.
    + destruct (if is_next_action (cur_line st) then _ else _)
        as [[b|e] pl1]; [|eauto].
      apply IH; [lia| |].
      * apply read_next_flags_ok, mark_sibling_flags_ok, Hok.
      * pose proof (read_next_length (mark_sibling st) Hn) as Hl2.
        change (upcoming_st (mark_sibling st)) with (upcoming_st st) in Hl2.
        lia.
Qed.


(** More fuel does not change the outcome. *)
Lemma outline_loop_mono (g : vim_globals) (current_project : option string)
    (fuel : nat) :
  forall st pl r,
    outline_loop g fuel st current_project pl = Some r ->
    outline_loop g (S fuel) st current_project pl = Some r.
Proof.
  induction fuel as [|fuel IH]; intros st pl r; [discriminate|].
  rewrite (outline_loop_unfold g (S fuel)), (outline_loop_unfold g fuel).
  cbv zeta.
  destruct (Nat.eqb (cur_linenum st) 0); [auto|].
  destruct (Nat.ltb (opening_whitespace (cur_line st)) (master_indent st));
    [auto|].
  destruct (is_ordered (list_type st) && blocker_finished st); [apply IH|].
  destruct (Nat.ltb (master_indent st) (opening_whitespace (cur_line st))).
  - destruct (parent_done st); [apply IH|].
    destruct (truthy (list_start (cur_line st))); [|apply IH].
    destruct (outline_loop g fuel (enter _ _ _) current_project pl)
      as [[[back|e] pl1]|] eqn:Hin; [| |discriminate].
    + rewrite (IH _ _ _ Hin). apply IH.
    + rewrite (IH _ _ _ Hin). auto.
  - destruct (blocker_started st); [apply IH|].
    destruct (if is_next_action (cur_line st) then _ else _)
      as [[b|e] pl1]; [apply IH|auto].
Qed.

Lemma outline_loop_more (g : vim_globals) (current_project : option string)
    (fuel fuel' : nat) (st : locals) (pl : Plate)
    (r : result (nat * string * file) * Plate) :
  fuel <= fuel' ->
  outline_loop g fuel st current_project pl = Some r ->
  outline_loop g fuel' st current_project pl = Some r.
Proof.
  induction 1 as [|fuel' _ IH]; [auto|].
  intros H. apply outline_loop_mono. auto.
Qed.

Lemma lines_of_length (f : file) : length (lines_of f) <= length f.
Proof.
  induction f as [|raw f IH]; simpl; [lia|].
  destruct (String.eqb raw ""); simpl; lia.
Qed.

Lemma enough_fuel_enough (linenum : nat) (line : string) (f : file) :
  2 * length (upcoming linenum line f) + 1 <= enough_fuel f.
Proof.
  unfold upcoming, enough_fuel. pose proof (lines_of_length f).
  destruct (Nat.eqb linenum 0); simpl; lia.
Qed.

(** A call of [process_outline] with enough fuel has an outcome. *)
Lemma process_outline_outcome (g : vim_globals) (fuel linenum : nat)
    (line : string) (f : file) (current_project : option string)
    (pl : Plate) :
  enough_fuel f <= fuel ->
  exists out pl',
    process_outline g fuel linenum line f current_project pl
    = Some (out, pl')
    /\ outline_run g (enter linenum line f) pl out pl'.
Proof.
  intros Hfuel. unfold process_outline.
  destruct (outline_loop_enough g current_project fuel
              (enter linenum line f) pl) as (out & pl' & H).
  - apply enter_flags_ok.
  - pose proof (enough_fuel_enough linenum line f).
    change (upcoming_st (enter linenum line f)) with (upcoming linenum line f).
    lia.
  - exists out, pl'. split; [exact H|].
    eapply outline_loop_run. exact H.
Qed.

(** C9: on every file [process_outline] comes to an end, the same
    with any further fuel; when it returns, it has read the list run,
    the lines from the current one on that are indented as much as it
    or more, and stands at the first line indented less, or at the
    end of the file with the number 0; the line number went up by one
    for each line of the run, and the run holds the current line, so
    every call, nested ones too, moves on. *)
Theorem process_outline_terminates (g : vim_globals) (fuel linenum : nat)
    (line : string) (f : file) (current_project : option string)
    (pl : Plate) :
  enough_fuel f <= fuel ->
  let ls := upcoming linenum line f in
  let c := run_length (opening_whitespace line) ls in
  exists out pl',
    process_outline g fuel linenum line f current_project pl
    = Some (out, pl')
    /\ (forall fuel', fuel <= fuel' ->
        process_outline g fuel' linenum line f current_project pl
        = Some (out, pl'))
    /\ (linenum <> 0 -> 1 <= c)
    /\ forall linenum' line' f',
         out = Ok (linenum', line', f') ->
         upcoming linenum' line' f' = drop c ls
         /\ (forall l, drop c ls !! 0 = Some l ->
             opening_whitespace l < opening_whitespace line)
         /\ linenum' = match drop c ls with
                       | [] => 0
                       | _ :: _ => linenum + c
                       end.
Proof.
  intros Hfuel ls c.
  destruct (process_outline_outcome g fuel linenum line f current_project pl
              Hfuel) as (out & pl' & Hout & Hrun).
  exists out, pl'. split; [exact Hout|]. split; [|split].
  - intros fuel' Hle. unfold process_outline in *.
    eapply outline_loop_more; eassumption.
  - intros Hn. subst c ls. unfold upcoming.
    destruct (Nat.eqb_spec linenum 0); [contradiction|].
    simpl. rewrite Nat.leb_refl. lia.
  - intros ln' l' f' ->.
    destruct (outline_run_spans _ _ _ _ _ Hrun) as [_ Hret].
    destruct (Hret ln' l' f' eq_refl) as (Hu & Hl).
    split; [exact Hu|]. split; [|exact Hl].
    intros l Hl0. rewrite lookup_drop, Nat.add_0_r in Hl0.
    apply run_length_end in Hl0. exact Hl0.
Qed.

(** The example outline: the call that starts at its first line
    reads all five lines and returns at the end of the file. *)
Lemma process_outline_terminates_witness :
  exists pl',
    process_outline default_globals 20 1 "# @ one" (tail projects_example)
      None (Plate_init default_globals 0%Z) = Some (Ok (0, "", []), pl')
    /\ run_length 0 (upcoming 1 "# @ one" (tail projects_example)) = 5.
Proof.
  destruct (process_outline_terminates default_globals 20 1 "# @ one"
              (tail projects_example) None (Plate_init default_globals 0%Z))
    as (out & pl' & Hout & _ & _ & _).
  - vm_compute. lia.
  - exists pl'. split; [|vm_compute; reflexivity].
    rewrite Hout. f_equal. f_equal.
    assert (Hc : fst <$> process_outline default_globals 20 1 "# @ one"
                   (tail projects_example) None
                   (Plate_init default_globals 0%Z)
                 = Some (Ok (0, "", [])))
      by (vm_compute; reflexivity).
    rewrite Hout in Hc. simpl in Hc. congruence.
Defined.


(** ** Blocked lists and done parents *)

Lemma read_next_flags (st : locals) :
  list_type (read_next st) = list_type st
  /\ blocker_started (read_next st) = blocker_started st
  /\ blocker_finished (read_next st) = blocker_finished st
  /\ parent_done (read_next st) = parent_done st.
Proof.
  unfold read_next.
  now destruct (read_and_count_lines _ _) as [[? ?] ?].
Qed.

Lemma read_next_blocked (st : locals) : blocked (read_next st) = blocked st.
Proof.
  unfold blocked. destruct (read_next_flags st) as (-> & _ & -> & _).
  reflexivity.
Qed.

(** Once an ordered list is blocked, nothing is stored any more. *)
Lemma blocked_adds_nothing (g : vim_globals) (st : locals) (pl : Plate)
    (out : result (nat * string * file)) (pl' : Plate) :
  outline_run g st pl out pl' -> blocked st = true -> pl' = pl.
Proof.
  induction 1; intros Hblk; try congruence.
  apply IHoutline_run. now rewrite read_next_blocked.
Qed.

(** The lines that come first and are indented by [m] or more, when a
    line was read: the items added after it count from the next line
    number. *)
Lemma added_after_read (st st2 : locals) (m : nat) (pl pl1 pl' : Plate) :
  cur_linenum st <> 0 ->
  m <= cur_indent st ->
  cur_linenum st2 = cur_linenum st -> cur_line st2 = cur_line st ->
  cur_file st2 = cur_file st ->
  added_from pl pl1 (fun n => n = cur_linenum st) ->
  added_from pl1 pl'
    (fun n => cur_linenum (read_next st2) <= n
              < cur_linenum (read_next st2)
                + run_length m (upcoming_st (read_next st2))) ->
  added_from pl pl'
    (fun n => cur_linenum st <= n
              < cur_linenum st + run_length m (upcoming_st st)).
Proof.
  intros Hn Hin Hln Hli Hfi Hadd0 Hadd.
  assert (Hn2 : cur_linenum st2 <> 0) by congruence.
  destruct (read_next_spec st2 Hn2) as (Hup & Hnext).
  assert (Hup' : upcoming_st st = cur_line st :: upcoming_st (read_next st2)).
  { rewrite <- Hli, <- Hup. unfold upcoming_st. congruence. }
  rewrite Hln in Hnext. rewrite Hup'. simpl run_length.
  unfold cur_indent in Hin. apply Nat.leb_le in Hin. rewrite Hin.
  eapply added_from_trans; [exact Hadd0|exact Hadd| |].
  - intros n ->. lia.
  - intros n Hr. cbv beta in Hr.
    destruct (upcoming_st (read_next st2)) as [|x xs]; simpl in *; lia.
Qed.

(** After a blocker, an ordered list only stores what comes from the
    lines below the blocker: those that follow at once and are
    indented more than the list. *)
Lemma started_adds_below (g : vim_globals) (st : locals) (pl : Plate)
    (out : result (nat * string * file)) (pl' : Plate) :
  outline_run g st pl out pl' ->
  blocker_started st = true -> is_ordered (list_type st) = true ->
  added_from pl pl'
    (fun n => cur_linenum st <= n
              < cur_linenum st
                + run_length (S (master_indent st)) (upcoming_st st)).
Proof.
  induction 1 as
    [st pl Hz
    |st pl Hn Hlt
    |st pl out pl' Hn Hin Hb Hrun IH
    |st pl out pl' Hn Hdeep Hb Hpd Hrun IH
    |st pl e pl' Hn Hdeep Hb Hpd Hls Hrun IH
    |st pl back pl1 out pl' Hn Hdeep Hb Hpd Hls Hrun1 IH1 Hrun2 IH2
    |st pl out pl' Hn Hdeep Hb Hpd Hls Hrun IH
    |st pl out pl' Hn Heq Hb Hbs Hrun IH
    |st pl e pl1 Hn Heq Hb Hbs Hadd
    |st pl added pl1 out pl' Hn Heq Hb Hbs Hadd Hrun IH];
    intros Hst Hord; try congruence.
  - apply added_from_refl.
  - apply added_from_refl.
  - rewrite (blocked_adds_nothing _ _ _ _ _ Hrun);
      [apply added_from_refl|now rewrite read_next_blocked].
  - apply (added_after_read st st (S (master_indent st)) pl pl pl');
      [exact Hn|exact Hdeep|reflexivity|reflexivity|reflexivity
      |apply added_from_refl|].
    destruct (read_next_flags st) as (Hlt' & Hbs' & _).
    rewrite <- (read_next_master st). apply IH; congruence.
  - apply outline_run_spans in Hrun. destruct Hrun as [Hadd _].
    eapply added_from_weaken; [exact Hadd|].
    intros n Hr. simpl in Hr.
    change (upcoming_st (enter (cur_linenum st) (cur_line st) (cur_file st)))
      with (upcoming_st st) in Hr.
    rewrite (run_length_split (S (master_indent st))
               (opening_whitespace (cur_line st)) (upcoming_st st))
      by exact Hdeep.
    lia.
  - apply outline_run_spans in Hrun1. destruct Hrun1 as [Hadd1 Hret1].
    destruct back as [[ln1 l1] f1].
    destruct (Hret1 ln1 l1 f1 eq_refl) as (Hu1 & Hl1).
    specialize (IH2 Hst Hord).
    simpl in Hadd1, Hu1, Hl1.
    change (upcoming_st (enter (cur_linenum st) (cur_line st) (cur_file st)))
      with (upcoming_st st) in Hadd1, Hu1, Hl1.
    change (upcoming_st (resume st (ln1, l1, f1)))
      with (upcoming ln1 l1 f1) in IH2.
    change (master_indent (resume st (ln1, l1, f1)))
      with (master_indent st) in IH2.
    change (cur_linenum (resume st (ln1, l1, f1))) with ln1 in IH2.
    rewrite Hu1 in IH2.
    rewrite (run_length_split (S (master_indent st))
               (opening_whitespace (cur_line st)) (upcoming_st st))
      by exact Hdeep.
    eapply added_from_trans; [exact Hadd1|exact IH2| |].
    + intros n Hr. cbv beta in Hr. lia.
    + intros n Hr. cbv beta in Hr.
      destruct (drop _ (upcoming_st st)) as [|y ys]; simpl in *; lia.
  - apply (added_after_read st st (S (master_indent st)) pl pl pl');
      [exact Hn|exact Hdeep|reflexivity|reflexivity|reflexivity
      |apply added_from_refl|].
    destruct (read_next_flags st) as (Hlt' & Hbs' & _).
    rewrite <- (read_next_master st). apply IH; congruence.
  - rewrite (blocked_adds_nothing _ _ _ _ _ Hrun);
      [apply added_from_refl|].
    unfold blocked. simpl. now rewrite Hord.
Qed.


Lemma added_from_both (pl pl' : Plate) (P Q : nat -> Prop) :
  added_from pl pl' P -> added_from pl pl' Q ->
  added_from pl pl' (fun n => P n /\ Q n).
Proof.
  intros HP HQ key item H.
  destruct (HP key item H) as [|(n & Hj & Hn)]; [now left|].
  destruct (HQ key item H) as [|(n' & Hj' & Hn')]; [now left|].
  right. exists n. split; [exact Hj|]. split; [exact Hn|].
  rewrite Hj in Hj'. injection Hj' as Hj'.
  assert (Hnn : n = n') by (apply (inj (pretty : nat -> string)), Hj').
  now subst n'.
Qed.

Lemma run_length_stop (st : locals) (m : nat) :
  cur_linenum st <> 0 -> cur_indent st < m ->
  run_length m (upcoming_st st) = 0.
Proof.
  intros Hn Hlt. destruct (upcoming_st_cons st Hn) as (rest & ->).
  simpl. unfold cur_indent in Hlt.
  destruct (Nat.leb_spec m (opening_whitespace (cur_line st))); [lia|].
  reflexivity.
Qed.

Lemma run_length_cons_in (m : nat) (l : string) (ls : list string) :
  m <= opening_whitespace l -> run_length m (l :: ls) = S (run_length m ls).
Proof. intros H. simpl. apply Nat.leb_le in H. now rewrite H. Qed.

(** What a run stores comes from the current line or a later one. *)
Lemma outline_run_from_here (g : vim_globals) (st : locals) (pl : Plate)
    (out : result (nat * string * file)) (pl' : Plate) :
  outline_run g st pl out pl' ->
  added_from pl pl' (fun n => cur_linenum st <= n).
Proof.
  intros Hrun. apply outline_run_spans in Hrun. destruct Hrun as [Hadd _].
  eapply added_from_weaken; [exact Hadd|]. intros n Hr. cbv beta in Hr. lia.
Qed.

(** What is stored after a read comes from a later line. *)
Lemma added_later (g : vim_globals) (st st2 : locals) (pl pl' : Plate)
    (out : result (nat * string * file)) :
  cur_linenum st2 <> 0 ->
  cur_linenum st2 = cur_linenum st ->
  outline_run g (read_next st2) pl out pl' ->
  added_from pl pl' (fun n => cur_linenum st + 1 <= n).
Proof.
  intros Hn Hln Hrun. apply outline_run_spans in Hrun.
  destruct Hrun as [Hadd _].
  destruct (read_next_spec st2 Hn) as (_ & Hnext).
  eapply added_from_weaken; [exact Hadd|]. intros n Hr. cbv beta in Hr.
  destruct (upcoming_st (read_next st2)) as [|x xs]; simpl in *; lia.
Qed.

(** Below a done line nothing is stored: what a run stores while
    [parent_done] holds comes after the lines that follow at once and
    are indented more than the list. *)
Lemma done_parent_skips (g : vim_globals) (st : locals) (pl : Plate)
    (out : result (nat * string * file)) (pl' : Plate) :
  outline_run g st pl out pl' ->
  parent_done st = true -> flags_ok st ->
  added_from pl pl'
    (fun n => cur_linenum st
              + run_length (S (master_indent st)) (upcoming_st st) <= n).
Proof.
  induction 1 as
    [st pl Hz
    |st pl Hn Hlt
    |st pl out pl' Hn Hin Hb Hrun IH
    |st pl out pl' Hn Hdeep Hb Hpd Hrun IH
    |st pl e pl' Hn Hdeep Hb Hpd Hls Hrun IH
    |st pl back pl1 out pl' Hn Hdeep Hb Hpd Hls Hrun1 IH1 Hrun2 IH2
    |st pl out pl' Hn Hdeep Hb Hpd Hls Hrun IH
    |st pl out pl' Hn Heq Hb Hbs Hrun IH
    |st pl e pl1 Hn Heq Hb Hbs Hadd
    |st pl added pl1 out pl' Hn Heq Hb Hbs Hadd Hrun IH];
    intros Hdone Hok; try congruence.
  - apply added_from_refl.
  - apply added_from_refl.
  - rewrite (blocked_adds_nothing _ _ _ _ _ Hrun);
      [apply added_from_refl|now rewrite read_next_blocked].
  - destruct (read_next_flags st) as (_ & _ & _ & Hpd').
    specialize (IH (eq_trans Hpd' Hdone) (read_next_flags_ok st Hok)).
    rewrite read_next_master in IH.
    pose proof (outline_run_spans _ _ _ _ _ Hrun) as [Hsp _].
    rewrite read_next_master in Hsp.
    destruct (read_next_spec st Hn) as (Hup & Hnext). rewrite Hup.
    rewrite run_length_cons_in by exact Hdeep.
    eapply added_from_weaken; [exact (added_from_both _ _ _ _ Hsp IH)|].
    intros n [Hr1 Hr2].
    destruct (upcoming_st (read_next st)) as [|x xs]; simpl in *; lia.
  - rewrite (blocked_adds_nothing _ _ _ _ _ Hrun);
      [apply added_from_refl|].
    unfold blocked. simpl. now rewrite (Hok Hbs).
  - rewrite run_length_stop by (auto; lia). rewrite Nat.add_0_r.
    apply try_add_added in Hadd. destruct Hadd as [Hadd _].
    eapply added_from_weaken; [exact Hadd|]. intros n ->. lia.
  - rewrite run_length_stop by (auto; lia). rewrite Nat.add_0_r.
    apply try_add_added in Hadd. destruct Hadd as [Hadd _].
    eapply added_from_trans;
      [exact Hadd
      |exact (added_later g st (mark_sibling st) pl1 pl' out Hn eq_refl Hrun)
      | |].
    + intros n ->. lia.
    + intros n Hr. cbv beta in Hr. lia.
Qed.


(** A line of the indent [m] stands at or after the end of any run of
    a deeper indent. *)
Lemma run_length_before (m m' : nat) (ls : list string) (i : nat)
    (a : string) :
  ls !! i = Some a -> opening_whitespace a = m -> m < m' ->
  run_length m' ls <= i.
Proof.
  intros Ha Hm Hlt. destruct (Nat.le_gt_cases (run_length m' ls) i) as [|Hi];
    [assumption|].
  pose proof (run_length_lookup m' ls i a Hi Ha). lia.
Qed.

(** In an ordered list, once a line of the list's indent is not done,
    nothing is stored from the next line of that indent on. *)
Lemma ordered_run_blocks (g : vim_globals) (st : locals) (pl : Plate)
    (out : result (nat * string * file)) (pl' : Plate) :
  outline_run g st pl out pl' ->
  is_ordered (list_type st) = true ->
  forall i j a b,
    i < j ->
    upcoming_st st !! i = Some a -> upcoming_st st !! j = Some b ->
    opening_whitespace a = master_indent st ->
    truthy (item_done a) = false ->
    opening_whitespace b = master_indent st ->
    j < run_length (master_indent st) (upcoming_st st) ->
    added_from pl pl' (fun n => cur_linenum st <= n < cur_linenum st + j).
Proof.
  induction 1 as
    [st pl Hz
    |st pl Hn Hlt
    |st pl out pl' Hn Hin Hb Hrun IH
    |st pl out pl' Hn Hdeep Hb Hpd Hrun IH
    |st pl e pl' Hn Hdeep Hb Hpd Hls Hrun IH
    |st pl back pl1 out pl' Hn Hdeep Hb Hpd Hls Hrun1 IH1 Hrun2 IH2
    |st pl out pl' Hn Hdeep Hb Hpd Hls Hrun IH
    |st pl out pl' Hn Heq Hb Hbs Hrun IH
    |st pl e pl1 Hn Heq Hb Hbs Hadd
    |st pl added pl1 out pl' Hn Heq Hb Hbs Hadd Hrun IH];
    intros Hord i j a b Hij Ha Hbj Hia Hda Hib Hj.
  - rewrite (upcoming_st_nil st Hz) in Ha. discriminate.
  - rewrite run_length_stop in Hj by assumption. lia.
  - rewrite (blocked_adds_nothing _ _ _ _ _ Hrun);
      [apply added_from_refl|now rewrite read_next_blocked].
  - (* a child of a done line *)
    destruct (read_next_spec st Hn) as (Hup & Hnext).
    destruct (read_next_flags st) as (Hlt' & _).
    rewrite Hup in Ha, Hbj, Hj.
    rewrite run_length_cons_in in Hj by (unfold cur_indent in Hdeep; lia).
    destruct i as [|i]; [simpl in Ha; injection Ha as <-;
                         unfold cur_indent in Hdeep; lia|].
    destruct j as [|j]; [lia|]. simpl in Ha, Hbj.
    specialize (IH (eq_trans (f_equal is_ordered Hlt') Hord) i j a b).
    rewrite read_next_master in IH.
    eapply added_from_weaken; [apply IH; auto; lia|].
    intros n Hr. cbv beta in Hr.
    destruct (upcoming_st (read_next st)) as [|x xs]; [discriminate|]. lia.
  - (* the nested call raises *)
    apply outline_run_spans in Hrun. destruct Hrun as [Hadd _].
    eapply added_from_weaken; [exact Hadd|].
    intros n Hr. simpl in Hr.
    change (upcoming_st (enter (cur_linenum st) (cur_line st) (cur_file st)))
      with (upcoming_st st) in Hr.
    pose proof (run_length_before _ (opening_whitespace (cur_line st)) _ _ _
                  Ha Hia Hdeep).
    lia.
  - (* the nested call returns *)
    apply outline_run_spans in Hrun1. destruct Hrun1 as [Hadd1 Hret1].
    destruct back as [[ln1 l1] f1].
    destruct (Hret1 ln1 l1 f1 eq_refl) as (Hu1 & Hl1).
    simpl in Hadd1, Hu1, Hl1.
    change (upcoming_st (enter (cur_linenum st) (cur_line st) (cur_file st)))
      with (upcoming_st st) in Hadd1, Hu1, Hl1.
    pose proof (run_length_before _ (opening_whitespace (cur_line st)) _ _ _
                  Ha Hia Hdeep) as Hci.
    set (c1 := run_length (opening_whitespace (cur_line st)) (upcoming_st st))
      in *.
    specialize (IH2 Hord (i - c1) (j - c1) a b).
    change (upcoming_st (resume st (ln1, l1, f1)))
      with (upcoming ln1 l1 f1) in IH2.
    change (master_indent (resume st (ln1, l1, f1)))
      with (master_indent st) in IH2.
    change (cur_linenum (resume st (ln1, l1, f1))) with ln1 in IH2.
    rewrite Hu1 in IH2. rewrite !lookup_drop in IH2.
    replace (c1 + (i - c1)) with i in IH2 by lia.
    replace (c1 + (j - c1)) with j in IH2 by lia.
    rewrite (run_length_split (master_indent st)
               (opening_whitespace (cur_line st)) (upcoming_st st)) in Hj
      by (unfold cur_indent in Hdeep; lia).
    fold c1 in Hj.
    assert (Hln1 : ln1 = cur_linenum st + c1).
    { rewrite Hl1. destruct (drop c1 (upcoming_st st)) as [|y ys] eqn:Hd;
        [|reflexivity].
      assert (Hx : drop c1 (upcoming_st st) !! (i - c1) = Some a).
      { rewrite lookup_drop. now replace (c1 + (i - c1)) with i by lia. }
      rewrite Hd in Hx. discriminate. }
    eapply added_from_trans;
      [exact Hadd1|apply IH2; auto; lia| |].
    + intros n Hr. cbv beta in Hr. lia.
    + intros n Hr. cbv beta in Hr. lia.
  - (* text to append *)
    destruct (read_next_spec st Hn) as (Hup & Hnext).
    destruct (read_next_flags st) as (Hlt' & _).
    rewrite Hup in Ha, Hbj, Hj.
    rewrite run_length_cons_in in Hj by (unfold cur_indent in Hdeep; lia).
    destruct i as [|i]; [simpl in Ha; injection Ha as <-;
                         unfold cur_indent in Hdeep; lia|].
    destruct j as [|j]; [lia|]. simpl in Ha, Hbj.
    specialize (IH (eq_trans (f_equal is_ordered Hlt') Hord) i j a b).
    rewrite read_next_master in IH.
    eapply added_from_weaken; [apply IH; auto; lia|].
    intros n Hr. cbv beta in Hr.
    destruct (upcoming_st (read_next st)) as [|x xs]; [discriminate|]. lia.
  - (* a blocker was passed *)
    rewrite (blocked_adds_nothing _ _ _ _ _ Hrun);
      [apply added_from_refl|].
    unfold blocked. simpl. now rewrite Hord.
  - (* add_NextAction raises *)
    apply try_add_added in Hadd. destruct Hadd as [Hadd _].
    eapply added_from_weaken; [exact Hadd|]. intros n ->. lia.
  - (* a line of the list *)
    apply try_add_added in Hadd. destruct Hadd as [Hadd _].
    destruct (read_next_spec (mark_sibling st) Hn) as (Hup & Hnext).
    change (upcoming_st (mark_sibling st)) with (upcoming_st st) in Hup.
    change (cur_line (mark_sibling st)) with (cur_line st) in Hup.
    change (cur_linenum (mark_sibling st)) with (cur_linenum st) in Hnext.
    destruct (read_next_flags (mark_sibling st)) as (Hlt' & Hbs' & _).
    rewrite Hup in Ha, Hbj, Hj.
    rewrite run_length_cons_in in Hj by (unfold cur_indent in Heq; lia).
    destruct j as [|j]; [lia|]. simpl in Hbj.
    assert (Hne : upcoming_st (read_next (mark_sibling st)) <> [])
      by (intros Hnil; rewrite Hnil in Hbj; discriminate).
    assert (Hln : cur_linenum (read_next (mark_sibling st))
                  = cur_linenum st + 1).
    { rewrite Hnext.
      now destruct (upcoming_st (read_next (mark_sibling st))). }
    destruct (truthy (item_done (cur_line st))) eqn:Hdone.
    + (* done: the search for the blocker goes on *)
      destruct i as [|i]; [simpl in Ha; injection Ha as <-; congruence|].
      simpl in Ha.
      specialize (IH (eq_trans (f_equal is_ordered Hlt') Hord) i j a b).
      rewrite read_next_master in IH.
      change (master_indent (mark_sibling st)) with (master_indent st) in IH.
      eapply added_from_trans; [exact Hadd|apply IH; auto; lia| |].
      * intros n ->. lia.
      * intros n Hr. cbv beta in Hr. lia.
    + (* not done: this line is a blocker *)
      pose proof (started_adds_below _ _ _ _ _ Hrun) as Hbelow.
      rewrite read_next_master in Hbelow.
      change (master_indent (mark_sibling st)) with (master_indent st)
        in Hbelow.
      pose proof (run_length_before _ (S (master_indent st)) _ _ _
                    Hbj Hib (Nat.lt_succ_diag_r _)) as Hd.
      eapply added_from_trans; [exact Hadd|apply Hbelow| |].
      * rewrite Hbs'. simpl. now rewrite Hdone, Hord.
      * now rewrite Hlt'.
      * intros n ->. lia.
      * intros n Hr. cbv beta in Hr. lia.
Qed.


(** X29: in a call of [process_outline] that starts on a line with
    the marker [#], once a line [a] at the indent of the list is not
    done, whatever is stored comes from a line before the next line
    [b] at that indent: not from [b], done or not, nor from any line
    after it in the run. *)
Theorem ordered_list_blocks (g : vim_globals) (fuel linenum : nat)
    (line : string) (f : file) (current_project : option string)
    (pl : Plate) (i j : nat) (a b : string) :
  let ls := upcoming linenum line f in
  let m := opening_whitespace line in
  enough_fuel f <= fuel ->
  list_start line = Some "#" ->
  i < j ->
  ls !! i = Some a -> opening_whitespace a = m ->
  truthy (item_done a) = false ->
  ls !! j = Some b -> opening_whitespace b = m ->
  j < run_length m ls ->
  exists out pl',
    process_outline g fuel linenum line f current_project pl
    = Some (out, pl')
    /\ added_from pl pl' (fun n => linenum <= n < linenum + j).
Proof.
  intros ls m Hfuel Hstart Hij Ha Hia Hda Hb Hib Hj.
  destruct (process_outline_outcome g fuel linenum line f current_project pl
              Hfuel) as (out & pl' & Hout & Hrun).
  exists out, pl'. split; [exact Hout|].
  apply (ordered_run_blocks g _ pl out pl' Hrun) with (i := i) (a := a) (b := b);
    try assumption.
  simpl. now rewrite Hstart.
Qed.

(** Three steps, the first not done: only line 1 can be stored from,
    though step 3 is an open next action. *)
Lemma ordered_list_blocks_witness :
  exists out pl',
    process_outline default_globals 20 1 "# @ one" (tail three_steps_example)
      None (Plate_init default_globals 0%Z) = Some (out, pl')
    /\ added_from (Plate_init default_globals 0%Z) pl'
         (fun n => 1 <= n < 1 + 1).
Proof.
  apply (ordered_list_blocks default_globals 20 1 "# @ one"
           (tail three_steps_example) None (Plate_init default_globals 0%Z)
           0 1 "# @ one" "# @ two DONE").
  - vm_compute. lia.
  - reflexivity.
  - lia.
  - reflexivity.
  - reflexivity.
  - reflexivity.
  - reflexivity.
  - reflexivity.
  - vm_compute. lia.
Defined.

(** The lines at the head of a list that are all indented enough
    belong to the run. *)
Lemma run_length_all (m : nat) (ls : list string) (j : nat) :
  j <= length ls ->
  (forall k l, k < j -> ls !! k = Some l -> m <= opening_whitespace l) ->
  j <= run_length m ls.
Proof.
  revert j. induction ls as [|x ls IH]; intros j Hj Hall; simpl in *; [lia|].
  destruct j as [|j]; [lia|].
  rewrite (proj2 (Nat.leb_le _ _) (Hall 0 x (Nat.lt_0_succ _) eq_refl)).
  apply le_n_S, IH; [lia|].
  intros k l Hk Hl. apply (Hall (S k) l); [lia|exact Hl].
Qed.

(** Nothing is stored from a done line of the list's indent nor from
    the lines below it. *)
Lemma done_line_hides (g : vim_globals) (st : locals) (pl : Plate)
    (out : result (nat * string * file)) (pl' : Plate) :
  outline_run g st pl out pl' ->
  flags_ok st ->
  forall i j a,
    i <= j ->
    upcoming_st st !! i = Some a ->
    opening_whitespace a = master_indent st ->
    truthy (item_done a) = true ->
    i < run_length (master_indent st) (upcoming_st st) ->
    j < length (upcoming_st st) ->
    (forall k l, i < k <= j -> upcoming_st st !! k = Some l ->
                 master_indent st < opening_whitespace l) ->
    added_from pl pl'
      (fun n => n < cur_linenum st + i \/ cur_linenum st + j < n).
Proof.
  induction 1 as
    [st pl Hz
    |st pl Hn Hlt
    |st pl out pl' Hn Hin Hb Hrun IH
    |st pl out pl' Hn Hdeep Hb Hpd Hrun IH
    |st pl e pl' Hn Hdeep Hb Hpd Hls Hrun IH
    |st pl back pl1 out pl' Hn Hdeep Hb Hpd Hls Hrun1 IH1 Hrun2 IH2
    |st pl out pl' Hn Hdeep Hb Hpd Hls Hrun IH
    |st pl out pl' Hn Heq Hb Hbs Hrun IH
    |st pl e pl1 Hn Heq Hb Hbs Hadd
    |st pl added pl1 out pl' Hn Heq Hb Hbs Hadd Hrun IH];
    intros Hok i j a Hij Ha Hia Hda Hi Hj Hkids.
  - rewrite (upcoming_st_nil st Hz) in Ha. discriminate.
  - rewrite run_length_stop in Hi by assumption. lia.
  - rewrite (blocked_adds_nothing _ _ _ _ _ Hrun);
      [apply added_from_refl|now rewrite read_next_blocked].
  - (* a child of a done line *)
    destruct (read_next_spec st Hn) as (Hup & Hnext).
    rewrite Hup in Ha, Hi, Hj, Hkids.
    rewrite run_length_cons_in in Hi by (unfold cur_indent in Hdeep; lia).
    destruct i as [|i]; [simpl in Ha; injection Ha as <-;
                         unfold cur_indent in Hdeep; lia|].
    destruct j as [|j]; [lia|]. simpl in Ha, Hj.
    specialize (IH (read_next_flags_ok st Hok) i j a).
    rewrite read_next_master in IH.
    eapply added_from_weaken.
    + apply IH; auto; try lia.
      intros k l Hk Hl. apply (Hkids (S k) l); [lia|exact Hl].
    + intros n Hr. cbv beta in Hr.
      destruct (upcoming_st (read_next st)) as [|x xs]; [discriminate|]. lia.
  - (* the nested call raises *)
    apply outline_run_spans in Hrun. destruct Hrun as [Hadd _].
    eapply added_from_weaken; [exact Hadd|].
    intros n Hr. simpl in Hr.
    change (upcoming_st (enter (cur_linenum st) (cur_line st) (cur_file st)))
      with (upcoming_st st) in Hr.
    pose proof (run_length_before _ (opening_whitespace (cur_line st)) _ _ _
                  Ha Hia Hdeep).
    lia.
  - (* the nested call returns *)
    apply outline_run_spans in Hrun1. destruct Hrun1 as [Hadd1 Hret1].
    destruct back as [[ln1 l1] f1].
    destruct (Hret1 ln1 l1 f1 eq_refl) as (Hu1 & Hl1).
    simpl in Hadd1, Hu1, Hl1.
    change (upcoming_st (enter (cur_linenum st) (cur_line st) (cur_file st)))
      with (upcoming_st st) in Hadd1, Hu1, Hl1.
    pose proof (run_length_before _ (opening_whitespace (cur_line st)) _ _ _
                  Ha Hia Hdeep) as Hci.
    set (c1 := run_length (opening_whitespace (cur_line st)) (upcoming_st st))
      in *.
    specialize (IH2 Hok (i - c1) (j - c1) a).
    change (upcoming_st (resume st (ln1, l1, f1)))
      with (upcoming ln1 l1 f1) in IH2.
    change (master_indent (resume st (ln1, l1, f1)))
      with (master_indent st) in IH2.
    change (cur_linenum (resume st (ln1, l1, f1))) with ln1 in IH2.
    rewrite Hu1 in IH2. rewrite lookup_drop, length_drop in IH2.
    replace (c1 + (i - c1)) with i in IH2 by lia.
    rewrite (run_length_split (master_indent st)
               (opening_whitespace (cur_line st)) (upcoming_st st)) in Hi
      by (unfold cur_indent in Hdeep; lia).
    fold c1 in Hi.
    assert (Hln1 : ln1 = cur_linenum st + c1).
    { rewrite Hl1. destruct (drop c1 (upcoming_st st)) as [|y ys] eqn:Hd;
        [|reflexivity].
      assert (Hx : drop c1 (upcoming_st st) !! (i - c1) = Some a).
      { rewrite lookup_drop. now replace (c1 + (i - c1)) with i by lia. }
      rewrite Hd in Hx. discriminate. }
    eapply added_from_trans; [exact Hadd1| | |].
    + apply IH2; auto; try lia.
      intros k l Hk Hl. rewrite lookup_drop in Hl.
      apply (Hkids (c1 + k) l); [lia|exact Hl].
    + intros n Hr. cbv beta in Hr. lia.
    + intros n Hr. cbv beta in Hr. lia.
  - (* text to append *)
    destruct (read_next_spec st Hn) as (Hup & Hnext).
    rewrite Hup in Ha, Hi, Hj, Hkids.
    rewrite run_length_cons_in in Hi by (unfold cur_indent in Hdeep; lia).
    destruct i as [|i]; [simpl in Ha; injection Ha as <-;
                         unfold cur_indent in Hdeep; lia|].
    destruct j as [|j]; [lia|]. simpl in Ha, Hj.
    specialize (IH (read_next_flags_ok st Hok) i j a).
    rewrite read_next_master in IH.
    eapply added_from_weaken.
    + apply IH; auto; try lia.
      intros k l Hk Hl. apply (Hkids (S k) l); [lia|exact Hl].
    + intros n Hr. cbv beta in Hr.
      destruct (upcoming_st (read_next st)) as [|x xs]; [discriminate|]. lia.
  - (* a blocker was passed *)
    rewrite (blocked_adds_nothing _ _ _ _ _ Hrun);
      [apply added_from_refl|].
    unfold blocked. simpl. now rewrite (Hok Hbs).
  - (* add_NextAction raises *)
    apply try_add_added in Hadd. destruct Hadd as [Hadd Hsame].
    destruct i as [|i].
    + destruct (upcoming_st_cons st Hn) as (rest & Hup).
      rewrite Hup in Ha. simpl in Ha. injection Ha as <-.
      rewrite (Hsame Hda). apply added_from_refl.
    + eapply added_from_weaken; [exact Hadd|]. intros n ->. lia.
  - (* a line of the list *)
    apply try_add_added in Hadd. destruct Hadd as [Hadd Hsame].
    destruct (read_next_spec (mark_sibling st) Hn) as (Hup & Hnext).
    change (upcoming_st (mark_sibling st)) with (upcoming_st st) in Hup.
    change (cur_line (mark_sibling st)) with (cur_line st) in Hup.
    change (cur_linenum (mark_sibling st)) with (cur_linenum st) in Hnext.
    pose proof (read_next_flags_ok _ (mark_sibling_flags_ok st Hok)) as Hok'.
    rewrite Hup in Ha, Hi, Hj, Hkids.
    rewrite run_length_cons_in in Hi by (unfold cur_indent in Heq; lia).
    simpl in Hj.
    destruct i as [|i].
    + (* the done line itself *)
      simpl in Ha. injection Ha as <-. rewrite (Hsame Hda) in *.
      pose proof (done_parent_skips _ _ _ _ _ Hrun) as Hskip.
      rewrite read_next_master in Hskip.
      change (master_indent (mark_sibling st)) with (master_indent st)
        in Hskip.
      destruct (read_next_flags (mark_sibling st)) as (_ & _ & _ & Hpd').
      assert (Hd : j <= run_length (S (master_indent st))
                          (upcoming_st (read_next (mark_sibling st)))).
      { apply run_length_all; [lia|].
        intros k l Hk Hl. apply (Hkids (S k) l); [lia|exact Hl]. }
      eapply added_from_weaken.
      * apply added_from_both;
          [exact (added_later g st (mark_sibling st) pl pl' out Hn eq_refl
                    Hrun)
          |apply Hskip; [|exact Hok']].
        rewrite Hpd'. simpl. now rewrite Hda.
      * intros n [Hr1 Hr2]. right.
        destruct (upcoming_st (read_next (mark_sibling st))) as [|x xs];
          simpl in *; lia.
    + (* an earlier line of the list *)
      destruct j as [|j]; [lia|]. simpl in Ha.
      specialize (IH Hok' i j a).
      rewrite read_next_master in IH.
      change (master_indent (mark_sibling st)) with (master_indent st) in IH.
      eapply added_from_trans; [exact Hadd| | |].
      * apply IH; auto; try lia.
        intros k l Hk Hl. apply (Hkids (S k) l); [lia|exact Hl].
      * intros n ->. lia.
      * intros n Hr. cbv beta in Hr.
        destruct (upcoming_st (read_next (mark_sibling st))) as [|x xs];
          [discriminate|]. lia.
Qed.


(** C2: in a list run that [process_outline] reads, when a line [a]
    at the indent of the list is done, nothing is stored from it nor
    from the more indented lines that follow it, up to the next line
    at that indent or less; and a call that returns has read past
    them all. *)
Theorem done_parent_hides_children (g : vim_globals) (fuel linenum : nat)
    (line : string) (f : file) (current_project : option string)
    (pl : Plate) (i j : nat) (a : string) :
  let ls := upcoming linenum line f in
  let m := opening_whitespace line in
  enough_fuel f <= fuel ->
  i <= j ->
  ls !! i = Some a -> opening_whitespace a = m ->
  truthy (item_done a) = true ->
  i < run_length m ls ->
  j < length ls ->
  (forall k l, i < k <= j -> ls !! k = Some l -> m < opening_whitespace l) ->
  exists out pl',
    process_outline g fuel linenum line f current_project pl
    = Some (out, pl')
    /\ added_from pl pl' (fun n => n < linenum + i \/ linenum + j < n)
    /\ forall linenum' line' f',
         out = Ok (linenum', line', f') ->
         linenum' = 0 \/ linenum + j < linenum'.
Proof.
  intros ls m Hfuel Hij Ha Hia Hda Hi Hj Hkids.
  destruct (process_outline_outcome g fuel linenum line f current_project pl
              Hfuel) as (out & pl' & Hout & Hrun).
  exists out, pl'. split; [exact Hout|]. split.
  - apply (done_line_hides g _ pl out pl' Hrun) with (a := a);
      try assumption.
    apply enter_flags_ok.
  - intros ln' l' f' ->.
    destruct (outline_run_spans _ _ _ _ _ Hrun) as [_ Hret].
    destruct (Hret ln' l' f' eq_refl) as (_ & Hl).
    change (upcoming_st (enter linenum line f)) with ls in Hl.
    change (master_indent (enter linenum line f)) with m in Hl.
    change (cur_linenum (enter linenum line f)) with linenum in Hl.
    assert (Hc : S j <= run_length m ls).
    { apply run_length_all; [lia|].
      intros k l Hk Hlk.
      destruct (Nat.le_gt_cases k i) as [Hki|Hki].
      - apply (run_length_lookup m ls k l); [lia|exact Hlk].
      - apply Nat.lt_le_incl, (Hkids k l); [lia|exact Hlk]. }
    destruct (drop (run_length m ls) ls); [now left|right; lia].
Qed.

(** A done line with a child that is an open next action, then
    another line of the list: nothing is stored from lines 1 and 2. *)
Lemma done_parent_hides_children_witness :
  exists out pl',
    process_outline default_globals 20 1 "- @ paint the fence DONE"
      (tail done_parent_example) None (Plate_init default_globals 0%Z)
    = Some (out, pl')
    /\ added_from (Plate_init default_globals 0%Z) pl'
         (fun n => n < 1 + 0 \/ 1 + 1 < n)
    /\ forall linenum' line' f',
         out = Ok (linenum', line', f') -> linenum' = 0 \/ 1 + 1 < linenum'.
Proof.
  apply (done_parent_hides_children default_globals 20 1
           "- @ paint the fence DONE" (tail done_parent_example) None
           (Plate_init default_globals 0%Z) 0 1 "- @ paint the fence DONE").
  - vm_compute. lia.
  - lia.
  - reflexivity.
  - reflexivity.
  - reflexivity.
  - vm_compute. lia.
  - vm_compute. lia.
  - intros k l Hk. assert (k = 1) as -> by lia.
    intros [= <-]. vm_compute. lia.
Defined.


(** ** The matcher *)

(** A match ends at or after the place where it starts. *)
Lemma matches_forward (r : regex) :
  forall cu caps sc, In sc (matches r cu caps) -> pos cu <= pos (fst sc).
Proof.
  induction r as [|p|r1 IH1 r2 IH2|r1 IH1 r2 IH2|r IH lo hi|name r IH| |];
    intros cu caps sc Hin; simpl in Hin.
  - destruct Hin as [<-|[]]. simpl. lia.
  - destruct (rest cu) as [|c s']; [destruct Hin|].
    destruct (p c); [|destruct Hin].
    destruct Hin as [<-|[]]. simpl. lia.
  - apply in_flat_map in Hin. destruct Hin as (sc1 & H1 & H2).
    apply IH1 in H1. apply IH2 in H2. lia.
  - apply in_app_or in Hin. destruct Hin as [H|H]; eauto.
  - revert Hin. generalize (String.length (rest cu)). intros fuel.
    revert lo hi cu caps sc.
    induction fuel as [|fuel IHf]; intros lo hi cu caps sc Hin.
    + destruct (Nat.eqb lo 0); [|destruct Hin].
      destruct Hin as [<-|[]]. simpl. lia.
    + apply in_app_or in Hin. destruct Hin as [Hin|Hin].
      * destruct (hi_allows hi); [|destruct Hin].
        apply in_flat_map in Hin. destruct Hin as (sc1 & H1 & H2).
        destruct (Nat.ltb_spec (pos cu) (pos (fst sc1))); [|destruct H2].
        apply IHf in H2. lia.
      * destruct (Nat.eqb lo 0); [|destruct Hin].
        destruct Hin as [<-|[]]. simpl. lia.
  - apply in_map_iff in Hin. destruct Hin as (sc1 & <- & H1).
    simpl. eauto.
  - destruct (Nat.eqb (pos cu) 0); [|destruct Hin].
    destruct Hin as [<-|[]]. simpl. lia.
  - destruct (at_eol (rest cu)); [|destruct Hin].
    destruct Hin as [<-|[]]. simpl. lia.
Qed.

Lemma match_at_start (r : regex) (cu : cursor) (m : match_obj) :
  match_at r cu = Some m -> m_start m = pos cu /\ pos cu <= m_end m.
Proof.
  unfold match_at. intros H.
  destruct (matches r cu []) as [|[cu' caps] l] eqn:E; [discriminate|].
  injection H as <-. simpl. split; [reflexivity|].
  apply (matches_forward r cu [] (cu', caps)). rewrite E. left. reflexivity.
Qed.

Lemma drop_str_0 (s : string) : drop_str 0 s = s.
Proof. destruct s; reflexivity. Qed.

Lemma drop_str_add (a b : nat) (s : string) :
  drop_str a (drop_str b s) = drop_str (b + a) s.
Proof.
  revert s. induction b as [|b IH]; intros s.
  - rewrite drop_str_0. reflexivity.
  - destruct s as [|c s]; simpl.
    + destruct a; reflexivity.
    + apply IH.
Qed.

Lemma drop_str_length (n : nat) (s : string) :
  String.length (drop_str n s) = String.length s - n.
Proof.
  revert s. induction n as [|n IH]; intros s.
  - rewrite drop_str_0. lia.
  - destruct s as [|c s]; simpl; [reflexivity|apply IH].
Qed.

(** A search returns the match at the first offset that has one. *)
Lemma search_from_some (r : regex) (text : string) :
  forall (n p : nat) (m : match_obj),
    n = String.length text - p ->
    search_from r p (drop_str p text) = Some m ->
    exists q, p <= q /\ q <= Nat.max p (String.length text) /\
      match_from r text q = Some m /\
      forall j, p <= j < q -> match_from r text j = None.
Proof.
  induction n as [|n IH]; intros p m Hn Hs.
  - destruct (drop_str p text) as [|c s'] eqn:E.
    + simpl in Hs.
      destruct (match_at r (Cursor p "")) eqn:Em; [|discriminate].
      injection Hs as ->. exists p. unfold match_from. rewrite E.
      repeat split; try lia. exact Em.
    + pose proof (drop_str_length p text) as Hl. rewrite E in Hl.
      simpl in Hl. lia.
  - destruct (drop_str p text) as [|c s'] eqn:E.
    + pose proof (drop_str_length p text) as Hl. rewrite E in Hl.
      simpl in Hl. lia.
    + simpl in Hs.
      destruct (match_at r (Cursor p (String c s'))) eqn:Em.
      * injection Hs as ->. exists p. unfold match_from. rewrite E.
        repeat split; try lia. exact Em.
      * assert (Hs' : s' = drop_str (S p) text).
        { replace (S p) with (p + 1) by lia. rewrite <- drop_str_add, E.
          reflexivity. }
        rewrite Hs' in Hs. apply IH in Hs; [|lia].
        destruct Hs as (q & Hq1 & Hq2 & Hq3 & Hq4).
        exists q. repeat split; try lia; [exact Hq3|].
        intros j Hj. destruct (Nat.eq_dec j p) as [->|Hne].
        -- unfold match_from. rewrite E. exact Em.
        -- apply Hq4. lia.
Qed.

(** A search that fails found no match at any offset. *)
Lemma search_from_none (r : regex) (text : string) :
  forall (n p : nat),
    n = String.length text - p ->
    search_from r p (drop_str p text) = None ->
    forall j, p <= j <= String.length text -> match_from r text j = None.
Proof.
  induction n as [|n IH]; intros p Hn Hs j Hj.
  - assert (j = p) as -> by lia. unfold match_from.
    destruct (drop_str p text) as [|c s']; simpl in Hs;
      destruct (match_at r _); [discriminate|reflexivity| |reflexivity].
    discriminate.
  - destruct (drop_str p text) as [|c s'] eqn:E.
    + pose proof (drop_str_length p text) as Hl. rewrite E in Hl.
      simpl in Hl. lia.
    + simpl in Hs.
      destruct (match_at r (Cursor p (String c s'))) eqn:Em; [discriminate|].
      destruct (Nat.eq_dec j p) as [->|Hne].
      * unfold match_from. rewrite E. exact Em.
      * assert (Hs' : s' = drop_str (S p) text).
        { replace (S p) with (p + 1) by lia. rewrite <- drop_str_add, E.
          reflexivity. }
        rewrite Hs' in Hs. apply (IH (S p)); [lia|exact Hs|lia].
Qed.

(** The scan behind [finditer], for a pattern that matches no empty
    text: every match it reports is the match at its start, each ends
    before the next starts, and every offset at which the pattern
    matches lies inside one of them. *)
Lemma scan_spec (r : regex) (text : string) :
  (forall cu m, match_at r cu = Some m -> m_start m < m_end m) ->
  forall (fuel p : nat),
    p <= String.length text -> String.length text - p < fuel ->
    (forall m, In m (scan fuel r p (drop_str p text)) ->
       p <= m_start m /\ match_from r text (m_start m) = Some m) /\
    in_order (scan fuel r p (drop_str p text)) /\
    (forall q, p <= q <= String.length text ->
       match_from r text q <> None ->
       exists m, In m (scan fuel r p (drop_str p text)) /\
                 m_start m <= q < m_end m).
Proof.
  intros Hstrict. induction fuel as [|fuel IH]; intros p Hp Hf; [lia|].
  simpl scan. destruct (search_from r p (drop_str p text)) as [m|] eqn:Es.
  - apply (search_from_some r text _ p m eq_refl) in Es.
    destruct Es as (q & Hq1 & Hq2 & Hq3 & Hq4).
    pose proof (Hstrict _ _ Hq3) as Hlt.
    pose proof (match_at_start _ _ _ Hq3) as [Hst _]. simpl in Hst.
    destruct (Nat.ltb_spec (m_start m) (m_end m)) as [_|]; [|lia].
    rewrite drop_str_length.
    destruct (Nat.leb_spec (m_end m - p) (String.length text - p))
      as [Hle|Hgt].
    + rewrite drop_str_add. replace (p + (m_end m - p)) with (m_end m) by lia.
      destruct (IH (m_end m)) as (Ha & Hb & Hc); [lia|lia|].
      split; [|split].
      * intros m' [<-|Hin].
        -- rewrite Hst. split; [lia|exact Hq3].
        -- apply Ha in Hin. split; [lia|tauto].
      * intros [|i] m1 m2 H1 H2; simpl in H1, H2.
        -- injection H1 as <-.
           apply list_elem_of_lookup_2, list_elem_of_In, Ha in H2. lia.
        -- exact (Hb i m1 m2 H1 H2).
      * intros j Hj Hm.
        destruct (Nat.lt_ge_cases j q) as [Hjq|Hjq].
        { exfalso. apply Hm, Hq4. lia. }
        destruct (Nat.lt_ge_cases j (m_end m)) as [Hje|Hje].
        { exists m. split; [left; reflexivity|lia]. }
        destruct (Hc j) as (m' & Hin & Hr); [lia|exact Hm|].
        exists m'. split; [right; exact Hin|exact Hr].
    + split; [|split].
      * intros m' [<-|[]]. rewrite Hst. split; [lia|exact Hq3].
      * intros [|i] m1 m2 H1 H2; simpl in H1, H2; discriminate.
      * intros j Hj Hm.
        destruct (Nat.lt_ge_cases j q) as [Hjq|Hjq].
        { exfalso. apply Hm, Hq4. lia. }
        exists m. split; [left; reflexivity|lia].
  - split; [|split].
    + intros m [].
    + intros i m1 m2 H1. destruct i; discriminate.
    + intros q Hq Hm. exfalso. apply Hm.
      apply (search_from_none r text _ p eq_refl Es). lia.
Qed.

(** The same for [finditer] on a whole text. *)
Lemma re_finditer_spec (r : regex) (text : string) :
  (forall cu m, match_at r cu = Some m -> m_start m < m_end m) ->
  (forall m, In m (re_finditer r text) ->
     match_from r text (m_start m) = Some m) /\
  in_order (re_finditer r text) /\
  (forall q, q <= String.length text -> match_from r text q <> None ->
     exists m, In m (re_finditer r text) /\ m_start m <= q < m_end m).
Proof.
  intros Hstrict. unfold re_finditer.
  destruct (scan_spec r text Hstrict (S (String.length text)) 0)
    as (Ha & Hb & Hc); [lia|lia|].
  rewrite drop_str_0 in Ha, Hb, Hc. split; [|split].
  - intros m Hin. apply Ha, Hin.
  - exact Hb.
  - intros q Hq. apply Hc. lia.
Qed.

(** Nothing is cut from a text in which the pattern is not found. *)
Lemma re_sub_empty_none (r : regex) (text : string) :
  re_search r text = None -> re_sub_empty r text = text.
Proof.
  unfold re_search, re_sub_empty, re_finditer. intros H. simpl.
  rewrite H. reflexivity.
Qed.

Lemma re_finditer_none (r : regex) (text : string) :
  re_search r text = None -> re_finditer r text = [].
Proof.
  unfold re_search, re_finditer. intros H. simpl. rewrite H. reflexivity.
Qed.

Lemma matches_rep (r : regex) (lo : nat) (hi : option nat) (cu : cursor)
    (caps : list capture) :
  matches (Rep r lo hi) cu caps
  = rep_loop r (String.length (rest cu)) lo hi cu caps.
Proof. reflexivity. Qed.

Lemma rep_loop_unfold (r : regex) (fuel lo : nat) (hi : option nat)
    (cu : cursor) (caps : list capture) :
  rep_loop r (S fuel) lo hi cu caps
  = ((if hi_allows hi then
        flat_map
          (fun sc : success =>
             if Nat.ltb (pos cu) (pos (fst sc))
             then rep_loop r fuel (Nat.pred lo) (hi_pred hi) (fst sc) (snd sc)
             else [])
          (matches r cu caps)
      else [])
     ++ (if Nat.eqb lo 0 then [(cu, caps)] else []))%list.
Proof. reflexivity. Qed.

(** A repetition that must go round at least once ends after the place
    where it starts. *)
Lemma rep_loop_progress (r : regex) :
  forall fuel lo hi cu caps sc,
    In sc (rep_loop r fuel lo hi cu caps) ->
    pos cu <= pos (fst sc) /\ (1 <= lo -> pos cu < pos (fst sc)).
Proof.
  induction fuel as [|fuel IH]; intros lo hi cu caps sc Hin.
  - simpl in Hin. destruct lo; simpl in Hin; [|destruct Hin].
    destruct Hin as [<-|[]]. simpl. lia.
  - rewrite rep_loop_unfold in Hin. apply in_app_or in Hin.
    destruct Hin as [Hin|Hin].
    + destruct (hi_allows hi); [|destruct Hin].
      apply in_flat_map in Hin. destruct Hin as (sc1 & H1 & H2).
      destruct (Nat.ltb_spec (pos cu) (pos (fst sc1))); [|destruct H2].
      apply IH in H2. lia.
    + destruct lo; simpl in Hin; [|destruct Hin].
      destruct Hin as [<-|[]]. simpl. lia.
Qed.

(** A pattern that opens with such a repetition matches no empty text. *)
Lemma seq_rep_strict (r r2 : regex) (lo : nat) (hi : option nat)
    (cu : cursor) (m : match_obj) :
  1 <= lo -> match_at (Seq (Rep r lo hi) r2) cu = Some m ->
  m_start m < m_end m.
Proof.
  intros Hlo. unfold match_at.
  destruct (matches (Seq (Rep r lo hi) r2) cu []) as [|[cu' caps] l] eqn:E;
    [discriminate|].
  intros [= <-]. simpl.
  assert (Hin : In (cu', caps) (matches (Seq (Rep r lo hi) r2) cu []))
    by (rewrite E; left; reflexivity).
  change (matches (Seq (Rep r lo hi) r2) cu [])
    with (flat_map (fun sc : success => matches r2 (fst sc) (snd sc))
            (matches (Rep r lo hi) cu [])) in Hin.
  apply in_flat_map in Hin. destruct Hin as (sc1 & H1 & H2).
  rewrite matches_rep in H1. apply rep_loop_progress in H1.
  apply matches_forward in H2. simpl in H2. lia.
Qed.

Lemma flat_map_nonempty {A B : Type} (f g : A -> list B) (l : list A) :
  (forall x, In x l -> f x <> [] -> g x <> []) ->
  flat_map f l <> [] -> flat_map g l <> [].
Proof.
  induction l as [|x l IH]; intros Hfg Hf; [exact Hf|].
  simpl in *. destruct (f x) as [|y ys] eqn:Ef.
  - simpl in Hf. intros Hg. apply app_eq_nil in Hg as [_ Hg].
    revert Hg. apply IH; [|exact Hf]. intros x' Hx'. apply Hfg. right.
    exact Hx'.
  - intros Hg. apply app_eq_nil in Hg as [Hg _].
    revert Hg. apply Hfg; [left; reflexivity|]. rewrite Ef. discriminate.
Qed.

Lemma flat_map_in_nonempty {A B : Type} (f : A -> list B) (l : list A)
    (x : A) :
  In x l -> f x <> [] -> flat_map f l <> [].
Proof.
  intros Hin Hf Hnil. destruct (f x) as [|y ys] eqn:Ef; [congruence|].
  assert (Hy : In y (flat_map f l)).
  { apply in_flat_map. exists x. split; [exact Hin|]. rewrite Ef. left.
    reflexivity. }
  rewrite Hnil in Hy. destruct Hy.
Qed.

(** ** Context tokens *)

(** A context token is never empty. *)
Lemma context_token_nonempty (cu : cursor) (m : match_obj) :
  match_at context_pattern cu = Some m -> m_start m < m_end m.
Proof. apply seq_rep_strict. lia. Qed.

(** A context token has a name. *)
Lemma context_token_named (cu : cursor) (m : match_obj) :
  match_at context_pattern cu = Some m ->
  exists name, group m "context" = Some name.
Proof.
  unfold match_at.
  destruct (matches context_pattern cu []) as [|[cu' caps] l] eqn:E;
    [discriminate|].
  intros [= <-].
  assert (Hin : In (cu', caps) (matches context_pattern cu []))
    by (rewrite E; left; reflexivity).
  change (matches context_pattern cu [])
    with (flat_map
            (fun sc : success =>
               flat_map
                 (fun sc' : success =>
                    matches (Grp "context" (plus word)) (fst sc') (snd sc'))
                 (matches (Rep (chr "@") 1 (Some 2)) (fst sc) (snd sc)))
            (matches (plus ws) cu [])) in Hin.
  apply in_flat_map in Hin. destruct Hin as (sc1 & _ & Hin).
  apply in_flat_map in Hin. destruct Hin as (sc2 & _ & Hin).
  simpl in Hin. apply in_map_iff in Hin. destruct Hin as (sc3 & [= <- <-] & _).
  unfold group. simpl. eexists. reflexivity.
Qed.

(** Where a single-[@] context starts, a context token starts. *)
Lemma single_context_is_token (cu : cursor) :
  match_at (cat [plus ws; chr "@"; plus word]) cu <> None ->
  match_at context_pattern cu <> None.
Proof.
  unfold match_at. intros H.
  assert (Hs : matches (cat [plus ws; chr "@"; plus word]) cu [] <> []).
  { intros E. rewrite E in H. apply H. reflexivity. }
  assert (Hc : matches context_pattern cu [] <> []).
  { revert Hs.
    change (matches (cat [plus ws; chr "@"; plus word]) cu [])
      with (flat_map
              (fun sc : success =>
                 matches (Seq (chr "@") (plus word)) (fst sc) (snd sc))
              (matches (plus ws) cu [])).
    change (matches context_pattern cu [])
      with (flat_map
              (fun sc : success =>
                 matches (Seq (Rep (chr "@") 1 (Some 2))
                              (Grp "context" (plus word)))
                         (fst sc) (snd sc))
              (matches (plus ws) cu [])).
    apply flat_map_nonempty. intros [[p s] caps] _. simpl fst. simpl snd.
    change (matches (Seq (chr "@") (plus word)) (Cursor p s) caps)
      with (flat_map
              (fun sc : success => matches (plus word) (fst sc) (snd sc))
              (matches (chr "@") (Cursor p s) caps)).
    change (matches (Seq (Rep (chr "@") 1 (Some 2))
                         (Grp "context" (plus word))) (Cursor p s) caps)
      with (flat_map
              (fun sc : success =>
                 matches (Grp "context" (plus word)) (fst sc) (snd sc))
              (rep_loop (chr "@") (String.length s) 1 (Some 2)
                        (Cursor p s) caps)).
    destruct s as [|a s']; [intros Hn; exfalso; apply Hn; reflexivity|].
    simpl String.length. rewrite rep_loop_unfold.
    change (matches (chr "@") (Cursor p (String a s')) caps)
      with (if Chars.is_char "@" a
            then [(Cursor (S p) s', caps)] else []).
    destruct (Chars.is_char "@" a);
      [|intros Hn; exfalso; apply Hn; reflexivity].
    simpl flat_map at 1. rewrite app_nil_r. intros Hw.
    apply (flat_map_in_nonempty _ _ (Cursor (S p) s', caps)).
    - simpl. destruct (Nat.ltb_spec p (S p)); [|lia].
      rewrite !app_nil_r. destruct (String.length s'); simpl.
      + left. reflexivity.
      + apply in_or_app. right. left. reflexivity.
    - change (matches (Grp "context" (plus word)) (Cursor (S p) s') caps)
        with (map (fun sc : success =>
                     (fst sc,
                      ("context",
                       (S p, take_str (pos (fst sc) - S p) s')) :: snd sc))
                  (matches (plus word) (Cursor (S p) s') caps)).
      intros Hm. apply map_eq_nil in Hm. apply Hw. exact Hm. }
  destruct (matches context_pattern cu []) as [|[cu' caps'] l];
    [congruence|discriminate].
Qed.

Lemma take_drop_str (n : nat) (s : string) :
  take_str n s +:+ drop_str n s = s.
Proof.
  revert s. induction n as [|n IH]; intros s.
  - rewrite drop_str_0. destruct s; reflexivity.
  - destruct s as [|c s]; [reflexivity|].
    change (String c (take_str n s +:+ drop_str n s) = String c s).
    f_equal. apply IH.
Qed.

Lemma matches_seq (r1 r2 : regex) (cu : cursor) (caps : list capture) :
  matches (Seq r1 r2) cu caps
  = flat_map (fun sc : success => matches r2 (fst sc) (snd sc))
             (matches r1 cu caps).
Proof. reflexivity. Qed.

Lemma matches_cls (p : ascii -> bool) (q : nat) (s : string)
    (caps : list capture) :
  matches (Cls p) (Cursor q s) caps
  = match s with
    | String c s' => if p c then [(Cursor (S q) s', caps)] else []
    | EmptyString => []
    end.
Proof. reflexivity. Qed.

(** A text without two [@] in a row has no match of ['@@']. *)
Lemma no_double_at (text : string) :
  (forall before after, text <> before +:+ "@@" +:+ after) ->
  re_search (lit "@@") text = None.
Proof.
  intros Hno. unfold re_search.
  destruct (search_from (lit "@@") 0 text) as [m|] eqn:E; [|reflexivity].
  exfalso. rewrite <- (drop_str_0 text) in E.
  apply (search_from_some _ text _ 0 m eq_refl) in E.
  destruct E as (q & _ & _ & Hq & _).
  unfold match_from, match_at in Hq.
  change (lit "@@")
    with (Seq (Cls (Chars.is_char "@")) (Cls (Chars.is_char "@"))) in Hq.
  rewrite matches_seq, matches_cls in Hq.
  pose proof (take_drop_str q text) as Htd.
  destruct (drop_str q text) as [|c1 s1]; [discriminate|].
  destruct (Chars.is_char "@" c1) eqn:E1; [|discriminate].
  cbn [flat_map fst snd] in Hq. rewrite matches_cls in Hq.
  destruct s1 as [|c2 rest']; [discriminate|].
  destruct (Chars.is_char "@" c2) eqn:E2; [|discriminate].
  apply Ascii.eqb_eq in E1, E2. subst c1 c2.
  apply (Hno (take_str q text) rest'). symmetry. exact Htd.
Qed.

Lemma re_finditer_nil (r : regex) (text : string) :
  re_finditer r text = [] -> re_search r text = None.
Proof.
  unfold re_finditer, re_search. simpl.
  destruct (search_from r 0 text); [discriminate|reflexivity].
Qed.

Lemma omap_all_some {A B : Type} (f : A -> option B) (l : list A) :
  (forall x, In x l -> exists y, f x = Some y) ->
  Forall2 (fun x y => f x = Some y) l (omap f l).
Proof.
  induction l as [|x l IH]; intros H; [constructor|].
  destruct (H x) as [y Hy]; [left; reflexivity|].
  simpl. rewrite Hy. constructor; [exact Hy|].
  apply IH. intros x' Hx'. apply H. right. exact Hx'.
Qed.

(** The claim as stated fails: the name of a [@@name] token stays in the
    returned text, and a line without any token loses an [@@]. *)
Lemma double_at_name_stays_in_text :
  parse_and_strip_contexts "- call mom @@phone"
    = ("call mom phone", ["phone"])
  /\ re_finditer context_pattern "mail a@@b.org" = []
  /\ strip_list_marker "mail a@@b.org" = "mail a@@b.org"
  /\ parse_and_strip_contexts "mail a@@b.org" = ("mail ab.org", [])
  /\ fst (parse_and_strip_contexts "mail a@@b.org")
     <> strip_list_marker "mail a@@b.org".
Proof. vm_compute. repeat split. discriminate. Qed.

(** ** Greedy repetition of a character class *)

Lemma countdown_unfold (n lo : nat) :
  countdown (S n) lo
  = if Nat.ltb (S n) lo then [] else S n :: countdown n lo.
Proof. reflexivity. Qed.

Lemma countdown_succ (n lo : nat) :
  countdown (S n) lo
  = (map S (countdown n (Nat.pred lo))
     ++ (if Nat.eqb lo 0 then [0] else []))%list.
Proof.
  revert lo. induction n as [|n IH]; intros lo.
  - destruct lo as [|[|lo]]; reflexivity.
  - rewrite countdown_unfold, IH.
    destruct lo as [|lo].
    + rewrite (countdown_unfold n). reflexivity.
    + simpl Nat.pred. simpl Nat.eqb. rewrite !app_nil_r.
      rewrite (countdown_unfold n lo).
      change (Nat.ltb (S (S n)) (S lo)) with (Nat.ltb (S n) lo).
      destruct (Nat.ltb (S n) lo); reflexivity.
Qed.

Lemma countdown_above (n lo : nat) : n < lo -> countdown n lo = [].
Proof.
  intros H. destruct n as [|n].
  - destruct lo; [lia|reflexivity].
  - rewrite countdown_unfold.
    destruct (Nat.ltb_spec (S n) lo); [reflexivity|lia].
Qed.

Lemma countdown_head (n lo : nat) :
  lo <= n ->
  exists l, countdown n lo = n :: l /\ Forall (fun k => lo <= k < n) l.
Proof.
  revert lo. induction n as [|n IH]; intros lo Hle.
  - assert (lo = 0) as -> by lia. exists []. split; [reflexivity|constructor].
  - change (countdown (S n) lo)
      with (if Nat.ltb (S n) lo then [] else S n :: countdown n lo).
    destruct (Nat.ltb_spec (S n) lo); [lia|].
    exists (countdown n lo). split; [reflexivity|].
    destruct (Nat.le_gt_cases lo n) as [Hn|Hn].
    + destruct (IH lo Hn) as (l & -> & Hl). constructor; [lia|].
      eapply Forall_impl; [exact Hl|]. simpl. intros k Hk. lia.
    + rewrite countdown_above by lia. constructor.
Qed.

(** The ways a greedy [P{lo,}] matches: it takes the whole run of
    characters of the class, then gives them back one by one. *)
Lemma rep_loop_class (P : ascii -> bool) :
  forall (fuel : nat) (s : string) (p lo : nat) (caps : list capture),
    String.length s <= fuel ->
    rep_loop (Cls P) fuel lo None (Cursor p s) caps
    = map (fun k => (Cursor (p + k) (drop_str k s), caps))
          (countdown (span P s) lo).
Proof.
  induction fuel as [|fuel IH]; intros s p lo caps Hlen.
  - destruct s as [|c s]; [|simpl in Hlen; lia].
    simpl. destruct lo; simpl; [|reflexivity].
    rewrite Nat.add_0_r. reflexivity.
  - rewrite rep_loop_unfold. change (hi_allows None) with true.
    cbv iota. rewrite matches_cls.
    destruct s as [|c s].
    + simpl. destruct lo; simpl; [|reflexivity].
      rewrite Nat.add_0_r. reflexivity.
    + simpl span. destruct (P c) eqn:EP.
      * cbn [flat_map fst snd pos].
        destruct (Nat.ltb_spec p (S p)); [|lia].
        rewrite app_nil_r. change (hi_pred None) with (@None nat).
        rewrite IH by (simpl in Hlen; lia).
        rewrite countdown_succ, map_app, map_map.
        f_equal.
        -- apply map_ext. intros k. simpl drop_str.
           replace (S p + k) with (p + S k) by lia. reflexivity.
        -- destruct lo; simpl; [|reflexivity].
           rewrite Nat.add_0_r. reflexivity.
      * cbn [flat_map]. simpl app.
        destruct lo; simpl; [|reflexivity].
        rewrite Nat.add_0_r. reflexivity.
Qed.

Lemma matches_rep_class (P : ascii -> bool) (s : string) (p lo : nat)
    (caps : list capture) :
  matches (Rep (Cls P) lo None) (Cursor p s) caps
  = map (fun k => (Cursor (p + k) (drop_str k s), caps))
        (countdown (span P s) lo).
Proof. rewrite matches_rep. apply rep_loop_class. simpl. lia. Qed.

Lemma flat_map_map {A B C : Type} (f : B -> list C) (g : A -> B)
    (l : list A) :
  flat_map f (map g l) = flat_map (fun x => f (g x)) l.
Proof.
  induction l as [|x l IH]; [reflexivity|]. simpl. now rewrite IH.
Qed.

Lemma flat_map_all_nil {A B : Type} (f : A -> list B) (l : list A) :
  Forall (fun x => f x = []) l -> flat_map f l = [].
Proof.
  induction 1 as [|x l Hx _ IH]; [reflexivity|]. simpl. now rewrite Hx, IH.
Qed.

(** What follows a greedy [P{lo,}] is tried after the whole run first;
    when it cannot start on a character of the class, that is the only
    place where it can match. *)
Lemma seq_rep_class (P : ascii -> bool) (r2 : regex) (s : string)
    (p lo : nat) (caps : list capture) :
  (forall k, lo <= k < span P s ->
     matches r2 (Cursor (p + k) (drop_str k s)) caps = []) ->
  matches (Seq (Rep (Cls P) lo None) r2) (Cursor p s) caps
  = if Nat.leb lo (span P s)
    then matches r2 (Cursor (p + span P s) (drop_str (span P s) s)) caps
    else [].
Proof.
  intros Hnone. rewrite matches_seq, matches_rep_class, flat_map_map.
  cbn [fst snd].
  destruct (Nat.leb_spec lo (span P s)) as [Hle|Hgt].
  - destruct (countdown_head _ _ Hle) as (l & -> & Hl).
    cbn [flat_map]. rewrite flat_map_all_nil, app_nil_r; [reflexivity|].
    eapply Forall_impl; [exact Hl|]. simpl. intros k Hk. apply Hnone. exact Hk.
  - rewrite countdown_above by lia. reflexivity.
Qed.

Lemma span_inside (P : ascii -> bool) (s : string) (k : nat) :
  k < span P s ->
  exists c s', drop_str k s = String c s' /\ P c = true.
Proof.
  revert k. induction s as [|c s IH]; intros k Hk; simpl in Hk; [lia|].
  destruct (P c) eqn:EP; [|lia].
  destruct k as [|k]; [exists c, s; split; [reflexivity|exact EP]|].
  simpl. apply IH. lia.
Qed.

Lemma span_end (P : ascii -> bool) (s : string) :
  drop_str (span P s) s = ""
  \/ exists c s', drop_str (span P s) s = String c s' /\ P c = false.
Proof.
  induction s as [|c s IH]; [left; reflexivity|]. simpl.
  destruct (P c) eqn:EP; [exact IH|].
  right. exists c, s. split; [reflexivity|exact EP].
Qed.

Lemma span_le (P : ascii -> bool) (s : string) : span P s <= String.length s.
Proof.
  induction s as [|c s IH]; simpl; [lia|]. destruct (P c); simpl; lia.
Qed.

Lemma span_all (P : ascii -> bool) (s : string) :
  span P s = String.length s <-> all_of P s = true.
Proof.
  induction s as [|c s IH]; simpl; [tauto|].
  destruct (P c); simpl.
  - rewrite <- IH. split; lia.
  - split; [lia|discriminate].
Qed.

(** The run of [P] at the head of [ind ++ c :: tail] is [ind] when [ind]
    is in the class and [c] is not. *)
Lemma span_app (P : ascii -> bool) (ind : string) (c : ascii)
    (tail : string) :
  all_of P ind = true -> P c = false ->
  span P (ind +:+ String c tail) = String.length ind
  /\ drop_str (String.length ind) (ind +:+ String c tail) = String c tail.
Proof.
  intros Hind Hc. induction ind as [|a ind IH].
  - simpl. rewrite Hc. split; reflexivity.
  - simpl in Hind. apply andb_prop in Hind as [Ha Hind].
    change (String a ind +:+ String c tail)
      with (String a (ind +:+ String c tail)).
    simpl. rewrite Ha. destruct (IH Hind) as [-> ->]. split; reflexivity.
Qed.

Lemma span_split (P : ascii -> bool) (s : string) :
  s = take_str (span P s) s +:+ drop_str (span P s) s
  /\ all_of P (take_str (span P s) s) = true
  /\ String.length (take_str (span P s) s) = span P s.
Proof.
  induction s as [|c s IH]; [repeat split|]. simpl.
  destruct (P c) eqn:EP.
  - simpl. rewrite EP. destruct IH as (H1 & H2 & H3).
    change (String c (take_str (span P s) s) +:+ drop_str (span P s) s)
      with (String c (take_str (span P s) s +:+ drop_str (span P s) s)).
    rewrite <- H1, H2, H3. repeat split.
  - repeat split.
Qed.

Lemma matches_grp (name : string) (r : regex) (cu : cursor)
    (caps : list capture) :
  matches (Grp name r) cu caps
  = map (fun sc : success =>
           (fst sc,
            (name, (pos cu, take_str (pos (fst sc) - pos cu) (rest cu)))
              :: snd sc))
        (matches r cu caps).
Proof. reflexivity. Qed.

(** The same when the repetition is a capturing group. *)
Lemma seq_grp_rep_class (P : ascii -> bool) (name : string) (r2 : regex)
    (s : string) (p lo : nat) (caps : list capture) :
  (forall k, lo <= k < span P s ->
     matches r2 (Cursor (p + k) (drop_str k s))
             ((name, (p, take_str k s)) :: caps) = []) ->
  matches (Seq (Grp name (Rep (Cls P) lo None)) r2) (Cursor p s) caps
  = if Nat.leb lo (span P s)
    then matches r2 (Cursor (p + span P s) (drop_str (span P s) s))
                 ((name, (p, take_str (span P s) s)) :: caps)
    else [].
Proof.
  intros Hnone.
  rewrite matches_seq, matches_grp, matches_rep_class, map_map, flat_map_map.
  cbn [fst snd pos rest].
  assert (Hf : forall k,
             matches r2 (Cursor (p + k) (drop_str k s))
                     ((name, (p, take_str (p + k - p) s)) :: caps)
             = matches r2 (Cursor (p + k) (drop_str k s))
                       ((name, (p, take_str k s)) :: caps)).
  { intros k. replace (p + k - p) with k by lia. reflexivity. }
  rewrite (flat_map_ext _ _ Hf).
  destruct (Nat.leb_spec lo (span P s)) as [Hle|Hgt].
  - destruct (countdown_head _ _ Hle) as (l & -> & Hl).
    cbn [flat_map]. rewrite flat_map_all_nil, app_nil_r; [reflexivity|].
    eapply Forall_impl; [exact Hl|]. simpl. intros k Hk. apply Hnone. exact Hk.
  - rewrite countdown_above by lia. reflexivity.
Qed.

Lemma in_countdown (n lo k : nat) : In k (countdown n lo) <-> lo <= k <= n.
Proof.
  induction n as [|n IH].
  - simpl. destruct lo; simpl; [|lia]. split; [intros [<-|[]]; lia|].
    intros H. left. lia.
  - rewrite countdown_unfold.
    destruct (Nat.ltb_spec (S n) lo) as [Hlt|Hge].
    + simpl. lia.
    + simpl. rewrite IH. lia.
Qed.

Lemma take_str_length (k : nat) (s : string) :
  k <= String.length s -> String.length (take_str k s) = k.
Proof.
  revert s. induction k as [|k IH]; intros s Hk; [destruct s; reflexivity|].
  destruct s as [|c s]; simpl in *; [lia|]. rewrite IH; lia.
Qed.

Lemma take_str_all (P : ascii -> bool) (k : nat) (s : string) :
  k <= span P s -> all_of P (take_str k s) = true.
Proof.
  revert s. induction k as [|k IH]; intros s Hk; [destruct s; reflexivity|].
  destruct s as [|c s]; simpl in *; [reflexivity|].
  destruct (P c); [|lia]. simpl. apply IH. lia.
Qed.

Lemma all_of_app (P : ascii -> bool) (a b : string) :
  all_of P (a +:+ b) = all_of P a && all_of P b.
Proof.
  induction a as [|c a IH]; [reflexivity|].
  change (String c a +:+ b) with (String c (a +:+ b)). simpl.
  rewrite IH. apply andb_assoc.
Qed.

Lemma app_length (a b : string) :
  String.length (a +:+ b) = String.length a + String.length b.
Proof.
  induction a as [|c a IH]; [reflexivity|].
  change (String c a +:+ b) with (String c (a +:+ b)). simpl. now rewrite IH.
Qed.

Lemma app_assoc_str (a b c : string) : (a +:+ b) +:+ c = a +:+ (b +:+ c).
Proof.
  induction a as [|x a IH]; [reflexivity|].
  change ((String x a +:+ b) +:+ c) with (String x ((a +:+ b) +:+ c)).
  now rewrite IH.
Qed.

(** A list marker is no whitespace. *)
Lemma marker_not_space (c : ascii) :
  Chars.one_of ["-"; "#"; "@"; "*"]%char c = true -> Chars.is_space c = false.
Proof.
  unfold Chars.one_of. cbn [existsb]. intros H.
  repeat (apply orb_prop in H as [H|H];
          [apply Ascii.eqb_eq in H; subst c; reflexivity|]).
  discriminate.
Qed.

Lemma marker_cases (c : ascii) :
  Chars.one_of ["-"; "#"; "@"; "*"]%char c = true <->
  (c = "-" \/ c = "#" \/ c = "@" \/ c = "*")%char.
Proof.
  unfold Chars.one_of. cbn [existsb]. rewrite !orb_true_iff, !Ascii.eqb_eq.
  intuition (try discriminate; auto).
Qed.

(** ** The shape of a line *)

(** [opening_whitespace] as a count of characters. *)
Lemma opening_whitespace_run (line : string) :
  opening_whitespace line
  = if all_of Chars.is_space line then 0 else span Chars.is_space line.
Proof.
  unfold opening_whitespace, re_match, match_at.
  change (cat [Grp "1" (star ws); non_ws])
    with (Seq (Grp "1" (Rep (Cls Chars.is_space) 0 None)) non_ws).
  rewrite seq_grp_rep_class.
  - change (Nat.leb 0 (span Chars.is_space line)) with true. cbv iota.
    unfold non_ws. rewrite matches_cls.
    destruct (span_end Chars.is_space line) as [E|(c & s' & E & Hc)].
    + rewrite E.
      assert (Hall : all_of Chars.is_space line = true).
      { apply span_all. pose proof (drop_str_length (span Chars.is_space line)
                                      line) as Hl.
        rewrite E in Hl. simpl in Hl.
        pose proof (span_le Chars.is_space line). lia. }
      rewrite Hall. reflexivity.
    + rewrite E, Hc. simpl negb. cbv iota.
      assert (Hall : all_of Chars.is_space line = false).
      { destruct (all_of Chars.is_space line) eqn:Ha; [|reflexivity].
        apply span_all in Ha.
        pose proof (drop_str_length (span Chars.is_space line) line) as Hl.
        rewrite E in Hl. simpl in Hl. lia. }
      rewrite Hall. unfold group_end. simpl.
      destruct (span_split Chars.is_space line) as (_ & _ & ->).
      reflexivity.
  - intros k Hk. unfold non_ws. rewrite matches_cls.
    destruct (span_inside _ _ _ (proj2 Hk)) as (c & s' & -> & ->).
    reflexivity.
Qed.

(** X1: the indent of a line is the number of whitespace characters
    before its first other character; a line of whitespace only, or an
    empty one, has indent 0. *)
Theorem opening_whitespace_indent (line : string) :
  (all_of Chars.is_space line = true -> opening_whitespace line = 0)
  /\ (forall ind c tail,
        line = ind +:+ String c tail ->
        all_of Chars.is_space ind = true -> Chars.is_space c = false ->
        opening_whitespace line = String.length ind).
Proof.
  rewrite opening_whitespace_run. split.
  - intros ->. reflexivity.
  - intros ind c tail -> Hind Hc.
    rewrite all_of_app. simpl. rewrite Hc, andb_false_r.
    apply (span_app Chars.is_space ind c tail Hind Hc).
Qed.

(** [list_start] in terms of the first character after the indent. *)
Lemma list_start_run (line : string) :
  list_start line
  = match drop_str (span Chars.is_space line) line with
    | String c (String w _) =>
        if Chars.one_of ["-"; "#"; "@"; "*"]%char c && Chars.is_space w
        then Some (String c "") else None
    | _ => None
    end.
Proof.
  unfold list_start, re_match, match_at.
  change (cat [star ws;
               Grp "1" (Cls (Chars.one_of ["-"; "#"; "@"; "*"]%char)); ws])
    with (Seq (Rep (Cls Chars.is_space) 0 None)
              (Seq (Grp "1" (Cls (Chars.one_of ["-"; "#"; "@"; "*"]%char)))
                   ws)).
  rewrite seq_rep_class.
  - change (Nat.leb 0 (span Chars.is_space line)) with true. cbv iota.
    rewrite matches_seq, matches_grp, matches_cls. cbn [rest pos].
    destruct (drop_str (span Chars.is_space line) line) as [|c tail];
      [reflexivity|].
    destruct (Chars.one_of ["-"; "#"; "@"; "*"]%char c);
      [|destruct tail; reflexivity].
    cbn [map flat_map fst snd]. unfold ws. rewrite matches_cls.
    destruct tail as [|w rest']; [reflexivity|].
    destruct (Chars.is_space w); [|reflexivity].
    cbn [app andb]. unfold group. cbn [m_groups assoc].
    change (String.eqb "1" "1") with true. cbv iota. cbn [pos].
    replace (S (0 + span Chars.is_space line)
             - (0 + span Chars.is_space line)) with 1 by lia.
    reflexivity.
  - intros k Hk. rewrite matches_seq, matches_grp, matches_cls.
    destruct (span_inside _ _ _ (proj2 Hk)) as (c & s' & -> & Hc).
    destruct (Chars.one_of ["-"; "#"; "@"; "*"]%char c) eqn:Em;
      [|reflexivity].
    apply marker_not_space in Em. congruence.
Qed.

(** X2: a line starts a list element exactly when, after its indent,
    it has one of the characters - # @ * followed by a whitespace
    character; the result is that character. *)
Theorem list_start_spec (line t : string) :
  list_start line = Some t <->
  exists ind c w rest,
    line = ind +:+ String c (String w rest)
    /\ all_of Chars.is_space ind = true
    /\ (c = "-" \/ c = "#" \/ c = "@" \/ c = "*")%char
    /\ Chars.is_space w = true
    /\ t = String c "".
Proof.
  rewrite list_start_run. split.
  - intros H.
    destruct (span_split Chars.is_space line) as (Hs & Hall & _).
    destruct (drop_str (span Chars.is_space line) line) as [|c [|w rest']];
      try discriminate.
    destruct (Chars.one_of ["-"; "#"; "@"; "*"]%char c) eqn:Em;
      [|discriminate].
    destruct (Chars.is_space w) eqn:Ew; [|discriminate].
    injection H as <-.
    exists (take_str (span Chars.is_space line) line), c, w, rest'.
    repeat split; [exact Hs|exact Hall|apply marker_cases, Em|exact Ew].
  - intros (ind & c & w & rest' & -> & Hind & Hc & Hw & ->).
    apply marker_cases in Hc.
    destruct (span_app Chars.is_space ind c (String w rest') Hind
                (marker_not_space c Hc)) as [-> ->].
    rewrite Hc, Hw. reflexivity.
Qed.

(** [is_next_action] in terms of the characters after the indent. *)
Lemma is_next_action_run (line : string) :
  is_next_action line
  = match drop_str (span Chars.is_space line) line with
    | String c tail =>
        Chars.one_of ["-"; "#"; "@"; "*"]%char c
        && Nat.leb 1 (span Chars.is_space tail)
        && match drop_str (span Chars.is_space tail) tail with
           | String a (String w _) => Chars.is_char "@" a && Chars.is_space w
           | _ => false
           end
    | EmptyString => false
    end.
Proof.
  unfold is_next_action. rewrite list_start_run.
  destruct (drop_str (span Chars.is_space line) line) as [|c tail] eqn:E;
    [reflexivity|].
  destruct (Chars.one_of ["-"; "#"; "@"; "*"]%char c) eqn:Em;
    [|destruct tail; reflexivity].
  destruct tail as [|w0 rest0]; [reflexivity|].
  destruct (Chars.is_space w0) eqn:Ew0.
  2:{ cbn [andb]. cbn [span]. rewrite Ew0. reflexivity. }
  cbn [andb]. cbv iota.
  unfold re_match, match_at, class_of.
  change (list_ascii_of_string (String c "")) with [c].
  change (cat [star ws; Cls (Chars.one_of [c]); plus ws; chr "@"; ws])
    with (Seq (Rep (Cls Chars.is_space) 0 None)
            (Seq (Cls (Chars.one_of [c]))
               (Seq (Rep (Cls Chars.is_space) 1 None)
                  (Seq (Cls (Chars.is_char "@")) (Cls Chars.is_space))))).
  rewrite seq_rep_class.
  - change (Nat.leb 0 (span Chars.is_space line)) with true. cbv iota.
    rewrite E, matches_seq, matches_cls.
    assert (Hc : Chars.one_of [c] c = true).
    { unfold Chars.one_of. cbn [existsb]. rewrite Ascii.eqb_refl.
      reflexivity. }
    rewrite Hc. cbn [flat_map fst snd]. rewrite app_nil_r.
    rewrite seq_rep_class.
    + destruct (Nat.leb 1 (span Chars.is_space (String w0 rest0)));
        [|reflexivity].
      rewrite matches_seq, matches_cls.
      destruct (drop_str (span Chars.is_space (String w0 rest0))
                  (String w0 rest0)) as [|a [|w rest']]; try reflexivity.
      * destruct (Chars.is_char "@" a); reflexivity.
      * destruct (Chars.is_char "@" a); [|reflexivity].
        cbn [flat_map fst snd]. rewrite matches_cls.
        destruct (Chars.is_space w); reflexivity.
    + intros k Hk. rewrite matches_seq, matches_cls.
      destruct (span_inside _ _ _ (proj2 Hk)) as (c' & s' & -> & Hc').
      destruct (Chars.is_char "@" c') eqn:Ea; [|reflexivity].
      apply Ascii.eqb_eq in Ea. subst c'. discriminate.
  - intros k Hk. rewrite matches_seq, matches_cls.
    destruct (span_inside _ _ _ (proj2 Hk)) as (c' & s' & -> & Hc').
    destruct (Chars.one_of [c] c') eqn:Eo; [|reflexivity].
    unfold Chars.one_of in Eo. cbn [existsb] in Eo.
    rewrite orb_false_r in Eo. apply Ascii.eqb_eq in Eo. subst c'.
    apply marker_not_space in Em. congruence.
Qed.

Lemma all_of_nonempty_span (P : ascii -> bool) (gap : string) (c : ascii)
    (tail : string) :
  gap <> "" -> all_of P gap = true -> P c = false ->
  Nat.leb 1 (span P (gap +:+ String c tail)) = true.
Proof.
  intros Hne Hall Hc. destruct (span_app P gap c tail Hall Hc) as [-> _].
  destruct gap; [congruence|reflexivity].
Qed.

(** X3: a line is a next action exactly when, after its indent, it has
    a list marker, at least one whitespace character, an [@] and one
    more whitespace character. *)
Theorem is_next_action_spec (line : string) :
  is_next_action line = true <->
  exists ind c gap w rest,
    line = ind +:+ String c (gap +:+ String "@" (String w rest))
    /\ all_of Chars.is_space ind = true
    /\ (c = "-" \/ c = "#" \/ c = "@" \/ c = "*")%char
    /\ gap <> "" /\ all_of Chars.is_space gap = true
    /\ Chars.is_space w = true.
Proof.
  rewrite is_next_action_run. split.
  - intros H.
    destruct (span_split Chars.is_space line) as (Hs & Hall & _).
    destruct (drop_str (span Chars.is_space line) line) as [|c tail];
      [discriminate|].
    apply andb_prop in H as [H H3]. apply andb_prop in H as [H1 H2].
    destruct (span_split Chars.is_space tail) as (Hs' & Hall' & Hlen').
    destruct (drop_str (span Chars.is_space tail) tail) as [|a [|w rest']];
      try discriminate.
    apply andb_prop in H3 as [Ha Hw]. apply Ascii.eqb_eq in Ha. subst a.
    exists (take_str (span Chars.is_space line) line), c,
      (take_str (span Chars.is_space tail) tail), w, rest'.
    repeat split.
    + rewrite <- Hs'. exact Hs.
    + exact Hall.
    + apply marker_cases, H1.
    + intros Hnil. rewrite Hnil in Hlen'. simpl in Hlen'.
      rewrite <- Hlen' in H2. discriminate.
    + exact Hall'.
    + exact Hw.
  - intros (ind & c & gap & w & rest' & -> & Hind & Hc & Hne & Hgap & Hw).
    apply marker_cases in Hc.
    destruct (span_app Chars.is_space ind c
                (gap +:+ String "@" (String w rest')) Hind
                (marker_not_space c Hc)) as [-> ->].
    rewrite Hc.
    rewrite (all_of_nonempty_span Chars.is_space gap "@" (String w rest')
               Hne Hgap eq_refl).
    destruct (span_app Chars.is_space gap "@" (String w rest') Hgap eq_refl)
      as [-> ->].
    rewrite Hw. reflexivity.
Qed.

Lemma flat_map_nonempty_iff {A B : Type} (f : A -> list B) (l : list A) :
  flat_map f l <> [] <-> exists x, In x l /\ f x <> [].
Proof.
  split.
  - induction l as [|x l IH]; [intros H; exfalso; apply H; reflexivity|].
    simpl. intros H. destruct (f x) as [|y ys] eqn:Ef.
    + destruct (IH H) as (x' & Hin & Hx'). exists x'. split; [now right|].
      exact Hx'.
    + exists x. split; [now left|]. rewrite Ef. discriminate.
  - intros (x & Hin & Hx). exact (flat_map_in_nonempty f l x Hin Hx).
Qed.

Lemma drop_str_all (s : string) : drop_str (String.length s) s = "".
Proof. induction s as [|c s IH]; [reflexivity|exact IH]. Qed.

Lemma blank_spaces (line : string) :
  truthy (blank line) = true <-> all_of Chars.is_space line = true.
Proof.
  unfold blank, re_match, match_at.
  change (cat [star ws; Eol]) with (Seq (Rep (Cls Chars.is_space) 0 None) Eol).
  rewrite matches_seq, matches_rep_class, flat_map_map. cbn [fst snd].
  set (f := fun k : nat =>
              matches Eol (Cursor (0 + k) (drop_str k line)) []).
  assert (Hiff : flat_map f (countdown (span Chars.is_space line) 0) <> []
                 <-> all_of Chars.is_space line = true).
  { rewrite flat_map_nonempty_iff. split.
    - intros (k & Hk & Hf). apply in_countdown in Hk.
      unfold f in Hf. simpl in Hf.
      destruct (at_eol (drop_str k line)) eqn:Ee; [|congruence].
      pose proof (drop_str_length k line) as Hlen.
      pose proof (span_le Chars.is_space line) as Hle.
      destruct (drop_str k line) as [|c [|c' s']] eqn:Ed; try discriminate.
      + apply span_all. simpl in Hlen. lia.
      + simpl in Ee. apply Ascii.eqb_eq in Ee. subst c.
        rewrite <- (take_drop_str k line), Ed, all_of_app.
        rewrite (take_str_all Chars.is_space k line) by lia. reflexivity.
    - intros Hall. apply span_all in Hall. exists (String.length line).
      split; [apply in_countdown; lia|].
      unfold f. simpl. rewrite drop_str_all. simpl. discriminate. }
  destruct (flat_map f (countdown (span Chars.is_space line) 0))
    as [|[cu' caps'] l] eqn:E.
  - simpl. split; [discriminate|].
    intros Hall. apply Hiff in Hall. congruence.
  - simpl. split; [|reflexivity]. intros _. apply Hiff. discriminate.
Qed.

(** X4: [blank] holds of the lines that consist of whitespace only,
    the empty line among them; such a line has indent 0, starts no
    list element and is no next action. *)
Theorem blank_iff (line : string) :
  (truthy (blank line) = true <-> all_of Chars.is_space line = true)
  /\ (truthy (blank line) = true ->
      opening_whitespace line = 0
      /\ list_start line = None
      /\ is_next_action line = false).
Proof.
  split; [apply blank_spaces|].
  intros Hb. apply blank_spaces in Hb.
  assert (Hls : list_start line = None).
  { rewrite list_start_run.
    pose proof (proj2 (span_all Chars.is_space line) Hb) as Hsp.
    rewrite Hsp, drop_str_all. reflexivity. }
  split; [|split].
  - rewrite opening_whitespace_run, Hb. reflexivity.
  - exact Hls.
  - unfold is_next_action. rewrite Hls. reflexivity.
Qed.

(** ** Literal words *)

Lemma starts_with_app (w s : string) :
  starts_with w s = true <-> s = w +:+ drop_str (String.length w) s.
Proof.
  revert s. induction w as [|a w IH]; intros s.
  - cbn [starts_with String.length]. rewrite drop_str_0.
    change ("" +:+ s) with s. tauto.
  - destruct s as [|b s]; simpl.
    + split; discriminate.
    + change (String a w +:+ drop_str (String.length w) s)
        with (String a (w +:+ drop_str (String.length w) s)).
      rewrite andb_true_iff, Ascii.eqb_eq, IH. split.
      * intros [-> <-]. reflexivity.
      * intros [= -> H]. split; [reflexivity|exact H].
Qed.

Lemma starts_with_self (w after : string) : starts_with w (w +:+ after) = true.
Proof.
  induction w as [|a w IH]; [reflexivity|].
  change (String a w +:+ after) with (String a (w +:+ after)). simpl.
  rewrite Ascii.eqb_refl. exact IH.
Qed.

Lemma drop_str_app (a b : string) : drop_str (String.length a) (a +:+ b) = b.
Proof.
  induction a as [|c a IH]; [apply drop_str_0|exact IH].
Qed.

Lemma starts_with_cons (a b : ascii) (w s : string) :
  starts_with (String a w) (String b s) = Ascii.eqb a b && starts_with w s.
Proof. reflexivity. Qed.

(** A literal matches where the text begins with it. *)
Lemma matches_lit (w : string) :
  w <> "" ->
  forall (s : string) (p : nat) (caps : list capture),
    matches (lit w) (Cursor p s) caps
    = if starts_with w s
      then [(Cursor (p + String.length w) (drop_str (String.length w) s),
             caps)]
      else [].
Proof.
  induction w as [|c w IH]; intros Hne s p caps; [congruence|].
  destruct w as [|c' w'].
  - change (lit (String c "")) with (Cls (Chars.is_char c)).
    rewrite matches_cls. destruct s as [|b s]; [reflexivity|].
    simpl. unfold Chars.is_char. rewrite andb_true_r.
    destruct (Ascii.eqb c b); [|reflexivity].
    replace (p + 1) with (S p) by lia. destruct s; reflexivity.
  - change (lit (String c (String c' w')))
      with (Seq (Cls (Chars.is_char c)) (lit (String c' w'))).
    rewrite matches_seq, matches_cls. destruct s as [|b s]; [reflexivity|].
    rewrite starts_with_cons. unfold Chars.is_char.
    destruct (Ascii.eqb c b); [|reflexivity].
    cbn [flat_map fst snd andb]. rewrite app_nil_r.
    rewrite IH by discriminate.
    destruct (starts_with (String c' w') s); [|reflexivity].
    cbn [String.length drop_str].
    replace (S p + S (String.length w')) with (p + S (S (String.length w')))
      by lia.
    reflexivity.
Qed.

(** A search succeeds when the pattern matches at some offset. *)
Lemma re_search_iff (r : regex) (Q : string -> bool) (line : string) :
  (forall cu, truthy (match_at r cu) = Q (rest cu)) ->
  truthy (re_search r line) = true <->
  exists q, q <= String.length line /\ Q (drop_str q line) = true.
Proof.
  intros HQ. unfold re_search. split.
  - destruct (search_from r 0 line) as [m|] eqn:E; [|discriminate].
    intros _. rewrite <- (drop_str_0 line) in E.
    apply (search_from_some r line _ 0 m eq_refl) in E.
    destruct E as (q & _ & Hq & Hm & _). exists q. split; [lia|].
    unfold match_from in Hm.
    specialize (HQ (Cursor q (drop_str q line))). cbn [rest] in HQ.
    rewrite <- HQ, Hm. reflexivity.
  - intros (q & Hq & HQq).
    destruct (search_from r 0 line) as [m|] eqn:E; [reflexivity|].
    rewrite <- (drop_str_0 line) in E.
    pose proof (search_from_none r line _ 0 eq_refl E q) as Hn.
    unfold match_from in Hn.
    specialize (HQ (Cursor q (drop_str q line))). cbn [rest] in HQ.
    rewrite <- HQ, Hn in HQq by lia. discriminate.
Qed.

Lemma contains_iff (w line : string) :
  contains w line <->
  exists q, q <= String.length line /\ starts_with w (drop_str q line) = true.
Proof.
  split.
  - intros (before & after & ->). exists (String.length before).
    rewrite app_length, drop_str_app. split; [lia|apply starts_with_self].
  - intros (q & _ & H). apply starts_with_app in H.
    exists (take_str q line), (drop_str (String.length w) (drop_str q line)).
    rewrite <- H. symmetry. apply take_drop_str.
Qed.

Lemma match_at_lit (w : string) (cu : cursor) :
  w <> "" -> truthy (match_at (lit w) cu) = starts_with w (rest cu).
Proof.
  intros Hne. destruct cu as [p s]. unfold match_at.
  rewrite (matches_lit w Hne). simpl. destruct (starts_with w s); reflexivity.
Qed.

(** X5: [item_done] holds of the lines in which DONE or WONTDO occurs
    anywhere, inside a longer word too, and [is_recur] of the lines in
    which RECUR occurs. *)
Theorem marker_words_anywhere (line : string) :
  (truthy (item_done line) = true <->
   contains "DONE" line \/ contains "WONTDO" line)
  /\ (truthy (is_recur line) = true <-> contains "RECUR" line).
Proof.
  split.
  - unfold item_done.
    rewrite (re_search_iff _
               (fun s => starts_with "DONE" s || starts_with "WONTDO" s)).
    + rewrite !contains_iff. split.
      * intros (q & Hq & H). apply orb_prop in H as [H|H];
          [left|right]; exists q; split; assumption.
      * intros [(q & Hq & H)|(q & Hq & H)]; exists q; split; try assumption;
          rewrite H; [reflexivity|apply orb_true_r].
    + intros [p s]. unfold match_at.
      rewrite matches_grp.
      change (matches (Alt (lit "DONE") (lit "WONTDO")) (Cursor p s) [])
        with (matches (lit "DONE") (Cursor p s) []
              ++ matches (lit "WONTDO") (Cursor p s) [])%list.
      rewrite !matches_lit by discriminate. cbn [rest].
      destruct (starts_with "DONE" s); [reflexivity|].
      destruct (starts_with "WONTDO" s); reflexivity.
  - unfold is_recur. rewrite (re_search_iff _ (starts_with "RECUR")).
    + symmetry. apply contains_iff.
    + intros cu. apply match_at_lit. discriminate.
Qed.


(** ** Lines and their numbers *)

(** A search skips the characters at which the pattern cannot start. *)
Lemma search_from_skip (r : regex) (P : ascii -> bool) (body tail : string) :
  (forall q c s, P c = true -> match_at r (Cursor q (String c s)) = None) ->
  all_of P body = true ->
  forall p, search_from r p (body +:+ tail)
            = search_from r (p + String.length body) tail.
Proof.
  intros Hno. induction body as [|c body IH]; intros Hall p.
  - simpl. rewrite Nat.add_0_r. reflexivity.
  - simpl in Hall. apply andb_prop in Hall as [Hc Hall].
    change (String c body +:+ tail) with (String c (body +:+ tail)).
    simpl. rewrite (Hno p c _ Hc), (IH Hall).
    f_equal. lia.
Qed.

Lemma newline_at_end_not_here (q : nat) (c : ascii) (s : string) :
  negb (Ascii.eqb c Chars.newline) = true ->
  match_at (cat [chr Chars.newline; Eol]) (Cursor q (String c s)) = None.
Proof.
  intros Hc. unfold match_at.
  change (cat [chr Chars.newline; Eol])
    with (Seq (Cls (Chars.is_char Chars.newline)) Eol).
  rewrite matches_seq, matches_cls. unfold Chars.is_char.
  rewrite Ascii.eqb_sym. apply negb_true_iff in Hc. rewrite Hc. reflexivity.
Qed.

Lemma take_str_app (a b : string) : take_str (String.length a) (a +:+ b) = a.
Proof.
  induction a as [|c a IH]; [destruct b; reflexivity|].
  change (String c a +:+ b) with (String c (a +:+ b)). simpl. now rewrite IH.
Qed.

Lemma app_empty_r (a : string) : a +:+ "" = a.
Proof.
  induction a as [|c a IH]; [reflexivity|].
  change (String c a +:+ "") with (String c (a +:+ "")). now rewrite IH.
Qed.

(** The newline that ends a line is cut; a line without one is left as
    it is. *)
Lemma strip_newline (body : string) :
  one_line body = true ->
  re_sub_empty (cat [chr Chars.newline; Eol]) (body +:+ nl) = body
  /\ re_sub_empty (cat [chr Chars.newline; Eol]) body = body.
Proof.
  intros Hbody. split.
  - unfold re_sub_empty, re_finditer. cbn [scan].
    rewrite (search_from_skip _ _ body nl newline_at_end_not_here Hbody).
    cbn [search_from nl]. unfold match_at at 1.
    change (matches (cat [chr Chars.newline; Eol])
              (Cursor (0 + String.length body) (String Chars.newline "")) [])
      with [(Cursor (S (0 + String.length body)) "", @nil capture)].
    cbv iota. cbn [m_start m_end pos].
    destruct (Nat.ltb_spec (0 + String.length body)
                (S (0 + String.length body))); [|lia].
    rewrite app_length. cbn [String.length nl].
    destruct (Nat.leb_spec (S (0 + String.length body) - 0)
                (String.length body + 1)); [|lia].
    replace (S (0 + String.length body) - 0)
      with (String.length (body +:+ nl)) by (rewrite app_length; simpl; lia).
    rewrite drop_str_all.
    destruct (String.length body + 1) as [|fuel]; [lia|].
    cbn [scan search_from]. unfold match_at at 1.
    change (matches (cat [chr Chars.newline; Eol])
              (Cursor (S (0 + String.length body)) "") [])
      with (@nil success).
    cbv iota. cbn [cut m_start m_end].
    replace (0 + String.length body - 0) with (String.length body) by lia.
    replace (S (0 + String.length body) - 0)
      with (String.length (body +:+ nl)) by (rewrite app_length; simpl; lia).
    rewrite take_str_app, drop_str_all. apply app_empty_r.
  - apply re_sub_empty_none. unfold re_search.
    rewrite <- (app_empty_r body) at 1.
    rewrite (search_from_skip _ _ body "" newline_at_end_not_here Hbody).
    reflexivity.
Qed.

(** X6: [read_and_count_lines] returns the number 0 at the end of the
    file only; otherwise it returns the next number and the line
    without its newline, an empty line being a line like any other. *)
Theorem read_and_count_lines_spec (linenum : nat) (body : string)
    (f : file) :
  one_line body = true ->
  read_and_count_lines linenum [] = (0, "", [])
  /\ read_and_count_lines linenum ((body +:+ nl) :: f)
     = (linenum + 1, body, f)
  /\ (body <> "" ->
      read_and_count_lines linenum (body :: f) = (linenum + 1, body, f)).
Proof.
  intros Hbody. destruct (strip_newline body Hbody) as [H1 H2].
  split; [reflexivity|]. split.
  - unfold read_and_count_lines, readline, count_line.
    destruct (String.eqb_spec (body +:+ nl) "") as [E|_].
    + destruct body; discriminate.
    + rewrite H1. reflexivity.
  - intros Hne. unfold read_and_count_lines, readline, count_line.
    destruct (String.eqb_spec body "") as [E|_]; [congruence|].
    rewrite H2. reflexivity.
Qed.

Lemma read_and_count_lines_spec_witness :
  read_and_count_lines 4 [nl; "- @ call mom" +:+ nl]
  = (5, "", ["- @ call mom" +:+ nl]).
Proof.
  apply (read_and_count_lines_spec 4 "" ["- @ call mom" +:+ nl]).
  reflexivity.
Defined.

(** ** Names of contexts *)

(** The name of a context token is a run of word characters. *)
Lemma context_token_word (cu : cursor) (m : match_obj) :
  match_at context_pattern cu = Some m ->
  exists name, group m "context" = Some name
               /\ name <> "" /\ all_of Chars.is_word name = true.
Proof.
  unfold match_at.
  destruct (matches context_pattern cu []) as [|[cu' caps] l] eqn:E;
    [discriminate|].
  intros [= <-].
  assert (Hin : In (cu', caps) (matches context_pattern cu []))
    by (rewrite E; left; reflexivity).
  change (matches context_pattern cu [])
    with (flat_map
            (fun sc : success =>
               flat_map
                 (fun sc' : success =>
                    matches (Grp "context" (Rep (Cls Chars.is_word) 1 None))
                            (fst sc') (snd sc'))
                 (matches (Rep (chr "@") 1 (Some 2)) (fst sc) (snd sc)))
            (matches (plus ws) cu [])) in Hin.
  apply in_flat_map in Hin. destruct Hin as (sc1 & _ & Hin).
  apply in_flat_map in Hin. destruct Hin as ([[p' s'] caps2] & _ & Hin).
  cbn [fst snd] in Hin.
  rewrite matches_grp, matches_rep_class, map_map in Hin.
  apply in_map_iff in Hin. destruct Hin as (k & Hk & Hin).
  cbn [fst snd pos rest] in Hk. injection Hk as <- <-.
  apply in_countdown in Hin.
  replace (p' + k - p') with k by lia.
  exists (take_str k s'). unfold group. cbn [m_groups assoc].
  change (String.eqb "context" "context") with true. cbv iota.
  split; [reflexivity|]. split.
  - intros Hnil.
    pose proof (take_str_length k s') as Hlen.
    pose proof (span_le Chars.is_word s').
    rewrite Hnil in Hlen. simpl in Hlen. lia.
  - apply take_str_all. lia.
Qed.

Lemma Forall_omap {A B : Type} (f : A -> option B) (P : B -> Prop)
    (l : list A) :
  (forall x y, In x l -> f x = Some y -> P y) -> Forall P (omap f l).
Proof.
  induction l as [|x l IH]; intros H; [constructor|].
  simpl. destruct (f x) as [y|] eqn:Ef.
  - constructor; [apply (H x y); [now left|exact Ef]|].
    apply IH. intros x' y' Hx'. apply H. now right.
  - apply IH. intros x' y' Hx'. apply H. now right.
Qed.

(** X7: every context name returned by [parse_and_strip_contexts] is a
    non-empty string of word characters (letters, digits, underscore). *)
Theorem context_names_are_words (text : string) :
  Forall (fun name => name <> "" /\ all_of Chars.is_word name = true)
         (snd (parse_and_strip_contexts text)).
Proof.
  unfold parse_and_strip_contexts. cbn [snd].
  apply Forall_omap. intros m name Hm Hname.
  destruct (re_finditer_spec context_pattern text context_token_nonempty)
    as (Ha & _ & _).
  apply Ha in Hm. unfold match_from in Hm.
  destruct (context_token_word _ _ Hm) as (name' & Hg & Hne & Hw).
  rewrite Hg in Hname. injection Hname as <-. split; assumption.
Qed.

(** ** Contexts of an item *)

(** X8: whether an item passes [contexts_ok] depends on which contexts
    it has only, not on their order or on repetitions. *)
Theorem contexts_ok_same_elements (pl : Plate) (cs cs' : list string)
    (anon : bool) :
  (forall c, c ∈ cs <-> c ∈ cs') ->
  contexts_ok pl cs anon = contexts_ok pl cs' anon.
Proof.
  intros Hsame.
  assert (Hiff : contexts_ok pl cs anon = true
                 <-> contexts_ok pl cs' anon = true).
  { rewrite !contexts_ok_spec. split.
    - intros [Hav Huse]. split.
      + intros c Hc. apply Hav, Hsame, Hc.
      + destruct Huse as [->|(c & Hc & Hu)]; [now left|].
        right. exists c. split; [apply Hsame, Hc|exact Hu].
    - intros [Hav Huse]. split.
      + intros c Hc. apply Hav, Hsame, Hc.
      + destruct Huse as [->|(c & Hc & Hu)]; [now left|].
        right. exists c. split; [apply Hsame, Hc|exact Hu]. }
  destruct (contexts_ok pl cs anon), (contexts_ok pl cs' anon);
    try reflexivity.
  - symmetry. now apply Hiff.
  - now apply Hiff.
Qed.

Lemma contexts_ok_same_elements_witness :
  contexts_ok plate_with_work_reminder ["home"; "work"] false
  = contexts_ok plate_with_work_reminder ["work"; "home"; "work"] false.
Proof.
  apply (contexts_ok_same_elements plate_with_work_reminder
           ["home"; "work"] ["work"; "home"; "work"] false).
  intros c. rewrite !elem_of_cons, !elem_of_nil. tauto.
Defined.

(** ** Storing a next action *)

(** X9: when [add_NextAction] returns True, the line is not marked as
    done and the plate has one next action more: it is stored under the
    key that is the former number of next actions, with the jump
    target p<linenum> and the contexts of the line; the next actions
    stored before keep their keys, and nothing else on the plate
    changes. *)
Theorem add_NextAction_appends (g : vim_globals) (linenum : nat)
    (line : string) (pl pl' : Plate) :
  dense (next_actions pl) ->
  add_NextAction g linenum line pl = (Ok true, pl') ->
  truthy (item_done line) = false
  /\ size (next_actions pl') = S (size (next_actions pl))
  /\ dense (next_actions pl')
  /\ (forall k item, next_actions pl !! k = Some item ->
                     next_actions pl' !! k = Some item)
  /\ (exists item,
        next_actions pl' !! size (next_actions pl) = Some item
        /\ na_jump_to item = "p" +:+ pretty linenum
        /\ na_contexts item = snd (parse_and_strip_contexts line))
  /\ inboxes pl' = inboxes pl /\ reminders pl' = reminders pl
  /\ now pl' = now pl
  /\ contexts_use pl' = contexts_use pl
  /\ contexts_avoid pl' = contexts_avoid pl.
Proof.
  intros Hd. unfold add_NextAction.
  destruct (truthy (item_done line)); [discriminate|].
  destruct (parse_and_strip_contexts line) as [text contexts].
  unfold mbind, lift.
  destruct (parse_and_strip_dates g text) as [[[text' vis] due]|e];
    [|discriminate].
  intros [= <-]. cbn [next_actions set_next_actions inboxes reminders now
                      contexts_use contexts_avoid].
  split; [reflexivity|]. split.
  { apply map_size_insert_None, dense_fresh, Hd. }
  split; [apply dense_insert, Hd|]. split.
  { intros k item Hk. apply dense_insert_keeps; assumption. }
  split; [|repeat split].
  rewrite next_key_size. eexists. rewrite lookup_insert_eq.
  split; [reflexivity|]. split; reflexivity.
Qed.

Lemma add_NextAction_appends_witness :
  exists item,
    next_actions (snd (add_NextAction default_globals 7
                         "- @ call mom @phone"
                         (Plate_init default_globals 0%Z))) !! 0 = Some item
    /\ na_jump_to item = "p7" /\ na_contexts item = ["phone"].
Proof.
  destruct (add_NextAction_appends default_globals 7 "- @ call mom @phone"
              (Plate_init default_globals 0%Z)
              (snd (add_NextAction default_globals 7 "- @ call mom @phone"
                      (Plate_init default_globals 0%Z))))
    as (_ & _ & _ & _ & (item & Hi & Hj & Hc) & _).
  - apply dense_empty.
  - vm_compute. reflexivity.
  - exists item. split; [exact Hi|]. split; [exact Hj|].
    rewrite Hc. vm_compute. reflexivity.
Defined.

(** ** What the views list *)

(** X10: in the Inboxes and Next Actions views no item is listed both
    as overdue and as due; and on a plate whose inboxes have their due
    time at or after their visible time, as [read_inboxes] stores them,
    an overdue inbox is past its visible time too, and every inbox that
    is past its visible time and passes the context check is listed. *)
Theorem views_list_once (pl : Plate) :
  inboxes_ordered pl ->
  (forall i, ~ (i ∈ display_inboxes_vis pl /\ i ∈ display_inboxes_due pl))
  /\ (forall i, ~ (i ∈ display_NextActions_vis pl
                   /\ i ∈ display_NextActions_due pl))
  /\ (forall i item, inboxes pl !! i = Some item ->
        i ∈ display_inboxes_due pl ->
        visible pl (Some (inbox_TS_vis item)) = true)
  /\ (forall i item, inboxes pl !! i = Some item ->
        visible pl (Some (inbox_TS_vis item)) = true ->
        contexts_ok pl (inbox_contexts item) false = true ->
        i ∈ display_inboxes_vis pl \/ i ∈ display_inboxes_due pl).
Proof.
  intros Hord. unfold display_inboxes_vis, display_inboxes_due,
    display_NextActions_vis, display_NextActions_due.
  split; [|split; [|split]].
  - intros i [Hv Hd]. apply keys_where_spec in Hv as (x & Hx & Hv).
    apply keys_where_spec in Hd as (y & Hy & Hd).
    rewrite Hx in Hy. injection Hy as <-.
    apply andb_prop in Hv as [Hv _]. apply andb_prop in Hv as [_ Hv].
    apply andb_prop in Hd as [Hd _]. rewrite Hd in Hv. discriminate.
  - intros i [Hv Hd]. apply keys_where_spec in Hv as (x & Hx & Hv).
    apply keys_where_spec in Hd as (y & Hy & Hd).
    rewrite Hx in Hy. injection Hy as <-.
    apply andb_prop in Hv as [Hv _]. apply andb_prop in Hv as [_ Hv].
    apply andb_prop in Hd as [Hd _]. rewrite Hd in Hv. discriminate.
  - intros i item Hi Hd. apply keys_where_spec in Hd as (y & Hy & Hd).
    rewrite Hi in Hy. injection Hy as <-.
    apply andb_prop in Hd as [Hd _]. unfold overdue, visible in *.
    destruct (Hord i item Hi) as [_ Hle]. lia.
  - intros i item Hi Hv Hc.
    destruct (overdue pl (Some (inbox_TS_due item))) eqn:Ho.
    + right. apply keys_where_spec. exists item. split; [exact Hi|].
      rewrite Ho, Hc. reflexivity.
    + left. apply keys_where_spec. exists item. split; [exact Hi|].
      rewrite Hv, Ho, Hc. reflexivity.
Qed.

Lemma update_keeps_inboxes (current_time context_updated : datetime)
    (context_file : file) (pl : Plate) :
  inboxes (update_time_and_contexts current_time context_updated
             context_file pl) = inboxes pl.
Proof.
  unfold update_time_and_contexts.
  destruct (match context_checked pl with
            | Some checked => (checked <? context_updated)%Z
            | None => true
            end); [|reflexivity].
  destruct (read_contexts context_file [] []). reflexivity.
Qed.

Lemma views_list_once_witness :
  let pl :=
    update_time_and_contexts 63713865660000000%Z 0%Z
      (file_of_text "computer
")
      (snd (read_inboxes default_globals inboxes_example
              (Plate_init default_globals 0%Z))) in
  0 ∈ display_inboxes_vis pl \/ 0 ∈ display_inboxes_due pl.
Proof.
  intros pl.
  assert (Hord : inboxes_ordered pl).
  { intros k item Hk. unfold pl in Hk. rewrite update_keeps_inboxes in Hk.
    refine (read_inboxes_ordered default_globals inboxes_example
              (Plate_init default_globals 0%Z)
              (fst (read_inboxes default_globals inboxes_example
                      (Plate_init default_globals 0%Z))) _ _ _ k item Hk).
    - intros k' item' Hk'. simpl in Hk'. rewrite lookup_empty in Hk'.
      discriminate.
    - apply surjective_pairing. }
  destruct (views_list_once pl Hord) as (_ & _ & _ & H).
  eapply (H 0).
  - vm_compute. reflexivity.
  - vm_compute. reflexivity.
  - vm_compute. reflexivity.
Defined.

(** ** The contexts file *)

Lemma split_from_spaces (s : string) :
  all_of Chars.is_space s = true -> split_from "" s = [].
Proof.
  induction s as [|c s IH]; [reflexivity|]. simpl.
  intros H. apply andb_prop in H as [Hc Hs]. rewrite Hc. apply IH, Hs.
Qed.

Lemma contexts_fold (ws use avoid : list string) :
  fold_left
    (fun (ua : list string * list string) (context : string) =>
       match context with
       | String "-" tail => (fst ua, (snd ua ++ [tail])%list)
       | _ => ((fst ua ++ [context])%list, snd ua)
       end)
    ws (use, avoid)
  = ((use ++ List.filter used ws)%list, (avoid ++ omap avoided ws)%list).
Proof.
  revert use avoid. induction ws as [|w ws IH]; intros use avoid.
  - simpl. rewrite !app_nil_r. reflexivity.
  - cbn [fold_left].
    assert (Hstep :
      match w with
      | String "-" tail => (fst (use, avoid), (snd (use, avoid) ++ [tail])%list)
      | _ => ((fst (use, avoid) ++ [w])%list, snd (use, avoid))
      end
      = ((use ++ List.filter used [w])%list, (avoid ++ omap avoided [w])%list)).
    { destruct w as [|[[] [] [] [] [] [] [] []] tail];
        cbn; rewrite ?app_nil_r; reflexivity. }
    rewrite Hstep, IH.
    change (w :: ws) with ([w] ++ ws)%list.
    rewrite List.filter_app, omap_app, !app_assoc. reflexivity.
Qed.

Lemma read_contexts_from (f : file) (use avoid : list string) :
  read_contexts f use avoid
  = ((use ++ List.filter used (context_words f))%list,
     (avoid ++ omap avoided (context_words f))%list).
Proof.
  revert use avoid. induction f as [|line f IH]; intros use avoid.
  - simpl. rewrite !app_nil_r. reflexivity.
  - change (context_words (line :: f))
      with (split (re_sub_empty (cat [chr "#"; star any_but_newline; Eol])
                                line) ++ context_words f)%list.
    cbn [read_contexts].
    set (line' := re_sub_empty (cat [chr "#"; star any_but_newline; Eol])
                               line).
    destruct (truthy (re_match (cat [star ws; Eol]) line')) eqn:Eb.
    + apply blank_spaces in Eb.
      assert (Hsp : split line' = []) by (apply split_from_spaces, Eb).
      rewrite Hsp. cbn [app]. apply IH.
    + rewrite contexts_fold, IH.
      rewrite List.filter_app, omap_app, !app_assoc. reflexivity.
Qed.

(** X11: [update_time_and_contexts] always sets the time; when the
    contexts were never read, or the file changed after they were, the
    words of the file outside comments are read again: those that begin
    with a dash are to avoid (without the dash), the others to use, in
    the order of the file.  Otherwise the lists stay as they are. *)
Theorem contexts_file_words (current_time context_updated : datetime)
    (context_file : file) (pl : Plate) :
  let pl' :=
    update_time_and_contexts current_time context_updated context_file pl in
  now pl' = current_time
  /\ ((context_checked pl = None
       \/ exists t, context_checked pl = Some t /\ (t < context_updated)%Z) ->
      contexts_use pl' = List.filter used (context_words context_file)
      /\ contexts_avoid pl' = omap avoided (context_words context_file)
      /\ context_checked pl' = Some current_time)
  /\ (forall t, context_checked pl = Some t -> (context_updated <= t)%Z ->
      contexts_use pl' = contexts_use pl
      /\ contexts_avoid pl' = contexts_avoid pl
      /\ context_checked pl' = Some t).
Proof.
  unfold update_time_and_contexts. rewrite read_contexts_from. cbn [app].
  split; [|split].
  - destruct (match context_checked pl with
              | Some checked => (checked <? context_updated)%Z
              | None => true
              end); reflexivity.
  - intros [->|(t & -> & Ht)].
    + repeat split.
    + apply Z.ltb_lt in Ht. rewrite Ht. repeat split.
  - intros t -> Ht. apply Z.ltb_ge in Ht. rewrite Ht. repeat split.
Qed.

(** ** Humanised time, again *)

Lemma pluralize_not_empty (n : Z) (unit : string) :
  pluralize n unit None <> "".
Proof.
  unfold pluralize. intros H.
  apply (f_equal String.length) in H. rewrite !app_length in H.
  simpl in H. lia.
Qed.

(** X12: [pretty_date] returns the empty string exactly for a negative
    number of seconds; otherwise it returns "just now" or a count with
    a unit, and the count is never 0. *)
Theorem pretty_date_shape (secs : Z) :
  (pretty_date secs = "" <-> (secs < 0)%Z)
  /\ ((0 <= secs)%Z ->
      pretty_date secs = "just now"
      \/ exists n unit,
           (1 <= n)%Z
           /\ In unit ["second"; "minute"; "hour"; "day"; "week"; "month";
                       "year"]
           /\ pretty_date secs = pluralize n unit None).
Proof.
  assert (Hpos : (0 <= secs)%Z ->
      pretty_date secs = "just now"
      \/ exists n unit,
           (1 <= n)%Z
           /\ In unit ["second"; "minute"; "hour"; "day"; "week"; "month";
                       "year"]
           /\ pretty_date secs = pluralize n unit None).
  { intros Hs. destruct (Z_lt_le_dec secs 86400) as [Hlt|Hge].
    - rewrite pretty_date_same_day by lia.
      destruct (Z.ltb_spec secs 10); [now left|]. right.
      destruct (Z.ltb_spec secs 60).
      { exists secs, "second". split; [lia|]. split; [simpl; tauto|].
        reflexivity. }
      destruct (Z.ltb_spec secs 3600).
      { exists (secs / 60)%Z, "minute". split.
        - apply Z.div_le_lower_bound; lia.
        - split; [simpl; tauto|reflexivity]. }
      exists (secs / 3600)%Z, "hour". split.
      + apply Z.div_le_lower_bound; lia.
      + split; [simpl; tauto|reflexivity].
    - rewrite pretty_date_later_day by lia. cbv zeta. right.
      assert (Hd : (1 <= secs / 86400)%Z)
        by (apply Z.div_le_lower_bound; lia).
      destruct (Z.ltb_spec (secs / 86400) 7).
      { exists (secs / 86400)%Z, "day". split; [exact Hd|].
        split; [simpl; tauto|reflexivity]. }
      destruct (Z.ltb_spec (secs / 86400) 31).
      { exists (secs / 86400 / 7)%Z, "week". split.
        - apply Z.div_le_lower_bound; lia.
        - split; [simpl; tauto|reflexivity]. }
      destruct (Z.ltb_spec (secs / 86400) 365).
      { exists (secs / 86400 / 30)%Z, "month". split.
        - apply Z.div_le_lower_bound; lia.
        - split; [simpl; tauto|reflexivity]. }
      exists (secs / 86400 / 365)%Z, "year". split.
      + apply Z.div_le_lower_bound; lia.
      + split; [simpl; tauto|reflexivity]. }
  split; [|exact Hpos]. split.
  - intros He. destruct (Z_lt_le_dec secs 0) as [Hlt|Hge]; [exact Hlt|].
    exfalso. destruct (Hpos Hge) as [H|(n & unit & _ & _ & H)];
      rewrite H in He; [discriminate|].
    exact (pluralize_not_empty _ _ He).
  - intros Hneg. unfold pretty_date.
    assert (Hd : (secs / (24 * 3600) < 0)%Z)
      by (apply Z.div_lt_upper_bound; lia).
    apply Z.ltb_lt in Hd. rewrite Hd. reflexivity.
Qed.

(** ** Date stamps *)




(** ** What reading the Inboxes file leaves alone *)

Lemma inbox_entry_cases (ln : nat) (l : string) (pl : Plate)
    (r : result unit) (pl' : Plate) :
  inbox_entry ln l pl = (r, pl') ->
  pl' = pl
  \/ exists item,
       pl' = set_inboxes pl (<[next_key (inboxes pl) := item]> (inboxes pl)).
Proof.
  unfold inbox_entry.
  destruct (re_search (TS_inbox pl) l) as [m|];
    [|intros [= <- <-]; now left].
  destruct (parse_and_strip_contexts l) as [text contexts].
  match goal with
  | |- context [match ?s with Ok _ => _ | Raise _ => _ end] =>
      destruct s as [item|e]
  end; intros [= <- <-]; [right; eexists; reflexivity|now left].
Qed.

Lemma reminder_entry_cases (ln : nat) (l : string) (pl : Plate)
    (r : result unit) (pl' : Plate) :
  reminder_entry ln l pl = (r, pl') ->
  pl' = pl
  \/ exists item,
       pl' = set_reminders pl
               (<[next_key (reminders pl) := item]> (reminders pl)).
Proof.
  unfold reminder_entry.
  destruct (re_search (TS_remind pl) l) as [m|];
    [|intros [= <- <-]; now left].
  destruct (parse_and_strip_contexts l) as [text contexts].
  match goal with
  | |- context [match ?s with Ok _ => _ | Raise _ => _ end] =>
      destruct s as [item|e]
  end; intros [= <- <-]; [right; eexists; reflexivity|now left].
Qed.

Lemma grown_refl (pl : Plate) :
  dense (inboxes pl) -> dense (reminders pl) -> grown_by_reading pl pl.
Proof. intros H1 H2. unfold grown_by_reading. tauto. Qed.

Lemma grown_inbox_entry (pl0 : Plate) (ln : nat) (l : string) (pl : Plate)
    (r : result unit) (pl' : Plate) :
  grown_by_reading pl0 pl -> inbox_entry ln l pl = (r, pl') ->
  grown_by_reading pl0 pl'.
Proof.
  intros Hg He. apply inbox_entry_cases in He as [->|(item & ->)];
    [exact Hg|].
  destruct Hg as (H1 & H2 & H3 & H4 & H5 & H6 & H7 & H8 & H9 & Hdi & Hdr
                  & Hki & Hkr).
  unfold grown_by_reading. cbn.
  repeat (split; [assumption|]). split; [apply dense_insert, Hdi|].
  split; [exact Hdr|]. split; [|exact Hkr].
  intros k it Hk. apply dense_insert_keeps; [exact Hdi|]. apply Hki, Hk.
Qed.

Lemma grown_reminder_entry (pl0 : Plate) (ln : nat) (l : string) (pl : Plate)
    (r : result unit) (pl' : Plate) :
  grown_by_reading pl0 pl -> reminder_entry ln l pl = (r, pl') ->
  grown_by_reading pl0 pl'.
Proof.
  intros Hg He. apply reminder_entry_cases in He as [->|(item & ->)];
    [exact Hg|].
  destruct Hg as (H1 & H2 & H3 & H4 & H5 & H6 & H7 & H8 & H9 & Hdi & Hdr
                  & Hki & Hkr).
  unfold grown_by_reading. cbn.
  repeat (split; [assumption|]). split; [apply dense_insert, Hdr|].
  split; [exact Hki|].
  intros k it Hk. apply dense_insert_keeps; [exact Hdr|]. apply Hkr, Hk.
Qed.

(** What the two kinds of entries keep, [read_inboxes] keeps. *)
Lemma read_inboxes_invariant (P : Plate -> Prop) (g : vim_globals) :
  (forall ln l pl r pl', P pl -> inbox_entry ln l pl = (r, pl') -> P pl') ->
  (forall ln l pl r pl', P pl -> reminder_entry ln l pl = (r, pl') -> P pl') ->
  forall f pl r pl', P pl -> read_inboxes g f pl = (r, pl') -> P pl'.
Proof.
  intros Hin Hrem f pl r pl' HP. unfold read_inboxes.
  destruct (read_and_count_lines 0 f) as [[ln0 l0] f0].
  unfold mbind at 1.
  destruct (reading_loop _ no_body ln0 l0 f0 pl) as [[[[ln1 l1] f1]|e] pl1]
    eqn:H1;
    apply (reading_loop_invariant P _ _ (no_body_keeps P) _ _ _ _ _ _ HP)
      in H1;
    [|intros [= <- <-]; exact H1].
  destruct (read_and_count_lines ln1 f1) as [[ln2 l2] f2].
  unfold mbind at 1.
  destruct (reading_loop _ inbox_entry ln2 l2 f2 pl1)
    as [[[[ln3 l3] f3]|e] pl3] eqn:H3;
    apply (reading_loop_invariant P _ _ Hin _ _ _ _ _ _ H1) in H3;
    [|intros [= <- <-]; exact H3].
  unfold mbind at 1.
  destruct (reading_loop _ no_body ln3 l3 f3 pl3) as [[[[ln4 l4] f4]|e] pl4]
    eqn:H4;
    apply (reading_loop_invariant P _ _ (no_body_keeps P) _ _ _ _ _ _ H3)
      in H4;
    [|intros [= <- <-]; exact H4].
  destruct (read_and_count_lines ln4 f4) as [[ln5 l5] f5].
  unfold mbind at 1.
  destruct (reading_loop _ reminder_entry ln5 l5 f5 pl4)
    as [[[[ln6 l6] f6]|e] pl6] eqn:H6;
    apply (reading_loop_invariant P _ _ Hrem _ _ _ _ _ _ H4) in H6;
    intros [= <- <-]; exact H6.
Qed.

(** X14: whether it returns or raises, [read_inboxes] only adds inbox
    items and reminders: what the plate held before is still there
    under the same keys, the keys stay the numbers below the size, and
    the next actions, the time and the context lists are untouched. *)
Theorem read_inboxes_only_adds (g : vim_globals) (f : file) (pl : Plate)
    (r : result unit) (pl' : Plate) :
  dense (inboxes pl) -> dense (reminders pl) ->
  read_inboxes g f pl = (r, pl') ->
  grown_by_reading pl pl'.
Proof.
  intros Hdi Hdr.
  apply (read_inboxes_invariant (grown_by_reading pl) g).
  - apply grown_inbox_entry.
  - apply grown_reminder_entry.
  - apply grown_refl; assumption.
Qed.

Lemma read_inboxes_only_adds_witness :
  grown_by_reading (Plate_init default_globals 0%Z)
    (snd (read_inboxes default_globals inboxes_example
            (Plate_init default_globals 0%Z))).
Proof.
  apply (read_inboxes_only_adds default_globals inboxes_example
           (Plate_init default_globals 0%Z)
           (fst (read_inboxes default_globals inboxes_example
                   (Plate_init default_globals 0%Z)))).
  - apply dense_empty.
  - apply dense_empty.
  - apply surjective_pairing.
Defined.

(** ** Files without a section header *)

Lemma standing_read (R : string -> Prop) (ln : nat) (f : file)
    (ln' : nat) (l' : string) (f' : file) :
  lines_all R f ->
  read_and_count_lines ln f = (ln', l', f') ->
  standing R ln' f' /\ (ln' <> 0 -> R l').
Proof.
  intros Hall. unfold read_and_count_lines, readline.
  destruct f as [|raw f1].
  - intros [= <- <- <-]. split; [split; [constructor|reflexivity]|].
    intros H. now contradiction H.
  - apply Forall_cons in Hall as [[Hraw HR] Hall].
    rewrite (count_line_nonempty ln raw Hraw).
    intros [= <- <- <-]. split; [split; [exact Hall|lia]|].
    intros _. exact HR.
Qed.

Lemma standing_loop (R : string -> Prop) (cond : string -> bool)
    (body : nat -> string -> method unit) :
  forall f ln l pl ln' l' f' pl',
    standing R ln f -> (ln <> 0 -> R l) ->
    reading_loop cond body ln l f pl = (Ok (ln', l', f'), pl') ->
    standing R ln' f' /\ (ln' <> 0 -> R l' /\ cond l' = false).
Proof.
  induction f as [|raw f IH]; intros ln l pl ln' l' f' pl' Hst Hl;
    rewrite reading_loop_unfold;
    (destruct (Nat.eqb_spec ln 0) as [E|E]; cbn [orb];
     [intros [= <- <- <- <-]; split; [exact Hst|intros H; contradiction]|]);
    (destruct (cond l) eqn:Ec; cbn [negb];
     [|intros [= <- <- <- <-]; split; [exact Hst|];
       intros _; split; [apply Hl, E|exact Ec]]);
    unfold mbind; destruct (body ln l pl) as [[u|e] pl1]; try discriminate.
  - cbn. intros [= <- <- <- <-]. split; [split; [constructor|reflexivity]|].
    intros H. now contradiction H.
  - destruct Hst as [Hall _].
    destruct (read_and_count_lines ln (raw :: f)) as [[ln1 l1] f1] eqn:Er.
    destruct (standing_read R ln (raw :: f) ln1 l1 f1 Hall Er) as [Hst1 Hl1].
    assert (f1 = f) as ->.
    { unfold read_and_count_lines, readline in Er. now injection Er. }
    apply IH; assumption.
Qed.

Lemma skip_loop_returns (cond : string -> bool) :
  forall f ln l pl,
    exists x, reading_loop cond no_body ln l f pl = (Ok x, pl).
Proof.
  induction f as [|raw f IH]; intros ln l pl; cbn [reading_loop];
    destruct (Nat.eqb ln 0 || negb (cond l));
    try (eexists; reflexivity); unfold mbind, no_body, ret.
  destruct (count_line ln raw) as [ln1 l1]. apply IH.
Qed.

Lemma loop_at_end (cond : string -> bool)
    (body : nat -> string -> method unit) (l : string) (pl : Plate) :
  reading_loop cond body 0 l [] pl = (Ok (0, l, []), pl).
Proof. reflexivity. Qed.

(** X15: from a file in which no line matches the pattern of the
    Inboxes header, [read_inboxes] reads nothing: it returns and leaves
    the plate as it was, whatever the lines hold. *)
Theorem read_inboxes_without_header (g : vim_globals) (f : file)
    (pl : Plate) :
  lines_all (fun l => not_matching (g_vtd_section_inbox g) l = true) f ->
  read_inboxes g f pl = (Ok tt, pl).
Proof.
  intros Hall. unfold read_inboxes.
  destruct (read_and_count_lines 0 f) as [[ln0 l0] f0] eqn:E0.
  destruct (standing_read _ 0 f ln0 l0 f0 Hall E0) as [Hst0 Hl0].
  unfold mbind at 1.
  destruct (skip_loop_returns (not_matching (g_vtd_section_inbox g))
              f0 ln0 l0 pl) as ([[ln1 l1] f1] & H1).
  rewrite H1.
  destruct (standing_loop _ _ _ _ _ _ _ _ _ _ _ Hst0 Hl0 H1) as [Hst1 Hl1].
  assert (ln1 = 0) as ->.
  { destruct (Nat.eq_dec ln1 0) as [E|E]; [exact E|].
    destruct (Hl1 E) as [Ha Hb]. congruence. }
  destruct Hst1 as [_ Hf1]. rewrite (Hf1 eq_refl). reflexivity.
Qed.

Lemma file_lines_all (R : string -> Prop) (f : file) :
  Forall (fun raw => raw <> "") f ->
  Forall R (lines_of f) -> lines_all R f.
Proof.
  induction 1 as [|raw f Hraw _ IH]; intros HR; [constructor|].
  simpl in HR. destruct (String.eqb_spec raw "") as [E|_]; [contradiction|].
  apply Forall_cons in HR as [H1 H2].
  constructor; [split; assumption|apply IH, H2].
Qed.

Lemma read_inboxes_without_header_witness :
  read_inboxes default_globals notes_only (Plate_init default_globals 0%Z)
  = (Ok tt, Plate_init default_globals 0%Z).
Proof.
  apply (read_inboxes_without_header default_globals notes_only).
  apply file_lines_all.
  - evaluated notes_only. repeat (constructor; [discriminate|]). constructor.
  - evaluated (lines_of notes_only).
    repeat (constructor; [vm_compute; reflexivity|]). constructor.
Defined.

Lemma inbox_entry_reminders (ln : nat) (l : string) (pl : Plate)
    (r : result unit) (pl' : Plate) :
  inbox_entry ln l pl = (r, pl') -> reminders pl' = reminders pl.
Proof.
  intros He. apply inbox_entry_cases in He as [->|(item & ->)]; reflexivity.
Qed.

(** X16: from a file in which no line matches the pattern of the
    Thoughts header, [read_inboxes] stores no reminder, whether it
    returns or raises: the loop over the inboxes runs to the end of the
    file, so the Reminders section is never looked for. *)
Theorem read_inboxes_without_thoughts (g : vim_globals) (f : file)
    (pl : Plate) (r : result unit) (pl' : Plate) :
  lines_all (fun l => not_matching (g_vtd_section_thoughts g) l = true) f ->
  read_inboxes g f pl = (r, pl') ->
  reminders pl' = reminders pl.
Proof.
  intros Hall. unfold read_inboxes.
  destruct (read_and_count_lines 0 f) as [[ln0 l0] f0] eqn:E0.
  destruct (standing_read _ 0 f ln0 l0 f0 Hall E0) as [Hst0 Hl0].
  unfold mbind at 1.
  destruct (skip_loop_returns (not_matching (g_vtd_section_inbox g))
              f0 ln0 l0 pl) as ([[ln1 l1] f1] & H1).
  rewrite H1.
  destruct (standing_loop _ _ _ _ _ _ _ _ _ _ _ Hst0 Hl0 H1) as [[Hall1 _] _].
  destruct (read_and_count_lines ln1 f1) as [[ln2 l2] f2] eqn:E2.
  destruct (standing_read _ ln1 f1 ln2 l2 f2 Hall1 E2) as [Hst2 Hl2].
  unfold mbind at 1.
  destruct (reading_loop _ inbox_entry ln2 l2 f2 pl)
    as [[[[ln3 l3] f3]|e] pl3] eqn:H3.
  - assert (Hrem : reminders pl3 = reminders pl).
    { refine (reading_loop_invariant
                (fun p => reminders p = reminders pl) _ _ _ _ _ _ _ _ _
                eq_refl H3).
      intros ln l p r0 p' Hp He. rewrite <- Hp.
      exact (inbox_entry_reminders _ _ _ _ _ He). }
    destruct (standing_loop _ _ _ _ _ _ _ _ _ _ _ Hst2 Hl2 H3)
      as [Hst3 Hl3].
    assert (ln3 = 0) as ->.
    { destruct (Nat.eq_dec ln3 0) as [E|E]; [exact E|].
      destruct (Hl3 E) as [Ha Hb]. congruence. }
    destruct Hst3 as [_ Hf3]. rewrite (Hf3 eq_refl).
    cbn. intros [= <- <-]. exact Hrem.
  - intros [= <- <-].
    refine (reading_loop_invariant
              (fun p => reminders p = reminders pl) _ _ _ _ _ _ _ _ _
              eq_refl H3).
    intros ln l p r0 p' Hp He. rewrite <- Hp.
    exact (inbox_entry_reminders _ _ _ _ _ He).
Qed.

Lemma read_inboxes_without_thoughts_witness :
  reminders (snd (read_inboxes default_globals inboxes_without_thoughts
                    (Plate_init default_globals 0%Z)))
  = reminders (Plate_init default_globals 0%Z).
Proof.
  apply (read_inboxes_without_thoughts default_globals
           inboxes_without_thoughts (Plate_init default_globals 0%Z)
           (fst (read_inboxes default_globals inboxes_without_thoughts
                   (Plate_init default_globals 0%Z)))).
  - apply file_lines_all.
    + evaluated inboxes_without_thoughts.
      repeat (constructor; [discriminate|]). constructor.
    + evaluated (lines_of inboxes_without_thoughts).
      repeat (constructor; [vm_compute; reflexivity|]). constructor.
  - apply surjective_pairing.
Defined.

(** ** The Projects file as a whole *)

Lemma action_line_shift (ls : list string) (first c ln' n : nat) :
  ln' = match drop c ls with [] => 0 | _ :: _ => first + c end ->
  from_action_line (drop c ls) ln' n -> from_action_line ls first n.
Proof.
  intros Hln [Hle (l & Hl & Ha & Hd)].
  destruct (drop c ls) as [|y ys] eqn:E; [discriminate|].
  subst ln'. rewrite <- E, lookup_drop in Hl.
  split; [lia|]. exists l. split; [|split; assumption].
  replace (n - first) with (c + (n - (first + c))) by lia. exact Hl.
Qed.

Lemma action_line_next (st st2 : locals) (n : nat) :
  cur_linenum st2 <> 0 ->
  cur_linenum st2 = cur_linenum st -> upcoming_st st2 = upcoming_st st ->
  from_action_line (upcoming_st (read_next st2)) (cur_linenum (read_next st2))
                   n ->
  from_action_line (upcoming_st st) (cur_linenum st) n.
Proof.
  intros Hn Hln Hup H.
  destruct (read_next_spec st2 Hn) as (Hup2 & Hnext).
  apply (action_line_shift (upcoming_st st) (cur_linenum st) 1
           (cur_linenum (read_next st2)) n).
  - rewrite <- Hup, Hup2. simpl drop. rewrite Hnext, Hln. reflexivity.
  - rewrite <- Hup, Hup2. simpl drop. exact H.
Qed.

Lemma try_add_action_line (g : vim_globals) (st : locals) (pl : Plate)
    (r : result bool) (pl1 : Plate) :
  cur_linenum st <> 0 ->
  try_add g st pl = (r, pl1) ->
  added_from pl pl1 (from_action_line (upcoming_st st) (cur_linenum st)).
Proof.
  intros Hn. unfold try_add.
  destruct (is_next_action (cur_line st)) eqn:Ea;
    [|intros [= <- <-]; apply added_from_refl].
  intros H. apply add_NextAction_added in H as [Hadd Hdone].
  destruct (truthy (item_done (cur_line st))) eqn:Ed.
  - rewrite (Hdone eq_refl). apply added_from_refl.
  - eapply added_from_weaken; [exact Hadd|].
    intros n ->. destruct (upcoming_st_cons st Hn) as (rest & Hup).
    split; [lia|]. exists (cur_line st). rewrite Hup, Nat.sub_diag.
    repeat split; assumption.
Qed.

(** Every next action a run of [process_outline] stores comes from a
    line of the run that is a next action not marked as done. *)
Lemma outline_run_action_lines (g : vim_globals) (st : locals) (pl : Plate)
    (out : result (nat * string * file)) (pl' : Plate) :
  outline_run g st pl out pl' ->
  added_from pl pl' (from_action_line (upcoming_st st) (cur_linenum st)).
Proof.
  induction 1 as
    [st pl Hz
    |st pl Hn Hlt
    |st pl out pl' Hn Hin Hb _ IH
    |st pl out pl' Hn Hdeep Hb Hpd _ IH
    |st pl e pl' Hn Hdeep Hb Hpd Hls _ IH
    |st pl back pl1 out pl' Hn Hdeep Hb Hpd Hls Hrun1 IH1 _ IH2
    |st pl out pl' Hn Hdeep Hb Hpd Hls _ IH
    |st pl out pl' Hn Heq Hb Hbs _ IH
    |st pl e pl1 Hn Heq Hb Hbs Hadd
    |st pl added pl1 out pl' Hn Heq Hb Hbs Hadd _ IH].
  - apply added_from_refl.
  - apply added_from_refl.
  - eapply added_from_weaken; [exact IH|].
    intros n. now apply action_line_next.
  - eapply added_from_weaken; [exact IH|].
    intros n. now apply action_line_next.
  - exact IH.
  - apply outline_run_spans in Hrun1. destruct Hrun1 as [_ Hret1].
    destruct back as [[ln1 l1] f1].
    destruct (Hret1 ln1 l1 f1 eq_refl) as (Hu1 & Hl1).
    change (upcoming_st (enter (cur_linenum st) (cur_line st) (cur_file st)))
      with (upcoming_st st) in *.
    change (cur_linenum (enter (cur_linenum st) (cur_line st) (cur_file st)))
      with (cur_linenum st) in *.
    change (upcoming_st (resume st (ln1, l1, f1)))
      with (upcoming ln1 l1 f1) in IH2.
    change (cur_linenum (resume st (ln1, l1, f1))) with ln1 in IH2.
    eapply added_from_trans; [exact IH1|exact IH2|auto|].
    intros n Hfrom. rewrite Hu1 in Hfrom.
    eapply action_line_shift; [|exact Hfrom]. exact Hl1.
  - eapply added_from_weaken; [exact IH|].
    intros n. now apply action_line_next.
  - exact IH.
  - now apply try_add_action_line in Hadd.
  - apply try_add_action_line in Hadd; [|exact Hn].
    eapply added_from_trans; [exact Hadd|exact IH|auto|].
    intros n. now apply action_line_next.
Qed.

Lemma read_on (linenum : nat) (line : string) (f : file) :
  linenum <> 0 ->
  let '(linenum', line', f') := read_and_count_lines linenum f in
  upcoming linenum line f = line :: upcoming linenum' line' f'
  /\ linenum' = match upcoming linenum' line' f' with
                | [] => 0
                | _ :: _ => linenum + 1
                end.
Proof.
  intros Hn.
  pose proof (read_next_spec (at_line linenum line f) Hn) as H.
  unfold upcoming_st, read_next, at_line in H. cbn [cur_linenum cur_line
    cur_file] in H.
  destruct (read_and_count_lines linenum f) as [[ln1 l1] f1].
  exact H.
Qed.

Lemma projects_loop_unfold (g : vim_globals) (fuel : nat)
    (linenum : nat) (line : string) (f : file)
    (current_project : option string) (pl : Plate) :
  projects_loop g (S fuel) linenum line f current_project pl =
    if Nat.eqb linenum 0 then Some (Ok tt, pl)
    else if truthy (list_start line) then
      match process_outline g fuel linenum line f current_project pl with
      | None => None
      | Some (Raise e, pl') => Some (Raise e, pl')
      | Some (Ok (linenum', line', f'), pl') =>
          projects_loop g fuel linenum' line' f' current_project pl'
      end
    else
      let '(linenum', line', f') := read_and_count_lines linenum f in
      projects_loop g fuel linenum' line' f'
        (if truthy (blank line) then None else Some line) pl.
Proof. reflexivity. Qed.

Lemma projects_loop_action_lines (g : vim_globals) (fuel : nat) :
  forall linenum line f current_project pl r pl',
    projects_loop g fuel linenum line f current_project pl = Some (r, pl') ->
    added_from pl pl' (from_action_line (upcoming linenum line f) linenum).
Proof.
  induction fuel as [|fuel IH]; intros ln l f cp pl r pl'; [discriminate|].
  rewrite projects_loop_unfold.
  destruct (Nat.eqb_spec ln 0) as [E|Hn];
    [intros [= <- <-]; apply added_from_refl|].
  destruct (truthy (list_start l)).
  - destruct (process_outline g fuel ln l f cp pl)
      as [[[[[ln1 l1] f1]|e] pl1]|] eqn:Hp; [| |discriminate].
    + intros Hrest. apply IH in Hrest.
      apply outline_loop_run in Hp.
      pose proof (outline_run_action_lines _ _ _ _ _ Hp) as Hadd.
      apply outline_run_spans in Hp. destruct Hp as [_ Hret].
      destruct (Hret ln1 l1 f1 eq_refl) as (Hu1 & Hl1).
      change (upcoming_st (enter ln l f)) with (upcoming ln l f) in *.
      change (cur_linenum (enter ln l f)) with ln in *.
      eapply added_from_trans; [exact Hadd|exact Hrest|auto|].
      intros n Hfrom. rewrite Hu1 in Hfrom.
      eapply action_line_shift; [|exact Hfrom]. exact Hl1.
    + intros [= <- <-]. apply outline_loop_run in Hp.
      exact (outline_run_action_lines _ _ _ _ _ Hp).
  - pose proof (read_on ln l f Hn) as Hread.
    destruct (read_and_count_lines ln f) as [[ln1 l1] f1].
    destruct Hread as [Hup Hln1].
    intros Hrest. apply IH in Hrest.
    eapply added_from_weaken; [exact Hrest|].
    intros n Hfrom.
    apply (action_line_shift (upcoming ln l f) ln 1 ln1 n).
    + rewrite Hup. simpl drop. exact Hln1.
    + rewrite Hup. simpl drop. exact Hfrom.
Qed.

Lemma run_starts (linenum : nat) (line : string) (f : file) :
  linenum <> 0 ->
  1 <= run_length (opening_whitespace line) (upcoming linenum line f).
Proof.
  intros Hn. unfold upcoming.
  destruct (Nat.eqb_spec linenum 0); [contradiction|].
  simpl. rewrite Nat.leb_refl. lia.
Qed.

(** With fuel for two turns a line and two more, the loop of
    [read_projects] has an outcome. *)
Lemma projects_loop_enough (g : vim_globals) (fuel : nat) :
  forall linenum line f current_project pl,
    2 * length (upcoming linenum line f) + 2 <= fuel ->
    exists r pl',
      projects_loop g fuel linenum line f current_project pl = Some (r, pl').
Proof.
  induction fuel as [|fuel IH]; intros ln l f cp pl Hfuel; [lia|].
  rewrite projects_loop_unfold.
  destruct (Nat.eqb_spec ln 0) as [E|Hn]; [eexists _, _; reflexivity|].
  destruct (truthy (list_start l)).
  - destruct (outline_loop_enough g cp fuel (enter ln l f) pl)
      as (out & pl1 & Hout).
    + apply enter_flags_ok.
    + change (upcoming_st (enter ln l f)) with (upcoming ln l f). lia.
    + unfold process_outline. rewrite Hout.
      destruct out as [[[ln1 l1] f1]|e]; [|eexists _, _; reflexivity].
      apply IH.
      apply outline_loop_run, outline_run_spans in Hout.
      destruct Hout as [_ Hret].
      destruct (Hret ln1 l1 f1 eq_refl) as (Hu1 & _).
      change (upcoming_st (enter ln l f)) with (upcoming ln l f) in Hu1.
      change (master_indent (enter ln l f)) with (opening_whitespace l)
        in Hu1.
      rewrite Hu1, length_drop.
      pose proof (run_starts ln l f Hn).
      pose proof (run_length_le (opening_whitespace l) (upcoming ln l f)).
      lia.
  - pose proof (read_on ln l f Hn) as Hread.
    destruct (read_and_count_lines ln f) as [[ln1 l1] f1].
    destruct Hread as [Hup _]. apply IH.
    rewrite Hup in Hfuel. simpl in Hfuel. lia.
Qed.

Lemma projects_loop_mono (g : vim_globals) (fuel : nat) :
  forall linenum line f current_project pl r,
    projects_loop g fuel linenum line f current_project pl = Some r ->
    projects_loop g (S fuel) linenum line f current_project pl = Some r.
Proof.
  induction fuel as [|fuel IH]; intros ln l f cp pl r; [discriminate|].
  rewrite (projects_loop_unfold g (S fuel)), (projects_loop_unfold g fuel).
  destruct (Nat.eqb ln 0); [auto|].
  destruct (truthy (list_start l)).
  - unfold process_outline.
    destruct (outline_loop g fuel (enter ln l f) cp pl)
      as [[[[[ln1 l1] f1]|e] pl1]|] eqn:Hin; [| |discriminate].
    + rewrite (outline_loop_mono _ _ _ _ _ _ Hin). apply IH.
    + rewrite (outline_loop_mono _ _ _ _ _ _ Hin). auto.
  - destruct (read_and_count_lines ln f) as [[ln1 l1] f1]. apply IH.
Qed.

Lemma projects_loop_more (g : vim_globals) (fuel fuel' : nat)
    (linenum : nat) (line : string) (f : file)
    (current_project : option string) (pl : Plate)
    (r : result unit * Plate) :
  fuel <= fuel' ->
  projects_loop g fuel linenum line f current_project pl = Some r ->
  projects_loop g fuel' linenum line f current_project pl = Some r.
Proof.
  induction 1 as [|fuel' _ IH]; [auto|].
  intros H. apply projects_loop_mono. auto.
Qed.

Lemma read_projects_outcome (g : vim_globals) (fuel : nat) (f : file)
    (pl : Plate) :
  enough_fuel f <= fuel ->
  exists r pl', read_projects g fuel f pl = Some (r, pl').
Proof.
  intros Hfuel. unfold read_projects.
  pose proof (upcoming_read 0 f) as Hup.
  destruct (read_and_count_lines 0 f) as [[ln l] f1].
  apply projects_loop_enough. rewrite Hup.
  pose proof (lines_of_length f). unfold enough_fuel in Hfuel. lia.
Qed.

Lemma read_projects_more (g : vim_globals) (fuel fuel' : nat) (f : file)
    (pl : Plate) (r : result unit * Plate) :
  fuel <= fuel' ->
  read_projects g fuel f pl = Some r -> read_projects g fuel' f pl = Some r.
Proof.
  unfold read_projects. destruct (read_and_count_lines 0 f) as [[ln l] f1].
  apply projects_loop_more.
Qed.

(** X17: on every Projects file [read_projects] comes to an end: with
    fuel for three turns a line it returns or raises, and further fuel
    does not change the outcome. *)
Theorem read_projects_terminates (g : vim_globals) (fuel : nat) (f : file)
    (pl : Plate) :
  enough_fuel f <= fuel ->
  exists r pl',
    read_projects g fuel f pl = Some (r, pl')
    /\ forall fuel', fuel <= fuel' ->
         read_projects g fuel' f pl = Some (r, pl').
Proof.
  intros Hfuel.
  destruct (read_projects_outcome g fuel f pl Hfuel) as (r & pl' & H).
  exists r, pl'. split; [exact H|].
  intros fuel' Hle. exact (read_projects_more g fuel fuel' f pl _ Hle H).
Qed.

Lemma read_projects_terminates_witness :
  exists r pl',
    read_projects default_globals 23 household_example
      (Plate_init default_globals 0%Z) = Some (r, pl')
    /\ forall fuel', 23 <= fuel' ->
         read_projects default_globals fuel' household_example
           (Plate_init default_globals 0%Z) = Some (r, pl').
Proof.
  apply (read_projects_terminates default_globals 23 household_example
           (Plate_init default_globals 0%Z)).
  vm_compute. lia.
Defined.

Lemma read_projects_action_lines (g : vim_globals) (fuel : nat) (f : file)
    (pl : Plate) (r : result unit) (pl' : Plate) :
  read_projects g fuel f pl = Some (r, pl') ->
  added_from pl pl' (from_action_line (lines_of f) 1).
Proof.
  unfold read_projects.
  pose proof (upcoming_read 0 f) as Hup.
  destruct (read_and_count_lines 0 f) as [[ln l] f1] eqn:Er.
  intros H. apply projects_loop_action_lines in H.
  eapply added_from_weaken; [exact H|].
  intros n Hfrom. rewrite Hup in Hfrom.
  destruct Hfrom as [Hle (l0 & Hl0 & Ha & Hd)].
  assert (ln = 1) as ->.
  { unfold read_and_count_lines, readline in Er.
    destruct f as [|raw f0].
    - injection Er as <- <- <-. simpl in Hl0. discriminate.
    - unfold count_line in Er.
      destruct (String.eqb_spec raw "") as [->|_].
      + simpl in Hl0. discriminate.
      + injection Er as <- _ _. reflexivity. }
  split; [exact Hle|]. exists l0. repeat split; assumption.
Qed.

(** X18: every next action [read_projects] stores comes from a line of
    the file: its jump target is p<n> for a line number n, counted from
    1, and line n is a next action (a list marker, then an isolated @)
    that is not marked DONE or WONTDO. *)
Theorem read_projects_stores_action_lines (g : vim_globals) (fuel : nat)
    (f : file) (pl : Plate) (r : result unit) (pl' : Plate) :
  read_projects g fuel f pl = Some (r, pl') ->
  forall key item,
    next_actions pl' !! key = Some item ->
    next_actions pl !! key = Some item
    \/ exists n l,
         na_jump_to item = "p" +:+ pretty n
         /\ 1 <= n
         /\ lines_of f !! (n - 1) = Some l
         /\ is_next_action l = true
         /\ truthy (item_done l) = false.
Proof.
  intros H key item Hk.
  destruct (read_projects_action_lines g fuel f pl r pl' H key item Hk)
    as [Hold|(n & Hj & Hle & l & Hl & Ha & Hd)]; [now left|].
  right. exists n, l. repeat split; assumption.
Qed.


Lemma read_projects_stores_action_lines_witness :
  exists item n l,
    next_actions
      (snd (default (Ok tt, Plate_init default_globals 0%Z)
              (read_projects default_globals 23 household_example
                 (Plate_init default_globals 0%Z)))) !! 1 = Some item
    /\ na_jump_to item = "p" +:+ pretty n
    /\ lines_of household_example !! (n - 1) = Some l
    /\ is_next_action l = true.
Proof.
  destruct (next_actions
              (snd (default (Ok tt, Plate_init default_globals 0%Z)
                      (read_projects default_globals 23 household_example
                         (Plate_init default_globals 0%Z)))) !! 1)
    as [item|] eqn:Hitem; [|vm_compute in Hitem; discriminate].
  destruct (read_projects_stores_action_lines default_globals 23
              household_example (Plate_init default_globals 0%Z) (Ok tt)
              (snd (default (Ok tt, Plate_init default_globals 0%Z)
                      (read_projects default_globals 23 household_example
                         (Plate_init default_globals 0%Z))))
              ltac:(vm_compute; reflexivity) 1 item Hitem)
    as [Hold|(n & l & Hj & _ & Hl & Ha & _)].
  - simpl in Hold. rewrite lookup_empty in Hold. discriminate.
  - exists item, n, l. repeat split; assumption.
Defined.

(** ** What reading the Projects file leaves alone *)

Lemma add_NextAction_cases (g : vim_globals) (linenum : nat) (line : string)
    (pl : Plate) (r : result bool) (pl' : Plate) :
  add_NextAction g linenum line pl = (r, pl') ->
  pl' = pl
  \/ exists item,
       pl' = set_next_actions pl
               (<[next_key (next_actions pl) := item]> (next_actions pl)).
Proof.
  unfold add_NextAction.
  destruct (truthy (item_done line)); [intros [= <- <-]; now left|].
  destruct (parse_and_strip_contexts line) as [text contexts].
  unfold mbind, lift.
  destruct (parse_and_strip_dates g text) as [[[text' vis] due]|e];
    intros [= <- <-]; [right; eexists; reflexivity|now left].
Qed.

Lemma grown_projects_refl (pl : Plate) :
  dense (next_actions pl) -> grown_by_projects pl pl.
Proof. intros H. unfold grown_by_projects. tauto. Qed.

Lemma grown_add_NextAction (pl0 : Plate) (g : vim_globals) (ln : nat)
    (l : string) (pl : Plate) (r : result bool) (pl' : Plate) :
  grown_by_projects pl0 pl -> add_NextAction g ln l pl = (r, pl') ->
  grown_by_projects pl0 pl'.
Proof.
  intros Hg He. apply add_NextAction_cases in He as [->|(item & ->)];
    [exact Hg|].
  destruct Hg as (H1 & H2 & H3 & H4 & H5 & H6 & H7 & H8 & H9 & H10 & Hd & Hk).
  unfold grown_by_projects. cbn.
  repeat (split; [assumption|]). split; [apply dense_insert, Hd|].
  intros k it Hit. apply dense_insert_keeps; [exact Hd|]. apply Hk, Hit.
Qed.

(** What [add_NextAction] keeps, a run of [process_outline] keeps. *)
Lemma outline_run_invariant (P : Plate -> Prop) (g : vim_globals) :
  (forall ln l pl r pl', P pl -> add_NextAction g ln l pl = (r, pl') -> P pl') ->
  forall st pl out pl', outline_run g st pl out pl' -> P pl -> P pl'.
Proof.
  intros Hadd st pl out pl' Hrun.
  assert (Htry : forall st pl r pl',
             P pl -> try_add g st pl = (r, pl') -> P pl').
  { intros st0 pl0 r0 pl0' HP. unfold try_add.
    destruct (is_next_action (cur_line st0)); [apply Hadd, HP|].
    intros [= <- <-]. exact HP. }
  induction Hrun; intros HP; eauto.
Qed.

Lemma projects_loop_invariant (P : Plate -> Prop) (g : vim_globals) :
  (forall ln l pl r pl', P pl -> add_NextAction g ln l pl = (r, pl') -> P pl') ->
  forall fuel linenum line f current_project pl r pl',
    projects_loop g fuel linenum line f current_project pl = Some (r, pl') ->
    P pl -> P pl'.
Proof.
  intros Hadd. induction fuel as [|fuel IH];
    intros ln l f cp pl r pl'; [discriminate|].
  rewrite projects_loop_unfold.
  destruct (Nat.eqb ln 0); [intros [= <- <-]; auto|].
  destruct (truthy (list_start l)).
  - destruct (process_outline g fuel ln l f cp pl)
      as [[[[[ln1 l1] f1]|e] pl1]|] eqn:Hp; [| |discriminate].
    + intros Hrest HP. apply outline_loop_run in Hp.
      eapply IH; [exact Hrest|].
      exact (outline_run_invariant P g Hadd _ _ _ _ Hp HP).
    + intros [= <- <-] HP. apply outline_loop_run in Hp.
      exact (outline_run_invariant P g Hadd _ _ _ _ Hp HP).
  - destruct (read_and_count_lines ln f) as [[ln1 l1] f1]. apply IH.
Qed.

Lemma read_projects_invariant (P : Plate -> Prop) (g : vim_globals) :
  (forall ln l pl r pl', P pl -> add_NextAction g ln l pl = (r, pl') -> P pl') ->
  forall fuel f pl r pl',
    read_projects g fuel f pl = Some (r, pl') -> P pl -> P pl'.
Proof.
  intros Hadd fuel f pl r pl'. unfold read_projects.
  destruct (read_and_count_lines 0 f) as [[ln l] f1].
  apply (projects_loop_invariant P g Hadd).
Qed.

(** X19: whether it returns or raises, [read_projects] only adds next
    actions: those the plate held before are still there under the same
    keys, the keys stay the numbers below the size, and the inboxes,
    the reminders, the time and the context lists are untouched. *)
Theorem read_projects_only_adds (g : vim_globals) (fuel : nat) (f : file)
    (pl : Plate) (r : result unit) (pl' : Plate) :
  dense (next_actions pl) ->
  read_projects g fuel f pl = Some (r, pl') ->
  grown_by_projects pl pl'.
Proof.
  intros Hd H.
  apply (read_projects_invariant (grown_by_projects pl) g
           (grown_add_NextAction pl g) fuel f pl r pl' H).
  apply grown_projects_refl, Hd.
Qed.

Lemma read_projects_only_adds_witness :
  grown_by_projects (Plate_init default_globals 0%Z)
    (snd (default (Ok tt, Plate_init default_globals 0%Z)
            (read_projects default_globals 23 household_example
               (Plate_init default_globals 0%Z)))).
Proof.
  apply (read_projects_only_adds default_globals 23 household_example
           (Plate_init default_globals 0%Z) (Ok tt)).
  - apply dense_empty.
  - vm_compute. reflexivity.
Defined.

(** ** Filling the plate *)

(** X20: [read_all] on a new plate comes to an end.  The inbox items of
    the plate it leaves have their due time at or after their visible
    time, every next action comes from a line of the Projects file that
    is a next action not marked as done, and when reading the Inboxes
    file raises, the Projects file is not read: the exception is that
    of [read_inboxes] and there are no next actions. *)
Theorem read_all_fills_plate (g : vim_globals) (fuel : nat)
    (inboxes_file projects_file : file) (created_at : datetime) :
  enough_fuel projects_file <= fuel ->
  exists r pl',
    read_all g fuel inboxes_file projects_file (Plate_init g created_at)
    = Some (r, pl')
    /\ inboxes_ordered pl'
    /\ (forall key item,
          next_actions pl' !! key = Some item ->
          exists n l,
            na_jump_to item = "p" +:+ pretty n
            /\ 1 <= n
            /\ lines_of projects_file !! (n - 1) = Some l
            /\ is_next_action l = true
            /\ truthy (item_done l) = false)
    /\ (forall e,
          fst (read_inboxes g inboxes_file (Plate_init g created_at))
          = Raise e ->
          r = Raise e /\ next_actions pl' = ∅)
    /\ now pl' = created_at.
Proof.
  intros Hfuel. unfold read_all.
  destruct (read_inboxes g inboxes_file (Plate_init g created_at))
    as [r1 pl1] eqn:H1.
  assert (Hord : inboxes_ordered pl1).
  { refine (read_inboxes_ordered g inboxes_file _ r1 pl1 _ H1).
    intros k item Hk. simpl in Hk. rewrite lookup_empty in Hk.
    discriminate. }
  assert (Hg : grown_by_reading (Plate_init g created_at) pl1).
  { refine (read_inboxes_invariant (grown_by_reading (Plate_init g created_at))
              g (grown_inbox_entry _) (grown_reminder_entry _) _ _ _ _ _ H1).
    apply grown_refl; apply dense_empty. }
  destruct Hg as (_ & Hnow & Hna & _).
  destruct r1 as [[]|e].
  - destruct (read_projects_outcome g fuel projects_file pl1 Hfuel)
      as (r & pl' & H).
    exists r, pl'. split; [exact H|].
    assert (Hgp : grown_by_projects pl1 pl').
    { apply (read_projects_invariant (grown_by_projects pl1) g
               (grown_add_NextAction pl1 g) fuel projects_file pl1 r pl' H).
      apply grown_projects_refl. rewrite Hna. apply dense_empty. }
    destruct Hgp as (_ & Hnow' & Hin' & _).
    split; [|split; [|split]].
    + intros k item Hk. rewrite Hin' in Hk. exact (Hord k item Hk).
    + intros key item Hk.
      destruct (read_projects_action_lines g fuel projects_file pl1 r pl' H
                  key item Hk)
        as [Hold|(n & Hj & Hle & l & Hl & Ha & Hd)].
      * rewrite Hna in Hold. simpl in Hold. rewrite lookup_empty in Hold.
        discriminate.
      * exists n, l. repeat split; assumption.
    + intros e He. simpl in He. discriminate.
    + rewrite Hnow', Hnow. reflexivity.
  - exists (Raise e), pl1. split; [reflexivity|].
    split; [exact Hord|]. split; [|split].
    + intros key item Hk. rewrite Hna in Hk. simpl in Hk.
      rewrite lookup_empty in Hk. discriminate.
    + intros e' He. simpl in He. injection He as <-.
      split; [reflexivity|]. rewrite Hna. reflexivity.
    + rewrite Hnow. reflexivity.
Qed.

Lemma read_all_fills_plate_witness :
  exists r pl',
    read_all default_globals 23 inboxes_at_the_end_of_time household_example
      (Plate_init default_globals 0%Z) = Some (r, pl')
    /\ r = Raise OverflowError /\ next_actions pl' = ∅.
Proof.
  destruct (read_all_fills_plate default_globals 23
              inboxes_at_the_end_of_time household_example 0%Z)
    as (r & pl' & H & _ & _ & He & _).
  - vm_compute. lia.
  - exists r, pl'. split; [exact H|].
    apply He. vm_compute. reflexivity.
Defined.


(** ** What an unordered list stores *)

Lemma add_NextAction_stores (g : vim_globals) (linenum : nat) (line : string)
    (pl : Plate) (b : bool) (pl' : Plate) :
  truthy (item_done line) = false ->
  add_NextAction g linenum line pl = (Ok b, pl') ->
  exists item,
    next_actions pl' !! next_key (next_actions pl) = Some item
    /\ na_jump_to item = "p" +:+ pretty linenum.
Proof.
  intros Hd. unfold add_NextAction. rewrite Hd.
  destruct (parse_and_strip_contexts line) as [text contexts].
  unfold mbind, lift.
  destruct (parse_and_strip_dates g text) as [[[text' vis] due]|e];
    [|discriminate].
  intros [= <- <-]. eexists. cbn [next_actions set_next_actions].
  rewrite lookup_insert_eq. split; reflexivity.
Qed.

Lemma outline_run_grows (g : vim_globals) (st : locals) (pl : Plate)
    (out : result (nat * string * file)) (pl' : Plate) :
  outline_run g st pl out pl' -> dense (next_actions pl) ->
  grown_by_projects pl pl'.
Proof.
  intros Hrun Hd.
  apply (outline_run_invariant (grown_by_projects pl) g
           (grown_add_NextAction pl g) st pl out pl' Hrun).
  apply grown_projects_refl, Hd.
Qed.

Lemma grown_dense (pl pl' : Plate) :
  grown_by_projects pl pl' -> dense (next_actions pl').
Proof. intros H. apply H. Qed.

Lemma grown_keeps (pl pl' : Plate) (k : nat) (item : NextAction) :
  grown_by_projects pl pl' ->
  next_actions pl !! k = Some item -> next_actions pl' !! k = Some item.
Proof. intros H. apply H. Qed.

(** The line after the current one, seen from the state reached by
    reading on. *)
Lemma sibling_later (st st2 : locals) (m i : nat) (l : string) :
  cur_linenum st2 <> 0 ->
  cur_linenum st2 = cur_linenum st -> cur_line st2 = cur_line st ->
  cur_file st2 = cur_file st ->
  m <= cur_indent st ->
  S i < run_length m (upcoming_st st) ->
  upcoming_st st !! S i = Some l ->
  i < run_length m (upcoming_st (read_next st2))
  /\ upcoming_st (read_next st2) !! i = Some l
  /\ cur_linenum (read_next st2) + i = cur_linenum st + S i.
Proof.
  intros Hn Hln Hli Hfi Hm Hi Hl.
  destruct (read_next_spec st2 Hn) as (Hup2 & Hnext).
  assert (Hup : upcoming_st st
                = cur_line st :: upcoming_st (read_next st2)).
  { rewrite <- Hli, <- Hup2. unfold upcoming_st. congruence. }
  rewrite Hup in Hi, Hl.
  rewrite run_length_cons_in in Hi by exact Hm.
  simpl in Hl. split; [lia|]. split; [exact Hl|].
  rewrite Hnext, <- Hln.
  destruct (upcoming_st (read_next st2)); [discriminate|lia].
Qed.

Lemma first_line (st : locals) (l : string) :
  cur_linenum st <> 0 -> upcoming_st st !! 0 = Some l -> l = cur_line st.
Proof.
  intros Hn Hl. destruct (upcoming_st_cons st Hn) as (rest & Hup).
  rewrite Hup in Hl. simpl in Hl. congruence.
Qed.

(** In a list that is not ordered, every line at the indent of the
    list that is a next action and not marked as done is stored. *)
Lemma unordered_run_stores (g : vim_globals) (st : locals) (pl : Plate)
    (out : result (nat * string * file)) (pl' : Plate) :
  outline_run g st pl out pl' ->
  is_ordered (list_type st) = false -> blocker_started st = false ->
  dense (next_actions pl) ->
  forall back, out = Ok back ->
  forall i l,
    i < run_length (master_indent st) (upcoming_st st) ->
    upcoming_st st !! i = Some l ->
    opening_whitespace l = master_indent st ->
    is_next_action l = true -> truthy (item_done l) = false ->
    exists key item,
      next_actions pl' !! key = Some item
      /\ na_jump_to item = "p" +:+ pretty (cur_linenum st + i).
Proof.
  induction 1 as
    [st pl Hz
    |st pl Hn Hlt
    |st pl out pl' Hn Hin Hb _ IH
    |st pl out pl' Hn Hdeep Hb Hpd _ IH
    |st pl e pl' Hn Hdeep Hb Hpd Hls _ IH
    |st pl back1 pl1 out pl' Hn Hdeep Hb Hpd Hls Hrun1 IH1 Hrun2 IH2
    |st pl out pl' Hn Hdeep Hb Hpd Hls _ IH
    |st pl out pl' Hn Heq Hb Hbs _ IH
    |st pl e pl1 Hn Heq Hb Hbs Hadd
    |st pl added pl1 out pl' Hn Heq Hb Hbs Hadd Hrun IH];
    intros Huno Hnob Hd back Hout i l Hi Hl Hind Hact Hdone.
  - rewrite (upcoming_st_nil st Hz) in Hi. simpl in Hi. lia.
  - rewrite (run_length_stop st _ Hn Hlt) in Hi. lia.
  - unfold blocked in Hb. rewrite Huno in Hb. discriminate.
  - (* the child of a done line *)
    destruct i as [|i].
    + apply (first_line st l Hn) in Hl. subst l.
      unfold cur_indent in Hdeep. lia.
    + destruct (sibling_later st st (master_indent st) i l Hn eq_refl
                  eq_refl eq_refl ltac:(lia) Hi Hl) as (Hi' & Hl' & Hln).
      destruct (read_next_flags st) as (Hlt & Hbs & _).
      rewrite <- Hln.
      apply (IH ltac:(congruence) ltac:(congruence) Hd back Hout i l);
        try assumption.
      * now rewrite read_next_master.
      * now rewrite read_next_master.
  - discriminate.
  - (* a nested list *)
    pose proof (outline_run_spans _ _ _ _ _ Hrun1) as [_ Hret1].
    destruct back1 as [[ln1 l1] f1].
    destruct (Hret1 ln1 l1 f1 eq_refl) as (Hu1 & Hl1).
    change (upcoming_st (enter (cur_linenum st) (cur_line st) (cur_file st)))
      with (upcoming_st st) in Hu1, Hl1.
    change (master_indent
              (enter (cur_linenum st) (cur_line st) (cur_file st)))
      with (opening_whitespace (cur_line st)) in Hu1, Hl1.
    change (cur_linenum (enter (cur_linenum st) (cur_line st) (cur_file st)))
      with (cur_linenum st) in Hl1.
    set (c1 := run_length (opening_whitespace (cur_line st)) (upcoming_st st))
      in *.
    assert (Hc1 : c1 <= i).
    { destruct (Nat.le_gt_cases c1 i) as [H|H]; [exact H|].
      pose proof (run_length_lookup _ _ _ _ H Hl) as Hdeep'.
      unfold cur_indent in Hdeep. lia. }
    assert (Hsplit : run_length (master_indent st) (upcoming_st st)
                     = c1 + run_length (master_indent st)
                              (drop c1 (upcoming_st st))).
    { apply run_length_split. unfold cur_indent in Hdeep. lia. }
    assert (Hl2 : drop c1 (upcoming_st st) !! (i - c1) = Some l).
    { rewrite lookup_drop. replace (c1 + (i - c1)) with i by lia. exact Hl. }
    assert (Hln1 : ln1 = cur_linenum st + c1).
    { rewrite Hl1. destruct (drop c1 (upcoming_st st)); [discriminate|].
      reflexivity. }
    replace (cur_linenum st + i) with (ln1 + (i - c1)) by lia.
    apply (IH2 Huno Hnob
             (grown_dense _ _ (outline_run_grows _ _ _ _ _ Hrun1 Hd))
             back Hout (i - c1) l); try assumption.
    + change (upcoming_st (resume st (ln1, l1, f1)))
        with (upcoming ln1 l1 f1).
      change (master_indent (resume st (ln1, l1, f1)))
        with (master_indent st).
      rewrite Hu1. lia.
    + change (upcoming_st (resume st (ln1, l1, f1)))
        with (upcoming ln1 l1 f1).
      rewrite Hu1. exact Hl2.
  - (* text under an item *)
    destruct i as [|i].
    + apply (first_line st l Hn) in Hl. subst l.
      unfold cur_indent in Hdeep. lia.
    + destruct (sibling_later st st (master_indent st) i l Hn eq_refl
                  eq_refl eq_refl ltac:(lia) Hi Hl) as (Hi' & Hl' & Hln).
      destruct (read_next_flags st) as (Hlt & Hbs & _).
      rewrite <- Hln.
      apply (IH ltac:(congruence) ltac:(congruence) Hd back Hout i l);
        try assumption.
      * now rewrite read_next_master.
      * now rewrite read_next_master.
  - congruence.
  - discriminate.
  - (* an item of the list *)
    assert (Hd1 : dense (next_actions pl1)).
    { unfold try_add in Hadd.
      destruct (is_next_action (cur_line st)).
      - exact (grown_dense _ _
                 (grown_add_NextAction pl g _ _ pl _ pl1
                    (grown_projects_refl pl Hd) Hadd)).
      - injection Hadd as _ <-. exact Hd. }
    destruct i as [|i].
    + apply (first_line st l Hn) in Hl. subst l.
      unfold try_add in Hadd. rewrite Hact in Hadd.
      destruct (add_NextAction_stores g _ _ _ _ _ Hdone Hadd)
        as (item & Hitem & Hj).
      exists (next_key (next_actions pl)), item.
      rewrite Nat.add_0_r. split; [|exact Hj].
      exact (grown_keeps _ _ _ _
               (outline_run_grows _ _ _ _ _ Hrun Hd1) Hitem).
    + destruct (sibling_later st (mark_sibling st) (master_indent st) i l
                  Hn eq_refl eq_refl eq_refl ltac:(lia) Hi Hl)
        as (Hi' & Hl' & Hln).
      destruct (read_next_flags (mark_sibling st)) as (Hlt & Hbs' & _).
      rewrite <- Hln.
      apply (IH ltac:(rewrite Hlt; exact Huno)
               ltac:(rewrite Hbs'; cbn [blocker_started mark_sibling];
                     rewrite Huno, Hnob;
                     destruct (truthy (item_done (cur_line st)));
                     reflexivity)
               Hd1 back Hout i l);
        try assumption.
      * now rewrite read_next_master.
      * now rewrite read_next_master.
Qed.

(** X21: in a list whose marker is not #, every line at the indent of
    the list that is a next action and is not marked as done is stored
    with the jump target of its line, when the call returns. *)
Theorem unordered_list_stores_open_items (g : vim_globals)
    (fuel linenum : nat) (line : string) (f : file)
    (current_project : option string) (pl : Plate)
    (back : nat * string * file) (pl' : Plate) (i : nat) (l : string) :
  let ls := upcoming linenum line f in
  let m := opening_whitespace line in
  process_outline g fuel linenum line f current_project pl
  = Some (Ok back, pl') ->
  is_ordered (list_start line) = false ->
  dense (next_actions pl) ->
  i < run_length m ls -> ls !! i = Some l ->
  opening_whitespace l = m ->
  is_next_action l = true -> truthy (item_done l) = false ->
  exists key item,
    next_actions pl' !! key = Some item
    /\ na_jump_to item = "p" +:+ pretty (linenum + i).
Proof.
  intros ls m Hrun Huno Hd Hi Hl Hind Hact Hdone.
  unfold process_outline in Hrun. apply outline_loop_run in Hrun.
  exact (unordered_run_stores g (enter linenum line f) pl (Ok back) pl' Hrun
           Huno eq_refl Hd back eq_refl i l Hi Hl Hind Hact Hdone).
Qed.

Lemma unordered_list_stores_open_items_witness :
  exists key item,
    next_actions
      (snd (default (Ok (0, "", []), Plate_init default_globals 0%Z)
              (process_outline default_globals 20 2 "- @ mow the lawn @home"
                 (drop 2 household_example) None
                 (Plate_init default_globals 0%Z)))) !! key = Some item
    /\ na_jump_to item = "p" +:+ pretty (2 + 3).
Proof.
  apply (unordered_list_stores_open_items default_globals 20 2
           "- @ mow the lawn @home" (drop 2 household_example) None
           (Plate_init default_globals 0%Z) (0, "", [])
           (snd (default (Ok (0, "", []), Plate_init default_globals 0%Z)
                   (process_outline default_globals 20 2
                      "- @ mow the lawn @home" (drop 2 household_example)
                      None (Plate_init default_globals 0%Z))))
           3 "- @ call the plumber @phone").
  - vm_compute. reflexivity.
  - vm_compute. reflexivity.
  - apply dense_empty.
  - vm_compute. lia.
  - vm_compute. reflexivity.
  - vm_compute. reflexivity.
  - vm_compute. reflexivity.
  - vm_compute. reflexivity.
Defined.


(** ** Lists of contexts in words *)

Lemma context_list_loop_from (last : string) :
  forall (xs : list string) (p contexts comma : string),
    p <> "" -> Forall (fun x => x <> "") xs ->
    context_list_loop (xs ++ [last]) (Some p) contexts comma
    = (Some last, contexts +:+ comma +:+ join_with ", " (p :: xs)).
Proof.
  induction xs as [|x xs IH]; intros p contexts comma Hp Hxs.
  - destruct p as [|c p]; [congruence|]. reflexivity.
  - apply Forall_cons in Hxs as [Hx Hxs].
    destruct p as [|c p]; [congruence|].
    change (context_list_loop ((x :: xs) ++ [last]) (Some (String c p))
              contexts comma)
      with (context_list_loop (xs ++ [last]) (Some x)
              (contexts +:+ (comma +:+ String c p)) ", ").
    rewrite (IH x _ _ Hx Hxs).
    change (join_with ", " (String c p :: x :: xs))
      with (String c p +:+ ", " +:+ join_with ", " (x :: xs)).
    rewrite !app_assoc_str. reflexivity.
Qed.

Lemma context_list_loop_last (l : list string) (previous : option string)
    (contexts comma : string) :
  l <> [] ->
  exists p, fst (context_list_loop l previous contexts comma) = Some p.
Proof.
  revert previous contexts comma.
  induction l as [|c l IH]; intros previous contexts comma Hne;
    [congruence|].
  simpl. destruct l as [|c' l'].
  - destruct (str_truthy previous); exists c; reflexivity.
  - destruct (str_truthy previous); apply IH; discriminate.
Qed.

Lemma context_list_string_returns (l : list string) :
  l <> [] -> exists s, context_list_string l = Ok s.
Proof.
  intros Hne. unfold context_list_string.
  destruct (context_list_loop_last l None "" "" Hne) as (p & Hp).
  destruct (context_list_loop l None "" "") as [previous contexts].
  simpl in Hp. subst previous. eexists. reflexivity.
Qed.

(** X22: [context_list_string] writes a list of non-empty contexts as
    "a, b or c": commas between all but the last two, " or " before the
    last, a single context as it is.  For the empty list it raises
    TypeError. *)
Theorem context_list_grammar (init : list string) (last : string) :
  Forall (fun x => x <> "") init ->
  context_list_string (init ++ [last])
  = Ok (match init with
        | [] => last
        | _ :: _ => join_with ", " init +:+ " or " +:+ last
        end)
  /\ context_list_string [] = Raise TypeError.
Proof.
  intros Hinit. split; [|reflexivity].
  destruct init as [|p xs]; [reflexivity|].
  apply Forall_cons in Hinit as [Hp Hxs].
  unfold context_list_string.
  change (context_list_loop ((p :: xs) ++ [last]) None "" "")
    with (context_list_loop (xs ++ [last]) (Some p) "" "").
  rewrite (context_list_loop_from last xs p "" "" Hp Hxs).
  change ("" +:+ "" +:+ join_with ", " (p :: xs))
    with (join_with ", " (p :: xs)).
  assert (Hlen : Nat.ltb 0 (String.length (join_with ", " (p :: xs))) = true).
  { apply Nat.ltb_lt. destruct p as [|c p]; [congruence|].
    destruct xs; simpl; lia. }
  rewrite Hlen, app_assoc_str. reflexivity.
Qed.

Lemma context_list_grammar_witness :
  context_list_string ["home"; "phone"; "work"] = Ok "home, phone or work".
Proof.
  apply (context_list_grammar ["home"; "phone"] "work").
  repeat (constructor; [discriminate|]). constructor.
Defined.

Lemma split_from_nonempty (s : string) :
  forall cur, Forall (fun w => w <> "") (split_from cur s).
Proof.
  induction s as [|c s IH]; intros cur; simpl.
  - destruct cur; constructor; [discriminate|constructor].
  - destruct (Chars.is_space c); [|apply IH].
    destruct cur; [apply IH|]. constructor; [discriminate|apply IH].
Qed.

Lemma context_words_nonempty (f : file) :
  Forall (fun w => w <> "") (context_words f).
Proof.
  induction f as [|line f IH]; [constructor|].
  change (context_words (line :: f))
    with (split (re_sub_empty (cat [chr "#"; star any_but_newline; Eol])
                              line) ++ context_words f)%list.
  apply Forall_app. split; [apply split_from_nonempty|exact IH].
Qed.

Lemma Forall_List_filter {A : Type} (P : A -> Prop) (keep : A -> bool)
    (l : list A) :
  Forall P l -> Forall P (List.filter keep l).
Proof.
  induction 1 as [|x l Hx _ IH]; [constructor|].
  simpl. destruct (keep x); [constructor; assumption|exact IH].
Qed.

Lemma contexts_file_words_reload (current_time context_updated : datetime)
    (context_file : file) (pl : Plate) :
  context_checked pl = None
  \/ (exists t, context_checked pl = Some t /\ (t < context_updated)%Z) ->
  contexts_use (update_time_and_contexts current_time context_updated
                  context_file pl)
  = List.filter used (context_words context_file)
  /\ contexts_avoid (update_time_and_contexts current_time context_updated
                       context_file pl)
     = omap avoided (context_words context_file).
Proof.
  unfold update_time_and_contexts. rewrite read_contexts_from. cbn [app].
  intros [->|(t & -> & Ht)].
  - split; reflexivity.
  - apply Z.ltb_lt in Ht. rewrite Ht. split; reflexivity.
Qed.

(** X23: [display_contexts] never raises, although
    [context_list_string] does on an empty list: it returns the marker
    of a summarised section, " Contexts: ", the contexts to use in
    words, " but " when there are contexts of both kinds, the contexts
    to avoid in words after "NOT ", and a newline.  The contexts to use
    that were read from the file are non-empty words. *)
Theorem display_contexts_line (current_time context_updated : datetime)
    (context_file : file) (pl : Plate) :
  let pl' :=
    update_time_and_contexts current_time context_updated context_file pl in
  exists use avoid,
    display_contexts current_time context_updated context_file pl
    = (Ok (vtdview_section_marker true +:+ " Contexts: "
           +:+ (use
                +:+ (match contexts_use pl', contexts_avoid pl' with
                     | _ :: _, _ :: _ => " but "
                     | _, _ => ""
                     end)
                +:+ avoid) +:+ nl), pl')
    /\ match contexts_use pl' with
       | [] => use = ""
       | _ :: _ => context_list_string (contexts_use pl') = Ok use
       end
    /\ match contexts_avoid pl' with
       | [] => avoid = ""
       | _ :: _ =>
           exists s, context_list_string (contexts_avoid pl') = Ok s
                     /\ avoid = "NOT " +:+ s
       end
    /\ (context_checked pl = None ->
        Forall (fun w => w <> "") (contexts_use pl')).
Proof.
  intros pl'. unfold display_contexts. fold pl'.
  assert (Hwords : context_checked pl = None ->
                   Forall (fun w => w <> "") (contexts_use pl')).
  { intros Hc.
    destruct (contexts_file_words_reload current_time context_updated
                context_file pl (or_introl Hc)) as (Hu & _).
    fold pl' in Hu. rewrite Hu.
    apply Forall_List_filter, context_words_nonempty. }
  destruct (contexts_use pl') as [|u us] eqn:Eu;
    destruct (contexts_avoid pl') as [|a az] eqn:Ea; cbn [length Nat.ltb
      Nat.leb andb bind].
  - exists "", "". repeat split. exact Hwords.
  - destruct (context_list_string_returns (a :: az) ltac:(discriminate))
      as (s & Hs).
    rewrite Hs. cbn [bind]. exists "", ("NOT " +:+ s).
    split; [reflexivity|]. split; [reflexivity|].
    split; [exists s; split; [reflexivity|reflexivity]|exact Hwords].
  - destruct (context_list_string_returns (u :: us) ltac:(discriminate))
      as (s & Hs).
    rewrite Hs. cbn [bind]. exists s, "".
    split; [reflexivity|]. split; [reflexivity|].
    split; [reflexivity|exact Hwords].
  - destruct (context_list_string_returns (u :: us) ltac:(discriminate))
      as (s & Hs).
    destruct (context_list_string_returns (a :: az) ltac:(discriminate))
      as (s' & Hs').
    rewrite Hs, Hs'. cbn [bind]. exists s, ("NOT " +:+ s').
    split; [reflexivity|]. split; [reflexivity|].
    split; [exists s'; split; [reflexivity|reflexivity]|exact Hwords].
Qed.

(** ** Truncated strings *)

Lemma take_str_length_le (k : nat) (s : string) :
  String.length (take_str k s) = Nat.min k (String.length s).
Proof.
  revert s. induction k as [|k IH]; intros s; [destruct s; reflexivity|].
  destruct s as [|c s]; simpl; [reflexivity|]. now rewrite IH.
Qed.

Lemma drop_str_empty (k : nat) (s : string) :
  drop_str k s = "" <-> String.length s <= k.
Proof.
  pose proof (drop_str_length k s) as Hl. split.
  - intros H. rewrite H in Hl. simpl in Hl. lia.
  - intros H. destruct (drop_str k s); [reflexivity|]. simpl in Hl. lia.
Qed.

Lemma trunc_string_cases (str : string) (max_length : Z) :
  (2 <= max_length)%Z ->
  trunc_string str max_length
  = if (Z.of_nat (String.length str) <=? max_length + 1)%Z then str
    else take_str (Z.to_nat (max_length - 2)) str +:+ "..".
Proof.
  intros Hmax. unfold trunc_string, slice_from, slice_to.
  destruct (Z.ltb_spec (max_length + 1) 0); [lia|].
  destruct (Z.ltb_spec (max_length - 2) 0); [lia|].
  destruct (Z.leb_spec (Z.of_nat (String.length str)) (max_length + 1))
    as [Hshort|Hlong].
  - rewrite Z.min_r by lia. rewrite Nat2Z.id, drop_str_all. reflexivity.
  - rewrite Z.min_l by lia. rewrite Z.min_l by lia.
    destruct (String.eqb_spec
                (drop_str (Z.to_nat (max_length + 1)) str) "") as [E|_];
      [|reflexivity].
    apply drop_str_empty in E. lia.
Qed.

(** X24: for a limit of 2 or more, [trunc_string] leaves a string of at
    most limit + 1 characters as it is, one character more than the
    limit, and cuts a longer one to exactly the limit, its last two
    characters being dots; truncating twice is truncating once. *)
Theorem trunc_string_length (str : string) (max_length : Z) :
  (2 <= max_length)%Z ->
  ((Z.of_nat (String.length str) <= max_length + 1)%Z ->
   trunc_string str max_length = str)
  /\ ((max_length + 1 < Z.of_nat (String.length str))%Z ->
      trunc_string str max_length
      = take_str (Z.to_nat (max_length - 2)) str +:+ ".."
      /\ Z.of_nat (String.length (trunc_string str max_length)) = max_length)
  /\ trunc_string (trunc_string str max_length) max_length
     = trunc_string str max_length.
Proof.
  intros Hmax.
  assert (Hlong : (max_length + 1 < Z.of_nat (String.length str))%Z ->
      trunc_string str max_length
      = take_str (Z.to_nat (max_length - 2)) str +:+ ".."
      /\ Z.of_nat (String.length (trunc_string str max_length)) = max_length).
  { intros H. rewrite trunc_string_cases by exact Hmax.
    destruct (Z.leb_spec (Z.of_nat (String.length str)) (max_length + 1));
      [lia|].
    split; [reflexivity|].
    rewrite app_length, take_str_length_le. simpl. lia. }
  assert (Hshort : (Z.of_nat (String.length str) <= max_length + 1)%Z ->
                   trunc_string str max_length = str).
  { intros H. rewrite trunc_string_cases by exact Hmax.
    apply Z.leb_le in H. rewrite H. reflexivity. }
  split; [exact Hshort|]. split; [exact Hlong|].
  destruct (Z_le_gt_dec (Z.of_nat (String.length str)) (max_length + 1))
    as [H|H].
  - rewrite (Hshort H). exact (Hshort H).
  - destruct (Hlong ltac:(lia)) as [_ Hlen].
    rewrite (trunc_string_cases (trunc_string str max_length)) by exact Hmax.
    rewrite Hlen.
    destruct (Z.leb_spec max_length (max_length + 1)); [reflexivity|lia].
Qed.

Lemma trunc_string_length_witness :
  trunc_string "paint the garden fence" 10 = "paint th.."
  /\ trunc_string "mow the lawn" 11 = "mow the lawn".
Proof.
  destruct (trunc_string_length "paint the garden fence" 10 ltac:(lia))
    as (_ & H & _).
  destruct (trunc_string_length "mow the lawn" 11 ltac:(lia)) as (H' & _).
  split.
  - apply H. vm_compute. reflexivity.
  - apply H'. vm_compute. discriminate.
Defined.

(** ** Counters of list items *)

(** X25: a counter that is a number counts down by one for each item
    and stays at 0 once it is there; True, the counter of a list that is
    neither of notes nor ordered, never changes; a negative number just
    goes on down. *)
Theorem update_list_counter_counts_down (k : nat) (n : Z) (b : bool)
    (list_type : string) :
  ((0 <= n)%Z ->
   Nat.iter k update_list_counter (CountInt n)
   = CountInt (Z.max 0 (n - Z.of_nat k)))
  /\ ((n < 0)%Z ->
      Nat.iter k update_list_counter (CountInt n)
      = CountInt (n - Z.of_nat k))
  /\ Nat.iter k update_list_counter (CountBool b) = CountBool b
  /\ Nat.iter (S k) update_list_counter (list_counter list_type)
     = if String.eqb list_type "*" then CountInt 0
       else if String.eqb list_type "#" then CountInt 0
       else CountBool true.
Proof.
  assert (Hpos : forall k n, (0 <= n)%Z ->
             Nat.iter k update_list_counter (CountInt n)
             = CountInt (Z.max 0 (n - Z.of_nat k))).
  { clear. induction k as [|k IH]; intros n Hn.
    - simpl. f_equal. lia.
    - rewrite Nat.iter_succ, IH by exact Hn. unfold update_list_counter.
      destruct (Z.eqb_spec (Z.max 0 (n - Z.of_nat k)) 0); f_equal; lia. }
  assert (Hbool : forall k b,
             Nat.iter k update_list_counter (CountBool b) = CountBool b).
  { clear. induction k as [|k IH]; intros b; [reflexivity|].
    rewrite Nat.iter_succ, IH. reflexivity. }
  split; [apply Hpos|]. split; [|split; [apply Hbool|]].
  - clear. revert n. induction k as [|k IH]; intros n Hn.
    + simpl. f_equal. lia.
    + rewrite Nat.iter_succ, IH by exact Hn. unfold update_list_counter.
      destruct (Z.eqb_spec (n - Z.of_nat k) 0); [lia|]. f_equal. lia.
  - unfold list_counter.
    destruct (String.eqb list_type "*").
    + rewrite Hpos by lia. f_equal; lia.
    + destruct (String.eqb list_type "#").
      * rewrite Hpos by lia. f_equal; lia.
      * apply Hbool.
Qed.


(** ** Section headers *)

Lemma space_not_word (c : ascii) :
  Chars.is_space c = true -> Chars.is_word c = false.
Proof.
  unfold Chars.is_space, Chars.is_word, Chars.is_digit. cbv zeta.
  generalize (nat_of_ascii c). intros n H.
  apply orb_prop in H as [H|H].
  - apply Nat.eqb_eq in H. subst n. reflexivity.
  - apply andb_prop in H as [H1 H2].
    apply Nat.leb_le in H1, H2.
    repeat match goal with
           | |- context [Nat.leb ?a ?b] => destruct (Nat.leb_spec a b)
           | |- context [Nat.eqb ?a ?b] => destruct (Nat.eqb_spec a b)
           end; try reflexivity; lia.
Qed.

(** [sec_header] in terms of the runs at the head of the line. *)
Lemma sec_header_run (line : string) :
  truthy (sec_header line)
  = Nat.leb 1 (span (Chars.is_char "=") line)
    && (let tail := drop_str (span (Chars.is_char "=") line) line in
        Nat.leb 1 (span Chars.is_space tail)
        && match drop_str (span Chars.is_space tail) tail with
           | String c _ => Chars.is_word c
           | EmptyString => false
           end).
Proof.
  unfold sec_header, re_match, match_at. cbv zeta.
  change (cat [plus (chr "="); plus ws; word])
    with (Seq (Rep (Cls (Chars.is_char "=")) 1 None)
            (Seq (Rep (Cls Chars.is_space) 1 None) (Cls Chars.is_word))).
  assert (Hin : forall (s : string) (p : nat),
            matches (Seq (Rep (Cls Chars.is_space) 1 None)
                         (Cls Chars.is_word)) (Cursor p s) []
            = if Nat.leb 1 (span Chars.is_space s)
              then matches (Cls Chars.is_word)
                     (Cursor (p + span Chars.is_space s)
                             (drop_str (span Chars.is_space s) s)) []
              else []).
  { intros s p. apply seq_rep_class. intros k Hk. rewrite matches_cls.
    destruct (span_inside _ _ _ (proj2 Hk)) as (c & s' & -> & Hc).
    rewrite (space_not_word c Hc). reflexivity. }
  rewrite seq_rep_class.
  - destruct (Nat.leb 1 (span (Chars.is_char "=") line)); [|reflexivity].
    rewrite Hin. cbn [andb].
    destruct (Nat.leb 1 (span Chars.is_space
                           (drop_str (span (Chars.is_char "=") line) line)));
      [|reflexivity].
    rewrite matches_cls. cbn [andb].
    destruct (drop_str _ (drop_str _ line)) as [|c rest']; [reflexivity|].
    destruct (Chars.is_word c); reflexivity.
  - intros k Hk. rewrite Hin.
    destruct (span_inside _ _ _ (proj2 Hk)) as (c & s' & -> & Hc).
    apply Ascii.eqb_eq in Hc. subst c. reflexivity.
Qed.

(** X26: [sec_header] holds exactly for the lines that begin with one
    or more [=], then one or more whitespace characters, then a word
    character; a line with anything before the first [=] is no header. *)
Theorem sec_header_spec (line : string) :
  truthy (sec_header line) = true <->
  exists eqs gap c rest,
    line = eqs +:+ (gap +:+ String c rest)
    /\ eqs <> "" /\ all_of (Chars.is_char "=") eqs = true
    /\ gap <> "" /\ all_of Chars.is_space gap = true
    /\ Chars.is_word c = true.
Proof.
  rewrite sec_header_run. cbv zeta. split.
  - intros H. apply andb_prop in H as [H1 H]. apply andb_prop in H as [H2 H3].
    destruct (span_split (Chars.is_char "=") line) as (Hs & Hall & Hlen).
    set (tail := drop_str (span (Chars.is_char "=") line) line) in *.
    destruct (span_split Chars.is_space tail) as (Hs' & Hall' & Hlen').
    destruct (drop_str (span Chars.is_space tail) tail) as [|c rest'];
      [discriminate|].
    exists (take_str (span (Chars.is_char "=") line) line),
      (take_str (span Chars.is_space tail) tail), c, rest'.
    repeat split.
    + rewrite <- Hs'. exact Hs.
    + intros E. rewrite E in Hlen. simpl in Hlen. rewrite <- Hlen in H1.
      discriminate.
    + exact Hall.
    + intros E. rewrite E in Hlen'. simpl in Hlen'. rewrite <- Hlen' in H2.
      discriminate.
    + exact Hall'.
    + exact H3.
  - intros (eqs & gap & c & rest' & -> & Hne & Heq & Hgne & Hgap & Hc).
    assert (Hcs : Chars.is_space c = false).
    { destruct (Chars.is_space c) eqn:E; [|reflexivity].
      apply space_not_word in E. congruence. }
    destruct gap as [|g gap']; [congruence|].
    simpl in Hgap. apply andb_prop in Hgap as [Hg Hgap'].
    assert (Hgeq : Chars.is_char "=" g = false).
    { destruct (Chars.is_char "=" g) eqn:E; [|reflexivity].
      apply Ascii.eqb_eq in E. subst g. discriminate. }
    change (String g gap' +:+ String c rest')
      with (String g (gap' +:+ String c rest')).
    destruct (span_app (Chars.is_char "=") eqs g
                (gap' +:+ String c rest') Heq Hgeq) as [-> ->].
    assert (Hspan : span Chars.is_space (String g (gap' +:+ String c rest'))
                    = S (String.length gap')
                    /\ drop_str (S (String.length gap'))
                         (String g (gap' +:+ String c rest'))
                       = String c rest').
    { simpl. rewrite Hg.
      destruct (span_app Chars.is_space gap' c rest' Hgap' Hcs) as [-> ->].
      split; reflexivity. }
    destruct Hspan as [-> ->]. rewrite Hc.
    destruct eqs; [congruence|]. reflexivity.
Qed.

(** ** The older parsers *)

(** X27: [parse_next_actions] cannot handle a list: on a Projects file
    with a line that starts a list element it raises NameError, for the
    function it calls there does not exist; on a file without such a
    line it finds no action, and the command it issues sets the
    variable to the empty string. *)
Theorem parse_next_actions_breaks (p_file : file) :
  Forall (fun raw => raw <> "") p_file ->
  (Exists (fun raw => truthy (list_start raw) = true) p_file ->
   parse_next_actions p_file = inl (NameError "parse_next_actions_list"))
  /\ (Forall (fun raw => truthy (list_start raw) = false) p_file ->
      parse_next_actions p_file = inr "let l:actions=''").
Proof.
  intros Hfile.
  assert (Hscan : forall f line cur_proj,
             Forall (fun raw => raw <> "") (line :: f) ->
             (Exists (fun raw => truthy (list_start raw) = true) (line :: f) ->
              next_actions_scan line f cur_proj
              = inl (NameError "parse_next_actions_list"))
             /\ (Forall (fun raw => truthy (list_start raw) = false)
                        (line :: f) ->
                 exists cp, next_actions_scan line f cur_proj = inr cp)).
  { clear. induction f as [|raw f IH]; intros line cur_proj Hf;
      apply Forall_cons in Hf as [Hline Hf]; cbn [next_actions_scan];
      (destruct (String.eqb_spec line "") as [E|_]; [contradiction|]).
    - split.
      + intros Hex. apply Exists_cons in Hex as [Hex|Hex];
          [rewrite Hex; reflexivity|inversion Hex].
      + intros Hall. apply Forall_cons in Hall as [Hl _]. rewrite Hl.
        eexists. reflexivity.
    - split.
      + intros Hex. apply Exists_cons in Hex as [Hex|Hex];
          [rewrite Hex; reflexivity|].
        destruct (truthy (list_start line)); [reflexivity|].
        apply IH; assumption.
      + intros Hall. apply Forall_cons in Hall as [Hl Hall]. rewrite Hl.
        apply IH; assumption. }
  unfold parse_next_actions, readline.
  destruct p_file as [|line f].
  - split; [intros Hex; inversion Hex|reflexivity].
  - destruct (Hscan f line None Hfile) as [H1 H2]. split.
    + intros Hex. rewrite (H1 Hex). reflexivity.
    + intros Hall. destruct (H2 Hall) as (cp & ->). reflexivity.
Qed.

Lemma parse_next_actions_breaks_witness :
  parse_next_actions household_example
  = inl (NameError "parse_next_actions_list").
Proof.
  apply (parse_next_actions_breaks household_example).
  - evaluated household_example.
    repeat (constructor; [discriminate|]). constructor.
  - evaluated household_example.
    apply Exists_cons_tl, Exists_cons_hd. vm_compute. reflexivity.
Defined.

Lemma inboxes_scan_from (f : file) :
  forall line inboxes,
    Forall (fun raw => raw <> "") (line :: f) ->
    inboxes_scan line f inboxes
    = inboxes
      +:+ concat_all
            (List.filter (fun raw => truthy (re_search (lit "INBOX") raw))
                         (line :: f)).
Proof.
  induction f as [|raw f IH]; intros line inboxes Hf;
    apply Forall_cons in Hf as [Hline Hf]; cbn [inboxes_scan];
    (destruct (String.eqb_spec line "") as [E|_]; [contradiction|]).
  - cbn [List.filter].
    destruct (truthy (re_search (lit "INBOX") line)); cbn [concat_all
      fold_right]; rewrite ?app_empty_r; reflexivity.
  - rewrite (IH raw _ Hf).
    change (List.filter _ (line :: raw :: f))
      with (if truthy (re_search (lit "INBOX") line)
            then line :: List.filter
                           (fun raw => truthy (re_search (lit "INBOX") raw))
                           (raw :: f)
            else List.filter
                   (fun raw => truthy (re_search (lit "INBOX") raw))
                   (raw :: f)).
    destruct (truthy (re_search (lit "INBOX") line)); [|reflexivity].
    cbn [concat_all fold_right]. rewrite app_assoc_str. reflexivity.
Qed.

Lemma double_quotes_paired (s : string) :
  quotes_paired (double_quotes s) = true.
Proof.
  induction s as [|c s IH]; [reflexivity|]. cbn [double_quotes].
  destruct (Ascii.eqb c "'") eqn:E.
  - cbn [quotes_paired]. rewrite !Ascii.eqb_refl. exact IH.
  - cbn [quotes_paired]. rewrite E. exact IH.
Qed.

Lemma double_quotes_inj (a : string) :
  forall b, double_quotes a = double_quotes b -> a = b.
Proof.
  induction a as [|c a IH]; intros [|d b]; cbn [double_quotes].
  - reflexivity.
  - destruct (Ascii.eqb d "'"); discriminate.
  - destruct (Ascii.eqb c "'"); discriminate.
  - destruct (Ascii.eqb_spec c "'") as [->|Hc];
      destruct (Ascii.eqb_spec d "'") as [->|Hd].
    + intros [= H]. f_equal. apply IH, H.
    + intros [= H _]. congruence.
    + intros [= H _]. congruence.
    + intros [= -> H]. f_equal. apply IH, H.
Qed.

(** X28: the command [parse_inboxes] issues sets the variable to the
    lines of the file in which INBOX occurs, one after the other and
    with their newlines, written between single quotes with every
    quote doubled: in what stands between the outer quotes every quote
    has a partner, and two contents are never written alike. *)
Theorem parse_inboxes_command (inbox_file : file) :
  Forall (fun raw => raw <> "") inbox_file ->
  let kept :=
    List.filter (fun raw => truthy (re_search (lit "INBOX") raw))
                inbox_file in
  parse_inboxes inbox_file
  = "let l:inbox_content='" +:+ double_quotes (concat_all kept) +:+ "'"
  /\ (forall raw, In raw kept <-> In raw inbox_file /\ contains "INBOX" raw)
  /\ quotes_paired (double_quotes (concat_all kept)) = true
  /\ (forall other,
        double_quotes other = double_quotes (concat_all kept) ->
        other = concat_all kept).
Proof.
  intros Hfile kept. split; [|split; [|split]].
  - unfold parse_inboxes, readline.
    destruct inbox_file as [|line f]; [reflexivity|].
    rewrite (inboxes_scan_from f line "" Hfile). reflexivity.
  - intros raw. unfold kept. rewrite List.filter_In.
    rewrite (re_search_iff _ (starts_with "INBOX")),
      <- contains_iff; [reflexivity|].
    intros cu. apply match_at_lit. discriminate.
  - apply double_quotes_paired.
  - intros other. apply double_quotes_inj.
Qed.

Lemma parse_inboxes_command_witness :
  parse_inboxes ["- Email INBOX" +:+ nl; "notes" +:+ nl; "- Bob's INBOX" +:+ nl]
  = "let l:inbox_content='- Email INBOX
- Bob''s INBOX
'".
Proof.
  refine (proj1 (parse_inboxes_command
                   ["- Email INBOX" +:+ nl; "notes" +:+ nl;
                    "- Bob's INBOX" +:+ nl] _)).
  repeat (constructor; [discriminate|]). constructor.
Defined.


(** ** An ordered list read as an unordered one *)

(** C1 fails on the code: [process_outline] fixes [list_type] once, on
    the line it is called on, and a run at indent 0 only ends with the
    file.  In this file the call starts on the unordered item of line
    2, and the ordered list of lines 5 to 7 is read in that same call
    with the counter of an unordered list: its first step is not done,
    yet steps 2 and 3 are stored.  Called on line 5 itself, the same
    function stores step 1 only. *)
Theorem ordered_list_read_as_unordered :
  let pl0 := Plate_init default_globals 0%Z in
  drop 4 (lines_of trip_example)
  = ["# @ book flights"; "# @ book hotel"; "# @ pack"]
  /\ Forall (fun l => list_start l = Some "#"
                      /\ opening_whitespace l = 0
                      /\ truthy (item_done l) = false)
            (drop 4 (lines_of trip_example))
  /\ (exists pl',
        read_projects default_globals 30 trip_example pl0 = Some (Ok tt, pl')
        /\ process_outline default_globals 30 2 "- @ sweep"
             (drop 2 trip_example) None pl0 = Some (Ok (0, "", []), pl')
        /\ size (next_actions pl') = 4
        /\ stored_jump_to pl' 0 = Some "p2"
        /\ stored_jump_to pl' 1 = Some "p5"
        /\ stored_jump_to pl' 2 = Some "p6"
        /\ stored_jump_to pl' 3 = Some "p7")
  /\ (exists pl',
        process_outline default_globals 30 5 "# @ book flights"
          (drop 5 trip_example) None pl0 = Some (Ok (0, "", []), pl')
        /\ size (next_actions pl') = 1
        /\ stored_jump_to pl' 0 = Some "p5").
Proof.
  cbv zeta. split; [vm_compute; reflexivity|]. split.
  - evaluated (drop 4 (lines_of trip_example)).
    repeat (constructor; [vm_compute; repeat split|]). constructor.
  - split; eexists; (split; [vm_compute; reflexivity|]);
      vm_compute; repeat split.
Qed.

(** ** Entries of the Inboxes section that the read reaches *)

(** Whether [inbox_entry] raises depends on the line and on the
    pattern of inbox entries only. *)
Lemma inbox_entry_outcome (ln ln' : nat) (line : string) (pl pl' : Plate) :
  TS_inbox pl = TS_inbox pl' ->
  fst (inbox_entry ln line pl) = fst (inbox_entry ln' line pl').
Proof.
  intros HR. unfold inbox_entry. rewrite HR.
  destruct (re_search (TS_inbox pl') line) as [m|]; [|reflexivity].
  destruct (parse_and_strip_contexts line) as [text contexts].
  destruct (group_or_raise m "datetime") as [dt|e]; simpl; [|reflexivity].
  destruct (parse_datetime dt "") as [last|e]; simpl; [|reflexivity].
  destruct (group_or_raise m "break") as [brk|e]; simpl; [|reflexivity].
  destruct (timedelta_days (int_of_string brk)) as [delta|e]; simpl;
    [|reflexivity].
  destruct last as [t|]; simpl; [|reflexivity].
  destruct (add t delta) as [vis|e]; simpl; [|reflexivity].
  destruct (group_or_raise m "window") as [win|e]; simpl; [|reflexivity].
  destruct (timedelta_days (int_of_string win)) as [delta'|e]; simpl;
    [|reflexivity].
  destruct (add vis delta') as [due|e]; simpl; reflexivity.
Qed.

(** An entry with a stamp that parses, a token and dates in range
    raises nothing. *)
Lemma inbox_entry_returns (ln : nat) (line : string) (pl : Plate)
    (t : datetime) (brk win : Z) :
  inbox_token (TS_inbox pl) line t brk win ->
  dates_in_range t brk win = true ->
  exists pl', inbox_entry ln line pl = (Ok tt, pl').
Proof.
  intros (m & dt & b & w & Hs & Hdt & Hp & Hb & -> & Hw & ->) Hrange.
  unfold dates_in_range in Hrange.
  apply andb_prop in Hrange as [Hrange H4].
  apply andb_prop in Hrange as [Hrange H3].
  apply andb_prop in Hrange as [H1 H2].
  apply Z.leb_le in H1, H3.
  pose proof (int_of_string_nonneg b) as Hb0.
  pose proof (int_of_string_nonneg w) as Hw0.
  unfold inbox_entry. rewrite Hs.
  destruct (parse_and_strip_contexts line) as [text contexts].
  unfold group_or_raise. rewrite Hdt, Hb, Hw. simpl. rewrite Hp. simpl.
  unfold timedelta_days.
  rewrite (Z.abs_eq _ Hb0), (Z.abs_eq _ Hw0).
  rewrite (proj2 (Z.leb_le _ _) H1), (proj2 (Z.leb_le _ _) H3). simpl.
  unfold add. rewrite H2. simpl. rewrite H4. simpl.
  eexists. reflexivity.
Qed.

(** The loop over the entries stores an item for an entry that it
    reaches, whatever happens on the lines after it. *)
Lemma inbox_loop_reaches (cond : string -> bool) (pl0 : Plate)
    (line : string) (after : list string) (t : datetime) (brk win : Z)
    (between : list string) :
  Forall (fun x => cond x = true) between ->
  Forall (entry_returns pl0) between ->
  cond line = true ->
  inbox_token (TS_inbox pl0) line t brk win ->
  dates_in_range t brk win = true ->
  forall ln l f pl r pl',
    upcoming ln l f = (between ++ line :: after)%list ->
    dense (inboxes pl) -> TS_inbox pl = TS_inbox pl0 ->
    reading_loop cond inbox_entry ln l f pl = (r, pl') ->
    exists k item,
      inboxes pl' !! k = Some item
      /\ inbox_jump_to item = "i" +:+ pretty (ln + length between)
      /\ inbox_TS_last item = t
      /\ inbox_TS_vis item = (t + brk * us_per_day)%Z
      /\ inbox_TS_due item = (inbox_TS_vis item + win * us_per_day)%Z.
Proof.
  intros Hbetween Hret Hline Htok Hrange. revert Hret.
  induction Hbetween as [|b between Hb _ IH]; intros Hret;
    intros ln l f pl r pl' Hup Hd HR;
    simpl in Hup; apply upcoming_cons in Hup; destruct Hup as (Hn & -> & Hf);
    rewrite reading_loop_unfold;
    destruct (Nat.eqb_spec ln 0) as [|_]; try contradiction; simpl.
  - rewrite Hline. simpl. unfold mbind.
    rewrite <- HR in Htok.
    destruct (inbox_entry_returns ln line pl t brk win Htok Hrange)
      as (pl1 & He).
    rewrite He.
    destruct (read_and_count_lines ln f) as [[ln' l'] f'].
    intros Hloop.
    pose proof (inbox_entry_effect _ _ _ _ _ He) as (_ & Heff).
    destruct (Heff Hd) as (Hd1 & _).
    destruct (inbox_entry_stores _ _ _ _ _ _ _ Htok He)
      as (item & Hk & Hj & Hl & Hv & Hu).
    exists (next_key (inboxes pl)), item. rewrite Nat.add_0_r.
    split; [|auto].
    eapply inbox_loop_keeps; eassumption.
  - rewrite Hb. simpl. unfold mbind.
    apply Forall_cons in Hret as [Hb0 Hret].
    pose proof (inbox_entry_outcome ln 0 b pl pl0 HR) as Hout.
    unfold entry_returns in Hb0. rewrite Hb0 in Hout.
    destruct (inbox_entry ln b pl) as [[[]|e] pl1] eqn:He;
      [|discriminate].
    pose proof (inbox_entry_effect _ _ _ _ _ He) as (HR1 & Heff).
    destruct (Heff Hd) as (Hd1 & _).
    remember (between ++ line :: after)%list as ls eqn:Hls.
    destruct ls as [|y ys]; [destruct between; discriminate|].
    destruct (read_cons ln f _ _ Hf) as (f1 & -> & Hf1).
    cbv beta iota. intros Hloop.
    destruct (IH Hret (ln + 1) y f1 pl1 r pl') as (k & item & Hk & Hj & Hrest);
      try assumption.
    + unfold upcoming. rewrite Nat.add_1_r. simpl. now rewrite Hf1.
    + congruence.
    + exists k, item. split; [exact Hk|]. split; [|exact Hrest].
      rewrite Hj. do 2 f_equal. lia.
Qed.

(** C4, as amended: a line of the Inboxes section (after the first
    header line, before the Thoughts header) that carries a stamp that
    parses and a token [+break,window] has an InboxItem in the store,
    with [TS_vis] the time last emptied plus [break] days and [TS_due]
    that plus [window] days, provided that no line of the section
    before it raises and that both dates are in the range of
    [datetime]; this whether [read_inboxes] then returns or a later
    line makes it raise. *)
Theorem read_inboxes_entry (g : vim_globals) (created_at : datetime)
    (f : file) (r : result unit) (pl' : Plate)
    (before between after : list string) (header line : string)
    (t : datetime) (brk win : Z) :
  lines_of f = (before ++ header :: between ++ line :: after)%list ->
  Forall (fun x => not_matching (g_vtd_section_inbox g) x = true) before ->
  not_matching (g_vtd_section_inbox g) header = false ->
  Forall (fun x => not_matching (g_vtd_section_thoughts g) x = true)
         between ->
  Forall (entry_returns (Plate_init g created_at)) between ->
  not_matching (g_vtd_section_thoughts g) line = true ->
  inbox_token (TS_inbox (Plate_init g created_at)) line t brk win ->
  dates_in_range t brk win = true ->
  read_inboxes g f (Plate_init g created_at) = (r, pl') ->
  exists k item,
    inboxes pl' !! k = Some item
    /\ inbox_jump_to item
       = "i" +:+ pretty (length before + length between + 2)
    /\ inbox_TS_last item = t
    /\ inbox_TS_vis item = (t + brk * us_per_day)%Z
    /\ inbox_TS_due item = (inbox_TS_vis item + win * us_per_day)%Z.
Proof.
  intros Hlines Hbefore Hheader Hbetween Hret Hline Htok Hrange.
  set (pl := Plate_init g created_at) in *.
  unfold read_inboxes.
  remember (before ++ header :: between ++ line :: after)%list as ls eqn:Hls.
  destruct ls as [|x xs]; [destruct before; discriminate|].
  destruct (read_cons 0 f x xs Hlines) as (f0 & -> & Hf0).
  destruct (skip_to_header (g_vtd_section_inbox g) header
              (between ++ line :: after)%list before Hbefore Hheader
              (0 + 1) x f0 pl) as (f1 & Hskip & Hf1).
  { unfold upcoming. simpl. now rewrite Hf0, Hls. }
  unfold mbind at 1. rewrite Hskip. clear Hskip.
  remember (between ++ line :: after)%list as es eqn:Hes.
  destruct es as [|y ys]; [destruct between; discriminate|].
  destruct (read_cons (0 + 1 + length before) f1 y ys Hf1)
    as (f2 & -> & Hf2).
  unfold mbind at 1.
  destruct (reading_loop (not_matching (g_vtd_section_thoughts g))
              inbox_entry (0 + 1 + length before + 1) y f2 pl)
    as [at_thoughts pl3] eqn:H3.
  destruct (inbox_loop_reaches _ pl line after t brk win between
              Hbetween Hret Hline Htok Hrange
              (0 + 1 + length before + 1) y f2 pl at_thoughts pl3)
    as (k & item & Hk & Hj & Hrest); try exact H3.
  { unfold upcoming. rewrite Nat.add_1_r. simpl. now rewrite Hf2, Hes. }
  { apply dense_empty. }
  { reflexivity. }
  assert (Hjump : inbox_jump_to item
                  = "i" +:+ pretty (length before + length between + 2)).
  { rewrite Hj. do 2 f_equal. lia. }
  destruct at_thoughts as [[[ln3 l3] f3]|e];
    [|intros [= <- <-]; exists k, item; auto].
  unfold mbind at 1.
  destruct (reading_loop (not_matching (g_vtd_section_reminders g)) no_body
              ln3 l3 f3 pl3) as [at_reminders pl4] eqn:H4.
  apply (reading_loop_invariant (fun p => inboxes p !! k = Some item) _ _
           (no_body_keeps _) _ _ _ _ _ _ Hk) in H4.
  destruct at_reminders as [[[ln4 l4] f4]|e];
    [|intros [= <- <-]; exists k, item; auto].
  destruct (read_and_count_lines ln4 f4) as [[ln5 l5] f5].
  unfold mbind at 1.
  destruct (reading_loop (fun _ => true) reminder_entry ln5 l5 f5 pl4)
    as [at_end pl6] eqn:H6.
  apply (reading_loop_invariant (fun p => inboxes p !! k = Some item))
    in H6; [|intros ? ? ? ? ? Hp He;
             now rewrite (reminder_entry_same_inboxes _ _ _ _ _ He)
            |exact H4].
  destruct at_end as [[[ln6 l6] f6]|e]; unfold ret;
    intros [= <- <-]; exists k, item; auto.
Qed.

(** The end-to-end example, in a file whose last entry makes the read
    raise: the entry stamped 2020-01-01 00:01 with [+2,3], the second
    of the section, is stored all the same, visible from 2020-01-03
    00:01 and due on 2020-01-06 00:01. *)
Lemma read_inboxes_entry_witness :
  fst (read_inboxes default_globals inboxes_bad_date_last
         (Plate_init default_globals 0%Z)) = Raise ValueError
  /\ exists k item,
       inboxes (snd (read_inboxes default_globals inboxes_bad_date_last
                       (Plate_init default_globals 0%Z))) !! k = Some item
       /\ inbox_jump_to item = "i3"
       /\ Ok (inbox_TS_last item) = make 2020 1 1 0 1
       /\ Ok (inbox_TS_vis item) = make 2020 1 3 0 1
       /\ Ok (inbox_TS_due item) = make 2020 1 6 0 1.
Proof.
  split; [vm_compute; reflexivity|].
  destruct (read_inboxes_entry default_globals 0%Z inboxes_bad_date_last
              (fst (read_inboxes default_globals inboxes_bad_date_last
                      (Plate_init default_globals 0%Z)))
              (snd (read_inboxes default_globals inboxes_bad_date_last
                      (Plate_init default_globals 0%Z)))
              [] ["- Post 2020-01-01 +1,1"]
              ["- Fax 2020-02-30 +1,1"; "= Thoughts ="]
              "= Inboxes ="
              "- Email 2020-01-01 00:01 +2,3 @computer"
              63713433660000000%Z 2%Z 3%Z)
    as (k & item & Hk & Hj & Hl & Hv & Hu).
  - vm_compute. reflexivity.
  - constructor.
  - vm_compute. reflexivity.
  - constructor; [vm_compute; reflexivity|constructor].
  - constructor; [vm_compute; reflexivity|constructor].
  - vm_compute. reflexivity.
  - eexists _, _, _, _.
    split; [vm_compute; reflexivity|].
    split; [vm_compute; reflexivity|].
    split; [vm_compute; reflexivity|].
    split; [vm_compute; reflexivity|].
    split; [vm_compute; reflexivity|].
    split; vm_compute; reflexivity.
  - vm_compute. reflexivity.
  - apply surjective_pairing.
  - exists k, item. split; [exact Hk|]. split; [exact Hj|].
    rewrite Hu, Hv, Hl. repeat split.
Defined.

(** C4 as stated fails: an entry with a token and a stamp that parses
    is not stored when a line before it makes the read raise, here
    the entry of line 4 after the date of line 3; nor when its own
    dates leave the range of [datetime]. *)
Lemma entry_with_token_not_stored :
  let pl0 := Plate_init default_globals 0%Z in
  let out := read_inboxes default_globals inboxes_with_bad_date pl0 in
  let late := read_inboxes default_globals inboxes_at_the_end_of_time pl0 in
  lines_of inboxes_with_bad_date !! 3 = Some "- Post 2020-01-01 +1,1"
  /\ inbox_token (TS_inbox pl0) "- Post 2020-01-01 +1,1"
       63713433660000000%Z 1 1
  /\ fst out = Raise ValueError
  /\ size (inboxes (snd out)) = 1
  /\ inbox_jump_to <$> inboxes (snd out) !! 0 = Some "i2"
  /\ lines_of inboxes_at_the_end_of_time !! 1
     = Some "- Email 9999-12-31 00:01 +2,3"
  /\ inbox_token (TS_inbox pl0) "- Email 9999-12-31 00:01 +2,3"
       315537811260000000%Z 2 3
  /\ fst late = Raise OverflowError
  /\ inboxes (snd late) = ∅.
Proof.
  cbv zeta. split; [vm_compute; reflexivity|]. split.
  { eexists _, _, _, _.
    split; [vm_compute; reflexivity|].
    split; [vm_compute; reflexivity|].
    split; [vm_compute; reflexivity|].
    split; [vm_compute; reflexivity|].
    split; [vm_compute; reflexivity|].
    split; vm_compute; reflexivity. }
  split; [vm_compute; reflexivity|].
  split; [vm_compute; reflexivity|].
  split; [vm_compute; reflexivity|].
  split; [vm_compute; reflexivity|]. split.
  { eexists _, _, _, _.
    split; [vm_compute; reflexivity|].
    split; [vm_compute; reflexivity|].
    split; [vm_compute; reflexivity|].
    split; [vm_compute; reflexivity|].
    split; [vm_compute; reflexivity|].
    split; vm_compute; reflexivity. }
  split; vm_compute; reflexivity.
Qed.

(** ** Context tokens, character by character *)

(** The ways [P{1,2}] matches. *)
Lemma matches_one_or_two (P : ascii -> bool) (p : nat) (s : string)
    (caps : list capture) :
  matches (Rep (Cls P) 1 (Some 2)) (Cursor p s) caps
  = match s with
    | String a s' =>
        if P a then
          match s' with
          | String b s'' =>
              if P b
              then [(Cursor (S (S p)) s'', caps); (Cursor (S p) s', caps)]
              else [(Cursor (S p) s', caps)]
          | EmptyString => [(Cursor (S p) s', caps)]
          end
        else []
    | EmptyString => []
    end.
Proof.
  rewrite matches_rep. destruct s as [|a s']; [reflexivity|].
  cbn [rest String.length]. rewrite rep_loop_unfold.
  change (hi_allows (Some 2)) with true. cbv iota.
  rewrite matches_cls. destruct (P a); [|reflexivity].
  cbn [flat_map fst snd pos].
  destruct (Nat.ltb_spec p (S p)); [|lia].
  change (Nat.pred 1) with 0. change (hi_pred (Some 2)) with (Some 1).
  change (Nat.eqb 1 0) with false. cbv iota. rewrite !app_nil_r.
  destruct s' as [|b s'']; [reflexivity|].
  cbn [String.length]. rewrite rep_loop_unfold.
  change (hi_allows (Some 1)) with true. cbv iota.
  rewrite matches_cls. destruct (P b); [|reflexivity].
  cbn [flat_map fst snd pos].
  destruct (Nat.ltb_spec (S p) (S (S p))); [|lia].
  change (Nat.pred 0) with 0. change (hi_pred (Some 1)) with (Some 0).
  change (Nat.eqb 0 0) with true. cbv iota. rewrite app_nil_r.
  destruct (String.length s''); reflexivity.
Qed.

Lemma at_not_word (c : ascii) :
  Chars.is_char "@" c = true -> Chars.is_word c = false.
Proof. intros H. apply Ascii.eqb_eq in H. subst c. reflexivity. Qed.

Lemma at_not_space (c : ascii) :
  Chars.is_char "@" c = true -> Chars.is_space c = false.
Proof. intros H. apply Ascii.eqb_eq in H. subst c. reflexivity. Qed.

Lemma span_at_word (s : string) :
  span (Chars.is_char "@") s = 0 \/ span Chars.is_word s = 0.
Proof.
  destruct s as [|c s]; [left; reflexivity|]. cbn [span].
  destruct (Chars.is_char "@" c) eqn:E; [right|left; reflexivity].
  now rewrite (at_not_word c E).
Qed.

(** The name of a context, where it can stand. *)
Lemma matches_context_name (p : nat) (s : string) (caps : list capture) :
  matches (Grp "context" (Rep (Cls Chars.is_word) 1 None)) (Cursor p s) caps
  = map (fun k => (Cursor (p + k) (drop_str k s),
                   ("context", (p, take_str k s)) :: caps))
        (countdown (span Chars.is_word s) 1).
Proof.
  rewrite matches_grp, matches_rep_class, map_map. cbn [fst snd pos rest].
  apply map_ext. intros k. replace (p + k - p) with k by lia. reflexivity.
Qed.

(** The pattern of context tokens, in terms of the runs of characters
    at the cursor. *)
Lemma context_pattern_run (p : nat) (s : string) :
  match_at context_pattern (Cursor p s)
  = let k := span Chars.is_space s in
    let s1 := drop_str k s in
    let a := span (Chars.is_char "@") s1 in
    let s2 := drop_str a s1 in
    let n := span Chars.is_word s2 in
    if Nat.leb 1 k && (Nat.eqb a 1 || Nat.eqb a 2) && Nat.leb 1 n
    then Some (Match p (p + k + a + n)
                 [("context", (p + k + a, take_str n s2))])
    else None.
Proof.
  cbv zeta. unfold match_at.
  change context_pattern
    with (Seq (Rep (Cls Chars.is_space) 1 None)
            (Seq (Rep (Cls (Chars.is_char "@")) 1 (Some 2))
               (Grp "context" (Rep (Cls Chars.is_word) 1 None)))).
  rewrite seq_rep_class.
  2:{ intros k Hk. rewrite matches_seq, matches_one_or_two.
      destruct (span_inside _ _ _ (proj2 Hk)) as (c & s' & -> & Hc).
      destruct (Chars.is_char "@" c) eqn:E; [|reflexivity].
      apply at_not_space in E. congruence. }
  destruct (Nat.leb 1 (span Chars.is_space s)); [|reflexivity].
  cbn [andb].
  set (q := p + span Chars.is_space s).
  generalize (drop_str (span Chars.is_space s) s). intros s1.
  rewrite matches_seq, matches_one_or_two.
  destruct s1 as [|a0 s1']; [reflexivity|].
  cbn [span]. destruct (Chars.is_char "@" a0) eqn:Ea; [|reflexivity].
  destruct s1' as [|b s''].
  - cbn [flat_map fst snd span drop_str Nat.eqb orb andb].
    rewrite matches_context_name. reflexivity.
  - cbn [span]. destruct (Chars.is_char "@" b) eqn:Eb.
    + cbn [flat_map fst snd]. rewrite !matches_context_name, app_nil_r.
      assert (Hb : span Chars.is_word (String b s'') = 0).
      { cbn [span]. now rewrite (at_not_word b Eb). }
      rewrite Hb. change (countdown 0 1) with (@nil nat).
      cbn [map]. rewrite app_nil_r.
      destruct (span_at_word s'') as [Hz|Hz].
      * rewrite Hz. cbn [drop_str Nat.eqb orb andb].
        destruct (Nat.leb_spec 1 (span Chars.is_word s'')) as [Hle|Hgt].
        -- destruct (countdown_head _ _ Hle) as (l & -> & _).
           cbn [map fst snd pos]. f_equal. f_equal; [lia|].
           do 3 f_equal. lia.
        -- rewrite countdown_above by lia. reflexivity.
      * rewrite Hz. change (countdown 0 1) with (@nil nat). cbn [map].
        destruct (span (Chars.is_char "@") s'') as [|a'];
          cbn [drop_str Nat.eqb orb andb]; [|reflexivity].
        rewrite Hz. reflexivity.
    + cbn [flat_map fst snd drop_str Nat.eqb orb andb].
      rewrite matches_context_name, app_nil_r.
      destruct (Nat.leb_spec 1 (span Chars.is_word (String b s'')))
        as [Hle|Hgt].
      * destruct (countdown_head _ _ Hle) as (l & -> & _).
        cbn [map fst snd pos]. f_equal. f_equal; [lia|].
        do 3 f_equal. lia.
      * rewrite countdown_above by lia. reflexivity.
Qed.

(** A match of the pattern is a token read off the characters, and
    the other way round. *)
Lemma token_here_match (p : nat) (s : string) :
  match token_here s with
  | Some (len, name) =>
      exists m, match_at context_pattern (Cursor p s) = Some m
                /\ m_start m = p /\ m_end m = p + len
                /\ group m "context" = Some name
  | None => match_at context_pattern (Cursor p s) = None
  end.
Proof.
  rewrite context_pattern_run. unfold token_here. cbv zeta.
  destruct (_ && _ && _); [|reflexivity].
  eexists. split; [reflexivity|]. cbn [m_start m_end].
  split; [reflexivity|]. split; [lia|]. reflexivity.
Qed.

(** *** Tokens as pieces of the text *)

Lemma span_app_any (P : ascii -> bool) (ind tail : string) :
  all_of P ind = true -> starts_in P tail = false ->
  span P (ind +:+ tail) = String.length ind.
Proof.
  intros Hind Htail. induction ind as [|a ind IH].
  - destruct tail as [|c tail]; [reflexivity|]. simpl in *.
    now rewrite Htail.
  - simpl in Hind. apply andb_prop in Hind as [Ha Hind].
    change (String a ind +:+ tail) with (String a (ind +:+ tail)).
    simpl. rewrite Ha, (IH Hind). reflexivity.
Qed.

Lemma span_rest (P : ascii -> bool) (s : string) :
  starts_in P (drop_str (span P s) s) = false.
Proof.
  destruct (span_end P s) as [->|(c & s' & -> & Hc)]; [reflexivity|exact Hc].
Qed.

(** One or two [@]. *)
Lemma ats_cases (ats : string) :
  all_of (Chars.is_char "@") ats = true ->
  String.length ats = 1 \/ String.length ats = 2 ->
  ats = "@" \/ ats = "@@".
Proof.
  intros Hall Hlen.
  destruct ats as [|a [|b [|c ats]]]; simpl in Hlen; try lia.
  - left. cbn [all_of] in Hall. rewrite andb_true_r in Hall.
    apply Ascii.eqb_eq in Hall. now subst a.
  - right. cbn [all_of] in Hall. rewrite andb_true_r in Hall.
    apply andb_prop in Hall as [Ha Hb].
    apply Ascii.eqb_eq in Ha, Hb. now subst a b.
Qed.

Lemma nonempty_length (s : string) : s <> "" <-> 1 <= String.length s.
Proof. destruct s; simpl; split; try congruence; try lia. Qed.

(** The token at the head of a text, as a piece of the text. *)
Lemma token_here_shape (s : string) (len : nat) (name : string) :
  token_here s = Some (len, name) <->
  exists sp ats after,
    s = sp +:+ (ats +:+ (name +:+ after))
    /\ sp <> "" /\ all_of Chars.is_space sp = true
    /\ (ats = "@" \/ ats = "@@")
    /\ name <> "" /\ all_of Chars.is_word name = true
    /\ starts_in Chars.is_word after = false
    /\ len = String.length sp + String.length ats + String.length name.
Proof.
  unfold token_here. cbv zeta. split.
  - destruct (span_split Chars.is_space s) as (Hs & Hsp & Hk).
    set (k := span Chars.is_space s) in *.
    set (s1 := drop_str k s) in *.
    destruct (span_split (Chars.is_char "@") s1) as (Hs1 & Hat & Ha).
    set (a := span (Chars.is_char "@") s1) in *.
    set (s2 := drop_str a s1) in *.
    destruct (span_split Chars.is_word s2) as (Hs2 & Hw & Hn).
    pose proof (span_rest Chars.is_word s2) as Hafter.
    set (n := span Chars.is_word s2) in *.
    destruct (Nat.leb_spec 1 k) as [H1|]; [|discriminate].
    destruct (Nat.eqb a 1 || Nat.eqb a 2) eqn:H2; [|discriminate].
    destruct (Nat.leb_spec 1 n) as [H3|]; [|discriminate].
    cbn [andb]. intros [= <- <-].
    exists (take_str k s), (take_str a s1), (drop_str n s2).
    split; [rewrite <- Hs2, <- Hs1; exact Hs|].
    split; [apply nonempty_length; lia|]. split; [exact Hsp|].
    split.
    { apply ats_cases; [exact Hat|]. rewrite Ha.
      apply orb_prop in H2 as [H2|H2]; apply Nat.eqb_eq in H2; lia. }
    split; [apply nonempty_length; lia|]. split; [exact Hw|].
    split; [exact Hafter|]. lia.
  - intros (sp & ats & after & -> & Hne & Hsp & Hats & Hnn & Hw & Haft & ->).
    assert (Hat : all_of (Chars.is_char "@") ats = true
                  /\ (String.length ats = 1 \/ String.length ats = 2)
                  /\ starts_in Chars.is_space (ats +:+ (name +:+ after))
                     = false).
    { destruct Hats as [->| ->]; repeat split; auto. }
    destruct Hat as (Hat & Hlen & Hnsp).
    assert (Hnat : starts_in (Chars.is_char "@") (name +:+ after) = false).
    { destruct name as [|c name]; [congruence|]. cbn [all_of] in Hw.
      change (String c name +:+ after) with (String c (name +:+ after)).
      cbn [starts_in]. apply andb_prop in Hw as [Hc _].
      destruct (Chars.is_char "@" c) eqn:E; [|reflexivity].
      apply at_not_word in E. congruence. }
    rewrite (span_app_any _ _ _ Hsp Hnsp), drop_str_app.
    rewrite (span_app_any _ _ _ Hat Hnat), drop_str_app.
    rewrite (span_app_any _ _ _ Hw Haft), take_str_app.
    apply nonempty_length in Hne, Hnn.
    destruct (Nat.leb_spec 1 (String.length sp)); [|lia].
    destruct (Nat.leb_spec 1 (String.length name)); [|lia].
    assert (H2 : Nat.eqb (String.length ats) 1
                 || Nat.eqb (String.length ats) 2 = true).
    { destruct Hlen as [->| ->]; reflexivity. }
    rewrite H2. reflexivity.
Qed.

Lemma ends_in_take (P : ascii -> bool) (text : string) :
  forall q, q <= String.length text ->
    ends_in P (take_str q text)
    = match q with
      | O => false
      | S q' => starts_in P (drop_str q' text)
      end.
Proof.
  induction text as [|c text IH]; intros q Hq.
  - simpl in Hq. assert (q = 0) as -> by lia. reflexivity.
  - destruct q as [|q]; [reflexivity|]. simpl in Hq.
    cbn [take_str]. destruct q as [|q].
    + destruct text; reflexivity.
    + specialize (IH (S q) ltac:(lia)).
      destruct text as [|c' text]; [simpl in Hq; lia|].
      cbn [take_str] in IH |- *. cbn [ends_in].
      cbn [ends_in] in IH. rewrite IH. reflexivity.
Qed.

(** A context token, in terms of the offset alone. *)
Lemma context_token_iff (text : string) (q : nat) (name : string) :
  context_token text q name <->
  q <= String.length text /\ prev_space text q = false
  /\ exists len, token_here (drop_str q text) = Some (len, name).
Proof.
  unfold prev_space. split.
  - intros (before & sp & ats & after & Ht & Hq & Hend & Hrest).
    assert (Hdrop : drop_str q text = sp +:+ (ats +:+ (name +:+ after))).
    { rewrite Ht, <- Hq. apply drop_str_app. }
    assert (Hle : q <= String.length text).
    { rewrite Ht, app_length. lia. }
    split; [exact Hle|]. split.
    + rewrite <- (ends_in_take Chars.is_space text q Hle).
      rewrite Ht, <- Hq, take_str_app. exact Hend.
    + exists (String.length sp + String.length ats + String.length name).
      apply token_here_shape. exists sp, ats, after.
      split; [exact Hdrop|]. tauto.
  - intros (Hle & Hprev & len & Htok).
    apply token_here_shape in Htok.
    destruct Htok as (sp & ats & after & Hdrop & Hrest).
    exists (take_str q text), sp, ats, after.
    split; [rewrite <- Hdrop; symmetry; apply take_drop_str|].
    split; [apply take_str_length; exact Hle|].
    split; [rewrite ends_in_take by exact Hle; exact Hprev|].
    tauto.
Qed.

(** Inside a token: the run of whitespace it starts with is followed,
    up to its end, by characters that are no whitespace. *)
Lemma token_here_inside (s : string) (len : nat) (name : string) :
  token_here s = Some (len, name) ->
  1 <= span Chars.is_space s /\ span Chars.is_space s < len
  /\ len <= String.length s
  /\ forall i, span Chars.is_space s <= i < len ->
       starts_in Chars.is_space (drop_str i s) = false.
Proof.
  unfold token_here. cbv zeta.
  set (k := span Chars.is_space s).
  set (s1 := drop_str k s).
  set (a := span (Chars.is_char "@") s1).
  set (s2 := drop_str a s1).
  set (n := span Chars.is_word s2).
  destruct (Nat.leb_spec 1 k) as [H1|]; [|discriminate].
  destruct (Nat.eqb a 1 || Nat.eqb a 2) eqn:H2; [|discriminate].
  destruct (Nat.leb_spec 1 n) as [H3|]; [|discriminate].
  cbn [andb]. intros [= <- <-].
  assert (Ha : 1 <= a).
  { apply orb_prop in H2 as [H2|H2]; apply Nat.eqb_eq in H2; lia. }
  pose proof (span_le (Chars.is_char "@") s1) as La. fold a in La.
  pose proof (span_le Chars.is_word s2) as Ln. fold n in Ln.
  assert (L1 : String.length s1 = String.length s - k)
    by apply drop_str_length.
  assert (L2 : String.length s2 = String.length s1 - a)
    by apply drop_str_length.
  split; [exact H1|]. split; [lia|]. split; [lia|].
  intros i Hi.
  replace i with (k + (i - k)) by lia. rewrite <- drop_str_add. fold s1.
  destruct (Nat.lt_ge_cases (i - k) a) as [Hlt|Hge].
  - destruct (span_inside _ _ _ Hlt) as (c & s' & -> & Hc).
    simpl. now apply at_not_space.
  - replace (i - k) with (a + (i - k - a)) by lia.
    rewrite <- drop_str_add. fold s2.
    assert (Hlt : i - k - a < n) by lia.
    destruct (span_inside _ _ _ Hlt) as (c & s' & -> & Hc).
    simpl. destruct (Chars.is_space c) eqn:E; [|reflexivity].
    apply space_not_word in E. congruence.
Qed.

(** Whitespace before a token makes a longer token of the same
    name. *)
Lemma token_here_longer (c : ascii) (s : string) (len : nat)
    (name : string) :
  Chars.is_space c = true -> token_here s = Some (len, name) ->
  token_here (String c s) = Some (S len, name).
Proof.
  intros Hc. unfold token_here. cbv zeta. cbn [span]. rewrite Hc.
  cbn [drop_str].
  set (s1 := drop_str (span Chars.is_space s) s).
  set (a := span (Chars.is_char "@") s1).
  set (n := span Chars.is_word (drop_str a s1)).
  change (Nat.leb 1 (S (span Chars.is_space s))) with true.
  destruct (Nat.leb 1 (span Chars.is_space s)); cbn [andb];
    [|discriminate].
  destruct (Nat.eqb a 1 || Nat.eqb a 2); cbn [andb]; [|discriminate].
  destruct (Nat.leb 1 n); [|discriminate].
  intros [= <- <-]. reflexivity.
Qed.

(** *** The tokens that the scan finds *)

(** Matches that follow one another, none of them empty, lie one
    behind the other. *)
Lemma in_order_pairs (ms : list match_obj) :
  in_order ms ->
  (forall m, In m ms -> m_start m < m_end m) ->
  forall j i m m', i < j -> ms !! i = Some m -> ms !! j = Some m' ->
    m_end m <= m_start m'.
Proof.
  intros Hord Hne. induction j as [|j IH]; intros i m m' Hij Hi Hj; [lia|].
  destruct (Nat.eq_dec i j) as [->|Hneq].
  - exact (Hord j m m' Hi Hj).
  - assert (Hlt : j < length ms).
    { apply lookup_lt_Some in Hj. lia. }
    destruct (lookup_lt_is_Some_2 ms j Hlt) as [m'' Hm''].
    pose proof (IH i m m'' ltac:(lia) Hi Hm'') as H1.
    pose proof (Hord j m'' m' Hm'' Hj) as H2.
    assert (H3 : m_start m'' < m_end m'').
    { apply Hne, list_elem_of_In. eapply list_elem_of_lookup_2. exact Hm''. }
    lia.
Qed.

Lemma matches_apart (ms : list match_obj) (m m' : match_obj) :
  in_order ms ->
  (forall m, In m ms -> m_start m < m_end m) ->
  In m ms -> In m' ms ->
  m = m' \/ m_end m <= m_start m' \/ m_end m' <= m_start m.
Proof.
  intros Hord Hne Hm Hm'.
  apply list_elem_of_In, list_elem_of_lookup_1 in Hm, Hm'.
  destruct Hm as [i Hi]. destruct Hm' as [j Hj].
  destruct (Nat.lt_trichotomy i j) as [Hlt|[->|Hgt]].
  - right. left. exact (in_order_pairs ms Hord Hne j i m m' Hlt Hi Hj).
  - left. congruence.
  - right. right. exact (in_order_pairs ms Hord Hne i j m' m Hgt Hj Hi).
Qed.

Lemma starts_in_drop (P : ascii -> bool) (s : string) (i : nat) :
  starts_in P (drop_str i s) = true ->
  exists c, drop_str i s = String c (drop_str (S i) s) /\ P c = true.
Proof.
  intros H. destruct (drop_str i s) as [|c r] eqn:E; [discriminate|].
  exists c. split; [|exact H]. f_equal.
  replace (S i) with (i + 1) by lia. rewrite <- drop_str_add, E.
  reflexivity.
Qed.

(** What [finditer] reports for the pattern of contexts: the tokens
    that start a whole run of whitespace, each of them, from left to
    right. *)
Lemma finditer_context_tokens (text : string) :
  let tokens := re_finditer context_pattern text in
  (forall m, In m tokens ->
     m_start m <= String.length text
     /\ prev_space text (m_start m) = false
     /\ exists len name,
          token_here (drop_str (m_start m) text) = Some (len, name)
          /\ group m "context" = Some name)
  /\ (forall q len name,
        q <= String.length text -> prev_space text q = false ->
        token_here (drop_str q text) = Some (len, name) ->
        exists m, In m tokens /\ m_start m = q
                  /\ group m "context" = Some name)
  /\ (forall i j m m', i < j ->
        tokens !! i = Some m -> tokens !! j = Some m' ->
        m_start m < m_start m').
Proof.
  intros tokens.
  destruct (re_finditer_spec context_pattern text context_token_nonempty)
    as (Ha & Hb & Hc).
  fold tokens in Ha, Hb, Hc.
  assert (Hne : forall m, In m tokens -> m_start m < m_end m).
  { intros m Hm. exact (context_token_nonempty _ _ (Ha m Hm)). }
  assert (Htok : forall m, In m tokens ->
            exists len name,
              token_here (drop_str (m_start m) text) = Some (len, name)
              /\ m_end m = m_start m + len
              /\ group m "context" = Some name).
  { intros m Hm. pose proof (Ha m Hm) as Hat. unfold match_from in Hat.
    pose proof (token_here_match (m_start m) (drop_str (m_start m) text))
      as Hh.
    destruct (token_here (drop_str (m_start m) text)) as [[len name]|].
    - destruct Hh as (m0 & H0 & _ & He & Hg).
      rewrite Hat in H0. injection H0 as <-. exists len, name. auto.
    - rewrite Hat in Hh. discriminate. }
  assert (Hsome : forall q len name,
            token_here (drop_str q text) = Some (len, name) ->
            match_from context_pattern text q <> None).
  { intros q len name Hq. unfold match_from.
    pose proof (token_here_match q (drop_str q text)) as Hh.
    rewrite Hq in Hh. destruct Hh as (m0 & -> & _). discriminate. }
  split; [|split].
  - intros m Hm.
    destruct (Htok m Hm) as (len & name & Hh & He & Hg).
    pose proof (token_here_inside _ _ _ Hh) as (Hk1 & Hk2 & Hlen & Hin).
    rewrite drop_str_length in Hlen.
    split; [lia|]. split; [|exists len, name; auto].
    unfold prev_space. destruct (m_start m) as [|q0] eqn:Eq; [reflexivity|].
    destruct (starts_in Chars.is_space (drop_str q0 text)) eqn:Esp;
      [|reflexivity].
    exfalso.
    destruct (starts_in_drop _ _ _ Esp) as (c & Hd & Hcsp).
    pose proof (token_here_longer c _ _ _ Hcsp Hh) as Hlong.
    rewrite <- Hd in Hlong.
    destruct (Hc q0 ltac:(lia) (Hsome _ _ _ Hlong)) as (m' & Hm' & Hr).
    destruct (matches_apart tokens m m' Hb Hne Hm Hm') as [->|[Hd1|Hd2]].
    + lia.
    + pose proof (Hne m Hm). lia.
    + destruct (Htok m' Hm') as (len' & name' & Hh' & He' & _).
      pose proof (token_here_inside _ _ _ Hh') as (Hk1' & Hk2' & _ & Hin').
      specialize (Hin' (q0 - m_start m') ltac:(lia)).
      rewrite drop_str_add in Hin'.
      replace (m_start m' + (q0 - m_start m')) with q0 in Hin' by lia.
      congruence.
  - intros q len name Hq Hprev Hh.
    destruct (Hc q Hq (Hsome _ _ _ Hh)) as (m & Hm & Hr).
    exists m. split; [exact Hm|].
    destruct (Htok m Hm) as (len' & name' & Hh' & He' & Hg').
    destruct (Nat.eq_dec (m_start m) q) as [Heq|Hneq].
    + split; [exact Heq|]. rewrite Heq, Hh in Hh'.
      injection Hh' as <- <-. exact Hg'.
    + exfalso.
      pose proof (token_here_inside _ _ _ Hh) as (Hk1 & _).
      pose proof (token_here_inside _ _ _ Hh') as (_ & _ & _ & Hin').
      destruct (span_inside Chars.is_space (drop_str q text) 0 Hk1)
        as (c0 & r0 & Hd0 & Hc0).
      rewrite drop_str_0 in Hd0.
      destruct (Nat.le_gt_cases
                  (span Chars.is_space (drop_str (m_start m) text))
                  (q - m_start m)) as [Hle|Hgt].
      * specialize (Hin' (q - m_start m) ltac:(lia)).
        rewrite drop_str_add in Hin'.
        replace (m_start m + (q - m_start m)) with q in Hin' by lia.
        rewrite Hd0 in Hin'. simpl in Hin'. congruence.
      * assert (Hlt : q - m_start m - 1
                      < span Chars.is_space (drop_str (m_start m) text))
          by lia.
        destruct (span_inside _ _ _ Hlt) as (c1 & r1 & Hd1 & Hc1).
        rewrite drop_str_add in Hd1.
        unfold prev_space in Hprev.
        destruct q as [|q']; [lia|].
        replace (m_start m + (S q' - m_start m - 1)) with q' in Hd1 by lia.
        rewrite Hd1 in Hprev. simpl in Hprev. congruence.
  - intros i j m m' Hij Hi Hj.
    pose proof (in_order_pairs tokens Hb Hne j i m m' Hij Hi Hj) as Hle.
    assert (Hm : In m tokens).
    { apply list_elem_of_In. eapply list_elem_of_lookup_2. exact Hi. }
    pose proof (Hne m Hm). lia.
Qed.

(** *** Pieces cut out of a text *)

Lemma without_skip (here : string -> option nat) (s : string) :
  forall k, k <= String.length s ->
    without here k s = without here 0 (drop_str k s).
Proof.
  induction s as [|c s IH]; intros k Hk.
  - simpl in Hk. assert (k = 0) as -> by lia. reflexivity.
  - destruct k as [|k]; [reflexivity|]. simpl in Hk.
    cbn [without drop_str]. apply IH. lia.
Qed.

(** Where a search finds its match. *)
Lemma search_from_found (r : regex) (s : string) :
  forall p m, search_from r p s = Some m ->
    exists j, j <= String.length s
              /\ match_at r (Cursor (p + j) (drop_str j s)) = Some m.
Proof.
  induction s as [|c s IH]; intros p m; cbn [search_from].
  - destruct (match_at r (Cursor p "")) as [m0|] eqn:E; [|discriminate].
    intros [= <-]. exists 0. rewrite Nat.add_0_r. split; [lia|exact E].
  - destruct (match_at r (Cursor p (String c s))) as [m0|] eqn:E.
    + intros [= <-]. exists 0. rewrite Nat.add_0_r. split; [simpl; lia|].
      exact E.
    + intros H. apply IH in H. destruct H as (j & Hj & Hm).
      exists (S j). split; [simpl; lia|].
      replace (p + S j) with (S p + j) by lia. exact Hm.
Qed.

Lemma search_from_nowhere (r : regex) (s : string) :
  forall p,
    (forall j, match_at r (Cursor (p + j) (drop_str j s)) = None) ->
    search_from r p s = None.
Proof.
  induction s as [|c s IH]; intros p H; cbn [search_from].
  - specialize (H 0). rewrite Nat.add_0_r in H. cbn [drop_str] in H.
    now rewrite H.
  - pose proof (H 0) as H0. rewrite Nat.add_0_r in H0.
    cbn [drop_str] in H0. rewrite H0. apply IH. intros j.
    specialize (H (S j)). replace (p + S j) with (S p + j) in H by lia.
    exact H.
Qed.

Lemma search_from_head (r : regex) (s : string) (p : nat) (m : match_obj) :
  match_at r (Cursor p s) = Some m -> search_from r p s = Some m.
Proof. intros H. destruct s; cbn [search_from]; now rewrite H. Qed.

(** [re.sub(r, '', s)] for a pattern whose matches are read off the
    characters at the cursor by [here], and are not empty: the pieces
    found in a scan from left to right are left out. *)
Lemma sub_without (r : regex) (here : string -> option nat) :
  (forall p s,
     match here s with
     | Some n =>
         1 <= n <= String.length s
         /\ exists m, match_at r (Cursor p s) = Some m /\ m_end m = p + n
     | None => match_at r (Cursor p s) = None
     end) ->
  forall text, re_sub_empty r text = without here 0 text.
Proof.
  intros Hhere text. unfold re_sub_empty, re_finditer.
  assert (H : forall n s, String.length s <= n ->
            forall fuel p, String.length s < fuel ->
              cut (scan fuel r p s) p s = without here 0 s).
  { induction n as [|n IH]; intros s Hn fuel p Hfuel;
      (destruct fuel as [|fuel]; [lia|]).
    - destruct s as [|c s]; [|simpl in Hn; lia].
      cbn [scan search_from]. pose proof (Hhere p "") as Hh.
      destruct (here "") as [n0|]; [simpl in Hh; lia|].
      rewrite Hh. reflexivity.
    - destruct s as [|c s].
      + cbn [scan search_from]. pose proof (Hhere p "") as Hh.
        destruct (here "") as [n0|]; [simpl in Hh; lia|].
        rewrite Hh. reflexivity.
      + simpl in Hn. cbn [scan]. cbn [without].
        pose proof (Hhere p (String c s)) as Hh.
        destruct (here (String c s)) as [n0|] eqn:Eh.
        * destruct Hh as ((Hn1 & Hn2) & m & Hm & He).
          rewrite (search_from_head _ _ _ _ Hm).
          pose proof (match_at_start _ _ _ Hm) as [Hst _]. cbn [pos] in Hst.
          rewrite Hst, He.
          destruct (Nat.ltb_spec p (p + n0)); [|lia].
          replace (p + n0 - p) with n0 by lia.
          destruct (Nat.leb_spec n0 (String.length (String c s))); [|lia].
          cbn [cut]. rewrite Hst, He.
          replace (p - p) with 0 by lia.
          replace (p + n0 - p) with n0 by lia.
          destruct n0 as [|n0']; [lia|].
          cbn [take_str drop_str]. simpl in Hn2.
          rewrite (IH (drop_str n0' s)).
          -- cbn [String.append]. symmetry. apply without_skip. lia.
          -- rewrite drop_str_length. lia.
          -- rewrite drop_str_length. simpl in Hfuel. lia.
        * cbn [search_from]. rewrite Hh.
          specialize (IH s ltac:(lia) (S fuel) (S p)
                         ltac:(simpl in Hfuel; lia)).
          cbn [scan] in IH. rewrite <- IH.
          destruct (search_from r (S p) s) as [m|] eqn:Es; [|reflexivity].
          destruct (search_from_found _ _ _ _ Es) as (j & Hj & Hm).
          pose proof (match_at_start _ _ _ Hm) as [Hst _]. cbn [pos] in Hst.
          pose proof (Hhere (S p + j) (drop_str j s)) as Hj'.
          destruct (here (drop_str j s)) as [n1|];
            [|rewrite Hm in Hj'; discriminate].
          destruct Hj' as ((Hn1 & Hn2) & m1 & Hm1 & He).
          rewrite Hm in Hm1. injection Hm1 as <-.
          rewrite Hst, He.
          destruct (Nat.ltb_spec (S p + j) (S p + j + n1)); [|lia].
          replace (S p + j + n1 - p) with (S (S p + j + n1 - S p)) by lia.
          cbn [String.length Nat.leb drop_str cut].
          rewrite Hst, He.
          replace (S p + j - p) with (S (S p + j - S p)) by lia.
          replace (S p + j + n1 - p) with (S (S p + j + n1 - S p)) by lia.
          cbn [take_str drop_str]. reflexivity. }
  apply (H (String.length text)); lia.
Qed.

Lemma without_nothing (here : string -> option nat) (s : string) :
  (forall q, here (drop_str q s) = None) -> without here 0 s = s.
Proof.
  induction s as [|c s IH]; intros H; [reflexivity|].
  cbn [without]. pose proof (H 0) as H0. cbn [drop_str] in H0.
  rewrite H0. f_equal. apply IH. intros q. exact (H (S q)).
Qed.

(** The pattern of single-[@] contexts, in terms of the runs of
    characters at the cursor. *)
Lemma single_context_run (p : nat) (s : string) :
  match single_context_here s with
  | Some n =>
      1 <= n <= String.length s
      /\ exists m, match_at (cat [plus ws; chr "@"; plus word]) (Cursor p s)
                   = Some m /\ m_end m = p + n
  | None => match_at (cat [plus ws; chr "@"; plus word]) (Cursor p s) = None
  end.
Proof.
  unfold single_context_here, match_at. cbv zeta.
  change (cat [plus ws; chr "@"; plus word])
    with (Seq (Rep (Cls Chars.is_space) 1 None)
            (Seq (Cls (Chars.is_char "@"))
                 (Rep (Cls Chars.is_word) 1 None))).
  rewrite seq_rep_class.
  2:{ intros k Hk. rewrite matches_seq, matches_cls.
      destruct (span_inside _ _ _ (proj2 Hk)) as (c & s' & -> & Hc).
      destruct (Chars.is_char "@" c) eqn:E; [|reflexivity].
      apply at_not_space in E. congruence. }
  pose proof (drop_str_length (span Chars.is_space s) s) as Hlen.
  pose proof (span_le Chars.is_space s) as Hk.
  destruct (drop_str (span Chars.is_space s) s) as [|a w].
  - destruct (Nat.leb 1 (span Chars.is_space s)); reflexivity.
  - destruct (Nat.leb_spec 1 (span Chars.is_space s)) as [H1|];
      [|reflexivity].
    cbn [andb]. rewrite matches_seq, matches_cls.
    change (Ascii.eqb "@" a) with (Chars.is_char "@" a).
    destruct (Chars.is_char "@" a); [|reflexivity].
    cbn [flat_map fst snd andb]. rewrite app_nil_r, matches_rep_class.
    pose proof (span_le Chars.is_word w) as Hw.
    destruct (Nat.leb_spec 1 (span Chars.is_word w)) as [H3|].
    + destruct (countdown_head _ _ H3) as (l & -> & _).
      cbn [map]. simpl in Hlen. split; [lia|].
      eexists. split; [reflexivity|]. cbn [m_end pos]. lia.
    + rewrite countdown_above by lia. reflexivity.
Qed.

Lemma double_at_run (p : nat) (s : string) :
  match double_at_here s with
  | Some n =>
      1 <= n <= String.length s
      /\ exists m, match_at (lit "@@") (Cursor p s) = Some m
                   /\ m_end m = p + n
  | None => match_at (lit "@@") (Cursor p s) = None
  end.
Proof.
  unfold double_at_here, match_at.
  rewrite (matches_lit "@@") by discriminate.
  destruct (starts_with "@@" s) eqn:E; [|reflexivity].
  split.
  - destruct s as [|a [|b s]]; simpl in E; try discriminate.
    + rewrite andb_false_r in E. discriminate.
    + simpl. lia.
  - eexists. split; [reflexivity|]. reflexivity.
Qed.

(** The first two passes of [parse_and_strip_contexts] over the text,
    character by character. *)
Lemma strip_single_contexts_chars (text : string) :
  strip_single_contexts text = without single_context_here 0 text.
Proof. apply sub_without. intros p s. apply single_context_run. Qed.

Lemma unlabel_chars (text : string) :
  unlabel text = without double_at_here 0 text.
Proof. apply sub_without. intros p s. apply double_at_run. Qed.

(** *** The list marker at the start of the line *)

Lemma list_marker_not_space (c : ascii) :
  list_marker c = true -> Chars.is_space c = false.
Proof.
  unfold list_marker, Chars.one_of. cbn [existsb]. intros H.
  repeat (apply orb_prop in H as [H|H];
          [apply Ascii.eqb_eq in H; subst c; reflexivity|]).
  discriminate.
Qed.

(** The pattern of the list marker matches at the start of the text
    only, and takes all the whitespace on both sides of the marker. *)
Lemma marker_run (p : nat) (s : string) :
  match_at (cat [Bol; star ws; Cls list_marker; star ws]) (Cursor p s)
  = if Nat.eqb p 0 then
      match drop_str (span Chars.is_space s) s with
      | String c r =>
          if list_marker c
          then Some (Match p (p + span Chars.is_space s + 1
                              + span Chars.is_space r) [])
          else None
      | EmptyString => None
      end
    else None.
Proof.
  unfold match_at.
  change (cat [Bol; star ws; Cls list_marker; star ws])
    with (Seq Bol
            (Seq (Rep (Cls Chars.is_space) 0 None)
               (Seq (Cls list_marker) (Rep (Cls Chars.is_space) 0 None)))).
  rewrite matches_seq.
  change (matches Bol (Cursor p s) [])
    with (if Nat.eqb p 0 then [(Cursor p s, @nil capture)] else []).
  destruct (Nat.eqb p 0); [|reflexivity].
  cbn [flat_map fst snd]. rewrite app_nil_r, seq_rep_class.
  2:{ intros k Hk. rewrite matches_seq, matches_cls.
      destruct (span_inside _ _ _ (proj2 Hk)) as (c & s' & -> & Hc).
      destruct (list_marker c) eqn:E; [|reflexivity].
      apply list_marker_not_space in E. congruence. }
  change (Nat.leb 0 (span Chars.is_space s)) with true. cbv iota.
  rewrite matches_seq, matches_cls.
  destruct (drop_str (span Chars.is_space s) s) as [|c r]; [reflexivity|].
  destruct (list_marker c); [|reflexivity].
  cbn [flat_map fst snd]. rewrite app_nil_r, matches_rep_class.
  destruct (countdown_head (span Chars.is_space r) 0 (Nat.le_0_l _))
    as (l & -> & _).
  cbn [map pos]. do 2 f_equal. lia.
Qed.

(** The last pass of [parse_and_strip_contexts], character by
    character. *)
Lemma strip_list_marker_chars (text : string) :
  strip_list_marker text = strip_leading_marker text.
Proof.
  unfold strip_list_marker, strip_leading_marker, re_sub_empty, re_finditer.
  cbn [scan].
  pose proof (marker_run 0 text) as H0. cbn [Nat.eqb] in H0.
  assert (Hlater : forall e j,
            1 <= e ->
            match_at (cat [Bol; star ws; Cls list_marker; star ws])
                     (Cursor (e + j) (drop_str j (drop_str e text))) = None).
  { intros e j He. rewrite marker_run.
    destruct (Nat.eqb_spec (e + j) 0); [lia|reflexivity]. }
  assert (Hnone :
            match_at (cat [Bol; star ws; Cls list_marker; star ws])
                     (Cursor 0 text) = None ->
            search_from (cat [Bol; star ws; Cls list_marker; star ws]) 0 text
            = None).
  { intros Hn. apply search_from_nowhere. intros [|j].
    - exact Hn.
    - rewrite marker_run. reflexivity. }
  pose proof (drop_str_length (span Chars.is_space text) text) as Hlen.
  pose proof (span_le Chars.is_space text) as Hk.
  destruct (drop_str (span Chars.is_space text) text) as [|c r] eqn:Ed.
  - rewrite (Hnone H0). reflexivity.
  - destruct (list_marker c); [|rewrite (Hnone H0); reflexivity].
    rewrite (search_from_head _ _ _ _ H0). cbn [m_start m_end].
    pose proof (span_le Chars.is_space r) as Hr. simpl in Hlen.
    set (e := 0 + span Chars.is_space text + 1 + span Chars.is_space r).
    assert (He : 1 <= e <= String.length text) by (unfold e; lia).
    destruct (Nat.ltb_spec 0 e); [|lia].
    replace (e - 0) with e by lia.
    destruct (Nat.leb_spec e (String.length text)); [|lia].
    assert (Hrest : drop_str e text = drop_str (span Chars.is_space r) r).
    { unfold e.
      replace (0 + span Chars.is_space text + 1 + span Chars.is_space r)
        with (span Chars.is_space text + S (span Chars.is_space r)) by lia.
      rewrite <- drop_str_add, Ed. reflexivity. }
    destruct (String.length text) as [|fuel]; [lia|].
    cbn [scan].
    rewrite (search_from_nowhere _ (drop_str e text) e)
      by (intros j; apply Hlater; lia).
    cbn [cut m_start m_end]. replace (0 - 0) with 0 by lia.
    replace (e - 0) with e by lia.
    rewrite Hrest. destruct text; reflexivity.
Qed.

(** *** The contexts of a line *)

Lemma omap_default {A B : Type} (f : A -> option B) (d : B) (l : list A) :
  (forall x, In x l -> exists y, f x = Some y) ->
  omap f l = map (fun x => default d (f x)) l.
Proof.
  induction l as [|x l IH]; intros H; [reflexivity|].
  destruct (H x) as [y Hy]; [left; reflexivity|].
  simpl. rewrite Hy. simpl. f_equal. apply IH. intros x' Hx'. apply H.
  right. exact Hx'.
Qed.

Lemma map_lookup_Some {A B : Type} (f : A -> B) (l : list A) :
  forall i y, map f l !! i = Some y ->
    exists x, l !! i = Some x /\ y = f x.
Proof.
  induction l as [|x l IH]; intros i y H; [destruct i; discriminate|].
  destruct i as [|i]; simpl in H.
  - injection H as <-. exists x. split; reflexivity.
  - apply IH, H.
Qed.

(** C5, as amended: [parse_and_strip_contexts] returns the names of
    the context tokens of the line, each of them, in the order in
    which they stand, a token being a whole run of whitespace, one or
    two [@] and the longest run of word characters behind them, which
    is not empty.  The text it returns is the line without its
    single-[@] contexts, then without every [@@], then without the
    whitespace and the list marker that lead it; so the name of a
    token with two [@] stays.  A line with no token and no [@@] comes
    back with the leading list marker stripped and with no contexts. *)
Theorem contexts_in_order (text : string) :
  let result := parse_and_strip_contexts text in
  (exists toks : list (nat * string),
     snd result = map snd toks
     /\ (forall q name, In (q, name) toks <-> context_token text q name)
     /\ (forall i j a b, i < j ->
           toks !! i = Some a -> toks !! j = Some b -> fst a < fst b))
  /\ fst result
     = strip_leading_marker
         (without double_at_here 0 (without single_context_here 0 text))
  /\ ((forall q name, ~ context_token text q name) ->
      ~ contains "@@" text ->
      result = (strip_leading_marker text, [])).
Proof.
  intros result.
  destruct (finditer_context_tokens text) as (Hsound & Hall & Hsorted).
  set (tokens := re_finditer context_pattern text) in *.
  assert (Hnamed : forall m, In m tokens ->
            exists name, group m "context" = Some name).
  { intros m Hm. destruct (Hsound m Hm) as (_ & _ & len & name & _ & Hg).
    exists name. exact Hg. }
  split; [|split].
  - exists (map (fun m => (m_start m, default "" (group m "context")))
                tokens).
    split; [|split].
    + unfold result, parse_and_strip_contexts. cbn [snd]. fold tokens.
      rewrite map_map. cbn [snd]. apply omap_default. exact Hnamed.
    + intros q name. rewrite context_token_iff, in_map_iff. split.
      * intros (m & [= <- <-] & Hm).
        destruct (Hsound m Hm) as (Hle & Hprev & len & name & Hh & Hg).
        split; [exact Hle|]. split; [exact Hprev|].
        exists len. rewrite Hg. exact Hh.
      * intros (Hle & Hprev & len & Hh).
        destruct (Hall q len name Hle Hprev Hh) as (m & Hm & Hq & Hg).
        exists m. split; [|exact Hm]. rewrite Hq, Hg. reflexivity.
    + intros i j a b Hij Ha Hb.
      apply map_lookup_Some in Ha, Hb.
      destruct Ha as (m & Hm & ->). destruct Hb as (m' & Hm' & ->).
      cbn [fst]. exact (Hsorted i j m m' Hij Hm Hm').
  - unfold result, parse_and_strip_contexts. cbn [fst].
    change (strip_list_marker (unlabel (strip_single_contexts text))
            = strip_leading_marker
                (without double_at_here 0
                   (without single_context_here 0 text))).
    rewrite strip_list_marker_chars, unlabel_chars,
      strip_single_contexts_chars.
    reflexivity.
  - intros Hno Hat.
    assert (Hnil : tokens = []).
    { destruct tokens as [|m ms] eqn:E; [reflexivity|]. exfalso.
      destruct (Hsound m) as (Hle & Hprev & len & name & Hh & _);
        [left; reflexivity|].
      apply (Hno (m_start m) name), context_token_iff.
      split; [exact Hle|]. split; [exact Hprev|]. exists len. exact Hh. }
    apply re_finditer_nil in Hnil.
    assert (Hsingle :
              re_search (cat [plus ws; chr "@"; plus word]) text = None).
    { destruct (re_search (cat [plus ws; chr "@"; plus word]) text)
        as [m|] eqn:E; [|reflexivity].
      exfalso. unfold re_search in E. rewrite <- (drop_str_0 text) in E.
      apply (search_from_some _ text _ 0 m eq_refl) in E.
      destruct E as (q & _ & Hq & Hm & _).
      apply (single_context_is_token (Cursor q (drop_str q text))).
      - unfold match_from in Hm. rewrite Hm. discriminate.
      - unfold re_search in Hnil. rewrite <- (drop_str_0 text) in Hnil.
        apply (search_from_none _ text _ 0 eq_refl Hnil). lia. }
    assert (Hdouble : re_search (lit "@@") text = None).
    { apply no_double_at. intros before after E. apply Hat.
      exists before, after. exact E. }
    unfold result, parse_and_strip_contexts.
    rewrite (re_finditer_none _ _ Hnil).
    rewrite (re_sub_empty_none _ _ Hsingle).
    rewrite (re_sub_empty_none _ _ Hdouble).
    cbn [omap]. f_equal. apply strip_list_marker_chars.
Qed.

(** A line with a token of each kind: both names are returned, and
    the name of the token with two [@] is still in the text. *)
Lemma contexts_in_order_witness :
  In "phone" (snd (parse_and_strip_contexts "- call mom @phone @@home"))
  /\ In "home" (snd (parse_and_strip_contexts "- call mom @phone @@home"))
  /\ fst (parse_and_strip_contexts "- call mom @phone @@home")
     = "call mom home".
Proof.
  destruct (contexts_in_order "- call mom @phone @@home")
    as ((toks & Hn & Hiff & _) & Ht & _).
  split; [|split].
  - rewrite Hn. apply in_map_iff. exists (10, "phone").
    split; [reflexivity|]. apply Hiff.
    exists "- call mom", " ", "@", " @@home".
    repeat split; try reflexivity; try discriminate. left. reflexivity.
  - rewrite Hn. apply in_map_iff. exists (17, "home").
    split; [reflexivity|]. apply Hiff.
    exists "- call mom @phone", " ", "@@", "".
    repeat split; try reflexivity; try discriminate. right. reflexivity.
  - rewrite Ht. vm_compute. reflexivity.
Defined.
